(** * The fault-tolerant JSON scanner and parser of [src/support/utils/json.ts]

    A shallow embedding of [createScanner], [visit], [parse] and
    [getNodeType], followed by the properties of the specification that
    concern them.

    Conventions.
    - A JavaScript string is the list of its UTF-16 code units ([jsstring]).
    - [text.charCodeAt(p)] is [charCodeAt text p : option Z]; [None] stands
      for the [NaN] returned out of range, for which every comparison of the
      source is false.
    - Offsets are natural numbers.  The only subtraction that can go below
      zero in the source is [pos - 1] in the comment scanner, whose result is
      only passed to [substring], which clamps negative arguments to zero
      exactly as the truncated subtraction does.
    - Loops that advance one character per iteration are written by
      structural recursion on the text that remains; the other loops carry
      an explicit budget of iterations. *)

From Stdlib Require Import String Ascii List ZArith Lia Bool Arith.
Import ListNotations.

Set Implicit Arguments.
Set Warnings "-register-all".

(** ** Strings *)

Definition jsstring := list Z.

Definition charCodeAt (text : jsstring) (p : nat) : option Z := nth_error text p.

(** [text.substring(a, b)]: the arguments are swapped when [a > b] and
    clamped to the length of the text. *)
Definition substring (text : jsstring) (a b : nat) : jsstring :=
  firstn (Nat.max a b - Nat.min a b) (skipn (Nat.min a b) text).

(** [String.fromCharCode(c)]; [NaN] is converted to the code unit 0. *)
Definition fromCharCode (c : option Z) : jsstring :=
  match c with Some z => [z] | None => [0%Z] end.

Fixpoint jsstring_eqb (a b : jsstring) : bool :=
  match a, b with
  | [], [] => true
  | x :: a', y :: b' => Z.eqb x y && jsstring_eqb a' b'
  | _, _ => false
  end.

(** [c === k] for a char code [c] that may be [NaN]. *)
Definition is_code (c : option Z) (k : Z) : bool :=
  match c with Some z => Z.eqb z k | None => false end.

(** A predicate on char codes applied to a value that may be [NaN]. *)
Definition on_code (p : Z -> bool) (c : option Z) : bool :=
  match c with Some z => p z | None => false end.

(** Text literals of this file: the code units of an ASCII string, where an
    apostrophe stands for the double quote (code 0x22). *)
Fixpoint js (s : string) : jsstring :=
  match s with
  | EmptyString => []
  | String c s' =>
      (if Ascii.eqb c "'"%char then 34%Z else Z.of_N (N_of_ascii c)) :: js s'
  end.

(** ** Enumerations *)

Module ScanError.
Inductive t :=
| None
| UnexpectedEndOfComment
| UnexpectedEndOfString
| UnexpectedEndOfNumber
| InvalidUnicode
| InvalidEscapeCharacter
| InvalidCharacter.
End ScanError.

Module SyntaxKind.
Inductive t :=
| OpenBraceToken
| CloseBraceToken
| OpenBracketToken
| CloseBracketToken
| CommaToken
| ColonToken
| NullKeyword
| TrueKeyword
| FalseKeyword
| StringLiteral
| NumericLiteral
| LineCommentTrivia
| BlockCommentTrivia
| LineBreakTrivia
| Trivia
| Unknown
| EOF.

Definition code (k : t) : Z :=
  match k with
  | OpenBraceToken => 1 | CloseBraceToken => 2 | OpenBracketToken => 3
  | CloseBracketToken => 4 | CommaToken => 5 | ColonToken => 6
  | NullKeyword => 7 | TrueKeyword => 8 | FalseKeyword => 9
  | StringLiteral => 10 | NumericLiteral => 11 | LineCommentTrivia => 12
  | BlockCommentTrivia => 13 | LineBreakTrivia => 14 | Trivia => 15
  | Unknown => 16 | EOF => 17
  end%Z.

Definition eqb (a b : t) : bool := Z.eqb (code a) (code b).
End SyntaxKind.

Module ParseErrorCode.
Inductive t :=
| InvalidSymbol
| InvalidNumberFormat
| PropertyNameExpected
| ValueExpected
| ColonExpected
| CommaExpected
| CloseBraceExpected
| CloseBracketExpected
| EndOfFileExpected
| InvalidCommentToken
| UnexpectedEndOfComment
| UnexpectedEndOfString
| UnexpectedEndOfNumber
| InvalidUnicode
| InvalidEscapeCharacter
| InvalidCharacter.
End ParseErrorCode.

Module CharacterCodes.
Local Open Scope Z_scope.
Definition lineFeed := 0x0A.
Definition carriageReturn := 0x0D.
Definition lineSeparator := 0x2028.
Definition paragraphSeparator := 0x2029.
Definition space := 0x0020.
Definition nonBreakingSpace := 0x00A0.
Definition enQuad := 0x2000.
Definition zeroWidthSpace := 0x200B.
Definition narrowNoBreakSpace := 0x202F.
Definition ideographicSpace := 0x3000.
Definition mathematicalSpace := 0x205F.
Definition ogham := 0x1680.
Definition _0 := 0x30.
Definition _9 := 0x39.
Definition a := 0x61.
Definition b := 0x62.
Definition e := 0x65.
Definition f := 0x66.
Definition n := 0x6E.
Definition r := 0x72.
Definition t := 0x74.
Definition u := 0x75.
Definition A := 0x41.
Definition E := 0x45.
Definition F := 0x46.
Definition asterisk := 0x2A.
Definition backslash := 0x5C.
Definition closeBrace := 0x7D.
Definition closeBracket := 0x5D.
Definition colon := 0x3A.
Definition comma := 0x2C.
Definition dot := 0x2E.
Definition doubleQuote := 0x22.
Definition minus := 0x2D.
Definition openBrace := 0x7B.
Definition openBracket := 0x5B.
Definition plus := 0x2B.
Definition slash := 0x2F.
Definition backspace := 0x08.
Definition formFeed := 0x0C.
Definition byteOrderMark := 0xFEFF.
Definition tab := 0x09.
Definition verticalTab := 0x0B.
End CharacterCodes.

Module CC := CharacterCodes.

(** ** Character classes *)

Section CharacterClasses.
Local Open Scope Z_scope.
Import CharacterCodes.

Definition isWhitespace (ch : Z) : bool :=
  (ch =? space) || (ch =? tab) || (ch =? verticalTab) || (ch =? formFeed)
  || (ch =? nonBreakingSpace) || (ch =? ogham)
  || ((enQuad <=? ch) && (ch <=? zeroWidthSpace))
  || (ch =? narrowNoBreakSpace) || (ch =? mathematicalSpace)
  || (ch =? ideographicSpace) || (ch =? byteOrderMark).

Definition isLineBreak (ch : Z) : bool :=
  (ch =? lineFeed) || (ch =? carriageReturn) || (ch =? lineSeparator)
  || (ch =? paragraphSeparator).

Definition isDigit (ch : Z) : bool := (_0 <=? ch) && (ch <=? _9).

Definition isUnknownContentCharacter (code : Z) : bool :=
  if isWhitespace code || isLineBreak code then false
  else if (code =? closeBrace) || (code =? closeBracket) || (code =? openBrace)
          || (code =? openBracket) || (code =? doubleQuote) || (code =? colon)
          || (code =? comma) || (code =? slash)
  then false
  else true.
End CharacterClasses.

(** The number of leading characters of [l] that satisfy [p]: the iteration
    count of a loop [while (pos < len && p(text.charCodeAt(pos))) pos++]
    started where [l] begins. *)
Fixpoint countWhile (p : Z -> bool) (l : jsstring) : nat :=
  match l with
  | c :: l' => if p c then S (countWhile p l') else 0
  | [] => 0
  end.

(** ** The scanner *)

Module Scanner.

(** The mutable variables of the closure returned by [createScanner]. *)
Record t := mk {
  pos : nat;
  value : jsstring;
  tokenOffset : nat;
  token : SyntaxKind.t;
  scanError : ScanError.t
}.

Definition set_pos (s : t) (p : nat) : t :=
  mk p (value s) (tokenOffset s) (token s) (scanError s).
Definition set_value (s : t) (v : jsstring) : t :=
  mk (pos s) v (tokenOffset s) (token s) (scanError s).
Definition set_tokenOffset (s : t) (o : nat) : t :=
  mk (pos s) (value s) o (token s) (scanError s).
Definition set_token (s : t) (k : SyntaxKind.t) : t :=
  mk (pos s) (value s) (tokenOffset s) k (scanError s).
Definition set_scanError (s : t) (e : ScanError.t) : t :=
  mk (pos s) (value s) (tokenOffset s) (token s) e.

(** The state in which [createScanner] leaves the variables. *)
Definition initial : t := mk 0 [] 0 SyntaxKind.Unknown ScanError.None.

Definition setPosition (s : t) (newPosition : nat) : t :=
  mk newPosition [] 0 SyntaxKind.Unknown ScanError.None.

Definition getPosition (s : t) : nat := pos s.
Definition getToken (s : t) : SyntaxKind.t := token s.
Definition getTokenValue (s : t) : jsstring := value s.
Definition getTokenOffset (s : t) : nat := tokenOffset s.
Definition getTokenLength (s : t) : nat := pos s - tokenOffset s.
Definition getTokenError (s : t) : ScanError.t := scanError s.

Section WithText.
Variable text : jsstring.
Let len : nat := length text.

Local Open Scope Z_scope.

(** [scanHexDigits(count)], by recursion on [count - digits]; returns the
    new position and [hexValue] (-1 when fewer digits were found). *)
Fixpoint scanHexDigits (count : nat) (p : nat) (hexValue : Z) : nat * Z :=
  match count with
  | O => (p, hexValue)
  | S k =>
      match charCodeAt text p with
      | Some ch =>
          if (CC._0 <=? ch) && (ch <=? CC._9) then
            scanHexDigits k (S p) (hexValue * 16 + ch - CC._0)
          else if (CC.A <=? ch) && (ch <=? CC.F) then
            scanHexDigits k (S p) (hexValue * 16 + ch - CC.A + 10)
          else if (CC.a <=? ch) && (ch <=? CC.f) then
            scanHexDigits k (S p) (hexValue * 16 + ch - CC.a + 10)
          else (p, -1)
      | Datatypes.None => (p, -1)
      end
  end.

(** The position reached by [while (pos < text.length &&
    isDigit(text.charCodeAt(pos))) pos++] from [p]. *)
Definition skipDigits (p : nat) : nat :=
  (p + countWhile isDigit (skipn p text))%nat.

(** The second half of [scanNumber], from [let end = pos] on: the optional
    exponent, entered at position [p2] for a number that began at [start]. *)
Definition scanExponent (s : t) (start p2 : nat) : t * jsstring :=
  let end_ := p2 in
  if (p2 <? len)%nat
     && (is_code (charCodeAt text p2) CC.E || is_code (charCodeAt text p2) CC.e)
  then
    let p3 := S p2 in
    let p4 :=
      if ((p3 <? len)%nat && is_code (charCodeAt text p3) CC.plus)
         || is_code (charCodeAt text p3) CC.minus
      then S p3 else p3 in
    if (p4 <? len)%nat && on_code isDigit (charCodeAt text p4) then
      let p5 := skipDigits (S p4) in
      (set_pos s p5, substring text start p5)
    else
      (set_scanError (set_pos s p4) ScanError.UnexpectedEndOfNumber,
       substring text start end_)
  else (set_pos s p2, substring text start end_).

Definition scanNumber (s : t) : t * jsstring :=
  let start := pos s in
  let p1 :=
    if is_code (charCodeAt text start) CC._0 then S start
    else skipDigits (S start) in
  if (p1 <? len)%nat && is_code (charCodeAt text p1) CC.dot then
    let p2 := S p1 in
    if (p2 <? len)%nat && on_code isDigit (charCodeAt text p2) then
      scanExponent s start (skipDigits (S p2))
    else
      (set_scanError (set_pos s p2) ScanError.UnexpectedEndOfNumber,
       substring text start p2)
  else scanExponent s start p1.

(** The [switch (ch2)] of [scanString], entered with [pos] just after the
    escaped character [ch2]. *)
Definition scanEscape (s : t) (result : jsstring) (ch2 : option Z) : t * jsstring :=
  if is_code ch2 CC.doubleQuote then (s, result ++ [CC.doubleQuote])
  else if is_code ch2 CC.backslash then (s, result ++ [CC.backslash])
  else if is_code ch2 CC.slash then (s, result ++ [CC.slash])
  else if is_code ch2 CC.b then (s, result ++ [CC.backspace])
  else if is_code ch2 CC.f then (s, result ++ [CC.formFeed])
  else if is_code ch2 CC.n then (s, result ++ [CC.lineFeed])
  else if is_code ch2 CC.r then (s, result ++ [CC.carriageReturn])
  else if is_code ch2 CC.t then (s, result ++ [CC.tab])
  else if is_code ch2 CC.u then
    let '(p', ch3) := scanHexDigits 4 (pos s) 0 in
    if 0 <=? ch3 then (set_pos s p', result ++ fromCharCode (Some ch3))
    else (set_scanError (set_pos s p') ScanError.InvalidUnicode, result)
  else (set_scanError s ScanError.InvalidEscapeCharacter, result).

(** The [while (true)] loop of [scanString]; every iteration either
    leaves the loop or advances [pos], so [S len] iterations are never
    exhausted (see [scanString_loop_budget]). *)
Fixpoint scanString_loop (budget : nat) (s : t) (result : jsstring) (start : nat)
  : t * jsstring :=
  match budget with
  | O => (s, result)
  | S k =>
      let p := pos s in
      if (len <=? p)%nat then
        (set_scanError s ScanError.UnexpectedEndOfString,
         result ++ substring text start p)
      else
        let ch := charCodeAt text p in
        if is_code ch CC.doubleQuote then
          (set_pos s (S p), result ++ substring text start p)
        else if is_code ch CC.backslash then
          let result := result ++ substring text start p in
          let p := S p in
          if (len <=? p)%nat then
            (set_scanError (set_pos s p) ScanError.UnexpectedEndOfString, result)
          else
            let ch2 := charCodeAt text p in
            let sr := scanEscape (set_pos s (S p)) result ch2 in
            scanString_loop k (fst sr) (snd sr) (pos (fst sr))
        else if on_code (fun c => (0 <=? c) && (c <=? 0x1F)) ch then
          if on_code isLineBreak ch then
            (set_scanError s ScanError.UnexpectedEndOfString,
             result ++ substring text start p)
          else
            scanString_loop k
              (set_pos (set_scanError s ScanError.InvalidCharacter) (S p))
              result start
        else scanString_loop k (set_pos s (S p)) result start
  end.

Definition scanString (s : t) : t * jsstring :=
  scanString_loop (S len) s [] (pos s).

(** The characters appended to [value] by the [do ... while] loop over
    whitespace, started on a whitespace character. *)
Fixpoint whitespaceRun (l : jsstring) : jsstring :=
  match l with
  | c :: l' => if isWhitespace c then c :: whitespaceRun l' else []
  | [] => []
  end.

(** The line-comment loop: the position of the first line break at or
    after [p], or [len]. *)
Definition skipLine (p : nat) : nat :=
  (p + countWhile (fun c => negb (isLineBreak c)) (skipn p text))%nat.

(** The block-comment loop [while (pos < safeLength)] run on the text [l]
    that starts at [p]: the final position and [commentClosed]. *)
Fixpoint blockCommentLoop (l : jsstring) (p : nat) : nat * bool :=
  match l with
  | ch :: ((ch1 :: _) as l') =>
      if (ch =? CC.asterisk) && (ch1 =? CC.slash) then ((p + 2)%nat, true)
      else blockCommentLoop l' (S p)
  | _ => (p, false)
  end.

Definition scanNext (s0 : t) : t :=
  let s := set_tokenOffset (set_scanError (set_value s0 []) ScanError.None) (pos s0) in
  let p := pos s in
  if (len <=? p)%nat then
    set_token (set_tokenOffset s len) SyntaxKind.EOF
  else
    let code := charCodeAt text p in
    if on_code isWhitespace code then
      let run := whitespaceRun (skipn p text) in
      set_token (set_value (set_pos s (p + length run)%nat) run) SyntaxKind.Trivia
    else if on_code isLineBreak code then
      let s := set_value (set_pos s (S p)) (fromCharCode code) in
      let s :=
        if is_code code CC.carriageReturn && is_code (charCodeAt text (S p)) CC.lineFeed
        then set_value (set_pos s (S (S p))) (value s ++ [CC.lineFeed])
        else s in
      set_token s SyntaxKind.LineBreakTrivia
    else if is_code code CC.openBrace then
      set_token (set_pos s (S p)) SyntaxKind.OpenBraceToken
    else if is_code code CC.closeBrace then
      set_token (set_pos s (S p)) SyntaxKind.CloseBraceToken
    else if is_code code CC.openBracket then
      set_token (set_pos s (S p)) SyntaxKind.OpenBracketToken
    else if is_code code CC.closeBracket then
      set_token (set_pos s (S p)) SyntaxKind.CloseBracketToken
    else if is_code code CC.colon then
      set_token (set_pos s (S p)) SyntaxKind.ColonToken
    else if is_code code CC.comma then
      set_token (set_pos s (S p)) SyntaxKind.CommaToken
    else if is_code code CC.doubleQuote then
      let '(s, v) := scanString (set_pos s (S p)) in
      set_token (set_value s v) SyntaxKind.StringLiteral
    else if is_code code CC.slash then
      let start := (p - 1)%nat in
      if is_code (charCodeAt text (p + 1)%nat) CC.slash then
        let p' := skipLine (p + 2)%nat in
        set_token (set_value (set_pos s p') (substring text start p'))
          SyntaxKind.LineCommentTrivia
      else if is_code (charCodeAt text (p + 1)%nat) CC.asterisk then
        let '(p', commentClosed) :=
          blockCommentLoop (skipn (p + 2)%nat text) (p + 2)%nat in
        let s :=
          if commentClosed then set_pos s p'
          else set_scanError (set_pos s (S p')) ScanError.UnexpectedEndOfComment in
        set_token (set_value s (substring text start (pos s)))
          SyntaxKind.BlockCommentTrivia
      else
        set_token (set_pos (set_value s (value s ++ fromCharCode code)) (S p))
          SyntaxKind.Unknown
    else
      let number (s : t) : t :=
        let '(s', v) := scanNumber s in
        set_token (set_value s' (value s ++ v)) SyntaxKind.NumericLiteral in
      if is_code code CC.minus then
        let s := set_pos (set_value s (value s ++ fromCharCode code)) (S p) in
        if (pos s =? len)%nat || negb (on_code isDigit (charCodeAt text (pos s)))
        then set_token s SyntaxKind.Unknown
        else number s
      else if on_code isDigit code then number s
      else
        let p' := (p + countWhile isUnknownContentCharacter (skipn p text))%nat in
        if negb (tokenOffset s =? p')%nat then
          let v := substring text (tokenOffset s) p' in
          let s := set_value (set_pos s p') v in
          if jsstring_eqb v (js "true") then set_token s SyntaxKind.TrueKeyword
          else if jsstring_eqb v (js "false") then set_token s SyntaxKind.FalseKeyword
          else if jsstring_eqb v (js "null") then set_token s SyntaxKind.NullKeyword
          else set_token s SyntaxKind.Unknown
        else
          set_token (set_pos (set_value s (value s ++ fromCharCode code)) (S p'))
            SyntaxKind.Unknown.

(** The scanner used by [visit] is created with [ignoreTrivia = false],
    so its [scan] is [scanNext]. *)
Definition scan : t -> t := scanNext.

End WithText.
End Scanner.

(** ** JavaScript values *)

(** A Number is kept as the decimal literal it was converted from: the
    parser performs no arithmetic, it only passes on what [JSON.parse]
    returns for a numeric token, so the conversion itself is left
    uninterpreted. *)
Inductive jsnumber := NumLit (lexeme : jsstring).

(** The number [0] of the source ([let value = 0]). *)
Definition zero : jsnumber := NumLit (js "0").

(** Values handed to a visitor and stored in containers.  Objects and
    arrays are mutable and shared by reference: [JRef a] is the container
    allocated at address [a] of the heap. *)
Inductive jsval :=
| JUndefined
| JNull
| JBool (b : bool)
| JNumber (n : jsnumber)
| JString (s : jsstring)
| JRef (a : nat).

(** *** [JSON.parse] on a numeric token

    [parseLiteral] applies the built-in [JSON.parse] to the value of a
    [NumericLiteral] token, which starts with a digit or with a minus sign
    and a digit and holds no white space.  On such a string the built-in
    returns a number when the string is a number of the JSON grammar (an
    optional minus sign; an integer part that is either a single 0 or a
    non-zero digit followed by digits; an optional fraction, a dot followed
    by one digit or more; an optional exponent, e or E, an optional sign and
    one digit or more), and throws otherwise. *)
Section JSONNumber.
Local Open Scope Z_scope.

Definition dropDigits (l : jsstring) : jsstring := skipn (countWhile isDigit l) l.

Definition numberFraction (l : jsstring) : option jsstring :=
  match l with
  | d :: r =>
      if d =? CC.dot then
        match r with
        | c :: r' => if isDigit c then Some (dropDigits r') else None
        | [] => None
        end
      else Some l
  | [] => Some l
  end.

Definition numberExponent (l : jsstring) : bool :=
  match l with
  | [] => true
  | x :: r =>
      if (x =? CC.e) || (x =? CC.E) then
        let r' :=
          match r with
          | sg :: r0 => if (sg =? CC.plus) || (sg =? CC.minus) then r0 else r
          | [] => r
          end in
        match r' with
        | c :: r'' =>
            isDigit c && match dropDigits r'' with [] => true | _ => false end
        | [] => false
        end
      else false
  end.

Definition isJSONNumber (s : jsstring) : bool :=
  let s1 := match s with c :: r => if c =? CC.minus then r else s | [] => s end in
  match s1 with
  | c :: r =>
      isDigit c
      && match numberFraction (if c =? CC._0 then r else dropDigits r) with
         | Some rest => numberExponent rest
         | None => false
         end
  | [] => false
  end.

(** [None] stands for the [SyntaxError] thrown by the built-in. *)
Definition JSON_parse (s : jsstring) : option jsnumber :=
  if isJSONNumber s then Some (NumLit s) else None.
End JSONNumber.

(** ** Parse options, errors and visitors *)

Module ParseError.
Record t := mk { error : ParseErrorCode.t; offset : nat; length : nat }.
End ParseError.

(** The optional members of [ParseOptions]; a missing member is [undefined],
    which every use in the source treats as [false]. *)
Module ParseOptions.
Record t := mk {
  disallowComments : bool;
  allowTrailingComma : bool;
  allowEmptyContent : bool
}.
Definition DEFAULT : t := mk false true false.
End ParseOptions.

(** A [JSONVisitor] whose callbacks update a state of type [V]; every
    callback is optional. *)
Record JSONVisitor (V : Type) := {
  onObjectBegin : option (nat -> nat -> V -> V);
  onObjectProperty : option (jsstring -> nat -> nat -> V -> V);
  onObjectEnd : option (nat -> nat -> V -> V);
  onArrayBegin : option (nat -> nat -> V -> V);
  onArrayEnd : option (nat -> nat -> V -> V);
  onLiteralValue : option (jsval -> nat -> nat -> V -> V);
  onSeparator : option (jsstring -> nat -> nat -> V -> V);
  onComment : option (nat -> nat -> V -> V);
  onError : option (ParseErrorCode.t -> nat -> nat -> V -> V)
}.

(** ** [visit] *)

Module Visit.
Import SyntaxKind.

(** The state threaded through [visit]: the scanner variables and the
    state owned by the visitor. *)
Record PState (V : Type) := mkP { scanner : Scanner.t; vis : V }.
Arguments mkP {V} _ _.
Arguments scanner {V} _.
Arguments vis {V} _.

Definition mem (k : SyntaxKind.t) (l : list SyntaxKind.t) : bool :=
  existsb (SyntaxKind.eqb k) l.

Section WithVisitor.
Variable V : Type.
Variable visitor : JSONVisitor V.
Variable text : jsstring.
Variable options : ParseOptions.t.

Abbreviation PS := (PState V).

Definition toNoArgVisit (visitFunction : option (nat -> nat -> V -> V)) (st : PS) : PS :=
  match visitFunction with
  | Some f =>
      mkP (scanner st)
          (f (Scanner.getTokenOffset (scanner st)) (Scanner.getTokenLength (scanner st))
             (vis st))
  | None => st
  end.

Definition toOneArgVisit {T : Type} (visitFunction : option (T -> nat -> nat -> V -> V))
    (arg : T) (st : PS) : PS :=
  match visitFunction with
  | Some f =>
      mkP (scanner st)
          (f arg (Scanner.getTokenOffset (scanner st))
             (Scanner.getTokenLength (scanner st)) (vis st))
  | None => st
  end.

Definition onObjectBegin' := toNoArgVisit (onObjectBegin visitor).
Definition onObjectProperty' := toOneArgVisit (onObjectProperty visitor).
Definition onObjectEnd' := toNoArgVisit (onObjectEnd visitor).
Definition onArrayBegin' := toNoArgVisit (onArrayBegin visitor).
Definition onArrayEnd' := toNoArgVisit (onArrayEnd visitor).
Definition onLiteralValue' := toOneArgVisit (onLiteralValue visitor).
Definition onSeparator' := toOneArgVisit (onSeparator visitor).
Definition onComment' := toNoArgVisit (onComment visitor).
Definition onError' := toOneArgVisit (onError visitor).

Definition disallowComments : bool := ParseOptions.disallowComments options.
Definition allowTrailingComma : bool := ParseOptions.allowTrailingComma options.

Definition getToken (st : PS) : SyntaxKind.t := Scanner.getToken (scanner st).

(** [handleError(error)] with both skip lists empty, as [scanNext] calls
    it: only the error callback runs (see [handleError_nil]). *)
Definition handleError0 (error : ParseErrorCode.t) (st : PS) : PS := onError' error st.

(** The first [switch] of [scanNext], on the error of the token just
    scanned. *)
Definition reportScanError (st : PS) : PS :=
  match Scanner.getTokenError (scanner st) with
  | ScanError.InvalidUnicode => handleError0 ParseErrorCode.InvalidUnicode st
  | ScanError.InvalidEscapeCharacter =>
      handleError0 ParseErrorCode.InvalidEscapeCharacter st
  | ScanError.UnexpectedEndOfNumber =>
      handleError0 ParseErrorCode.UnexpectedEndOfNumber st
  | ScanError.UnexpectedEndOfComment =>
      if negb disallowComments
      then handleError0 ParseErrorCode.UnexpectedEndOfComment st
      else st
  | ScanError.UnexpectedEndOfString =>
      handleError0 ParseErrorCode.UnexpectedEndOfString st
  | ScanError.InvalidCharacter => handleError0 ParseErrorCode.InvalidCharacter st
  | ScanError.None => st
  end.

(** [scanNext]: one unit of fuel per iteration of its [while (true)]. *)
Fixpoint scanNext (fuel : nat) (st : PS) : option PS :=
  match fuel with
  | O => None
  | S n =>
      let st := mkP (Scanner.scan text (scanner st)) (vis st) in
      let token := getToken st in
      let st := reportScanError st in
      match token with
      | LineCommentTrivia | BlockCommentTrivia =>
          scanNext n
            (if disallowComments
             then handleError0 ParseErrorCode.InvalidCommentToken st
             else onComment' st)
      | Unknown => scanNext n (handleError0 ParseErrorCode.InvalidSymbol st)
      | Trivia | LineBreakTrivia => scanNext n st
      | _ => Some st
      end
  end.

(** The [while (token !== SyntaxKind.EOF)] loop of [handleError]. *)
Fixpoint skipTokens (fuel : nat) (skipUntilAfter skipUntil : list SyntaxKind.t)
    (st : PS) : option PS :=
  match fuel with
  | O => None
  | S n =>
      let token := getToken st in
      if SyntaxKind.eqb token EOF then Some st
      else if mem token skipUntilAfter then scanNext n st
      else if mem token skipUntil then Some st
      else
        match scanNext n st with
        | Some st' => skipTokens n skipUntilAfter skipUntil st'
        | None => None
        end
  end.

Definition handleError (error : ParseErrorCode.t)
    (skipUntilAfter skipUntil : list SyntaxKind.t) (fuel : nat) (st : PS) : option PS :=
  let st := onError' error st in
  if (0 <? List.length skipUntilAfter + List.length skipUntil)
  then skipTokens fuel skipUntilAfter skipUntil st
  else Some st.

Definition parseString (isValue : bool) (fuel : nat) (st : PS) : option (bool * PS) :=
  let value := Scanner.getTokenValue (scanner st) in
  let st := if isValue then onLiteralValue' (JString value) st
            else onObjectProperty' value st in
  match scanNext fuel st with
  | Some st => Some (true, st)
  | None => None
  end.

Definition parseLiteral (fuel : nat) (st : PS) : option (bool * PS) :=
  let continue (st : PS) :=
    match scanNext fuel st with
    | Some st => Some (true, st)
    | None => None
    end in
  match getToken st with
  | NumericLiteral =>
      match JSON_parse (Scanner.getTokenValue (scanner st)) with
      | Some value => continue (onLiteralValue' (JNumber value) st)
      | None =>
          continue (onLiteralValue' (JNumber zero)
                      (handleError0 ParseErrorCode.InvalidNumberFormat st))
      end
  | NullKeyword => continue (onLiteralValue' JNull st)
  | TrueKeyword => continue (onLiteralValue' (JBool true) st)
  | FalseKeyword => continue (onLiteralValue' (JBool false) st)
  | _ => Some (false, st)
  end.

(** The functions below call [parseValue] recursively; they take it as
    an argument, and [parseValue] ties the knot. *)
Section WithParseValue.
Variable parseValue : PS -> option (bool * PS).

Definition parseProperty (fuel : nat) (st : PS) : option (bool * PS) :=
  if negb (SyntaxKind.eqb (getToken st) StringLiteral) then
    match handleError ParseErrorCode.PropertyNameExpected []
            [CloseBraceToken; CommaToken] fuel st with
    | Some st => Some (false, st)
    | None => None
    end
  else
    match parseString false fuel st with
    | Some (_, st) =>
        if SyntaxKind.eqb (getToken st) ColonToken then
          let st := onSeparator' [CC.colon] st in
          match scanNext fuel st with
          | Some st =>
              match parseValue st with
              | Some (true, st) => Some (true, st)
              | Some (false, st) =>
                  match handleError ParseErrorCode.ValueExpected []
                          [CloseBraceToken; CommaToken] fuel st with
                  | Some st => Some (true, st)
                  | None => None
                  end
              | None => None
              end
          | None => None
          end
        else
          match handleError ParseErrorCode.ColonExpected []
                  [CloseBraceToken; CommaToken] fuel st with
          | Some st => Some (true, st)
          | None => None
          end
    | None => None
    end.

(** The statement [if (!parseProperty()) handleError(ValueExpected, ...)]
    of the loop of [parseObject]. *)
Definition parseObject_member (fuel : nat) (st : PS) : option PS :=
  match parseProperty fuel st with
  | Some (true, st) => Some st
  | Some (false, st) =>
      handleError ParseErrorCode.ValueExpected [] [CloseBraceToken; CommaToken] fuel st
  | None => None
  end.

(** One iteration of the loop of [parseObject]; the boolean tells whether
    the iteration ended in [break]. *)
Definition parseObject_step (fuel : nat) (needsComma : bool) (st : PS)
  : option (bool * PS) :=
  let member (st : PS) : option (bool * PS) :=
    match parseObject_member fuel st with
    | Some st => Some (false, st)
    | None => None
    end in
  if SyntaxKind.eqb (getToken st) CommaToken then
    let st := if negb needsComma
              then handleError0 ParseErrorCode.ValueExpected st else st in
    let st := onSeparator' [CC.comma] st in
    match scanNext fuel st with
    | Some st =>
        if SyntaxKind.eqb (getToken st) CloseBraceToken && allowTrailingComma
        then Some (true, st)
        else member st
    | None => None
    end
  else if needsComma then
    member (handleError0 ParseErrorCode.CommaExpected st)
  else member st.

(** The loop of [parseObject], one unit of fuel per iteration; the result
    is the state in which the loop is left. *)
Fixpoint parseObject_loop (fuel : nat) (needsComma : bool) (st : PS) : option PS :=
  match fuel with
  | O => None
  | S n =>
      if negb (SyntaxKind.eqb (getToken st) CloseBraceToken)
         && negb (SyntaxKind.eqb (getToken st) EOF)
      then
        match parseObject_step n needsComma st with
        | Some (true, st) => Some st
        | Some (false, st) => parseObject_loop n true st
        | None => None
        end
      else Some st
  end.

(** What [parseObject] does once its loop is left. *)
Definition parseObject_close (fuel : nat) (st : PS) : option (bool * PS) :=
  let st := onObjectEnd' st in
  if negb (SyntaxKind.eqb (getToken st) CloseBraceToken) then
    match handleError ParseErrorCode.CloseBraceExpected [CloseBraceToken] [] fuel st with
    | Some st => Some (true, st)
    | None => None
    end
  else
    match scanNext fuel st with
    | Some st => Some (true, st)
    | None => None
    end.

Definition parseObject (fuel : nat) (st : PS) : option (bool * PS) :=
  let st := onObjectBegin' st in
  match scanNext fuel st with
  | Some st =>
      match parseObject_loop fuel false st with
      | Some st => parseObject_close fuel st
      | None => None
      end
  | None => None
  end.

(** The statement [if (!parseValue()) handleError(ValueExpected, ...)] of
    the loop of [parseArray]. *)
Definition parseArray_element (fuel : nat) (st : PS) : option PS :=
  match parseValue st with
  | Some (true, st) => Some st
  | Some (false, st) =>
      handleError ParseErrorCode.ValueExpected [] [CloseBracketToken; CommaToken] fuel st
  | None => None
  end.

Definition parseArray_step (fuel : nat) (needsComma : bool) (st : PS)
  : option (bool * PS) :=
  let element (st : PS) : option (bool * PS) :=
    match parseArray_element fuel st with
    | Some st => Some (false, st)
    | None => None
    end in
  if SyntaxKind.eqb (getToken st) CommaToken then
    let st := if negb needsComma
              then handleError0 ParseErrorCode.ValueExpected st else st in
    let st := onSeparator' [CC.comma] st in
    match scanNext fuel st with
    | Some st =>
        if SyntaxKind.eqb (getToken st) CloseBracketToken && allowTrailingComma
        then Some (true, st)
        else element st
    | None => None
    end
  else if needsComma then
    element (handleError0 ParseErrorCode.CommaExpected st)
  else element st.

Fixpoint parseArray_loop (fuel : nat) (needsComma : bool) (st : PS) : option PS :=
  match fuel with
  | O => None
  | S n =>
      if negb (SyntaxKind.eqb (getToken st) CloseBracketToken)
         && negb (SyntaxKind.eqb (getToken st) EOF)
      then
        match parseArray_step n needsComma st with
        | Some (true, st) => Some st
        | Some (false, st) => parseArray_loop n true st
        | None => None
        end
      else Some st
  end.

Definition parseArray_close (fuel : nat) (st : PS) : option (bool * PS) :=
  let st := onArrayEnd' st in
  if negb (SyntaxKind.eqb (getToken st) CloseBracketToken) then
    match handleError ParseErrorCode.CloseBracketExpected [CloseBracketToken] [] fuel st with
    | Some st => Some (true, st)
    | None => None
    end
  else
    match scanNext fuel st with
    | Some st => Some (true, st)
    | None => None
    end.

Definition parseArray (fuel : nat) (st : PS) : option (bool * PS) :=
  let st := onArrayBegin' st in
  match scanNext fuel st with
  | Some st =>
      match parseArray_loop fuel false st with
      | Some st => parseArray_close fuel st
      | None => None
      end
  | None => None
  end.
End WithParseValue.

(** One unit of fuel per level of nesting. *)
Fixpoint parseValue (fuel : nat) (st : PS) : option (bool * PS) :=
  match fuel with
  | O => None
  | S n =>
      match getToken st with
      | OpenBracketToken => parseArray (parseValue n) n st
      | OpenBraceToken => parseObject (parseValue n) n st
      | StringLiteral => parseString true n st
      | _ => parseLiteral n st
      end
  end.

(** The body of [visit], started on a fresh scanner. *)
Definition visit_with (fuel : nat) (v0 : V) : option (bool * PS) :=
  match scanNext fuel (mkP Scanner.initial v0) with
  | Some st =>
      if SyntaxKind.eqb (getToken st) EOF then
        if ParseOptions.allowEmptyContent options then Some (true, st)
        else Some (false, handleError0 ParseErrorCode.ValueExpected st)
      else
        match parseValue fuel st with
        | Some (true, st) =>
            if negb (SyntaxKind.eqb (getToken st) EOF)
            then Some (true, handleError0 ParseErrorCode.EndOfFileExpected st)
            else Some (true, st)
        | Some (false, st) =>
            Some (false, handleError0 ParseErrorCode.ValueExpected st)
        | None => None
        end
  | None => None
  end.

(** Every loop iteration and every level of nesting consumes at least
    one character (or reaches the end of the text), so this much fuel is
    never exhausted: see [visit_total]. *)
Definition visit (v0 : V) : option (bool * PS) :=
  visit_with (List.length text + 4) v0.

End WithVisitor.
End Visit.

(** ** [parse]: the visitor that materializes the value *)

(** Containers live in a heap; a new container takes the next free
    address.  An object is the list of its own properties in insertion
    order, with one entry per name. *)
Inductive cell :=
| CObject (props : list (jsstring * jsval))
| CArray (items : list jsval).

Definition heap := list cell.

Fixpoint update {A : Type} (a : nat) (x : A) (l : list A) : list A :=
  match l, a with
  | [], _ => []
  | _ :: l', O => x :: l'
  | y :: l', S a' => y :: update a' x l'
  end.

(** [object[k] = v] on the property list of a plain object: an existing
    property keeps its place and takes the new value. *)
Fixpoint assign {A : Type} (k : jsstring) (v : A) (props : list (jsstring * A))
  : list (jsstring * A) :=
  match props with
  | [] => [(k, v)]
  | (k', v') :: ps =>
      if jsstring_eqb k k' then (k', v) :: ps else (k', v') :: assign k v ps
  end.

Fixpoint lookup {A : Type} (k : jsstring) (props : list (jsstring * A)) : option A :=
  match props with
  | [] => None
  | (k', v') :: ps => if jsstring_eqb k k' then Some v' else lookup k ps
  end.

Module Materializer.

(** The variables captured by the callbacks of [parse].
    [currentParent] is a container or, after [pop] on an empty stack,
    [undefined] ([None]); the top of [previousParents] is the head of the
    list.  [thrown] records that a callback raised a [TypeError] (a
    property assignment on [undefined]); [parse] has no result then. *)
Record t := mk {
  store : heap;
  currentProperty : option jsstring;
  currentParent : option nat;
  previousParents : list (option nat);
  errors : list ParseError.t;
  thrown : bool
}.

Definition onValue (value : jsval) (m : t) : t :=
  match currentParent m with
  | Some a =>
      match nth_error (store m) a with
      | Some (CArray items) =>
          mk (update a (CArray (items ++ [value])) (store m)) (currentProperty m)
             (currentParent m) (previousParents m) (errors m) (thrown m)
      | Some (CObject props) =>
          match currentProperty m with
          | Some k =>
              mk (update a (CObject (assign k value props)) (store m)) (currentProperty m)
                 (currentParent m) (previousParents m) (errors m) (thrown m)
          | None => m
          end
      | None => m
      end
  | None =>
      match currentProperty m with
      | Some _ =>
          mk (store m) (currentProperty m) (currentParent m) (previousParents m)
             (errors m) true
      | None => m
      end
  end.

(** [onObjectBegin] and [onArrayBegin]: allocate the container, attach it
    to the current parent, and make it the current parent. *)
Definition onBegin (c : cell) (m : t) : t :=
  let a := List.length (store m) in
  let m := mk (store m ++ [c]) (currentProperty m) (currentParent m)
              (previousParents m) (errors m) (thrown m) in
  let m := onValue (JRef a) m in
  mk (store m) None (Some a) (currentParent m :: previousParents m) (errors m) (thrown m).

(** [onObjectEnd] and [onArrayEnd]. *)
Definition onEnd (m : t) : t :=
  match previousParents m with
  | top :: rest => mk (store m) (currentProperty m) top rest (errors m) (thrown m)
  | [] => mk (store m) (currentProperty m) None [] (errors m) (thrown m)
  end.

Definition onProperty (name : jsstring) (m : t) : t :=
  mk (store m) (Some name) (currentParent m) (previousParents m) (errors m) (thrown m).

Definition pushError (error : ParseErrorCode.t) (offset length : nat) (m : t) : t :=
  mk (store m) (currentProperty m) (currentParent m) (previousParents m)
     (errors m ++ [ParseError.mk error offset length]) (thrown m).

(** Once a callback has thrown, nothing else runs. *)
Definition guarded (f : t -> t) (m : t) : t := if thrown m then m else f m.

Definition visitor : JSONVisitor t := {|
  onObjectBegin := Some (fun _ _ => guarded (onBegin (CObject [])));
  onObjectProperty := Some (fun name _ _ => guarded (onProperty name));
  onObjectEnd := Some (fun _ _ => guarded onEnd);
  onArrayBegin := Some (fun _ _ => guarded (onBegin (CArray [])));
  onArrayEnd := Some (fun _ _ => guarded onEnd);
  onLiteralValue := Some (fun value _ _ => guarded (onValue value));
  onSeparator := None;
  onComment := None;
  onError := Some (fun error offset length => guarded (pushError error offset length))
|}.

(** [currentParent = []] lives at address 0. *)
Definition initial (errors : list ParseError.t) : t :=
  mk [CArray []] None (Some 0) [] errors false.

(** [currentParent[0]]. *)
Definition result (m : t) : option jsval :=
  match currentParent m with
  | Some a =>
      match nth_error (store m) a with
      | Some (CArray items) => Some (nth 0 items JUndefined)
      | Some (CObject props) =>
          Some (match lookup (js "0") props with Some v => v | None => JUndefined end)
      | None => Some JUndefined
      end
  | None => None
  end.

End Materializer.

(** The value returned by [parse], the heap its references point into, and
    the contents of the [errors] array after the call. *)
Record ParseResult := mkResult {
  returned : jsval;
  memory : heap;
  reported : list ParseError.t
}.

(** [None] when [visit] or [currentParent[0]] throws. *)
Definition parse (text : jsstring) (errors : list ParseError.t) (options : ParseOptions.t)
  : option ParseResult :=
  match Visit.visit Materializer.visitor text options (Materializer.initial errors) with
  | Some (_, st) =>
      let m := Visit.vis st in
      if Materializer.thrown m then None
      else
        match Materializer.result m with
        | Some v => Some (mkResult v (Materializer.store m) (Materializer.errors m))
        | None => None
        end
  | None => None
  end.

(** ** Reading a value back as a tree *)

Inductive tree :=
| TUndefined
| TNull
| TBool (b : bool)
| TNumber (n : jsnumber)
| TString (s : jsstring)
| TArray (items : list tree)
| TObject (props : list (jsstring * tree)).

(** The materializer allocates a container before any container it comes
    to hold, so references only point to higher addresses and the heap can
    be read back from its last cell to its first.  [trees cells base] are the
    trees of the containers [cells] that live at [base], [base + 1], ... *)
Definition treeOf (base : nat) (later : list tree) (v : jsval) : tree :=
  match v with
  | JUndefined => TUndefined
  | JNull => TNull
  | JBool b => TBool b
  | JNumber n => TNumber n
  | JString s => TString s
  | JRef a => if (base <=? a) then nth (a - base) later TUndefined else TUndefined
  end.

Definition treeOfCell (base : nat) (later : list tree) (c : cell) : tree :=
  match c with
  | CArray items => TArray (map (treeOf base later) items)
  | CObject props => TObject (map (fun kv => (fst kv, treeOf base later (snd kv))) props)
  end.

Fixpoint trees (cells : list cell) (base : nat) : list tree :=
  match cells with
  | [] => []
  | c :: rest =>
      let later := trees rest (S base) in
      treeOfCell (S base) later c :: later
  end.

Definition reify (h : heap) (v : jsval) : tree := treeOf 0 (trees h 0) v.

(** The value of [parse] as a tree, with the reported errors. *)
Definition parseTree (text : jsstring) (options : ParseOptions.t)
  : option (tree * list ParseError.t) :=
  match parse text [] options with
  | Some r => Some (reify (memory r) (returned r), reported r)
  | None => None
  end.

(** ** [getNodeType] *)

Inductive NodeType :=
| NT_object | NT_array | NT_property | NT_string | NT_number | NT_boolean | NT_null.

(** [typeof value] for the values of this model. *)
Inductive jstype := Ty_undefined | Ty_object | Ty_boolean | Ty_number | Ty_string.

Definition typeof (v : jsval) : jstype :=
  match v with
  | JUndefined => Ty_undefined
  | JNull => Ty_object
  | JBool _ => Ty_boolean
  | JNumber _ => Ty_number
  | JString _ => Ty_string
  | JRef _ => Ty_object
  end.

Definition isArray (h : heap) (v : jsval) : bool :=
  match v with
  | JRef a => match nth_error h a with Some (CArray _) => true | _ => false end
  | _ => false
  end.

(** [!value] for a value whose [typeof] is ['object']. *)
Definition isNull (v : jsval) : bool :=
  match v with JNull => true | _ => false end.

Definition getNodeType (h : heap) (value : jsval) : NodeType :=
  match typeof value with
  | Ty_boolean => NT_boolean
  | Ty_number => NT_number
  | Ty_string => NT_string
  | Ty_object =>
      if isNull value then NT_null
      else if isArray h value then NT_array
      else NT_object
  | _ => NT_null
  end.

(** ** A visitor that records the calls it receives *)

Inductive Event :=
| ObjectBegin (offset length : nat)
| ObjectProperty (property : jsstring) (offset length : nat)
| ObjectEnd (offset length : nat)
| ArrayBegin (offset length : nat)
| ArrayEnd (offset length : nat)
| LiteralValue (value : jsval) (offset length : nat)
| Separator (character : jsstring) (offset length : nat)
| Comment (offset length : nat)
| Error (error : ParseErrorCode.t) (offset length : nat).

Definition recorder : JSONVisitor (list Event) := {|
  onObjectBegin := Some (fun o l tr => tr ++ [ObjectBegin o l]);
  onObjectProperty := Some (fun p o l tr => tr ++ [ObjectProperty p o l]);
  onObjectEnd := Some (fun o l tr => tr ++ [ObjectEnd o l]);
  onArrayBegin := Some (fun o l tr => tr ++ [ArrayBegin o l]);
  onArrayEnd := Some (fun o l tr => tr ++ [ArrayEnd o l]);
  onLiteralValue := Some (fun v o l tr => tr ++ [LiteralValue v o l]);
  onSeparator := Some (fun c o l tr => tr ++ [Separator c o l]);
  onComment := Some (fun o l tr => tr ++ [Comment o l]);
  onError := Some (fun e o l tr => tr ++ [Error e o l])
|}.

(** The calls made by [visit] on [text], in order. *)
Definition events (text : jsstring) (options : ParseOptions.t) : option (list Event) :=
  match Visit.visit recorder text options [] with
  | Some (_, st) => Some (Visit.vis st)
  | None => None
  end.


(** ** [createScanner(text, true)]: the scanner that skips trivia

    With [ignoreTrivia] set, [scan] is [scanNextNonTrivia]: it calls
    [scanNext] until the token is no comment, line break or white space.
    Every such token consumes a character, so the characters that remain,
    and one, bound the iterations (see [scanNextNonTrivia_returns]). *)
Module TriviaScanner.
Section WithText.
Variable text : jsstring.

(** [result >= SyntaxKind.LineCommentTrivia && result <= SyntaxKind.Trivia] *)
Definition isTrivia (result : SyntaxKind.t) : bool :=
  ((SyntaxKind.code SyntaxKind.LineCommentTrivia <=? SyntaxKind.code result)
   && (SyntaxKind.code result <=? SyntaxKind.code SyntaxKind.Trivia))%Z.

Fixpoint scanNextNonTrivia_loop (budget : nat) (s : Scanner.t) : option Scanner.t :=
  match budget with
  | O => None
  | S n =>
      let s' := Scanner.scanNext text s in
      if isTrivia (Scanner.token s') then scanNextNonTrivia_loop n s' else Some s'
  end.

Definition scanNextNonTrivia (s : Scanner.t) : option Scanner.t :=
  scanNextNonTrivia_loop (S (List.length text - Scanner.pos s)) s.

(** [scan: ignoreTrivia ? scanNextNonTrivia : scanNext] *)
Definition scan (ignoreTrivia : bool) (s : Scanner.t) : option Scanner.t :=
  if ignoreTrivia then scanNextNonTrivia s else Some (Scanner.scanNext text s).

End WithText.
End TriviaScanner.

(** * Theme colours ([support/colorThemeData.ts])

    [_loadColorTheme] is the caller of [parse] and [getNodeType];
    [normalizeColor], [hexUpper] and [TokenColorIndex] are the helpers of
    the same file through which the colours of a theme pass. *)

(** The members of the enumeration [CharCode] that these functions use.
    The enumeration ([utils/charCode.ts]) is not among the sources, so its
    values are a parameter; [CharCode.wellFormed] states what the
    properties below need of them, and [CharCode.ascii] gives the codes of
    the characters the members are named after. *)
Module CharCode.
Record t := mk {
  Hash : Z;
  Digit0 : Z;
  Digit9 : Z;
  A : Z;
  F : Z;
  a : Z;
  f : Z
}.

Definition ascii : t := mk 35 48 57 65 70 97 102.

(** The digits, the capitals A to F and the small letters a to f are three
    ranges of code units in this order, the two ranges of letters have the
    same length, and the hash sign comes before the digits. *)
Definition wellFormed (cc : t) : Prop :=
  (0 < Hash cc /\ Hash cc < Digit0 cc /\ Digit0 cc <= Digit9 cc /\ Digit9 cc < A cc
   /\ A cc <= F cc /\ F cc < a cc /\ a cc <= f cc /\ f cc < 65536
   /\ f cc - a cc = F cc - A cc)%Z.
End CharCode.

Module Colors.

(** The fields of a [TokenColorIndex]; [_id2color] is an array with
    holes, and [_color2id] an object without prototype, used as a map. *)
Module TokenColorIndex.
Record t := mk {
  _lastColorId : nat;
  _id2color : list (option jsstring);
  _color2id : list (jsstring * nat)
}.

Definition new : t := mk 0 [] [].
End TokenColorIndex.

Section WithCharCode.
Variable cc : CharCode.t.

(** The class [Color] ([utils/color.ts]) is not among the sources either:
    its values and [Color.Format.CSS.formatHexA(color, true)] are
    parameters. *)
Variable Color : Type.
Variable formatHexA : Color -> jsstring.

Local Open Scope Z_scope.

Definition hexUpper (charCode : Z) : Z :=
  if ((CharCode.Digit0 cc <=? charCode) && (charCode <=? CharCode.Digit9 cc))
     || ((CharCode.A cc <=? charCode) && (charCode <=? CharCode.F cc))
  then charCode
  else if (CharCode.a cc <=? charCode) && (charCode <=? CharCode.f cc)
  then charCode - CharCode.a cc + CharCode.A cc
  else 0.

(** The argument of [normalizeColor]: [string | Color | undefined | null]. *)
Inductive ColorArg :=
| ArgUndefined
| ArgNull
| ArgString (s : jsstring)
| ArgColor (c : Color).

(** The loop of [normalizeColor], over the characters after the first;
    [None] is the [return undefined] on a character that is no hex digit
    ([!upper]: [hexUpper] returned 0). *)
Fixpoint pushUpper (double : bool) (rest : jsstring) (result : list Z) : option (list Z) :=
  match rest with
  | [] => Some result
  | c :: rest' =>
      let upper := hexUpper c in
      if upper =? 0 then None
      else pushUpper double rest' (result ++ (if double then [upper; upper] else [upper]))
  end.

(** [normalizeColor] from [const len = color.length] on.  The elements of
    [result] are the hash sign and hex digits, code units that
    [String.fromCharCode] leaves as they are. *)
Definition normalizeString (color : jsstring) : option jsstring :=
  let len := List.length color in
  if negb (is_code (charCodeAt color 0) (CharCode.Hash cc))
     || (negb (len =? 4)%nat && negb (len =? 5)%nat && negb (len =? 7)%nat
         && negb (len =? 9)%nat)
  then None
  else
    match pushUpper ((len =? 4)%nat || (len =? 5)%nat) (skipn 1 color)
            [CharCode.Hash cc] with
    | None => None
    | Some result =>
        if (List.length result =? 9)%nat
           && is_code (nth_error result 7) (CharCode.F cc)
           && is_code (nth_error result 8) (CharCode.F cc)
        then Some (firstn 7 result)
        else Some result
    end.

(** [None] is [undefined]; the empty string is falsy, as [undefined] and
    [null] are. *)
Definition normalizeColor (color : ColorArg) : option jsstring :=
  match color with
  | ArgUndefined | ArgNull => None
  | ArgString [] => None
  | ArgString s => normalizeString s
  | ArgColor c => normalizeString (formatHexA c)
  end.

(** ** The methods of [TokenColorIndex] *)

(** [array[i] = x] on an array with holes ([None]): the array grows, by
    holes, up to the index that is written. *)
Definition arraySet (A : Type) (i : nat) (x : A) (l : list (option A)) : list (option A) :=
  if (i <? List.length l)%nat then update i (Some x) l
  else l ++ repeat Datatypes.None (i - List.length l) ++ [Some x].

(** [add]: the index after the call and the value returned.  A value
    found in [_color2id] is returned when it is truthy, that is not 0. *)
Definition add (color : ColorArg) (index : TokenColorIndex.t) : TokenColorIndex.t * nat :=
  match normalizeColor color with
  | None => (index, O)
  | Some color =>
      let insert :=
        let value := S (TokenColorIndex._lastColorId index) in
        (TokenColorIndex.mk value
           (arraySet value color (TokenColorIndex._id2color index))
           (assign color value (TokenColorIndex._color2id index)),
         value) in
      match lookup color (TokenColorIndex._color2id index) with
      | Some value => if (value =? 0)%nat then insert else (index, value)
      | None => insert
      end
  end.

(** [get]; the message logged for a colour that is not in the index is
    left out. *)
Definition get (color : ColorArg) (index : TokenColorIndex.t) : nat :=
  match normalizeColor color with
  | None => O
  | Some color =>
      match lookup color (TokenColorIndex._color2id index) with
      | Some value => value
      | None => O
      end
  end.

(** [asArray]: a copy of [_id2color], holes included. *)
Definition asArray (index : TokenColorIndex.t) : list (option jsstring) :=
  TokenColorIndex._id2color index.

(** The index after [add] was called on each of [colors] in turn. *)
Definition addAll (colors : list ColorArg) (index : TokenColorIndex.t) : TokenColorIndex.t :=
  fold_left (fun i c => fst (add c i)) colors index.

End WithCharCode.
End Colors.

(** ** What [_loadColorTheme] does with the content of a theme file

    The statements of [_loadColorTheme] between the fetch of the content
    and the use of the parsed value: the content is parsed with the default
    options, and the file is turned down when an error was reported or the
    value is no object. *)
Inductive ThemeContent :=
| ProblemsParsing
| ObjectExpected
| ThemeObject (value : jsval) (memory : heap).

(** [None] when [parse] throws. *)
Definition loadColorTheme_content (content : jsstring) : option ThemeContent :=
  match parse content [] ParseOptions.DEFAULT with
  | Some r =>
      if (0 <? List.length (reported r))%nat then Some ProblemsParsing
      else
        match getNodeType (memory r) (returned r) with
        | NT_object => Some (ThemeObject (returned r) (memory r))
        | _ => Some ObjectExpected
        end
  | None => None
  end.

(** * Notions used to state the properties *)

(** ** The measure that bounds the fuel

    The text that remains after the scanner, counting one more while the
    last token is not the end of the input. *)
Definition remaining (text : jsstring) (sc : Scanner.t) : nat :=
  List.length text - Scanner.pos sc.

Definition weight (text : jsstring) (sc : Scanner.t) : nat :=
  remaining text sc + (if SyntaxKind.eqb (Scanner.token sc) SyntaxKind.EOF then 0 else 1).

(** What the proof of termination asks of the recursive calls to
    [parseValue]: on a state of weight at most [bound] it returns, never
    increases the weight, decreases it when it returns [true], and leaves
    the state as it was when it returns [false]. *)
Definition parseValue_ok (V : Type) (text : jsstring)
    (parseValue : Visit.PState V -> option (bool * Visit.PState V)) (bound : nat) : Prop :=
  forall st, weight text (Visit.scanner st) <= bound ->
    exists b st', parseValue st = Some (b, st')
      /\ weight text (Visit.scanner st') <= weight text (Visit.scanner st)
      /\ (b = true -> weight text (Visit.scanner st') < weight text (Visit.scanner st))
      /\ (b = false -> st' = st).

(** ** Balanced calls

    [matchEvents stack tr] runs the calls [tr] against the stack of the
    containers that are open: a begin pushes its kind, an end must find its
    own kind on top and pops it, any other call leaves the stack alone. *)
Inductive Frame := InObject | InArray.

Fixpoint matchEvents (stack : list Frame) (tr : list Event) : option (list Frame) :=
  match tr with
  | [] => Some stack
  | ObjectBegin _ _ :: tr' => matchEvents (InObject :: stack) tr'
  | ArrayBegin _ _ :: tr' => matchEvents (InArray :: stack) tr'
  | ObjectEnd _ _ :: tr' =>
      match stack with
      | InObject :: stack' => matchEvents stack' tr'
      | _ => None
      end
  | ArrayEnd _ _ :: tr' =>
      match stack with
      | InArray :: stack' => matchEvents stack' tr'
      | _ => None
      end
  | _ :: tr' => matchEvents stack tr'
  end.

(** Every end matches the latest begin that is still open, of its own
    kind, and no begin is left open. *)
Definition balanced (tr : list Event) : Prop := matchEvents [] tr = Some [].

(** A run of calls that gives back the stack it was given. *)
Definition neutral (tr : list Event) : Prop :=
  forall stack, matchEvents stack tr = Some stack.

Definition structural (e : Event) : bool :=
  match e with
  | ObjectBegin _ _ | ObjectEnd _ _ | ArrayBegin _ _ | ArrayEnd _ _ => true
  | _ => false
  end.

(** A run of calls without begin or end. *)
Definition quiet (tr : list Event) : Prop := Forall (fun e => structural e = false) tr.

(** The calls recorded between two states. *)
Definition emits (P : list Event -> Prop) (st st' : Visit.PState (list Event)) : Prop :=
  exists seg, Visit.vis st' = Visit.vis st ++ seg /\ P seg.

(** What the proof of balance asks of the recursive calls to [parseValue]. *)
Definition parseValue_neutral
    (parseValue : Visit.PState (list Event) -> option (bool * Visit.PState (list Event)))
  : Prop :=
  forall st b st', parseValue st = Some (b, st') -> emits neutral st st'.

(** ** The shape of number literals *)

Definition digits (ds : jsstring) : Prop := Forall (fun c => isDigit c = true) ds.

(** The text [l] does not go on with a digit. *)
Definition no_digit_next (l : jsstring) : Prop :=
  match l with
  | c :: _ => isDigit c = false
  | [] => True
  end.

(** The text [l] does not go on with a sign. *)
Definition no_sign_next (l : jsstring) : Prop :=
  match l with
  | c :: _ => c <> CC.plus /\ c <> CC.minus
  | [] => True
  end.

(** The text [l] does not go on with a character that could extend a
    number: a digit, a dot or an exponent marker. *)
Definition number_ends (l : jsstring) : Prop :=
  match l with
  | c :: _ => isDigit c = false /\ c <> CC.dot /\ c <> CC.e /\ c <> CC.E
  | [] => True
  end.

(** An integer part: a single 0, or a non-zero digit followed by digits. *)
Inductive IntPart : jsstring -> Prop :=
| IntZero : IntPart [CC._0]
| IntDigits d ds : isDigit d = true -> d <> CC._0 -> digits ds -> IntPart (d :: ds).

(** An optional fraction: a dot and at least one digit. *)
Inductive FracPart : jsstring -> Prop :=
| FracNone : FracPart []
| FracSome d ds : isDigit d = true -> digits ds -> FracPart (CC.dot :: d :: ds).

Inductive ExpSign : jsstring -> Prop :=
| SignNone : ExpSign []
| SignPlus : ExpSign [CC.plus]
| SignMinus : ExpSign [CC.minus].

Definition exponent_marker (c : Z) : Prop := c = CC.e \/ c = CC.E.

(** An optional exponent: a marker, an optional sign and at least one
    digit. *)
Inductive ExpPart : jsstring -> Prop :=
| ExpNone : ExpPart []
| ExpSome m sg d ds :
    exponent_marker m -> ExpSign sg -> isDigit d = true -> digits ds ->
    ExpPart (m :: sg ++ d :: ds).

(** An unsigned number of the JSON grammar. *)
Inductive UnsignedNumber : jsstring -> Prop :=
| UnsignedNumber_intro int frac exp :
    IntPart int -> FracPart frac -> ExpPart exp -> UnsignedNumber (int ++ frac ++ exp).

(** A number of the JSON grammar. *)
Inductive NumberLexeme : jsstring -> Prop :=
| NumberPositive u : UnsignedNumber u -> NumberLexeme u
| NumberNegative u : UnsignedNumber u -> NumberLexeme (CC.minus :: u).

(** ** The JSON grammar and its reference decoding

    The grammar of JSON texts (ECMA-404, RFC 8259), each production with
    the value a decoder assigns to the text it derives.  The second index of
    a judgment is that value. *)

(** White space: space, horizontal tab, line feed, carriage return. *)
Definition isJSONws (c : Z) : Prop :=
  c = CC.space \/ c = CC.tab \/ c = CC.lineFeed \/ c = CC.carriageReturn.

Definition Ws (w : jsstring) : Prop := Forall isJSONws w.

(** The value of a hexadecimal digit. *)
Definition hexDigit (c : Z) : option Z :=
  if ((CC._0 <=? c) && (c <=? CC._9))%Z then Some (c - CC._0)%Z
  else if ((CC.A <=? c) && (c <=? CC.F))%Z then Some (c - CC.A + 10)%Z
  else if ((CC.a <=? c) && (c <=? CC.f))%Z then Some (c - CC.a + 10)%Z
  else None.

(** The character denoted by the escape [\c]. *)
Definition escaped (c : Z) : option Z :=
  if (c =? CC.doubleQuote)%Z then Some CC.doubleQuote
  else if (c =? CC.backslash)%Z then Some CC.backslash
  else if (c =? CC.slash)%Z then Some CC.slash
  else if (c =? CC.b)%Z then Some CC.backspace
  else if (c =? CC.f)%Z then Some CC.formFeed
  else if (c =? CC.n)%Z then Some CC.lineFeed
  else if (c =? CC.r)%Z then Some CC.carriageReturn
  else if (c =? CC.t)%Z then Some CC.tab
  else None.

(** A character that stands for itself in a string: anything but the
    double quote, the backslash and the control characters. *)
Definition plainChar (c : Z) : Prop :=
  (0x20 <= c)%Z /\ c <> CC.doubleQuote /\ c <> CC.backslash.

(** [StringBody body s]: [body] is the text between the quotes of a JSON
    string that denotes [s]. *)
Inductive StringBody : jsstring -> jsstring -> Prop :=
| SB_end : StringBody [] []
| SB_plain c body s :
    plainChar c -> StringBody body s -> StringBody (c :: body) (c :: s)
| SB_escape c d body s :
    escaped c = Some d -> StringBody body s ->
    StringBody (CC.backslash :: c :: body) (d :: s)
| SB_unicode h1 h2 h3 h4 d1 d2 d3 d4 body s :
    hexDigit h1 = Some d1 -> hexDigit h2 = Some d2 ->
    hexDigit h3 = Some d3 -> hexDigit h4 = Some d4 ->
    StringBody body s ->
    StringBody (CC.backslash :: CC.u :: h1 :: h2 :: h3 :: h4 :: body)
      ((((d1 * 16 + d2) * 16 + d3) * 16 + d4)%Z :: s).

(** The object a decoder builds from the members of an object, read from
    left to right. *)
Definition objectOf (members : list (jsstring * tree)) : list (jsstring * tree) :=
  fold_left (fun props kv => assign (fst kv) (snd kv) props) members [].

Inductive Value : jsstring -> tree -> Prop :=
| V_null : Value (js "null") TNull
| V_true : Value (js "true") (TBool true)
| V_false : Value (js "false") (TBool false)
| V_number lex : NumberLexeme lex -> Value lex (TNumber (NumLit lex))
| V_string body s :
    StringBody body s ->
    Value (CC.doubleQuote :: body ++ [CC.doubleQuote]) (TString s)
| V_array_empty w :
    Ws w -> Value (CC.openBracket :: w ++ [CC.closeBracket]) (TArray [])
| V_array t vs :
    Elements t vs -> Value (CC.openBracket :: t ++ [CC.closeBracket]) (TArray vs)
| V_object_empty w :
    Ws w -> Value (CC.openBrace :: w ++ [CC.closeBrace]) (TObject [])
| V_object t ms :
    Members t ms ->
    Value (CC.openBrace :: t ++ [CC.closeBrace]) (TObject (objectOf ms))
with Element : jsstring -> tree -> Prop :=
| E_intro w1 t v w2 : Ws w1 -> Value t v -> Ws w2 -> Element (w1 ++ t ++ w2) v
with Elements : jsstring -> list tree -> Prop :=
| Es_one t v : Element t v -> Elements t [v]
| Es_cons t v ts vs :
    Element t v -> Elements ts vs -> Elements (t ++ CC.comma :: ts) (v :: vs)
with Member : jsstring -> jsstring -> tree -> Prop :=
| M_intro w1 body k w2 t v :
    Ws w1 -> StringBody body k -> Ws w2 -> Element t v ->
    Member (w1 ++ CC.doubleQuote :: body ++ CC.doubleQuote :: w2 ++ CC.colon :: t) k v
with Members : jsstring -> list (jsstring * tree) -> Prop :=
| Ms_one t k v : Member t k v -> Members t [(k, v)]
| Ms_cons t k v ts ms :
    Member t k v -> Members ts ms -> Members (t ++ CC.comma :: ts) ((k, v) :: ms).

(** A JSON text: one value between optional white space. *)
Definition JsonText (text : jsstring) (v : tree) : Prop := Element text v.

(** Every object of the tree has each property name once. *)
Fixpoint uniqueKeys (t : tree) : Prop :=
  match t with
  | TArray items =>
      (fix all (l : list tree) : Prop :=
         match l with
         | [] => True
         | x :: l' => uniqueKeys x /\ all l'
         end) items
  | TObject props =>
      NoDup (map fst props)
      /\ (fix all (l : list (jsstring * tree)) : Prop :=
            match l with
            | [] => True
            | (_, x) :: l' => uniqueKeys x /\ all l'
            end) props
  | _ => True
  end.

(** The kind of a punctuation character. *)
Definition punctuation (c : Z) : option SyntaxKind.t :=
  if (c =? CC.openBrace)%Z then Some SyntaxKind.OpenBraceToken
  else if (c =? CC.closeBrace)%Z then Some SyntaxKind.CloseBraceToken
  else if (c =? CC.openBracket)%Z then Some SyntaxKind.OpenBracketToken
  else if (c =? CC.closeBracket)%Z then Some SyntaxKind.CloseBracketToken
  else if (c =? CC.colon)%Z then Some SyntaxKind.ColonToken
  else if (c =? CC.comma)%Z then Some SyntaxKind.CommaToken
  else None.

(** The text [l] does not go on with a character that could extend a
    word. *)
Definition word_ends (l : jsstring) : Prop :=
  match l with
  | c :: _ => isUnknownContentCharacter c = false
  | [] => True
  end.

(** The optional minus sign of a number. *)
Inductive MinusSign : jsstring -> Prop :=
| MinusNone : MinusSign []
| MinusSome : MinusSign [CC.minus].

(** ** Notions used in the proof that valid texts are parsed correctly *)

(** Tokens that the parser looks at: everything but white space, comments
    and unknown symbols. *)
Definition significant (k : SyntaxKind.t) : bool :=
  match k with
  | SyntaxKind.LineCommentTrivia | SyntaxKind.BlockCommentTrivia
  | SyntaxKind.LineBreakTrivia | SyntaxKind.Trivia | SyntaxKind.Unknown => false
  | _ => true
  end.

(** Tokens that start a value. *)
Definition starts_value (k : SyntaxKind.t) : bool :=
  match k with
  | SyntaxKind.OpenBraceToken | SyntaxKind.OpenBracketToken | SyntaxKind.StringLiteral
  | SyntaxKind.NumericLiteral | SyntaxKind.NullKeyword | SyntaxKind.TrueKeyword
  | SyntaxKind.FalseKeyword => true
  | _ => false
  end.

(** The text [l] begins with a token the parser looks at, scanned without
    error. *)
Definition lands (text l : jsstring) : Prop :=
  forall sc, skipn (Scanner.pos sc) text = l ->
    significant (Scanner.token (Scanner.scan text sc)) = true
    /\ Scanner.scanError (Scanner.scan text sc) = ScanError.None.

(** What may follow a value once white space is skipped: the end of the
    text, a comma, a closing bracket or a closing brace. *)
Definition Delim (l : jsstring) : Prop :=
  match l with
  | [] => True
  | c :: _ => c = CC.comma \/ c = CC.closeBracket \/ c = CC.closeBrace
  end.

(** A value that is not a reference, or a reference to a container
    allocated at [base] or later. *)
Definition fresh (base : nat) (v : jsval) : Prop :=
  match v with
  | JRef a => base <= a
  | _ => True
  end.

(** The container [c] once [onValue] has put [v] into it, with
    [currentProperty = cp]. *)
Definition attach (c : cell) (cp : option jsstring) (v : jsval) : cell :=
  match c with
  | CArray items => CArray (items ++ [v])
  | CObject props =>
      match cp with
      | Some k => CObject (assign k v props)
      | None => c
      end
  end.

(** The materializer has not thrown and its current parent is the
    container [c], at address [a]. *)
Definition MParent (m : Materializer.t) (a : nat) (c : cell) : Prop :=
  Materializer.thrown m = false
  /\ Materializer.currentParent m = Some a
  /\ nth_error (Materializer.store m) a = Some c.

(** Between [m] and [m'] one value was put into the current parent [c] at
    [a], nothing else changed but for the containers allocated meanwhile,
    and whatever is allocated later the value reads back as the tree [v]. *)
Definition Attached (m m' : Materializer.t) (a : nat) (c : cell) (v : tree) : Prop :=
  Materializer.thrown m' = false
  /\ Materializer.currentParent m' = Some a
  /\ Materializer.previousParents m' = Materializer.previousParents m
  /\ Materializer.errors m' = Materializer.errors m
  /\ exists v' new,
       Materializer.store m'
       = update a (attach c (Materializer.currentProperty m) v') (Materializer.store m) ++ new
       /\ fresh (List.length (Materializer.store m)) v'
       /\ forall ext,
            treeOf (List.length (Materializer.store m))
              (trees (new ++ ext) (List.length (Materializer.store m))) v' = v.

(** What may follow a value: white space or what [Delim] allows. *)
Definition Follow (l : jsstring) : Prop :=
  match l with
  | [] => True
  | c :: _ => isJSONws c \/ c = CC.comma \/ c = CC.closeBracket \/ c = CC.closeBrace
  end.

(** Between [m] and [m'] the values [items'] were appended to the array
    [items] at [a], and read back as the trees [vs]. *)
Definition ArrayFilled (m m' : Materializer.t) (a : nat) (items : list jsval)
    (vs : list tree) : Prop :=
  Materializer.thrown m' = false
  /\ Materializer.currentParent m' = Some a
  /\ Materializer.previousParents m' = Materializer.previousParents m
  /\ Materializer.errors m' = Materializer.errors m
  /\ exists items' new,
       Materializer.store m'
       = update a (CArray (items ++ items')) (Materializer.store m) ++ new
       /\ Forall (fresh (List.length (Materializer.store m))) items'
       /\ forall ext,
            map (treeOf (List.length (Materializer.store m))
                   (trees (new ++ ext) (List.length (Materializer.store m)))) items'
            = vs.

(** Assigning the members [ms] to the properties [props], from left to
    right. *)
Definition assignAll {A : Type} (ms props : list (jsstring * A)) : list (jsstring * A) :=
  fold_left (fun acc kv => assign (fst kv) (snd kv) acc) ms props.

(** Between [m] and [m'] the members [ms'] were assigned to the object
    [props] at [a], and read back as the members [ms]. *)
Definition ObjectFilled (m m' : Materializer.t) (a : nat) (props : list (jsstring * jsval))
    (ms : list (jsstring * tree)) : Prop :=
  Materializer.thrown m' = false
  /\ Materializer.currentParent m' = Some a
  /\ Materializer.previousParents m' = Materializer.previousParents m
  /\ Materializer.errors m' = Materializer.errors m
  /\ exists ms' new,
       Materializer.store m'
       = update a (CObject (assignAll ms' props)) (Materializer.store m) ++ new
       /\ Forall (fun kv => fresh (List.length (Materializer.store m)) (snd kv)) ms'
       /\ forall ext,
            map (fun kv =>
                   (fst kv,
                    treeOf (List.length (Materializer.store m))
                      (trees (new ++ ext) (List.length (Materializer.store m))) (snd kv)))
              ms'
            = ms.

(** The statements proved by induction on the derivations of the grammar,
    for [parse] on the text [text]: what [parseValue] does on a value,
    what the loop of [parseArray] does on the elements of an array, and what
    the loop of [parseObject] does on the members of an object. *)
Section Correct.
Variable text : jsstring.
Variable options : ParseOptions.t.

Definition Value_ok (t : jsstring) (v : tree) : Prop :=
  forall w l sc, Ws w -> Delim l ->
    skipn (Scanner.pos sc) text = t ++ w ++ l ->
    (starts_value (Scanner.token (Scanner.scan text sc)) = true
     /\ Scanner.scanError (Scanner.scan text sc) = ScanError.None)
    /\ forall fuel st b st' a c,
         Visit.scanner st = Scanner.scan text sc ->
         MParent (Visit.vis st) a c ->
         Visit.parseValue Materializer.visitor text options fuel st = Some (b, st') ->
         b = true
         /\ (exists sc',
               Scanner.pos sc' = Scanner.pos sc + List.length t + List.length w
               /\ Visit.scanner st' = Scanner.scan text sc')
         /\ Attached (Visit.vis st) (Visit.vis st') a c v.

Definition Element_ok (t : jsstring) (v : tree) : Prop :=
  forall l n0 st0 st1, Delim l ->
    skipn (Scanner.pos (Visit.scanner st0)) text = t ++ l ->
    Visit.scanNext Materializer.visitor text options n0 st0 = Some st1 ->
    Visit.vis st1 = Visit.vis st0
    /\ starts_value (Visit.getToken st1) = true
    /\ forall fuel b st' a c,
         MParent (Visit.vis st0) a c ->
         Visit.parseValue Materializer.visitor text options fuel st1 = Some (b, st') ->
         b = true
         /\ (exists sc',
               Scanner.pos sc' = Scanner.pos (Visit.scanner st0) + List.length t
               /\ Visit.scanner st' = Scanner.scan text sc')
         /\ Attached (Visit.vis st0) (Visit.vis st') a c v.

Definition Elements_ok (t : jsstring) (vs : list tree) : Prop :=
  forall l n0 st0 st1,
    skipn (Scanner.pos (Visit.scanner st0)) text = t ++ CC.closeBracket :: l ->
    Visit.scanNext Materializer.visitor text options n0 st0 = Some st1 ->
    Visit.vis st1 = Visit.vis st0
    /\ starts_value (Visit.getToken st1) = true
    /\ forall k n1 n2 st2 st' a items,
         MParent (Visit.vis st0) a (CArray items) ->
         Visit.parseArray_element Materializer.visitor text options
           (Visit.parseValue Materializer.visitor text options k) n1 st1 = Some st2 ->
         Visit.parseArray_loop Materializer.visitor text options
           (Visit.parseValue Materializer.visitor text options k) n2 true st2 = Some st' ->
         (exists sc',
            Scanner.pos sc' = Scanner.pos (Visit.scanner st0) + List.length t
            /\ Visit.scanner st' = Scanner.scan text sc')
         /\ ArrayFilled (Visit.vis st0) (Visit.vis st') a items vs.

Definition Member_ok (t : jsstring) (key : jsstring) (v : tree) : Prop :=
  forall l n0 st0 st1, Delim l ->
    skipn (Scanner.pos (Visit.scanner st0)) text = t ++ l ->
    Visit.scanNext Materializer.visitor text options n0 st0 = Some st1 ->
    Visit.vis st1 = Visit.vis st0
    /\ Visit.getToken st1 = SyntaxKind.StringLiteral
    /\ forall k fuel st' a props,
         MParent (Visit.vis st0) a (CObject props) ->
         Visit.parseObject_member Materializer.visitor text options
           (Visit.parseValue Materializer.visitor text options k) fuel st1 = Some st' ->
         (exists sc',
            Scanner.pos sc' = Scanner.pos (Visit.scanner st0) + List.length t
            /\ Visit.scanner st' = Scanner.scan text sc')
         /\ ObjectFilled (Visit.vis st0) (Visit.vis st') a props [(key, v)].

Definition Members_ok (t : jsstring) (ms : list (jsstring * tree)) : Prop :=
  forall l n0 st0 st1,
    skipn (Scanner.pos (Visit.scanner st0)) text = t ++ CC.closeBrace :: l ->
    Visit.scanNext Materializer.visitor text options n0 st0 = Some st1 ->
    Visit.vis st1 = Visit.vis st0
    /\ Visit.getToken st1 = SyntaxKind.StringLiteral
    /\ forall k n1 n2 st2 st' a props,
         MParent (Visit.vis st0) a (CObject props) ->
         Visit.parseObject_member Materializer.visitor text options
           (Visit.parseValue Materializer.visitor text options k) n1 st1 = Some st2 ->
         Visit.parseObject_loop Materializer.visitor text options
           (Visit.parseValue Materializer.visitor text options k) n2 true st2 = Some st' ->
         (exists sc',
            Scanner.pos sc' = Scanner.pos (Visit.scanner st0) + List.length t
            /\ Visit.scanner st' = Scanner.scan text sc')
         /\ ObjectFilled (Visit.vis st0) (Visit.vis st') a props ms.

End Correct.

Scheme Value_mind := Minimality for Value Sort Prop
  with Element_mind := Minimality for Element Sort Prop
  with Elements_mind := Minimality for Elements Sort Prop
  with Member_mind := Minimality for Member Sort Prop
  with Members_mind := Minimality for Members Sort Prop.

Combined Scheme Json_mutind
  from Value_mind, Element_mind, Elements_mind, Member_mind, Members_mind.

(** ** Texts and values used as examples

    In the text literals, as in the comments, an apostrophe stands for the
    double quote. *)

(** The object whose only property is a. *)
Definition prop_a (v : tree) : tree := TObject [(js "a", v)].

Definition perr (e : ParseErrorCode.t) (offset length : nat) : ParseError.t :=
  ParseError.mk e offset length.

(** The state in which [parseObject] leaves its loop on the text [{]: the
    end of the input, at offset 1. *)
Definition at_end_of_open_brace : Visit.PState (list Event) :=
  Visit.mkP (Scanner.mk 1 [] 1 SyntaxKind.EOF ScanError.None) [ObjectBegin 0 1].

(** The text of an object with one property, an array of a number and
    null, and the value it denotes. *)
Definition nested_text : jsstring := js "{'k': [1, null]}".

Definition nested_value : tree :=
  TObject [(js "k", TArray [TNumber (NumLit (js "1")); TNull])].

(** The members of an object that names the property a twice. *)
Definition twice_members : jsstring := js "'a':1,'a':2".


(** ** The calls made to a visitor

    [visit] talks to its visitor only through the nine callbacks, each
    called with the offset and the length of the current token.  A call is
    written as the [Event] the recording visitor stores for it. *)

(** The effect of one call on the state of the visitor [v]; a callback
    that the visitor leaves out does nothing. *)
Definition call (V : Type) (v : JSONVisitor V) (e : Event) (x : V) : V :=
  match e with
  | ObjectBegin o l => match onObjectBegin v with Some f => f o l x | None => x end
  | ObjectProperty p o l =>
      match onObjectProperty v with Some f => f p o l x | None => x end
  | ObjectEnd o l => match onObjectEnd v with Some f => f o l x | None => x end
  | ArrayBegin o l => match onArrayBegin v with Some f => f o l x | None => x end
  | ArrayEnd o l => match onArrayEnd v with Some f => f o l x | None => x end
  | LiteralValue a o l => match onLiteralValue v with Some f => f a o l x | None => x end
  | Separator c o l => match onSeparator v with Some f => f c o l x | None => x end
  | Comment o l => match onComment v with Some f => f o l x | None => x end
  | Error c o l => match onError v with Some f => f c o l x | None => x end
  end.

(** The calls [tr] made one after the other. *)
Definition replay (V : Type) (v : JSONVisitor V) (tr : list Event) (x : V) : V :=
  fold_left (fun acc e => call v e acc) tr x.

Definition eventOffset (e : Event) : nat :=
  match e with
  | ObjectBegin o _ | ObjectProperty _ o _ | ObjectEnd o _ | ArrayBegin o _
  | ArrayEnd o _ | LiteralValue _ o _ | Separator _ o _ | Comment o _ | Error _ o _ => o
  end.

Definition eventLength (e : Event) : nat :=
  match e with
  | ObjectBegin _ l | ObjectProperty _ _ l | ObjectEnd _ l | ArrayBegin _ l
  | ArrayEnd _ l | LiteralValue _ _ l | Separator _ _ l | Comment _ l | Error _ _ l => l
  end.

(** What [visit] guarantees about a call it makes while the scanner is in
    the state [s]: the offset and the length are those of the current token,
    and the token is of the kind the call reports. *)
Definition legal (options : ParseOptions.t) (s : Scanner.t) (e : Event) : Prop :=
  eventOffset e = Scanner.getTokenOffset s
  /\ eventLength e = Scanner.getTokenLength s
  /\ match e with
     | ObjectBegin _ _ => Scanner.token s = SyntaxKind.OpenBraceToken
     | ArrayBegin _ _ => Scanner.token s = SyntaxKind.OpenBracketToken
     | ObjectProperty p _ _ =>
         Scanner.token s = SyntaxKind.StringLiteral /\ p = Scanner.value s
     | LiteralValue a _ _ =>
         match a with
         | JString str => Scanner.token s = SyntaxKind.StringLiteral /\ str = Scanner.value s
         | JNumber n =>
             Scanner.token s = SyntaxKind.NumericLiteral
             /\ (n = NumLit (Scanner.value s) \/ n = zero)
         | JNull => Scanner.token s = SyntaxKind.NullKeyword
         | JBool true => Scanner.token s = SyntaxKind.TrueKeyword
         | JBool false => Scanner.token s = SyntaxKind.FalseKeyword
         | JUndefined | JRef _ => False
         end
     | Separator c _ _ =>
         (c = [CC.colon] /\ Scanner.token s = SyntaxKind.ColonToken)
         \/ (c = [CC.comma] /\ Scanner.token s = SyntaxKind.CommaToken)
     | Comment _ _ =>
         ParseOptions.disallowComments options = false
         /\ (Scanner.token s = SyntaxKind.LineCommentTrivia
             \/ Scanner.token s = SyntaxKind.BlockCommentTrivia)
     | Error c _ _ =>
         c = ParseErrorCode.InvalidCommentToken ->
         ParseOptions.disallowComments options = true
         /\ (Scanner.token s = SyntaxKind.LineCommentTrivia
             \/ Scanner.token s = SyntaxKind.BlockCommentTrivia)
     | ObjectEnd _ _ | ArrayEnd _ _ => True
     end.

(** Two runs of [visit], with visitors [v1] and [v2], in step: the same
    scanner, and visitor states related by [R]. *)
Section InStep.
Variables V1 V2 : Type.
Variable R : Scanner.t -> V1 -> V2 -> Prop.

Definition stepR (a : Visit.PState V1) (b : Visit.PState V2) : Prop :=
  Visit.scanner a = Visit.scanner b /\ R (Visit.scanner a) (Visit.vis a) (Visit.vis b).

Definition optR (r1 : option (Visit.PState V1)) (r2 : option (Visit.PState V2)) : Prop :=
  match r1, r2 with
  | Some a, Some b => stepR a b
  | None, None => True
  | _, _ => False
  end.

Definition resR (r1 : option (bool * Visit.PState V1))
    (r2 : option (bool * Visit.PState V2)) : Prop :=
  match r1, r2 with
  | Some (b1, a), Some (b2, b) => b1 = b2 /\ stepR a b
  | None, None => True
  | _, _ => False
  end.
End InStep.

(** The errors among the calls [tr], as [parse] stores them. *)
Definition errorsOf (tr : list Event) : list ParseError.t :=
  flat_map (fun e => match e with
                     | Error c o l => [ParseError.mk c o l]
                     | _ => []
                     end) tr.

(** The chain of containers the materializer is inside of, innermost
    first. *)
Definition parents (m : Materializer.t) : list (option nat) :=
  Materializer.currentParent m :: Materializer.previousParents m.

(** The materializer has not thrown and every container it is inside of
    exists. *)
Definition settled (m : Materializer.t) : Prop :=
  Materializer.thrown m = false
  /\ Forall (fun p => exists a, p = Some a /\ a < List.length (Materializer.store m))
       (parents m).

(** A list of offsets that never goes back. *)
Fixpoint ascending (l : list nat) : Prop :=
  match l with
  | [] => True
  | x :: l' => Forall (le x) l' /\ ascending l'
  end.

(** A call lies within the text, but for its end, which may be one
    position after it. *)
Definition withinText (text : jsstring) (e : Event) : Prop :=
  eventOffset e <= List.length text
  /\ eventOffset e + eventLength e <= S (List.length text).

(** The calls a visitor does not receive when comments are disallowed, and
    the one it does not receive when they are allowed. *)
Definition isComment (e : Event) : bool :=
  match e with Comment _ _ => true | _ => false end.

Definition isInvalidCommentToken (e : Event) : bool :=
  match e with
  | Error ParseErrorCode.InvalidCommentToken _ _ => true
  | _ => false
  end.

(** The call reports its position exactly: a begin sits on its opening
    character, a separator on a colon or comma, each of length one. *)
Definition exactPosition (text : jsstring) (e : Event) : Prop :=
  match e with
  | ObjectBegin o l => l = 1 /\ charCodeAt text o = Some CC.openBrace
  | ArrayBegin o l => l = 1 /\ charCodeAt text o = Some CC.openBracket
  | Separator c o l => l = 1 /\ (exists ch, c = [ch] /\ charCodeAt text o = Some ch)
  | _ => True
  end.

(** Calls that report no value: errors and comments. *)
Definition isNoise (e : Event) : bool :=
  match e with Error _ _ _ | Comment _ _ => true | _ => false end.

Definition noisy (tr : list Event) : Prop := Forall (fun e => isNoise e = true) tr.

(** The materializer [m] had it been started with the errors [es] already
    in its array. *)
Definition withErrors (es : list ParseError.t) (m : Materializer.t) : Materializer.t :=
  Materializer.mk (Materializer.store m) (Materializer.currentProperty m)
    (Materializer.currentParent m) (Materializer.previousParents m)
    (es ++ Materializer.errors m) (Materializer.thrown m).

(** ** Strings that are not well formed *)

(** A character that [scanString] steps over: anything but the double
    quote, the backslash, and the two line breaks among the control
    characters. *)
Definition rawChar (c : Z) : Prop :=
  c <> CC.doubleQuote /\ c <> CC.backslash /\ c <> CC.lineFeed /\ c <> CC.carriageReturn.

(** [ch >= 0 && ch <= 0x1F] *)
Definition isControl (c : Z) : bool := ((0 <=? c) && (c <=? 0x1F))%Z.

(** The text [l] is at its end or goes on with a line feed or a carriage
    return. *)
Definition line_ends (l : jsstring) : Prop :=
  match l with
  | [] => True
  | c :: _ => c = CC.lineFeed \/ c = CC.carriageReturn
  end.

(** ** Colours *)

Section ColorNotions.
Variable cc : CharCode.t.
Local Open Scope Z_scope.

(** A digit or a capital from A to F. *)
Definition upperHex (c : Z) : Prop :=
  (CharCode.Digit0 cc <= c <= CharCode.Digit9 cc) \/ (CharCode.A cc <= c <= CharCode.F cc).

(** A hex digit, in either case. *)
Definition anyHex (c : Z) : Prop :=
  upperHex c \/ (CharCode.a cc <= c <= CharCode.f cc).

(** The colours [normalizeColor] returns: a hash sign and six capital hex
    digits, or eight of which the last two are not both F. *)
Definition normalForm (n : jsstring) : Prop :=
  exists ds,
    n = CharCode.Hash cc :: ds
    /\ Forall upperHex ds
    /\ (List.length ds = 6%nat
        \/ (List.length ds = 8%nat
            /\ ~ (nth_error ds 6 = Some (CharCode.F cc)
                  /\ nth_error ds 7 = Some (CharCode.F cc)))).

(** What the loop of [normalizeColor] pushes for the characters [ds]. *)
Definition expandHex (double : bool) (ds : jsstring) : list Z :=
  flat_map (fun c => if double then [Colors.hexUpper cc c; Colors.hexUpper cc c]
                     else [Colors.hexUpper cc c]) ds.

(** The invariant of a [TokenColorIndex]: the identifiers in use are 1 to
    [_lastColorId], the array holds a colour at each of them and a hole at
    0, and the map sends every colour of the array to its place and nothing
    else anywhere. *)
Definition indexed (index : Colors.TokenColorIndex.t) : Prop :=
  let last := Colors.TokenColorIndex._lastColorId index in
  let arr := Colors.TokenColorIndex._id2color index in
  let map := Colors.TokenColorIndex._color2id index in
  (List.length arr = if (last =? 0)%nat then 0%nat else S last)
  /\ (forall i c, nth_error arr i = Some (Some c) ->
        (1 <= i <= last)%nat /\ lookup c map = Some i /\ normalForm c)
  /\ (forall c i, lookup c map = Some i -> nth_error arr i = Some (Some c))
  /\ (forall i, (1 <= i <= last)%nat -> exists c, nth_error arr i = Some (Some c)).
End ColorNotions.

(** ** Texts and values used as further examples *)

(** The hex digits of a short colour, each written twice. *)
Definition doubled (ds : jsstring) : jsstring := flat_map (fun c => [c; c]) ds.

(** The state of the scanner once [visit] has looked at the text of one
    closing bracket. *)
Definition at_close_bracket : Visit.PState (list Event) :=
  Visit.mkP (Scanner.mk 1 [] 0 SyntaxKind.CloseBracketToken ScanError.None)
    [Error ParseErrorCode.ValueExpected 0 1].

(** A parameter for [Color] in examples that pass strings only. *)
Definition noColor : Type := Empty_set.
Definition formatNoColor (c : noColor) : jsstring := match c with end.

(** ** Comments and white space *)

(** The text holds no asterisk that a slash follows. *)
Fixpoint noClose (l : jsstring) : bool :=
  match l with
  | ch :: ((ch1 :: _) as l') =>
      negb ((ch =? CC.asterisk)%Z && (ch1 =? CC.slash)%Z) && noClose l'
  | _ => true
  end.

(** The text does not go on with white space. *)
Definition space_ends (l : jsstring) : Prop :=
  match l with
  | c :: _ => isWhitespace c = false
  | [] => True
  end.

(** * Properties *)

Unset Implicit Arguments.

Arguments charCodeAt : simpl never.
Arguments substring : simpl never.
Arguments Scanner.scanEscape : simpl never.

(** ** Token kinds *)

Lemma SyntaxKind_eqb_eq a b : SyntaxKind.eqb a b = true <-> a = b.
Proof.
  unfold SyntaxKind.eqb; split; [ | intros ->; apply Z.eqb_refl ].
  destruct a, b; simpl; intros H; try reflexivity; discriminate H.
Qed.

Lemma SyntaxKind_eqb_refl a : SyntaxKind.eqb a a = true.
Proof. apply SyntaxKind_eqb_eq; reflexivity. Qed.

Lemma SyntaxKind_eqb_neq a b : SyntaxKind.eqb a b = false <-> a <> b.
Proof.
  split.
  - intros H E; apply SyntaxKind_eqb_eq in E; congruence.
  - intros H; destruct (SyntaxKind.eqb a b) eqn:E;
      [ apply SyntaxKind_eqb_eq in E; contradiction | reflexivity ].
Qed.

(** ** The scanner always advances *)

Section ScannerProgress.
Variable text : jsstring.

Lemma scanHexDigits_pos count : forall p h,
  p <= fst (Scanner.scanHexDigits text count p h).
Proof.
  induction count as [|k IH]; intros p h; simpl; [lia|].
  destruct (charCodeAt text p) as [ch|]; simpl; [|lia].
  repeat match goal with
         | |- context [if ?c then _ else _] => destruct c
         end; simpl; try lia;
    match goal with |- context [Scanner.scanHexDigits _ _ ?q ?v] =>
      specialize (IH q v); lia end.
Qed.

Lemma scanEscape_pos s result ch2 :
  Scanner.pos s <= Scanner.pos (fst (Scanner.scanEscape text s result ch2)).
Proof.
  unfold Scanner.scanEscape.
  pose proof (scanHexDigits_pos 4 (Scanner.pos s) 0) as Hh.
  destruct (Scanner.scanHexDigits text 4 (Scanner.pos s) 0) as [p' ch3].
  repeat match goal with
         | |- context [if ?c then _ else _] => destruct c
         end; simpl in *; lia.
Qed.

Lemma scanString_loop_pos budget : forall s result start,
  Scanner.pos s <= Scanner.pos (fst (Scanner.scanString_loop text budget s result start)).
Proof.
  induction budget as [|k IH]; intros s result start; [simpl; lia|].
  simpl.
  repeat match goal with
         | |- context [if ?c then _ else _] => destruct c
         end; simpl; try lia.
  - match goal with
    | |- _ <= Scanner.pos (fst (Scanner.scanString_loop _ _ (fst ?sr) ?r' ?st')) =>
        specialize (IH (fst sr) r' st');
        pose proof (scanEscape_pos (Scanner.set_pos s (S (S (Scanner.pos s))))
                      (result ++ substring text start (Scanner.pos s))
                      (charCodeAt text (S (Scanner.pos s)))) as He;
        simpl in He; lia
    end.
  - match goal with
    | |- _ <= Scanner.pos (fst (Scanner.scanString_loop _ _ ?s' ?r' ?st')) =>
        specialize (IH s' r' st'); simpl in IH; lia
    end.
  - match goal with
    | |- _ <= Scanner.pos (fst (Scanner.scanString_loop _ _ ?s' ?r' ?st')) =>
        specialize (IH s' r' st'); simpl in IH; lia
    end.
Qed.

Lemma blockCommentLoop_pos l : forall p,
  p <= fst (Scanner.blockCommentLoop l p).
Proof.
  induction l as [|ch l IH]; intros p; simpl; [lia|].
  destruct l as [|ch1 l']; simpl; [lia|].
  destruct ((ch =? CC.asterisk)%Z && (ch1 =? CC.slash)%Z); simpl; [lia|].
  specialize (IH (S p)); simpl in IH; lia.
Qed.

Lemma scanNumber_pos s :
  Scanner.pos s < Scanner.pos (fst (Scanner.scanNumber text s)).
Proof.
  unfold Scanner.scanNumber, Scanner.scanExponent, Scanner.skipDigits.
  repeat match goal with
         | |- context [if ?c then _ else _] => destruct c
         end; simpl; lia.
Qed.

Lemma whitespaceRun_length c l :
  isWhitespace c = true -> 1 <= List.length (Scanner.whitespaceRun (c :: l)).
Proof. intros H; simpl; rewrite H; simpl; lia. Qed.

Lemma skipn_cons_nth (l : jsstring) : forall p c,
  charCodeAt l p = Some c -> exists l', skipn p l = c :: l'.
Proof.
  unfold charCodeAt; induction l as [|x l IH]; intros [|p] c H; simpl in *;
    try discriminate.
  - injection H as ->; eauto.
  - eauto.
Qed.

(** Past the end of the text the scanner reports the end of the input and
    stays where it is. *)
Lemma scan_at_end s :
  List.length text <= Scanner.pos s ->
  Scanner.scan text s
  = Scanner.mk (Scanner.pos s) [] (List.length text) SyntaxKind.EOF ScanError.None.
Proof.
  intros H; unfold Scanner.scan, Scanner.scanNext; simpl.
  apply Nat.leb_le in H; rewrite H; reflexivity.
Qed.

(** Before the end of the text every token is at least one character long. *)
Lemma scan_progress s :
  Scanner.pos s < List.length text ->
  Scanner.pos s < Scanner.pos (Scanner.scan text s).
Proof.
  intros H; unfold Scanner.scan, Scanner.scanNext; simpl.
  destruct (List.length text <=? Scanner.pos s) eqn:E;
    [apply Nat.leb_le in E; lia|].
  destruct (charCodeAt text (Scanner.pos s)) as [c|] eqn:Ec;
    [|apply nth_error_None in Ec; lia].
  simpl.
  destruct (isWhitespace c) eqn:Ews.
  { destruct (skipn_cons_nth _ _ _ Ec) as [l' ->].
    pose proof (whitespaceRun_length c l' Ews); simpl in *; lia. }
  repeat match goal with
         | |- context [if ?c then _ else _] => destruct c eqn:?
         | |- context [let '(_, _) := ?x in _] => destruct x eqn:?
         end; simpl; try lia;
    try match goal with
        | H : negb (_ =? _)%nat = true |- _ =>
            apply negb_true_iff in H; apply Nat.eqb_neq in H; simpl in H; lia
        end.
  - match goal with H : Scanner.scanString _ ?s0 = _ |- _ =>
      pose proof (scanString_loop_pos (S (List.length text)) s0 [] (Scanner.pos s0)) as Hp;
      unfold Scanner.scanString in H; rewrite H in Hp; simpl in Hp; lia end.
  - unfold Scanner.skipLine; lia.
  - match goal with H : Scanner.blockCommentLoop ?l ?q = _ |- _ =>
      pose proof (blockCommentLoop_pos l q) as Hp; rewrite H in Hp; simpl in Hp; lia end.
  - match goal with H : Scanner.blockCommentLoop ?l ?q = _ |- _ =>
      pose proof (blockCommentLoop_pos l q) as Hp; rewrite H in Hp; simpl in Hp; lia end.
  - match goal with H : Scanner.scanNumber _ ?s0 = _ |- _ =>
      pose proof (scanNumber_pos s0) as Hp; rewrite H in Hp; simpl in Hp; lia end.
  - match goal with H : Scanner.scanNumber _ ?s0 = _ |- _ =>
      pose proof (scanNumber_pos s0) as Hp; rewrite H in Hp; simpl in Hp; lia end.
Qed.

End ScannerProgress.

(** ** [visit] never runs out of fuel *)

Arguments Visit.handleError : simpl never.
Arguments Visit.parseString : simpl never.
Arguments Visit.parseLiteral : simpl never.
Arguments Visit.parseProperty : simpl never.
Arguments Visit.parseObject : simpl never.
Arguments Visit.parseObject_close : simpl never.
Arguments Visit.parseArray : simpl never.
Arguments Visit.parseArray_close : simpl never.
Arguments Visit.parseObject_member : simpl never.
Arguments Visit.parseObject_step : simpl never.
Arguments Visit.parseArray_element : simpl never.
Arguments Visit.parseArray_step : simpl never.
Arguments Visit.reportScanError : simpl never.
Arguments Visit.handleError0 : simpl never.
Arguments Scanner.scan : simpl never.

Section VisitScanner.
Variable V : Type.
Variable visitor : JSONVisitor V.
Variable text : jsstring.
Variable options : ParseOptions.t.

(** The callbacks leave the scanner alone. *)
Lemma scanner_toNoArgVisit f (st : Visit.PState V) :
  Visit.scanner (Visit.toNoArgVisit f st) = Visit.scanner st.
Proof. unfold Visit.toNoArgVisit; destruct f; reflexivity. Qed.

Lemma scanner_toOneArgVisit (T : Type) f (x : T) (st : Visit.PState V) :
  Visit.scanner (Visit.toOneArgVisit f x st) = Visit.scanner st.
Proof. unfold Visit.toOneArgVisit; destruct f; reflexivity. Qed.

Lemma scanner_onObjectBegin st :
  Visit.scanner (Visit.onObjectBegin' visitor st) = Visit.scanner st.
Proof. apply scanner_toNoArgVisit. Qed.

Lemma scanner_onObjectProperty x st :
  Visit.scanner (Visit.onObjectProperty' visitor x st) = Visit.scanner st.
Proof. apply scanner_toOneArgVisit. Qed.

Lemma scanner_onObjectEnd st :
  Visit.scanner (Visit.onObjectEnd' visitor st) = Visit.scanner st.
Proof. apply scanner_toNoArgVisit. Qed.

Lemma scanner_onArrayBegin st :
  Visit.scanner (Visit.onArrayBegin' visitor st) = Visit.scanner st.
Proof. apply scanner_toNoArgVisit. Qed.

Lemma scanner_onArrayEnd st :
  Visit.scanner (Visit.onArrayEnd' visitor st) = Visit.scanner st.
Proof. apply scanner_toNoArgVisit. Qed.

Lemma scanner_onLiteralValue x st :
  Visit.scanner (Visit.onLiteralValue' visitor x st) = Visit.scanner st.
Proof. apply scanner_toOneArgVisit. Qed.

Lemma scanner_onSeparator x st :
  Visit.scanner (Visit.onSeparator' visitor x st) = Visit.scanner st.
Proof. apply scanner_toOneArgVisit. Qed.

Lemma scanner_onComment st :
  Visit.scanner (Visit.onComment' visitor st) = Visit.scanner st.
Proof. apply scanner_toNoArgVisit. Qed.

Lemma scanner_onError x st :
  Visit.scanner (Visit.onError' visitor x st) = Visit.scanner st.
Proof. apply scanner_toOneArgVisit. Qed.

Lemma scanner_handleError0 x st :
  Visit.scanner (Visit.handleError0 visitor x st) = Visit.scanner st.
Proof. apply scanner_toOneArgVisit. Qed.

Lemma scanner_reportScanError st :
  Visit.scanner (Visit.reportScanError visitor options st) = Visit.scanner st.
Proof.
  unfold Visit.reportScanError.
  destruct (Scanner.getTokenError (Visit.scanner st));
    try destruct (negb (Visit.disallowComments options));
    try apply scanner_handleError0; reflexivity.
Qed.

(** [handleError(error)] without skip lists is the error callback alone. *)
Lemma handleError_nil error fuel st :
  Visit.handleError visitor text options error [] [] fuel st
  = Some (Visit.handleError0 visitor error st).
Proof. reflexivity. Qed.

End VisitScanner.

Create Rewrite HintDb scanner_rw.

#[export] Hint Rewrite scanner_onObjectBegin scanner_onObjectProperty scanner_onObjectEnd
  scanner_onArrayBegin scanner_onArrayEnd scanner_onLiteralValue scanner_onSeparator
  scanner_onComment scanner_onError scanner_handleError0 scanner_reportScanError
  : scanner_rw.

Ltac scanner_simpl :=
  unfold Visit.getToken, Scanner.getToken in *;
  autorewrite with scanner_rw in *; simpl Visit.scanner in *.

Lemma weight_le_remaining text sc :
  remaining text sc <= weight text sc <= remaining text sc + 1.
Proof.
  unfold weight; destruct (SyntaxKind.eqb (Scanner.token sc) SyntaxKind.EOF); lia.
Qed.

Lemma weight_not_eof text sc :
  Scanner.token sc <> SyntaxKind.EOF -> weight text sc = remaining text sc + 1.
Proof.
  intros H; unfold weight; apply SyntaxKind_eqb_neq in H; rewrite H; reflexivity.
Qed.

Lemma weight_eof text sc :
  Scanner.token sc = SyntaxKind.EOF -> weight text sc = remaining text sc.
Proof.
  intros H; unfold weight; rewrite H; simpl; lia.
Qed.

(** One call of the scanner: the weight of the result is bounded by the
    text that remained, and a token other than the end of the input is only
    produced before the end of the text. *)
Lemma scan_weight text sc :
  weight text (Scanner.scan text sc) <= remaining text sc
  /\ (Scanner.token (Scanner.scan text sc) <> SyntaxKind.EOF ->
      remaining text (Scanner.scan text sc) < remaining text sc).
Proof.
  destruct (Nat.le_gt_cases (List.length text) (Scanner.pos sc)) as [H|H].
  - rewrite (scan_at_end text sc H); unfold weight, remaining; simpl.
    split; [lia | congruence].
  - pose proof (scan_progress text sc H) as Hp.
    pose proof (weight_le_remaining text (Scanner.scan text sc)) as Hw.
    unfold remaining in *; split; lia.
Qed.

Section VisitTotal.
Variable V : Type.
Variable visitor : JSONVisitor V.
Variable text : jsstring.
Variable options : ParseOptions.t.

Lemma scanNext_total fuel : forall st : Visit.PState V,
  remaining text (Visit.scanner st) + 2 <= fuel ->
  exists st', Visit.scanNext visitor text options fuel st = Some st'
              /\ weight text (Visit.scanner st') <= remaining text (Visit.scanner st).
Proof.
  induction fuel as [|n IH]; intros st Hf; [lia|].
  simpl.
  set (sc := Scanner.scan text (Visit.scanner st)).
  pose proof (scan_weight text (Visit.scanner st)) as [Hw Hr]; fold sc in Hw, Hr.
  assert (Hrec : forall st1 : Visit.PState V,
             Visit.scanner st1 = sc -> Scanner.token sc <> SyntaxKind.EOF ->
             exists st', Visit.scanNext visitor text options n st1 = Some st'
                         /\ weight text (Visit.scanner st')
                            <= remaining text (Visit.scanner st)).
  { intros st1 E1 Hne. specialize (Hr Hne).
    destruct (IH st1) as (st' & E & Hst'); [rewrite E1; lia|].
    exists st'; split; [exact E|]. rewrite E1 in Hst'; lia. }
  unfold Visit.getToken, Scanner.getToken; simpl Visit.scanner; fold sc.
  destruct (Scanner.token sc) eqn:Etok;
    try (eexists; split; [reflexivity|]; scanner_simpl; fold sc; exact Hw);
    apply Hrec; try congruence;
    try destruct (Visit.disallowComments options); scanner_simpl; reflexivity.
Qed.

Lemma skipTokens_total fuel : forall after until (st : Visit.PState V),
  weight text (Visit.scanner st) + 2 <= fuel ->
  exists st', Visit.skipTokens visitor text options fuel after until st = Some st'
              /\ weight text (Visit.scanner st') <= weight text (Visit.scanner st)
              /\ (Visit.getToken st <> SyntaxKind.EOF ->
                  Visit.mem (Visit.getToken st) until = false ->
                  weight text (Visit.scanner st') < weight text (Visit.scanner st)).
Proof.
  induction fuel as [|n IH]; intros after until st Hf; [lia|].
  simpl.
  destruct (SyntaxKind.eqb (Visit.getToken st) SyntaxKind.EOF) eqn:Eeof.
  { exists st; split; [reflexivity|]; split; [lia|].
    apply SyntaxKind_eqb_eq in Eeof; congruence. }
  apply SyntaxKind_eqb_neq in Eeof.
  pose proof (weight_not_eof text (Visit.scanner st) Eeof) as Hw.
  destruct (scanNext_total n st) as (st1 & E1 & H1); [lia|].
  destruct (Visit.mem (Visit.getToken st) after).
  { exists st1; split; [exact E1|]; split; [lia|]; intros; lia. }
  destruct (Visit.mem (Visit.getToken st) until) eqn:Eu.
  { exists st; split; [reflexivity|]; split; [lia|]. intros; congruence. }
  rewrite E1.
  destruct (IH after until st1) as (st' & E & Hle & _); [lia|].
  exists st'; split; [exact E|]; split; [lia|]; intros; lia.
Qed.

Lemma handleError_total error after until fuel (st : Visit.PState V) :
  weight text (Visit.scanner st) + 2 <= fuel ->
  exists st', Visit.handleError visitor text options error after until fuel st = Some st'
              /\ weight text (Visit.scanner st') <= weight text (Visit.scanner st)
              /\ (Visit.getToken st <> SyntaxKind.EOF ->
                  Visit.mem (Visit.getToken st) until = false ->
                  until <> [] ->
                  weight text (Visit.scanner st') < weight text (Visit.scanner st)).
Proof.
  intros Hf; unfold Visit.handleError.
  destruct (0 <? List.length after + List.length until) eqn:E.
  - destruct (skipTokens_total fuel after until (Visit.onError' visitor error st))
      as (st' & E' & Hle & Hlt); [scanner_simpl; lia|].
    exists st'; split; [exact E'|]. scanner_simpl. split; [exact Hle|].
    intros; apply Hlt; assumption.
  - eexists; split; [reflexivity|]. scanner_simpl. split; [lia|].
    intros _ _ Hne. apply Nat.ltb_ge in E. destruct until; [congruence|].
    simpl in E; lia.
Qed.


Lemma parseString_total isValue fuel (st : Visit.PState V) :
  remaining text (Visit.scanner st) + 2 <= fuel ->
  exists st', Visit.parseString visitor text options isValue fuel st = Some (true, st')
              /\ weight text (Visit.scanner st') <= remaining text (Visit.scanner st).
Proof.
  intros Hf; unfold Visit.parseString.
  match goal with |- context [Visit.scanNext _ _ _ _ ?s] =>
    destruct (scanNext_total fuel s) as (st' & E & H) end.
  { destruct isValue; scanner_simpl; lia. }
  rewrite E; exists st'; split; [reflexivity|].
  destruct isValue; scanner_simpl; lia.
Qed.

Lemma parseLiteral_total fuel (st : Visit.PState V) :
  remaining text (Visit.scanner st) + 2 <= fuel ->
  exists b st', Visit.parseLiteral visitor text options fuel st = Some (b, st')
    /\ weight text (Visit.scanner st') <= weight text (Visit.scanner st)
    /\ (b = true -> weight text (Visit.scanner st') < weight text (Visit.scanner st))
    /\ (b = false -> st' = st).
Proof.
  intros Hf; unfold Visit.parseLiteral.
  assert (Hc : forall st1 : Visit.PState V,
             Visit.scanner st1 = Visit.scanner st ->
             Visit.getToken st <> SyntaxKind.EOF ->
             exists b st',
               match Visit.scanNext visitor text options fuel st1 with
               | Some st2 => Some (true, st2)
               | None => None
               end = Some (b, st')
               /\ weight text (Visit.scanner st') <= weight text (Visit.scanner st)
               /\ (b = true ->
                   weight text (Visit.scanner st') < weight text (Visit.scanner st))
               /\ (b = false -> st' = st)).
  { intros st1 E1 Hne.
    destruct (scanNext_total fuel st1) as (st' & E & H); [rewrite E1; lia|].
    rewrite E; exists true, st'; split; [reflexivity|].
    rewrite E1 in H. pose proof (weight_not_eof text _ Hne).
    split; [lia|]; split; [lia | discriminate]. }
  destruct (Visit.getToken st) eqn:Etok;
    try (exists false, st; split; [reflexivity|]; split; [lia|]; split;
         [discriminate | reflexivity]);
    try destruct (JSON_parse _);
    apply Hc; try congruence; scanner_simpl; reflexivity.
Qed.

Section WithParseValue.
Variable parseValue : Visit.PState V -> option (bool * Visit.PState V).

Lemma parseValue_ok_le bound bound' :
  bound' <= bound ->
  parseValue_ok text parseValue bound -> parseValue_ok text parseValue bound'.
Proof. intros Hle H st Hst; apply H; lia. Qed.

Lemma parseProperty_total fuel (st : Visit.PState V) :
  weight text (Visit.scanner st) + 2 <= fuel ->
  parseValue_ok text parseValue (weight text (Visit.scanner st)) ->
  exists b st', Visit.parseProperty visitor text options parseValue fuel st = Some (b, st')
    /\ weight text (Visit.scanner st') <= weight text (Visit.scanner st)
    /\ (Visit.getToken st <> SyntaxKind.EOF ->
        Visit.mem (Visit.getToken st) [SyntaxKind.CloseBraceToken; SyntaxKind.CommaToken]
        = false ->
        weight text (Visit.scanner st') < weight text (Visit.scanner st)).
Proof.
  intros Hf Hpv; unfold Visit.parseProperty.
  pose proof (weight_le_remaining text (Visit.scanner st)) as Hwr.
  destruct (SyntaxKind.eqb (Visit.getToken st) SyntaxKind.StringLiteral) eqn:Es; simpl.
  2:{ destruct (handleError_total ParseErrorCode.PropertyNameExpected []
                  [SyntaxKind.CloseBraceToken; SyntaxKind.CommaToken] fuel st Hf)
        as (st' & E & Hle & Hlt).
      rewrite E; exists false, st'; split; [reflexivity|]; split; [exact Hle|].
      intros; apply Hlt; try assumption; discriminate. }
  apply SyntaxKind_eqb_eq in Es.
  assert (Hne : Scanner.token (Visit.scanner st) <> SyntaxKind.EOF)
    by (unfold Visit.getToken, Scanner.getToken in Es; congruence).
  pose proof (weight_not_eof text _ Hne) as Hw.
  destruct (parseString_total false fuel st) as (st1 & E1 & H1); [lia|].
  rewrite E1.
  destruct (SyntaxKind.eqb (Visit.getToken st1) SyntaxKind.ColonToken).
  2:{ destruct (handleError_total ParseErrorCode.ColonExpected []
                  [SyntaxKind.CloseBraceToken; SyntaxKind.CommaToken] fuel st1)
        as (st' & E & Hle & _); [lia|].
      rewrite E; exists true, st'; split; [reflexivity|]; split; intros; lia. }
  destruct (scanNext_total fuel (Visit.onSeparator' visitor [CC.colon] st1))
    as (st2 & E2 & H2).
  { scanner_simpl. pose proof (weight_le_remaining text (Visit.scanner st1)). lia. }
  rewrite E2. scanner_simpl.
  pose proof (weight_le_remaining text (Visit.scanner st1)) as Hwr1.
  destruct (Hpv st2) as (b & st3 & E3 & H3 & _ & _); [lia|].
  rewrite E3. destruct b.
  { exists true, st3; split; [reflexivity|]; split; intros; lia. }
  destruct (handleError_total ParseErrorCode.ValueExpected []
              [SyntaxKind.CloseBraceToken; SyntaxKind.CommaToken] fuel st3)
    as (st' & E & Hle & _); [lia|].
  rewrite E; exists true, st'; split; [reflexivity|]; split; intros; lia.
Qed.

Lemma parseObject_member_total fuel (st : Visit.PState V) :
  weight text (Visit.scanner st) + 2 <= fuel ->
  parseValue_ok text parseValue (weight text (Visit.scanner st)) ->
  exists st', Visit.parseObject_member visitor text options parseValue fuel st = Some st'
    /\ weight text (Visit.scanner st') <= weight text (Visit.scanner st)
    /\ (Visit.getToken st <> SyntaxKind.EOF ->
        Visit.mem (Visit.getToken st) [SyntaxKind.CloseBraceToken; SyntaxKind.CommaToken]
        = false ->
        weight text (Visit.scanner st') < weight text (Visit.scanner st)).
Proof.
  intros Hf Hpv; unfold Visit.parseObject_member.
  destruct (parseProperty_total fuel st Hf Hpv) as (b & st1 & E1 & Hle & Hlt).
  rewrite E1; destruct b.
  { exists st1; split; [reflexivity|]; split; assumption. }
  destruct (handleError_total ParseErrorCode.ValueExpected []
              [SyntaxKind.CloseBraceToken; SyntaxKind.CommaToken] fuel st1)
    as (st' & E & Hle' & _); [lia|].
  exists st'; split; [exact E|]; split; [lia|].
  intros H1 H2; specialize (Hlt H1 H2); lia.
Qed.

Lemma parseArray_element_total fuel (st : Visit.PState V) :
  weight text (Visit.scanner st) + 2 <= fuel ->
  parseValue_ok text parseValue (weight text (Visit.scanner st)) ->
  exists st', Visit.parseArray_element visitor text options parseValue fuel st = Some st'
    /\ weight text (Visit.scanner st') <= weight text (Visit.scanner st)
    /\ (Visit.getToken st <> SyntaxKind.EOF ->
        Visit.mem (Visit.getToken st) [SyntaxKind.CloseBracketToken; SyntaxKind.CommaToken]
        = false ->
        weight text (Visit.scanner st') < weight text (Visit.scanner st)).
Proof.
  intros Hf Hpv; unfold Visit.parseArray_element.
  destruct (Hpv st) as (b & st1 & E1 & Hle & Hlt & Hsame); [lia|].
  rewrite E1; destruct b.
  { exists st1; split; [reflexivity|]; split; [exact Hle|].
    intros _ _; apply Hlt; reflexivity. }
  rewrite (Hsame eq_refl).
  destruct (handleError_total ParseErrorCode.ValueExpected []
              [SyntaxKind.CloseBracketToken; SyntaxKind.CommaToken] fuel st Hf)
    as (st' & E & Hle' & Hlt').
  exists st'; split; [exact E|]; split; [exact Hle'|].
  intros; apply Hlt'; try assumption; discriminate.
Qed.

(** An iteration of either loop, entered on a token that is neither the
    closing token nor the end of the input, decreases the weight. *)
Lemma parseObject_step_total fuel needsComma (st : Visit.PState V) :
  Visit.getToken st <> SyntaxKind.CloseBraceToken ->
  Visit.getToken st <> SyntaxKind.EOF ->
  weight text (Visit.scanner st) + 2 <= fuel ->
  parseValue_ok text parseValue (weight text (Visit.scanner st)) ->
  exists brk st',
    Visit.parseObject_step visitor text options parseValue fuel needsComma st
    = Some (brk, st')
    /\ weight text (Visit.scanner st') < weight text (Visit.scanner st).
Proof.
  intros Hcb Heof Hf Hpv; unfold Visit.parseObject_step.
  assert (Hm : forall st1 : Visit.PState V,
             weight text (Visit.scanner st1) <= weight text (Visit.scanner st) ->
             (weight text (Visit.scanner st1) < weight text (Visit.scanner st)
              \/ (Visit.getToken st1 <> SyntaxKind.EOF
                  /\ Visit.mem (Visit.getToken st1)
                       [SyntaxKind.CloseBraceToken; SyntaxKind.CommaToken] = false)) ->
             exists brk st',
               match Visit.parseObject_member visitor text options parseValue fuel st1 with
               | Some st2 => Some (false, st2)
               | None => None
               end = Some (brk, st')
               /\ weight text (Visit.scanner st') < weight text (Visit.scanner st)).
  { intros st1 Hle Hor.
    destruct (parseObject_member_total fuel st1) as (st' & E & Hle' & Hlt'); [lia| |].
    { eapply parseValue_ok_le; [|exact Hpv]; lia. }
    rewrite E; exists false, st'; split; [reflexivity|].
    destruct Hor as [H|[H1 H2]]; [lia|]. specialize (Hlt' H1 H2); lia. }
  pose proof (weight_not_eof text (Visit.scanner st) Heof) as Hw.
  destruct (SyntaxKind.eqb (Visit.getToken st) SyntaxKind.CommaToken) eqn:Ec.
  - match goal with |- context [Visit.scanNext _ _ _ _ ?s] =>
      destruct (scanNext_total fuel s) as (st1 & E1 & H1) end.
    { destruct needsComma; cbn [negb] in *; scanner_simpl;
      pose proof (weight_le_remaining text (Visit.scanner st)); lia. }
    rewrite E1.
    assert (Hlt : weight text (Visit.scanner st1) < weight text (Visit.scanner st)).
    { destruct needsComma; cbn [negb] in *; scanner_simpl;
      pose proof (weight_le_remaining text (Visit.scanner st)); lia. }
    destruct (SyntaxKind.eqb (Visit.getToken st1) SyntaxKind.CloseBraceToken
              && Visit.allowTrailingComma options).
    + exists true, st1; split; [reflexivity | exact Hlt].
    + apply Hm; [lia | left; exact Hlt].
  - assert (Hmem : Visit.mem (Visit.getToken st)
                     [SyntaxKind.CloseBraceToken; SyntaxKind.CommaToken] = false).
    { unfold Visit.mem; simpl. rewrite Ec.
      apply SyntaxKind_eqb_neq in Hcb; rewrite Hcb; reflexivity. }
    destruct needsComma; apply Hm; cbn [negb] in *; scanner_simpl; try lia;
      right; split; assumption.
Qed.

Lemma parseArray_step_total fuel needsComma (st : Visit.PState V) :
  Visit.getToken st <> SyntaxKind.CloseBracketToken ->
  Visit.getToken st <> SyntaxKind.EOF ->
  weight text (Visit.scanner st) + 2 <= fuel ->
  parseValue_ok text parseValue (weight text (Visit.scanner st)) ->
  exists brk st',
    Visit.parseArray_step visitor text options parseValue fuel needsComma st
    = Some (brk, st')
    /\ weight text (Visit.scanner st') < weight text (Visit.scanner st).
Proof.
  intros Hcb Heof Hf Hpv; unfold Visit.parseArray_step.
  assert (Hm : forall st1 : Visit.PState V,
             weight text (Visit.scanner st1) <= weight text (Visit.scanner st) ->
             (weight text (Visit.scanner st1) < weight text (Visit.scanner st)
              \/ (Visit.getToken st1 <> SyntaxKind.EOF
                  /\ Visit.mem (Visit.getToken st1)
                       [SyntaxKind.CloseBracketToken; SyntaxKind.CommaToken] = false)) ->
             exists brk st',
               match Visit.parseArray_element visitor text options parseValue fuel st1 with
               | Some st2 => Some (false, st2)
               | None => None
               end = Some (brk, st')
               /\ weight text (Visit.scanner st') < weight text (Visit.scanner st)).
  { intros st1 Hle Hor.
    destruct (parseArray_element_total fuel st1) as (st' & E & Hle' & Hlt'); [lia| |].
    { eapply parseValue_ok_le; [|exact Hpv]; lia. }
    rewrite E; exists false, st'; split; [reflexivity|].
    destruct Hor as [H|[H1 H2]]; [lia|]. specialize (Hlt' H1 H2); lia. }
  pose proof (weight_not_eof text (Visit.scanner st) Heof) as Hw.
  destruct (SyntaxKind.eqb (Visit.getToken st) SyntaxKind.CommaToken) eqn:Ec.
  - match goal with |- context [Visit.scanNext _ _ _ _ ?s] =>
      destruct (scanNext_total fuel s) as (st1 & E1 & H1) end.
    { destruct needsComma; cbn [negb] in *; scanner_simpl;
      pose proof (weight_le_remaining text (Visit.scanner st)); lia. }
    rewrite E1.
    assert (Hlt : weight text (Visit.scanner st1) < weight text (Visit.scanner st)).
    { destruct needsComma; cbn [negb] in *; scanner_simpl;
      pose proof (weight_le_remaining text (Visit.scanner st)); lia. }
    destruct (SyntaxKind.eqb (Visit.getToken st1) SyntaxKind.CloseBracketToken
              && Visit.allowTrailingComma options).
    + exists true, st1; split; [reflexivity | exact Hlt].
    + apply Hm; [lia | left; exact Hlt].
  - assert (Hmem : Visit.mem (Visit.getToken st)
                     [SyntaxKind.CloseBracketToken; SyntaxKind.CommaToken] = false).
    { unfold Visit.mem; simpl. rewrite Ec.
      apply SyntaxKind_eqb_neq in Hcb; rewrite Hcb; reflexivity. }
    destruct needsComma; apply Hm; cbn [negb] in *; scanner_simpl; try lia;
      right; split; assumption.
Qed.

Lemma parseObject_loop_total fuel : forall needsComma (st : Visit.PState V),
  weight text (Visit.scanner st) + 3 <= fuel ->
  parseValue_ok text parseValue (weight text (Visit.scanner st)) ->
  exists st',
    Visit.parseObject_loop visitor text options parseValue fuel needsComma st = Some st'
    /\ weight text (Visit.scanner st') <= weight text (Visit.scanner st).
Proof.
  induction fuel as [|n IH]; intros needsComma st Hf Hpv; [lia|].
  simpl.
  destruct (SyntaxKind.eqb (Visit.getToken st) SyntaxKind.CloseBraceToken) eqn:E1; simpl;
    [exists st; split; [reflexivity | lia]|].
  destruct (SyntaxKind.eqb (Visit.getToken st) SyntaxKind.EOF) eqn:E2; simpl;
    [exists st; split; [reflexivity | lia]|].
  apply SyntaxKind_eqb_neq in E1, E2.
  destruct (parseObject_step_total n needsComma st E1 E2) as (brk & st1 & E & Hlt);
    [lia | exact Hpv |].
  rewrite E; destruct brk; [exists st1; split; [reflexivity | lia]|].
  destruct (IH true st1) as (st' & E' & Hle); [lia| |].
  { eapply parseValue_ok_le; [|exact Hpv]; lia. }
  exists st'; split; [exact E' | lia].
Qed.

Lemma parseArray_loop_total fuel : forall needsComma (st : Visit.PState V),
  weight text (Visit.scanner st) + 3 <= fuel ->
  parseValue_ok text parseValue (weight text (Visit.scanner st)) ->
  exists st',
    Visit.parseArray_loop visitor text options parseValue fuel needsComma st = Some st'
    /\ weight text (Visit.scanner st') <= weight text (Visit.scanner st).
Proof.
  induction fuel as [|n IH]; intros needsComma st Hf Hpv; [lia|].
  simpl.
  destruct (SyntaxKind.eqb (Visit.getToken st) SyntaxKind.CloseBracketToken) eqn:E1; simpl;
    [exists st; split; [reflexivity | lia]|].
  destruct (SyntaxKind.eqb (Visit.getToken st) SyntaxKind.EOF) eqn:E2; simpl;
    [exists st; split; [reflexivity | lia]|].
  apply SyntaxKind_eqb_neq in E1, E2.
  destruct (parseArray_step_total n needsComma st E1 E2) as (brk & st1 & E & Hlt);
    [lia | exact Hpv |].
  rewrite E; destruct brk; [exists st1; split; [reflexivity | lia]|].
  destruct (IH true st1) as (st' & E' & Hle); [lia| |].
  { eapply parseValue_ok_le; [|exact Hpv]; lia. }
  exists st'; split; [exact E' | lia].
Qed.

Lemma parseObject_close_total fuel (st : Visit.PState V) :
  weight text (Visit.scanner st) + 2 <= fuel ->
  exists st', Visit.parseObject_close visitor text options fuel st = Some (true, st')
              /\ weight text (Visit.scanner st') <= weight text (Visit.scanner st).
Proof.
  intros Hf; unfold Visit.parseObject_close.
  match goal with |- context [if ?c then _ else _] => destruct c end.
  - destruct (handleError_total ParseErrorCode.CloseBraceExpected
                [SyntaxKind.CloseBraceToken] [] fuel (Visit.onObjectEnd' visitor st))
      as (st' & E & Hle & _); [scanner_simpl; lia|].
    rewrite E; exists st'; split; [reflexivity|]. scanner_simpl; lia.
  - destruct (scanNext_total fuel (Visit.onObjectEnd' visitor st)) as (st' & E & H).
    { scanner_simpl. pose proof (weight_le_remaining text (Visit.scanner st)). lia. }
    rewrite E; exists st'; split; [reflexivity|]. scanner_simpl.
    pose proof (weight_le_remaining text (Visit.scanner st)). lia.
Qed.

Lemma parseArray_close_total fuel (st : Visit.PState V) :
  weight text (Visit.scanner st) + 2 <= fuel ->
  exists st', Visit.parseArray_close visitor text options fuel st = Some (true, st')
              /\ weight text (Visit.scanner st') <= weight text (Visit.scanner st).
Proof.
  intros Hf; unfold Visit.parseArray_close.
  match goal with |- context [if ?c then _ else _] => destruct c end.
  - destruct (handleError_total ParseErrorCode.CloseBracketExpected
                [SyntaxKind.CloseBracketToken] [] fuel (Visit.onArrayEnd' visitor st))
      as (st' & E & Hle & _); [scanner_simpl; lia|].
    rewrite E; exists st'; split; [reflexivity|]. scanner_simpl; lia.
  - destruct (scanNext_total fuel (Visit.onArrayEnd' visitor st)) as (st' & E & H).
    { scanner_simpl. pose proof (weight_le_remaining text (Visit.scanner st)). lia. }
    rewrite E; exists st'; split; [reflexivity|]. scanner_simpl.
    pose proof (weight_le_remaining text (Visit.scanner st)). lia.
Qed.

Lemma parseObject_total fuel (st : Visit.PState V) :
  Visit.getToken st <> SyntaxKind.EOF ->
  weight text (Visit.scanner st) + 2 <= fuel ->
  parseValue_ok text parseValue (weight text (Visit.scanner st) - 1) ->
  exists st', Visit.parseObject visitor text options parseValue fuel st = Some (true, st')
              /\ weight text (Visit.scanner st') < weight text (Visit.scanner st).
Proof.
  intros Hne Hf Hpv; unfold Visit.parseObject.
  pose proof (weight_not_eof text (Visit.scanner st) Hne) as Hw.
  destruct (scanNext_total fuel (Visit.onObjectBegin' visitor st)) as (st1 & E1 & H1);
    [scanner_simpl; lia|].
  rewrite E1. scanner_simpl.
  destruct (parseObject_loop_total fuel false st1) as (st2 & E2 & H2); [lia| |].
  { eapply parseValue_ok_le; [|exact Hpv]; lia. }
  rewrite E2.
  destruct (parseObject_close_total fuel st2) as (st' & E & H); [lia|].
  exists st'; split; [exact E | lia].
Qed.

Lemma parseArray_total fuel (st : Visit.PState V) :
  Visit.getToken st <> SyntaxKind.EOF ->
  weight text (Visit.scanner st) + 2 <= fuel ->
  parseValue_ok text parseValue (weight text (Visit.scanner st) - 1) ->
  exists st', Visit.parseArray visitor text options parseValue fuel st = Some (true, st')
              /\ weight text (Visit.scanner st') < weight text (Visit.scanner st).
Proof.
  intros Hne Hf Hpv; unfold Visit.parseArray.
  pose proof (weight_not_eof text (Visit.scanner st) Hne) as Hw.
  destruct (scanNext_total fuel (Visit.onArrayBegin' visitor st)) as (st1 & E1 & H1);
    [scanner_simpl; lia|].
  rewrite E1. scanner_simpl.
  destruct (parseArray_loop_total fuel false st1) as (st2 & E2 & H2); [lia| |].
  { eapply parseValue_ok_le; [|exact Hpv]; lia. }
  rewrite E2.
  destruct (parseArray_close_total fuel st2) as (st' & E & H); [lia|].
  exists st'; split; [exact E | lia].
Qed.

End WithParseValue.

Lemma parseValue_total fuel : forall st : Visit.PState V,
  weight text (Visit.scanner st) + 3 <= fuel ->
  exists b st', Visit.parseValue visitor text options fuel st = Some (b, st')
    /\ weight text (Visit.scanner st') <= weight text (Visit.scanner st)
    /\ (b = true -> weight text (Visit.scanner st') < weight text (Visit.scanner st))
    /\ (b = false -> st' = st).
Proof.
  induction fuel as [|n IH]; intros st Hf; [lia|].
  assert (Hpv : Visit.getToken st <> SyntaxKind.EOF ->
                parseValue_ok text (Visit.parseValue visitor text options n)
                  (weight text (Visit.scanner st) - 1)).
  { intros Hne st1 H1. apply IH.
    pose proof (weight_not_eof text (Visit.scanner st) Hne). lia. }
  pose proof (weight_le_remaining text (Visit.scanner st)) as Hwr.
  simpl.
  destruct (Visit.getToken st) eqn:Etok;
    try (apply parseLiteral_total; lia).
  - destruct (parseObject_total (Visit.parseValue visitor text options n) n st)
      as (st' & E & H); [congruence | lia | apply Hpv; congruence |].
    exists true, st'; split; [exact E|]; split; [lia|]; split; [intros; lia | discriminate].
  - destruct (parseArray_total (Visit.parseValue visitor text options n) n st)
      as (st' & E & H); [congruence | lia | apply Hpv; congruence |].
    exists true, st'; split; [exact E|]; split; [lia|]; split; [intros; lia | discriminate].
  - destruct (parseString_total true n st) as (st' & E & H); [lia|].
    assert (Hne : Scanner.token (Visit.scanner st) <> SyntaxKind.EOF)
      by (unfold Visit.getToken, Scanner.getToken in Etok; congruence).
    pose proof (weight_not_eof text _ Hne).
    exists true, st'; split; [exact E|]; split; [lia|]; split; [intros; lia | discriminate].
Qed.

(** With a fuel of [length text + 4], [visit] returns for every visitor,
    text and options. *)
Lemma visit_total (v0 : V) :
  exists b st, Visit.visit visitor text options v0 = Some (b, st).
Proof.
  unfold Visit.visit, Visit.visit_with.
  destruct (scanNext_total (List.length text + 4) (Visit.mkP Scanner.initial v0))
    as (st1 & E1 & H1); [unfold remaining; simpl; lia|].
  rewrite E1. unfold remaining in H1; simpl in H1.
  destruct (SyntaxKind.eqb (Visit.getToken st1) SyntaxKind.EOF).
  { destruct (ParseOptions.allowEmptyContent options); eauto. }
  destruct (parseValue_total (List.length text + 4) st1) as (b & st2 & E2 & _); [lia|].
  rewrite E2; destruct b; [|eauto].
  destruct (negb (SyntaxKind.eqb (Visit.getToken st2) SyntaxKind.EOF)); eauto.
Qed.

End VisitTotal.

(** ** The calls made to a visitor are balanced *)

Lemma matchEvents_app tr1 : forall tr2 stack,
  matchEvents stack (tr1 ++ tr2)
  = match matchEvents stack tr1 with
    | Some stack' => matchEvents stack' tr2
    | None => None
    end.
Proof.
  induction tr1 as [|e tr1 IH]; intros tr2 stack; [reflexivity|].
  destruct e; simpl; try apply IH; destruct stack as [|[|] stack]; try reflexivity; apply IH.
Qed.

Lemma neutral_nil : neutral [].
Proof. intros stack; reflexivity. Qed.

Lemma neutral_app tr1 tr2 : neutral tr1 -> neutral tr2 -> neutral (tr1 ++ tr2).
Proof. intros H1 H2 stack; rewrite matchEvents_app, H1; apply H2. Qed.

Lemma quiet_neutral tr : quiet tr -> neutral tr.
Proof.
  induction 1 as [|e tr He _ IH]; intros stack; [reflexivity|].
  destruct e; simpl in *; try discriminate; apply IH.
Qed.

Lemma quiet_app tr1 tr2 : quiet tr1 -> quiet tr2 -> quiet (tr1 ++ tr2).
Proof. intros; apply Forall_app; split; assumption. Qed.

Lemma neutral_object o1 l1 o2 l2 tr :
  neutral tr -> neutral (ObjectBegin o1 l1 :: tr ++ [ObjectEnd o2 l2]).
Proof. intros H stack; simpl; rewrite matchEvents_app, H; reflexivity. Qed.

Lemma neutral_array o1 l1 o2 l2 tr :
  neutral tr -> neutral (ArrayBegin o1 l1 :: tr ++ [ArrayEnd o2 l2]).
Proof. intros H stack; simpl; rewrite matchEvents_app, H; reflexivity. Qed.

Lemma emits_refl (P : list Event -> Prop) st : P [] -> emits P st st.
Proof. intros H; exists []; rewrite app_nil_r; split; [reflexivity | exact H]. Qed.

Lemma emits_trans (P : list Event -> Prop) st1 st2 st3 :
  (forall a b, P a -> P b -> P (a ++ b)) ->
  emits P st1 st2 -> emits P st2 st3 -> emits P st1 st3.
Proof.
  intros Happ (s1 & E1 & H1) (s2 & E2 & H2).
  exists (s1 ++ s2); rewrite E2, E1, app_assoc; split; [reflexivity | auto].
Qed.

Lemma emits_quiet_neutral st st' : emits quiet st st' -> emits neutral st st'.
Proof. intros (seg & E & H); exists seg; split; [exact E | apply quiet_neutral, H]. Qed.

Lemma emits_one (P : list Event -> Prop) (st st' : Visit.PState (list Event)) e :
  Visit.vis st' = Visit.vis st ++ [e] -> P [e] -> emits P st st'.
Proof. intros E H; exists [e]; split; assumption. Qed.

Section Recorded.
Variable text : jsstring.
Variable options : ParseOptions.t.

Lemma quiet_error e o l : quiet [Error e o l].
Proof. repeat constructor. Qed.

Lemma emits_handleError0 error st :
  emits quiet st (Visit.handleError0 recorder error st).
Proof. eapply emits_one; [reflexivity | apply quiet_error]. Qed.

Lemma emits_onSeparator c st :
  emits quiet st (Visit.onSeparator' recorder c st).
Proof. eapply emits_one; [reflexivity | repeat constructor]. Qed.

Lemma emits_reportScanError st :
  emits quiet st (Visit.reportScanError recorder options st).
Proof.
  unfold Visit.reportScanError.
  destruct (Scanner.getTokenError (Visit.scanner st));
    try destruct (negb (Visit.disallowComments options));
    try apply emits_handleError0; apply emits_refl; constructor.
Qed.

Lemma emits_scanNext fuel : forall st st',
  Visit.scanNext recorder text options fuel st = Some st' -> emits quiet st st'.
Proof.
  induction fuel as [|n IH]; intros st st' H; [discriminate|].
  simpl in H.
  set (st1 := Visit.mkP (Scanner.scan text (Visit.scanner st)) (Visit.vis st)) in *.
  assert (H1 : emits quiet st (Visit.reportScanError recorder options st1)).
  { destruct (emits_reportScanError st1) as (seg & E & Hq); exists seg; split; assumption. }
  assert (Hrec : forall st2, emits quiet st st2 ->
                 Visit.scanNext recorder text options n st2 = Some st' ->
                 emits quiet st st').
  { intros st2 H2 E; eapply emits_trans; [apply quiet_app | exact H2 | apply IH, E]. }
  destruct (Visit.getToken st1);
    try (injection H as <-; exact H1);
    (eapply Hrec; [|exact H]); try exact H1.
  - destruct (Visit.disallowComments options);
      (eapply emits_trans; [apply quiet_app | exact H1 |]);
      [apply emits_handleError0 | eapply emits_one; [reflexivity | repeat constructor]].
  - destruct (Visit.disallowComments options);
      (eapply emits_trans; [apply quiet_app | exact H1 |]);
      [apply emits_handleError0 | eapply emits_one; [reflexivity | repeat constructor]].
  - eapply emits_trans; [apply quiet_app | exact H1 | apply emits_handleError0].
Qed.

Lemma emits_skipTokens fuel : forall after until st st',
  Visit.skipTokens recorder text options fuel after until st = Some st' ->
  emits quiet st st'.
Proof.
  induction fuel as [|n IH]; intros after until st st' H; [discriminate|].
  simpl in H.
  destruct (SyntaxKind.eqb (Visit.getToken st) SyntaxKind.EOF);
    [injection H as <-; apply emits_refl; constructor|].
  destruct (Visit.mem (Visit.getToken st) after); [eapply emits_scanNext, H|].
  destruct (Visit.mem (Visit.getToken st) until);
    [injection H as <-; apply emits_refl; constructor|].
  destruct (Visit.scanNext recorder text options n st) as [st1|] eqn:E1; [|discriminate].
  eapply emits_trans; [apply quiet_app | eapply emits_scanNext, E1 | eapply IH, H].
Qed.

(** [handleError] records the error first, at the current token. *)
Lemma handleError_first error after until fuel st st' :
  Visit.handleError recorder text options error after until fuel st = Some st' ->
  exists rest,
    Visit.vis st'
    = Visit.vis st
      ++ Error error (Scanner.getTokenOffset (Visit.scanner st))
           (Scanner.getTokenLength (Visit.scanner st)) :: rest
    /\ quiet rest.
Proof.
  unfold Visit.handleError; intros H.
  destruct (0 <? List.length after + List.length until).
  - apply emits_skipTokens in H; destruct H as (seg & E & Hq).
    exists seg; split; [|exact Hq].
    rewrite E; simpl; rewrite <- app_assoc; reflexivity.
  - injection H as <-; exists []; split; [reflexivity | constructor].
Qed.

Lemma emits_handleError error after until fuel st st' :
  Visit.handleError recorder text options error after until fuel st = Some st' ->
  emits quiet st st'.
Proof.
  intros H; apply handleError_first in H; destruct H as (rest & E & Hq).
  eexists; split; [exact E|]. constructor; [reflexivity | exact Hq].
Qed.


Ltac some_inv H :=
  match type of H with
  | match ?x with Some _ => _ | None => None end = Some _ =>
      let E := fresh "E" in destruct x eqn:E; [|discriminate H]
  | (let '(_, _) := ?x in _) = Some _ => destruct x
  | match ?x with (_, _) => _ end = Some _ => destruct x
  | (if ?c then _ else _) = Some _ => let E := fresh "E" in destruct c eqn:E
  end.

Lemma emits_parseString isValue fuel st b st' :
  Visit.parseString recorder text options isValue fuel st = Some (b, st') ->
  emits quiet st st'.
Proof.
  unfold Visit.parseString; intros H; some_inv H; injection H as _ <-.
  eapply emits_trans; [apply quiet_app | | eapply emits_scanNext; eassumption].
  destruct isValue; (eapply emits_one; [reflexivity | repeat constructor]).
Qed.

Lemma emits_parseLiteral fuel st b st' :
  Visit.parseLiteral recorder text options fuel st = Some (b, st') ->
  emits quiet st st'.
Proof.
  unfold Visit.parseLiteral; intros H.
  assert (Hc : forall st1, emits quiet st st1 ->
               match Visit.scanNext recorder text options fuel st1 with
               | Some st2 => Some (true, st2)
               | None => None
               end = Some (b, st') -> emits quiet st st').
  { intros st1 H1 E; some_inv E; injection E as _ <-.
    eapply emits_trans; [apply quiet_app | exact H1 | eapply emits_scanNext; eassumption]. }
  destruct (Visit.getToken st);
    try (injection H as _ <-; apply emits_refl; constructor);
    try destruct (JSON_parse _);
    (eapply Hc; [|exact H]);
    try (eapply emits_one; [reflexivity | repeat constructor]).
  eapply emits_trans; [apply quiet_app | apply emits_handleError0 |].
  eapply emits_one; [reflexivity | repeat constructor].
Qed.

Section WithParseValue.
Variable parseValue :
  Visit.PState (list Event) -> option (bool * Visit.PState (list Event)).
Hypothesis parseValue_emits : parseValue_neutral parseValue.

Lemma emits_neutral_trans st1 st2 st3 :
  emits neutral st1 st2 -> emits neutral st2 st3 -> emits neutral st1 st3.
Proof. apply emits_trans, neutral_app. Qed.

Lemma emits_parseProperty fuel st b st' :
  Visit.parseProperty recorder text options parseValue fuel st = Some (b, st') ->
  emits neutral st st'.
Proof.
  unfold Visit.parseProperty; intros H.
  some_inv H.
  { some_inv H; injection H as _ <-.
    eapply emits_quiet_neutral, emits_handleError; eassumption. }
  some_inv H. destruct p as [b1 st1].
  apply emits_parseString, emits_quiet_neutral in E0.
  eapply emits_neutral_trans; [exact E0|].
  some_inv H.
  2:{ some_inv H; injection H as _ <-.
      eapply emits_quiet_neutral, emits_handleError; eassumption. }
  some_inv H.
  apply emits_scanNext, emits_quiet_neutral in E2.
  eapply emits_neutral_trans; [apply emits_quiet_neutral, emits_onSeparator|].
  eapply emits_neutral_trans; [exact E2|].
  some_inv H. destruct p0 as [b2 st3].
  eapply emits_neutral_trans; [eapply parseValue_emits; eassumption|].
  destruct b2.
  - injection H as _ <-; apply emits_refl, neutral_nil.
  - some_inv H; injection H as _ <-.
    eapply emits_quiet_neutral, emits_handleError; eassumption.
Qed.

Lemma emits_parseObject_member fuel st st' :
  Visit.parseObject_member recorder text options parseValue fuel st = Some st' ->
  emits neutral st st'.
Proof.
  unfold Visit.parseObject_member; intros H.
  destruct (Visit.parseProperty recorder text options parseValue fuel st)
    as [[b st1]|] eqn:E; [|discriminate].
  apply emits_parseProperty in E.
  eapply emits_neutral_trans; [exact E|].
  destruct b.
  - injection H as <-; apply emits_refl, neutral_nil.
  - eapply emits_quiet_neutral, emits_handleError; eassumption.
Qed.

Lemma emits_parseArray_element fuel st st' :
  Visit.parseArray_element recorder text options parseValue fuel st = Some st' ->
  emits neutral st st'.
Proof.
  unfold Visit.parseArray_element; intros H.
  destruct (parseValue st) as [[b st1]|] eqn:E; [|discriminate].
  apply parseValue_emits in E.
  eapply emits_neutral_trans; [exact E|].
  destruct b.
  - injection H as <-; apply emits_refl, neutral_nil.
  - eapply emits_quiet_neutral, emits_handleError; eassumption.
Qed.

Lemma emits_comma needsComma st :
  emits neutral st
    (Visit.onSeparator' recorder [CC.comma]
       (if negb needsComma
        then Visit.handleError0 recorder ParseErrorCode.ValueExpected st else st)).
Proof.
  eapply emits_neutral_trans; [|apply emits_quiet_neutral, emits_onSeparator].
  destruct (negb needsComma);
    [apply emits_quiet_neutral, emits_handleError0 | apply emits_refl, neutral_nil].
Qed.

Lemma emits_parseObject_step fuel needsComma st brk st' :
  Visit.parseObject_step recorder text options parseValue fuel needsComma st
  = Some (brk, st') ->
  emits neutral st st'.
Proof.
  unfold Visit.parseObject_step; intros H.
  assert (Hm : forall st1, emits neutral st st1 ->
               match Visit.parseObject_member recorder text options parseValue fuel st1 with
               | Some st2 => Some (false, st2)
               | None => None
               end = Some (brk, st') -> emits neutral st st').
  { intros st1 H1 E; some_inv E; injection E as _ <-.
    eapply emits_neutral_trans; [exact H1 | eapply emits_parseObject_member; eassumption]. }
  some_inv H.
  - some_inv H.
    assert (H1 : emits neutral st p).
    { eapply emits_neutral_trans;
        [apply emits_comma | eapply emits_quiet_neutral, emits_scanNext; eassumption]. }
    some_inv H; [injection H as _ <-; exact H1 | eapply Hm; eassumption].
  - destruct needsComma; (eapply Hm; [|exact H]).
    + apply emits_quiet_neutral, emits_handleError0.
    + apply emits_refl, neutral_nil.
Qed.

Lemma emits_parseArray_step fuel needsComma st brk st' :
  Visit.parseArray_step recorder text options parseValue fuel needsComma st
  = Some (brk, st') ->
  emits neutral st st'.
Proof.
  unfold Visit.parseArray_step; intros H.
  assert (Hm : forall st1, emits neutral st st1 ->
               match Visit.parseArray_element recorder text options parseValue fuel st1 with
               | Some st2 => Some (false, st2)
               | None => None
               end = Some (brk, st') -> emits neutral st st').
  { intros st1 H1 E; some_inv E; injection E as _ <-.
    eapply emits_neutral_trans; [exact H1 | eapply emits_parseArray_element; eassumption]. }
  some_inv H.
  - some_inv H.
    assert (H1 : emits neutral st p).
    { eapply emits_neutral_trans;
        [apply emits_comma | eapply emits_quiet_neutral, emits_scanNext; eassumption]. }
    some_inv H; [injection H as _ <-; exact H1 | eapply Hm; eassumption].
  - destruct needsComma; (eapply Hm; [|exact H]).
    + apply emits_quiet_neutral, emits_handleError0.
    + apply emits_refl, neutral_nil.
Qed.

Lemma emits_parseObject_loop fuel : forall needsComma st st',
  Visit.parseObject_loop recorder text options parseValue fuel needsComma st = Some st' ->
  emits neutral st st'.
Proof.
  induction fuel as [|n IH]; intros needsComma st st' H; [discriminate|].
  simpl in H. some_inv H; [|injection H as <-; apply emits_refl, neutral_nil].
  some_inv H. destruct p as [brk st1].
  apply emits_parseObject_step in E0.
  destruct brk; [injection H as <-; exact E0|].
  eapply emits_neutral_trans; [exact E0 | eapply IH, H].
Qed.

Lemma emits_parseArray_loop fuel : forall needsComma st st',
  Visit.parseArray_loop recorder text options parseValue fuel needsComma st = Some st' ->
  emits neutral st st'.
Proof.
  induction fuel as [|n IH]; intros needsComma st st' H; [discriminate|].
  simpl in H. some_inv H; [|injection H as <-; apply emits_refl, neutral_nil].
  some_inv H. destruct p as [brk st1].
  apply emits_parseArray_step in E0.
  destruct brk; [injection H as <-; exact E0|].
  eapply emits_neutral_trans; [exact E0 | eapply IH, H].
Qed.

End WithParseValue.

(** Leaving an object: the end of the object is reported whatever the
    current token is, and when that token is not the closing brace the next
    call reports close-brace-expected at the same place. *)
Lemma parseObject_close_calls fuel st b st' :
  Visit.parseObject_close recorder text options fuel st = Some (b, st') ->
  exists tail,
    Visit.vis st'
    = Visit.vis st
      ++ ObjectEnd (Scanner.getTokenOffset (Visit.scanner st))
           (Scanner.getTokenLength (Visit.scanner st)) :: tail
    /\ quiet tail
    /\ (Visit.getToken st <> SyntaxKind.CloseBraceToken ->
        exists rest,
          tail = Error ParseErrorCode.CloseBraceExpected
                   (Scanner.getTokenOffset (Visit.scanner st))
                   (Scanner.getTokenLength (Visit.scanner st)) :: rest).
Proof.
  unfold Visit.parseObject_close; intros H.
  some_inv H.
  - some_inv H; injection H as _ <-.
    apply handleError_first in E0; destruct E0 as (rest & Ev & Hq).
    eexists; split; [rewrite Ev; simpl; rewrite <- app_assoc; reflexivity|].
    split; [constructor; [reflexivity | exact Hq]|].
    intros _; eexists; reflexivity.
  - some_inv H; injection H as _ <-.
    apply emits_scanNext in E0; destruct E0 as (seg & Ev & Hq).
    exists seg; split; [rewrite Ev; simpl; rewrite <- app_assoc; reflexivity|].
    split; [exact Hq|].
    intros Hne; exfalso; apply Hne.
    apply negb_false_iff, SyntaxKind_eqb_eq in E; exact E.
Qed.

Lemma parseArray_close_calls fuel st b st' :
  Visit.parseArray_close recorder text options fuel st = Some (b, st') ->
  exists tail,
    Visit.vis st'
    = Visit.vis st
      ++ ArrayEnd (Scanner.getTokenOffset (Visit.scanner st))
           (Scanner.getTokenLength (Visit.scanner st)) :: tail
    /\ quiet tail
    /\ (Visit.getToken st <> SyntaxKind.CloseBracketToken ->
        exists rest,
          tail = Error ParseErrorCode.CloseBracketExpected
                   (Scanner.getTokenOffset (Visit.scanner st))
                   (Scanner.getTokenLength (Visit.scanner st)) :: rest).
Proof.
  unfold Visit.parseArray_close; intros H.
  some_inv H.
  - some_inv H; injection H as _ <-.
    apply handleError_first in E0; destruct E0 as (rest & Ev & Hq).
    eexists; split; [rewrite Ev; simpl; rewrite <- app_assoc; reflexivity|].
    split; [constructor; [reflexivity | exact Hq]|].
    intros _; eexists; reflexivity.
  - some_inv H; injection H as _ <-.
    apply emits_scanNext in E0; destruct E0 as (seg & Ev & Hq).
    exists seg; split; [rewrite Ev; simpl; rewrite <- app_assoc; reflexivity|].
    split; [exact Hq|].
    intros Hne; exfalso; apply Hne.
    apply negb_false_iff, SyntaxKind_eqb_eq in E; exact E.
Qed.

Lemma emits_parseObject parseValue fuel st b st' :
  parseValue_neutral parseValue ->
  Visit.parseObject recorder text options parseValue fuel st = Some (b, st') ->
  emits neutral st st'.
Proof.
  unfold Visit.parseObject; intros Hpv H.
  some_inv H. some_inv H.
  apply emits_scanNext, emits_quiet_neutral in E.
  apply (emits_parseObject_loop parseValue Hpv) in E0.
  apply parseObject_close_calls in H; destruct H as (tail & Ev & Hq & _).
  destruct (emits_neutral_trans _ _ _ E E0) as (inner & Ei & Hn).
  exists (ObjectBegin (Scanner.getTokenOffset (Visit.scanner st))
            (Scanner.getTokenLength (Visit.scanner st))
          :: inner
          ++ [ObjectEnd (Scanner.getTokenOffset (Visit.scanner p0))
                (Scanner.getTokenLength (Visit.scanner p0))] ++ tail).
  split.
  - rewrite Ev, Ei; simpl. rewrite <- !app_assoc; reflexivity.
  - rewrite app_assoc, app_comm_cons.
    apply neutral_app; [apply neutral_object, Hn | apply quiet_neutral, Hq].
Qed.

Lemma emits_parseArray parseValue fuel st b st' :
  parseValue_neutral parseValue ->
  Visit.parseArray recorder text options parseValue fuel st = Some (b, st') ->
  emits neutral st st'.
Proof.
  unfold Visit.parseArray; intros Hpv H.
  some_inv H. some_inv H.
  apply emits_scanNext, emits_quiet_neutral in E.
  apply (emits_parseArray_loop parseValue Hpv) in E0.
  apply parseArray_close_calls in H; destruct H as (tail & Ev & Hq & _).
  destruct (emits_neutral_trans _ _ _ E E0) as (inner & Ei & Hn).
  exists (ArrayBegin (Scanner.getTokenOffset (Visit.scanner st))
            (Scanner.getTokenLength (Visit.scanner st))
          :: inner
          ++ [ArrayEnd (Scanner.getTokenOffset (Visit.scanner p0))
                (Scanner.getTokenLength (Visit.scanner p0))] ++ tail).
  split.
  - rewrite Ev, Ei; simpl. rewrite <- !app_assoc; reflexivity.
  - rewrite app_assoc, app_comm_cons.
    apply neutral_app; [apply neutral_array, Hn | apply quiet_neutral, Hq].
Qed.

Lemma emits_parseValue fuel :
  parseValue_neutral (Visit.parseValue recorder text options fuel).
Proof.
  induction fuel as [|n IH]; intros st b st' H; [discriminate|].
  simpl in H.
  destruct (Visit.getToken st);
    try (eapply emits_quiet_neutral, emits_parseLiteral; eassumption).
  - eapply emits_parseObject; eassumption.
  - eapply emits_parseArray; eassumption.
  - eapply emits_quiet_neutral, emits_parseString; eassumption.
Qed.

Lemma visit_balanced b st :
  Visit.visit recorder text options [] = Some (b, st) -> balanced (Visit.vis st).
Proof.
  unfold Visit.visit, Visit.visit_with; intros H.
  assert (Hn : emits neutral (Visit.mkP Scanner.initial []) st);
    [|destruct Hn as (seg & E & Hn); rewrite E; apply Hn].
  some_inv H. apply emits_scanNext, emits_quiet_neutral in E.
  eapply emits_neutral_trans; [exact E|].
  some_inv H.
  { some_inv H; injection H as _ <-;
      [apply emits_refl, neutral_nil | apply emits_quiet_neutral, emits_handleError0]. }
  some_inv H. destruct p0 as [b1 st1].
  apply emits_parseValue in E1.
  eapply emits_neutral_trans; [exact E1|].
  destruct b1; [some_inv H|]; injection H as _ <-;
    try apply emits_quiet_neutral, emits_handleError0.
  apply emits_refl, neutral_nil.
Qed.

End Recorded.

(** ** What the scanner reads

    The lemmas of this part describe one call of the scanner by the text
    [skipn (pos s) text] that remains in front of it. *)

Arguments skipn : simpl never.

Ltac cc_unfold :=
  unfold CC._0, CC._9, CC.a, CC.b, CC.e, CC.f, CC.n, CC.r, CC.t, CC.u, CC.A, CC.E, CC.F,
    CC.asterisk, CC.backslash, CC.closeBrace, CC.closeBracket, CC.colon, CC.comma, CC.dot,
    CC.doubleQuote, CC.minus, CC.openBrace, CC.openBracket, CC.plus, CC.slash,
    CC.backspace, CC.formFeed, CC.byteOrderMark, CC.tab, CC.verticalTab, CC.lineFeed,
    CC.carriageReturn, CC.lineSeparator, CC.paragraphSeparator, CC.space,
    CC.nonBreakingSpace, CC.enQuad, CC.zeroWidthSpace, CC.narrowNoBreakSpace,
    CC.ideographicSpace, CC.mathematicalSpace, CC.ogham in *.

(** Decides a goal about comparisons of character codes. *)
Ltac zbool :=
  unfold isDigit, isWhitespace, isLineBreak, isUnknownContentCharacter, is_code, on_code,
    exponent_marker in *;
  cc_unfold;
  repeat match goal with
         | H : _ /\ _ |- _ => destruct H
         | H : (_ && _)%bool = true |- _ => apply andb_true_iff in H; destruct H
         | H : (_ || _)%bool = false |- _ => apply orb_false_iff in H; destruct H
         | H : (_ <=? _)%Z = true |- _ => apply Z.leb_le in H
         | H : (_ <=? _)%Z = false |- _ => apply Z.leb_gt in H
         | H : (_ =? _)%Z = true |- _ => apply Z.eqb_eq in H
         | H : (_ =? _)%Z = false |- _ => apply Z.eqb_neq in H
         end;
  repeat match goal with
         | |- context [(?a =? ?b)%Z] => destruct (Z.eqb_spec a b); try lia
         | |- context [(?a <=? ?b)%Z] => destruct (Z.leb_spec a b); try lia
         | H : context [(?a =? ?b)%Z] |- _ => destruct (Z.eqb_spec a b); try lia
         | H : context [(?a <=? ?b)%Z] |- _ => destruct (Z.leb_spec a b); try lia
         end;
  simpl in *; try reflexivity; try discriminate; try lia; try tauto.

Section Suffix.
Variable text : jsstring.

Lemma suffix_head p c l :
  skipn p text = c :: l ->
  charCodeAt text p = Some c
  /\ (p <? List.length text) = true
  /\ (List.length text <=? p) = false
  /\ skipn (S p) text = l.
Proof.
  intros H.
  assert (Hlen : p < List.length text).
  { destruct (Nat.le_gt_cases (List.length text) p) as [Hle|]; [|assumption].
    rewrite (skipn_all2 text Hle) in H; discriminate. }
  repeat split.
  - unfold charCodeAt. rewrite <- (firstn_skipn p text) at 1.
    rewrite nth_error_app2; rewrite length_firstn, Nat.min_l by lia; [|lia].
    rewrite Nat.sub_diag, H; reflexivity.
  - apply Nat.ltb_lt; exact Hlen.
  - apply Nat.leb_gt; exact Hlen.
  - replace (S p) with (1 + p) by lia. rewrite <- skipn_skipn, H; reflexivity.
Qed.

Lemma suffix_nil p :
  skipn p text = [] ->
  charCodeAt text p = None
  /\ (p <? List.length text) = false
  /\ (List.length text <=? p) = true.
Proof.
  intros H.
  assert (Hlen : List.length text <= p).
  { pose proof (length_skipn p text) as Hl; rewrite H in Hl; simpl in Hl; lia. }
  repeat split.
  - apply nth_error_None; exact Hlen.
  - apply Nat.ltb_ge; exact Hlen.
  - apply Nat.leb_le; exact Hlen.
Qed.

Lemma suffix_app p a b :
  skipn p text = a ++ b -> skipn (p + List.length a) text = b.
Proof.
  intros H. rewrite Nat.add_comm, <- skipn_skipn, H.
  rewrite skipn_app, Nat.sub_diag, skipn_all; reflexivity.
Qed.

Lemma substring_suffix p a b :
  skipn p text = a ++ b -> substring text p (p + List.length a) = a.
Proof.
  intros H; unfold substring.
  rewrite Nat.max_r, Nat.min_l by lia.
  replace (p + List.length a - p) with (List.length a) by lia.
  rewrite H, firstn_app, Nat.sub_diag, firstn_all; simpl; apply app_nil_r.
Qed.

Lemma substring_extend start p c l :
  start <= p -> skipn p text = c :: l ->
  substring text start (S p) = substring text start p ++ [c].
Proof.
  intros Hle H; unfold substring.
  rewrite !Nat.max_r, !Nat.min_l by lia.
  assert (Hs : skipn start text = firstn (p - start) (skipn start text) ++ c :: l).
  { rewrite <- H. replace p with ((p - start) + start) at 2 by lia.
    rewrite <- skipn_skipn, firstn_skipn; reflexivity. }
  assert (Hlen : List.length (firstn (p - start) (skipn start text)) = p - start).
  { apply (f_equal (@List.length Z)) in Hs.
    rewrite length_app, length_skipn in Hs; simpl in Hs.
    rewrite length_firstn, length_skipn in *. lia. }
  rewrite Hs at 1.
  replace (S p - start) with ((p - start) + 1) by lia.
  rewrite firstn_app, Hlen.
  replace (p - start + 1 - (p - start)) with 1 by lia.
  rewrite firstn_all2 by (rewrite Hlen; lia). reflexivity.
Qed.

Lemma substring_empty p : substring text p p = [].
Proof. unfold substring; rewrite Nat.max_id, Nat.min_id, Nat.sub_diag; reflexivity. Qed.

End Suffix.

Lemma countWhile_run (p : Z -> bool) ds : forall tail,
  Forall (fun c => p c = true) ds ->
  match tail with c :: _ => p c = false | [] => True end ->
  countWhile p (ds ++ tail) = List.length ds.
Proof.
  induction ds as [|d ds IH]; intros tail Hds Htail; simpl.
  - destruct tail as [|c tail]; simpl; [reflexivity | rewrite Htail; reflexivity].
  - inversion Hds as [|? ? Hd Hds']; subst. rewrite Hd, IH by assumption; reflexivity.
Qed.

Section NumberScan.
Variable text : jsstring.

Lemma skipDigits_run p ds tail :
  skipn p text = ds ++ tail -> digits ds -> no_digit_next tail ->
  Scanner.skipDigits text p = p + List.length ds.
Proof.
  intros H Hds Ht; unfold Scanner.skipDigits; rewrite H.
  rewrite countWhile_run; [reflexivity | exact Hds | destruct tail; exact Ht].
Qed.

(** The position that ends the integer part. *)
Lemma intPart_end start int tail :
  skipn start text = int ++ tail -> IntPart int ->
  (int = [CC._0] \/ no_digit_next tail) ->
  (if is_code (charCodeAt text start) CC._0 then S start
   else Scanner.skipDigits text (S start))
  = start + List.length int.
Proof.
  intros H Hint Htail.
  destruct Hint as [|d ds Hd Hnz Hds]; simpl in H;
    destruct (suffix_head text _ _ _ H) as (Hc & _ & _ & Hs); rewrite Hc; simpl.
  - simpl; lia.
  - destruct (Z.eqb_spec d CC._0) as [|_]; [contradiction|].
    destruct Htail as [Habs|Htail]; [injection Habs as -> _; contradiction|].
    rewrite (skipDigits_run (S start) ds tail Hs Hds Htail); lia.
Qed.

Lemma exponent_marker_code m :
  exponent_marker m -> (is_code (Some m) CC.E || is_code (Some m) CC.e) = true.
Proof. intros [->| ->]; reflexivity. Qed.

Lemma scanExponent_absent s start p2 rest :
  skipn p2 text = rest -> number_ends rest ->
  Scanner.scanExponent text s start p2
  = (Scanner.set_pos s p2, substring text start p2).
Proof.
  intros H Hr; unfold Scanner.scanExponent.
  destruct rest as [|c rest].
  - destruct (suffix_nil text _ H) as (_ & -> & _); reflexivity.
  - destruct (suffix_head text _ _ _ H) as (-> & -> & _ & _).
    replace (is_code (Some c) CC.E || is_code (Some c) CC.e) with false; [reflexivity|].
    simpl in Hr; zbool.
Qed.

(** The position reached after the optional sign of an exponent. *)
Lemma exponent_sign_end p3 sg tail :
  skipn p3 text = sg ++ tail -> ExpSign sg -> (sg = [] -> no_sign_next tail) ->
  (if ((p3 <? List.length text) && is_code (charCodeAt text p3) CC.plus)
      || is_code (charCodeAt text p3) CC.minus
   then S p3 else p3)
  = p3 + List.length sg.
Proof.
  intros H Hsg Ht; destruct Hsg; simpl in H.
  - specialize (Ht eq_refl). destruct tail as [|c tail].
    + destruct (suffix_nil text _ H) as (-> & -> & _); simpl; lia.
    + destruct (suffix_head text _ _ _ H) as (-> & -> & _ & _).
      simpl in Ht; destruct Ht as [H1 H2].
      replace (is_code (Some c) CC.plus) with false by zbool.
      replace (is_code (Some c) CC.minus) with false by zbool.
      simpl; lia.
  - destruct (suffix_head text _ _ _ H) as (-> & -> & _ & _); simpl; lia.
  - destruct (suffix_head text _ _ _ H) as (-> & -> & _ & _); simpl; lia.
Qed.

Lemma digit_not_sign d : isDigit d = true -> d <> CC.plus /\ d <> CC.minus.
Proof. intros H; split; zbool. Qed.

Lemma scanExponent_present s start p2 exp rest :
  skipn p2 text = exp ++ rest -> ExpPart exp -> number_ends rest ->
  Scanner.scanExponent text s start p2
  = (Scanner.set_pos s (p2 + List.length exp),
     substring text start (p2 + List.length exp)).
Proof.
  intros H Hexp Hr.
  destruct Hexp as [|m sg d ds Hm Hsg Hd Hds].
  { simpl in *; rewrite Nat.add_0_r; apply (scanExponent_absent s start p2 rest H Hr). }
  unfold Scanner.scanExponent.
  simpl in H. destruct (suffix_head text _ _ _ H) as (-> & -> & _ & H3).
  rewrite (exponent_marker_code m Hm); simpl andb; cbv iota.
  rewrite <- app_assoc in H3.
  rewrite (exponent_sign_end (S p2) sg ((d :: ds) ++ rest) H3 Hsg)
    by (intros _; simpl; apply digit_not_sign, Hd).
  apply suffix_app in H3.
  destruct (suffix_head text _ _ _ H3) as (-> & -> & _ & H5).
  simpl on_code; rewrite Hd; simpl andb; cbv iota.
  rewrite (skipDigits_run _ ds rest H5 Hds)
    by (destruct rest; simpl in *; tauto).
  replace (S (S p2 + List.length sg) + List.length ds)
    with (p2 + List.length (m :: sg ++ d :: ds))
    by (simpl; rewrite length_app; simpl; lia).
  reflexivity.
Qed.

Lemma scanExponent_malformed s start p2 m sg rest :
  skipn p2 text = m :: sg ++ rest -> exponent_marker m -> ExpSign sg ->
  no_digit_next rest -> (sg = [] -> no_sign_next rest) ->
  Scanner.scanExponent text s start p2
  = (Scanner.set_scanError (Scanner.set_pos s (p2 + 1 + List.length sg))
       ScanError.UnexpectedEndOfNumber,
     substring text start p2).
Proof.
  intros H Hm Hsg Hr Hs.
  unfold Scanner.scanExponent.
  destruct (suffix_head text _ _ _ H) as (-> & -> & _ & H3).
  rewrite (exponent_marker_code m Hm); simpl andb; cbv iota.
  rewrite (exponent_sign_end (S p2) sg rest H3 Hsg Hs).
  apply suffix_app in H3.
  replace (S p2 + List.length sg) with (p2 + 1 + List.length sg) in * by lia.
  destruct rest as [|c rest].
  - destruct (suffix_nil text _ H3) as (_ & -> & _); reflexivity.
  - destruct (suffix_head text _ _ _ H3) as (-> & -> & _ & _).
    simpl in Hr; simpl on_code; rewrite Hr; reflexivity.
Qed.


(** After a well-formed integer part and optional fraction, [scanNumber]
    goes on with the exponent. *)
Lemma scanNumber_mantissa s int frac tail :
  skipn (Scanner.pos s) text = int ++ frac ++ tail ->
  IntPart int -> FracPart frac ->
  match tail with c :: _ => isDigit c = false /\ c <> CC.dot | [] => True end ->
  Scanner.scanNumber text s
  = Scanner.scanExponent text s (Scanner.pos s)
      (Scanner.pos s + List.length int + List.length frac).
Proof.
  intros H Hint Hfrac Ht; unfold Scanner.scanNumber.
  rewrite (intPart_end (Scanner.pos s) int (frac ++ tail) H Hint).
  2:{ right. destruct Hfrac; simpl; [destruct tail; simpl; tauto | reflexivity]. }
  apply suffix_app in H.
  destruct Hfrac as [|d ds Hd Hds]; simpl in H.
  - rewrite Nat.add_0_r.
    destruct tail as [|c tail].
    + destruct (suffix_nil text _ H) as (_ & -> & _); reflexivity.
    + destruct (suffix_head text _ _ _ H) as (-> & -> & _ & _).
      replace (is_code (Some c) CC.dot) with false by zbool. reflexivity.
  - destruct (suffix_head text _ _ _ H) as (-> & -> & _ & H2).
    simpl is_code; simpl andb; cbv iota.
    destruct (suffix_head text _ _ _ H2) as (-> & -> & _ & H3).
    simpl on_code; rewrite Hd; simpl andb; cbv iota.
    rewrite (skipDigits_run _ ds tail H3 Hds) by (destruct tail; simpl; tauto).
    f_equal; simpl; lia.
Qed.

Lemma marker_not_digit m : exponent_marker m -> isDigit m = false /\ m <> CC.dot.
Proof. intros [->| ->]; split; zbool. Qed.

(** A well-formed number is read in full, whatever follows it. *)
Lemma scanNumber_valid s u rest :
  skipn (Scanner.pos s) text = u ++ rest -> UnsignedNumber u -> number_ends rest ->
  Scanner.scanNumber text s
  = (Scanner.set_pos s (Scanner.pos s + List.length u), u).
Proof.
  intros H Hu Hr. destruct Hu as [int frac exp Hint Hfrac Hexp].
  rewrite <- !app_assoc in H.
  rewrite (scanNumber_mantissa s int frac (exp ++ rest) H Hint Hfrac).
  2:{ destruct Hexp as [|m sg d ds Hm _ _ _]; simpl;
        [destruct rest; simpl in *; tauto | apply marker_not_digit, Hm]. }
  pose proof H as Hsub.
  rewrite !app_assoc in Hsub; apply substring_suffix in Hsub.
  rewrite app_assoc in H; apply suffix_app in H; rewrite length_app, Nat.add_assoc in H.
  rewrite (scanExponent_present s _ _ exp rest H Hexp Hr).
  rewrite !length_app in Hsub. rewrite !length_app.
  rewrite !Nat.add_assoc in *. rewrite Hsub, <- !app_assoc. reflexivity.
Qed.

(** A dot that no digit follows ends the number with an error; the value
    is the text scanned so far, the dot included. *)
Lemma scanNumber_malformed_fraction s int rest :
  skipn (Scanner.pos s) text = int ++ CC.dot :: rest ->
  IntPart int -> no_digit_next rest ->
  Scanner.scanNumber text s
  = (Scanner.set_scanError (Scanner.set_pos s (Scanner.pos s + List.length int + 1))
       ScanError.UnexpectedEndOfNumber,
     int ++ [CC.dot]).
Proof.
  intros H Hint Hr; unfold Scanner.scanNumber.
  rewrite (intPart_end (Scanner.pos s) int (CC.dot :: rest) H Hint)
    by (right; reflexivity).
  pose proof H as Hsub.
  change (CC.dot :: rest) with ([CC.dot] ++ rest) in Hsub.
  rewrite app_assoc in Hsub; apply substring_suffix in Hsub.
  rewrite length_app in Hsub; simpl in Hsub.
  apply suffix_app in H.
  destruct (suffix_head text _ _ _ H) as (-> & -> & _ & H2).
  simpl is_code; simpl andb; cbv iota.
  replace (S (Scanner.pos s + List.length int))
    with (Scanner.pos s + List.length int + 1) in * by lia.
  rewrite Nat.add_assoc in Hsub.
  destruct rest as [|c rest].
  - destruct (suffix_nil text _ H2) as (_ & -> & _); simpl; rewrite Hsub; reflexivity.
  - destruct (suffix_head text _ _ _ H2) as (-> & -> & _ & _).
    simpl in Hr; simpl on_code; rewrite Hr; simpl; rewrite Hsub; reflexivity.
Qed.

(** An exponent marker that no digit follows, after its optional sign, ends
    the number with an error; the value is the text in front of the marker. *)
Lemma scanNumber_malformed_exponent s int frac m sg rest :
  skipn (Scanner.pos s) text = int ++ frac ++ m :: sg ++ rest ->
  IntPart int -> FracPart frac -> exponent_marker m -> ExpSign sg ->
  no_digit_next rest -> (sg = [] -> no_sign_next rest) ->
  Scanner.scanNumber text s
  = (Scanner.set_scanError
       (Scanner.set_pos s
          (Scanner.pos s + List.length int + List.length frac + 1 + List.length sg))
       ScanError.UnexpectedEndOfNumber,
     int ++ frac).
Proof.
  intros H Hint Hfrac Hm Hsg Hr Hs.
  rewrite (scanNumber_mantissa s int frac (m :: sg ++ rest) H Hint Hfrac)
    by (apply marker_not_digit, Hm).
  pose proof H as Hsub.
  rewrite app_assoc in Hsub; apply substring_suffix in Hsub.
  rewrite app_assoc in H; apply suffix_app in H; rewrite length_app, Nat.add_assoc in H.
  rewrite (scanExponent_malformed s _ _ m sg rest H Hm Hsg Hr Hs).
  rewrite length_app, Nat.add_assoc in Hsub; rewrite Hsub; reflexivity.
Qed.

End NumberScan.

Section TokenScan.
Variable text : jsstring.

(** Settles the next test of a cascade on a character code. *)
Ltac settle :=
  match goal with
  | |- context [if ?c then _ else _] =>
      first [ replace c with false by (symmetry; zbool)
            | replace c with true by (symmetry; zbool) ];
      cbv iota
  end.

Ltac scan_begin H :=
  unfold Scanner.scan, Scanner.scanNext;
  simpl Scanner.pos; simpl Scanner.tokenOffset; simpl Scanner.value;
  let Hc := fresh "Hc" in
  let Hlen := fresh "Hlen" in
  destruct (suffix_head text _ _ _ H) as (Hc & _ & Hlen & _);
  rewrite Hlen, Hc.

Lemma scan_digit s d l :
  skipn (Scanner.pos s) text = d :: l -> isDigit d = true ->
  Scanner.scan text s
  = (let '(s', v) :=
       Scanner.scanNumber text
         (Scanner.mk (Scanner.pos s) [] (Scanner.pos s) (Scanner.token s) ScanError.None) in
     Scanner.set_token (Scanner.set_value s' v) SyntaxKind.NumericLiteral).
Proof.
  intros H Hd. scan_begin H.
  do 12 settle. reflexivity.
Qed.

Lemma scan_minus_digit s d l :
  skipn (Scanner.pos s) text = CC.minus :: d :: l -> isDigit d = true ->
  Scanner.scan text s
  = (let '(s', v) :=
       Scanner.scanNumber text
         (Scanner.mk (S (Scanner.pos s)) [CC.minus] (Scanner.pos s) (Scanner.token s)
            ScanError.None) in
     Scanner.set_token (Scanner.set_value s' (CC.minus :: v)) SyntaxKind.NumericLiteral).
Proof.
  intros H Hd. scan_begin H.
  destruct (suffix_head text _ _ _ H) as (_ & _ & _ & H1).
  destruct (suffix_head text _ _ _ H1) as (Hc1 & Hlt & _ & _).
  do 11 settle.
  simpl Scanner.pos.
  replace (S (Scanner.pos s) =? List.length text) with false
    by (symmetry; apply Nat.eqb_neq; apply Nat.ltb_lt in Hlt; lia).
  rewrite Hc1; simpl on_code; rewrite Hd; reflexivity.
Qed.

Lemma scan_punctuation s c l k :
  skipn (Scanner.pos s) text = c :: l -> punctuation c = Some k ->
  Scanner.scan text s
  = Scanner.mk (S (Scanner.pos s)) [] (Scanner.pos s) k ScanError.None.
Proof.
  intros H Hk. scan_begin H.
  unfold punctuation in Hk.
  repeat match type of Hk with
         | (if (?a =? ?b)%Z then _ else _) = _ =>
             destruct (Z.eqb_spec a b) as [->|_];
               [injection Hk as <-; reflexivity|]
         end.
  discriminate.
Qed.

(** An unsigned number starts with a digit. *)
Lemma unsigned_number_head u :
  UnsignedNumber u -> exists d l, u = d :: l /\ isDigit d = true.
Proof.
  intros [int frac exp Hint _ _]; destruct Hint as [|d ds Hd _ _]; simpl; eauto.
Qed.

(** A number of the grammar, followed by a character that cannot extend it,
    is one numeric token without error. *)
Lemma scan_number s lex rest :
  skipn (Scanner.pos s) text = lex ++ rest -> NumberLexeme lex -> number_ends rest ->
  Scanner.scan text s
  = Scanner.mk (Scanner.pos s + List.length lex) lex (Scanner.pos s)
      SyntaxKind.NumericLiteral ScanError.None.
Proof.
  intros H Hlex Hr. destruct Hlex as [u Hu|u Hu];
    destruct (unsigned_number_head u Hu) as (d & l & -> & Hd).
  - rewrite (scan_digit s d (l ++ rest) H Hd).
    rewrite (scanNumber_valid text
               (Scanner.mk (Scanner.pos s) [] (Scanner.pos s) (Scanner.token s)
                  ScanError.None)
               (d :: l) rest H Hu Hr).
    reflexivity.
  - rewrite (scan_minus_digit s d (l ++ rest) H Hd).
    destruct (suffix_head text _ _ _ H) as (_ & _ & _ & H1).
    rewrite (scanNumber_valid text
               (Scanner.mk (S (Scanner.pos s)) [CC.minus] (Scanner.pos s) (Scanner.token s)
                  ScanError.None)
               (d :: l) rest H1 Hu Hr).
    replace (Scanner.pos s + List.length (CC.minus :: d :: l))
      with (S (Scanner.pos s) + List.length (d :: l)) by (simpl; lia).
    reflexivity.
Qed.


(** *** Keywords *)

Lemma scan_word s w rest :
  skipn (Scanner.pos s) text = w ++ rest ->
  Forall (fun c => isUnknownContentCharacter c = true) w ->
  match w with c :: _ => isDigit c = false /\ c <> CC.minus | [] => False end ->
  word_ends rest ->
  Scanner.scan text s
  = Scanner.mk (Scanner.pos s + List.length w) w (Scanner.pos s)
      (if jsstring_eqb w (js "true") then SyntaxKind.TrueKeyword
       else if jsstring_eqb w (js "false") then SyntaxKind.FalseKeyword
       else if jsstring_eqb w (js "null") then SyntaxKind.NullKeyword
       else SyntaxKind.Unknown)
      ScanError.None.
Proof.
  intros H Hw Hhead Hr.
  destruct w as [|c w]; [contradiction|].
  pose proof H as H0. simpl in H. scan_begin H.
  inversion Hw as [|? ? Hc0 Hw']; subst.
  destruct Hhead as [Hnd Hnm].
  assert (Hcls : isWhitespace c = false /\ isLineBreak c = false).
  { unfold isUnknownContentCharacter in Hc0.
    destruct (isWhitespace c), (isLineBreak c); simpl in Hc0; try discriminate; auto. }
  destruct Hcls as [Hws Hlb].
  simpl on_code. rewrite Hws, Hlb.
  assert (Hp : forall k, In k [CC.openBrace; CC.closeBrace; CC.openBracket; CC.closeBracket;
                               CC.colon; CC.comma; CC.doubleQuote; CC.slash] ->
                         (c =? k)%Z = false).
  { intros k Hk. unfold isUnknownContentCharacter in Hc0. rewrite Hws, Hlb in Hc0.
    simpl in Hc0. destruct (Z.eqb_spec c k) as [->|]; [|reflexivity].
    simpl in Hk; repeat (destruct Hk as [<-|Hk]; [vm_compute in Hc0; discriminate|]).
    contradiction. }
  simpl is_code.
  rewrite !Hp by (simpl; tauto).
  replace (c =? CC.minus)%Z with false by (symmetry; apply Z.eqb_neq; exact Hnm).
  rewrite Hnd. cbv iota.
  rewrite H0, (countWhile_run isUnknownContentCharacter (c :: w) rest Hw)
    by (destruct rest; exact Hr).
  rewrite (substring_suffix text _ _ _ H0).
  replace (negb (Scanner.pos s =? Scanner.pos s + List.length (c :: w))) with true
    by (symmetry; apply negb_true_iff, Nat.eqb_neq; simpl; lia).
  repeat match goal with |- context [if ?b then _ else _] => destruct b end; reflexivity.
Qed.

Lemma scan_null s rest :
  skipn (Scanner.pos s) text = js "null" ++ rest -> word_ends rest ->
  Scanner.scan text s
  = Scanner.mk (Scanner.pos s + 4) (js "null") (Scanner.pos s) SyntaxKind.NullKeyword
      ScanError.None.
Proof.
  intros H Hr. rewrite (scan_word s (js "null") rest H); [reflexivity| |simpl|exact Hr].
  - repeat constructor.
  - split; [reflexivity | discriminate].
Qed.

Lemma scan_true s rest :
  skipn (Scanner.pos s) text = js "true" ++ rest -> word_ends rest ->
  Scanner.scan text s
  = Scanner.mk (Scanner.pos s + 4) (js "true") (Scanner.pos s) SyntaxKind.TrueKeyword
      ScanError.None.
Proof.
  intros H Hr. rewrite (scan_word s (js "true") rest H); [reflexivity| |simpl|exact Hr].
  - repeat constructor.
  - split; [reflexivity | discriminate].
Qed.

Lemma scan_false s rest :
  skipn (Scanner.pos s) text = js "false" ++ rest -> word_ends rest ->
  Scanner.scan text s
  = Scanner.mk (Scanner.pos s + 5) (js "false") (Scanner.pos s) SyntaxKind.FalseKeyword
      ScanError.None.
Proof.
  intros H Hr. rewrite (scan_word s (js "false") rest H); [reflexivity| |simpl|exact Hr].
  - repeat constructor.
  - split; [reflexivity | discriminate].
Qed.

(** *** Strings *)

Lemma scanHexDigits_step k p acc h d :
  charCodeAt text p = Some h -> hexDigit h = Some d ->
  Scanner.scanHexDigits text (S k) p acc
  = Scanner.scanHexDigits text k (S p) (acc * 16 + d)%Z.
Proof.
  intros Hc Hh; simpl; rewrite Hc. unfold hexDigit in Hh.
  repeat match type of Hh with
         | (if ?c then _ else _) = _ => destruct c
         end; try discriminate; injection Hh as <-; f_equal; lia.
Qed.

Lemma hexDigit_nonneg h d : hexDigit h = Some d -> (0 <= d)%Z.
Proof.
  unfold hexDigit; intros Hh.
  repeat match type of Hh with
         | (if ?c then _ else _) = _ => destruct c eqn:?
         end; try discriminate; injection Hh as <-; zbool.
Qed.

Lemma scanEscape_simple s result c d :
  escaped c = Some d ->
  Scanner.scanEscape text s result (Some c) = (s, result ++ [d]).
Proof.
  unfold escaped, Scanner.scanEscape, is_code; intros H.
  repeat match type of H with
         | (if ?c then _ else _) = _ => destruct c; [injection H as <-; reflexivity|]
         end.
  discriminate.
Qed.

Lemma scanEscape_unicode s result h1 h2 h3 h4 d1 d2 d3 d4 rest :
  skipn (Scanner.pos s) text = h1 :: h2 :: h3 :: h4 :: rest ->
  hexDigit h1 = Some d1 -> hexDigit h2 = Some d2 ->
  hexDigit h3 = Some d3 -> hexDigit h4 = Some d4 ->
  Scanner.scanEscape text s result (Some CC.u)
  = (Scanner.set_pos s (Scanner.pos s + 4),
     result ++ [(((d1 * 16 + d2) * 16 + d3) * 16 + d4)%Z]).
Proof.
  intros H H1 H2 H3 H4.
  destruct (suffix_head text _ _ _ H) as (C1 & _ & _ & S1).
  destruct (suffix_head text _ _ _ S1) as (C2 & _ & _ & S2).
  destruct (suffix_head text _ _ _ S2) as (C3 & _ & _ & S3).
  destruct (suffix_head text _ _ _ S3) as (C4 & _ & _ & _).
  unfold Scanner.scanEscape.
  change (is_code (Some CC.u) CC.doubleQuote) with false.
  change (is_code (Some CC.u) CC.backslash) with false.
  change (is_code (Some CC.u) CC.slash) with false.
  change (is_code (Some CC.u) CC.b) with false.
  change (is_code (Some CC.u) CC.f) with false.
  change (is_code (Some CC.u) CC.n) with false.
  change (is_code (Some CC.u) CC.r) with false.
  change (is_code (Some CC.u) CC.t) with false.
  change (is_code (Some CC.u) CC.u) with true.
  cbv iota.
  rewrite (scanHexDigits_step 3 _ _ h1 d1 C1 H1).
  rewrite (scanHexDigits_step 2 _ _ h2 d2 C2 H2).
  rewrite (scanHexDigits_step 1 _ _ h3 d3 C3 H3).
  rewrite (scanHexDigits_step 0 _ _ h4 d4 C4 H4).
  simpl Scanner.scanHexDigits.
  pose proof (hexDigit_nonneg _ _ H1). pose proof (hexDigit_nonneg _ _ H2).
  pose proof (hexDigit_nonneg _ _ H3). pose proof (hexDigit_nonneg _ _ H4).
  replace (S (S (S (S (Scanner.pos s))))) with (Scanner.pos s + 4) by lia.
  replace ((((0 * 16 + d1) * 16 + d2) * 16 + d3) * 16 + d4)%Z
    with ((((d1 * 16 + d2) * 16 + d3) * 16 + d4))%Z by lia.
  replace (0 <=? ((d1 * 16 + d2) * 16 + d3) * 16 + d4)%Z with true
    by (symmetry; apply Z.leb_le; lia).
  reflexivity.
Qed.

Lemma set_pos_set_pos s p q : Scanner.set_pos (Scanner.set_pos s p) q = Scanner.set_pos s q.
Proof. reflexivity. Qed.

Ltac pos_eq :=
  match goal with
  | |- (Scanner.set_pos _ ?a, _) = (Scanner.set_pos _ ?b, _) =>
      replace a with b by (simpl; lia); reflexivity
  end.

(** The loop of [scanString] on the body of a well-formed string. *)
Lemma scanString_loop_body body dec :
  StringBody body dec ->
  forall k s result start rest,
    start <= Scanner.pos s ->
    skipn (Scanner.pos s) text = body ++ CC.doubleQuote :: rest ->
    List.length body < k ->
    Scanner.scanString_loop text k s result start
    = (Scanner.set_pos s (Scanner.pos s + List.length body + 1),
       result ++ substring text start (Scanner.pos s) ++ dec).
Proof.
  induction 1 as [|c body dec Hc _ IH|c d body dec Hesc _ IH
                 |h1 h2 h3 h4 d1 d2 d3 d4 body dec H1 H2 H3 H4 _ IH];
    intros k s result start rest Hstart Hs Hk;
    (destruct k as [|k]; [simpl in Hk; lia|]);
    simpl in Hs; destruct (suffix_head text _ _ _ Hs) as (Hch & _ & Hlen & Hs1);
    simpl Scanner.scanString_loop; rewrite Hlen, Hch.
  - simpl. rewrite app_nil_r. pos_eq.
  - destruct Hc as (Hc1 & Hc2 & Hc3).
    do 3 settle.
    rewrite (IH k (Scanner.set_pos s (S (Scanner.pos s))) result start rest);
      simpl Scanner.pos; try lia; [|exact Hs1|simpl in Hk; lia].
    rewrite set_pos_set_pos.
    rewrite (substring_extend text start (Scanner.pos s) c _ Hstart Hs).
    rewrite <- !app_assoc. simpl. pos_eq.
  - do 2 settle.
    destruct (suffix_head text _ _ _ Hs1) as (Hch2 & _ & Hlen2 & Hs2).
    rewrite Hlen2, Hch2.
    rewrite (scanEscape_simple _ _ c d Hesc). simpl fst; simpl snd.
    rewrite (IH k _ _ _ rest); simpl Scanner.pos; try lia; [|exact Hs2|simpl in Hk; lia].
    rewrite set_pos_set_pos, substring_empty. simpl.
    rewrite <- !app_assoc. simpl. pos_eq.
  - do 2 settle.
    destruct (suffix_head text _ _ _ Hs1) as (Hch2 & _ & Hlen2 & Hs2).
    rewrite Hlen2, Hch2.
    rewrite (scanEscape_unicode (Scanner.set_pos s (S (S (Scanner.pos s)))) _
               h1 h2 h3 h4 d1 d2 d3 d4 (body ++ CC.doubleQuote :: rest) Hs2 H1 H2 H3 H4).
    simpl fst; simpl snd. simpl Scanner.pos.
    apply (suffix_app text _ [h1; h2; h3; h4]) in Hs2. simpl List.length in Hs2.
    rewrite (IH k _ _ _ rest); simpl Scanner.pos; try lia; [|exact Hs2|simpl in Hk; lia].
    rewrite !set_pos_set_pos, substring_empty. simpl.
    rewrite <- !app_assoc. simpl. pos_eq.
Qed.

(** A well-formed string is one string token without error, whose value is
    the string it denotes. *)
Lemma scan_string s body dec rest :
  skipn (Scanner.pos s) text = CC.doubleQuote :: body ++ CC.doubleQuote :: rest ->
  StringBody body dec ->
  Scanner.scan text s
  = Scanner.mk (Scanner.pos s + List.length body + 2) dec (Scanner.pos s)
      SyntaxKind.StringLiteral ScanError.None.
Proof.
  intros H Hb. scan_begin H.
  destruct (suffix_head text _ _ _ H) as (_ & _ & _ & H1).
  do 8 settle. change (is_code (Some CC.doubleQuote) CC.doubleQuote) with true. cbv iota.
  unfold Scanner.scanString.
  rewrite (scanString_loop_body body dec Hb _ _ _ _ rest); simpl Scanner.pos;
    [| lia | exact H1 |].
  - rewrite substring_empty; simpl.
    replace (S (Scanner.pos s + List.length body + 1))
      with (Scanner.pos s + List.length body + 2) by lia.
    reflexivity.
  - apply (f_equal (@List.length Z)) in H1.
    rewrite length_skipn, length_app in H1. simpl in H1. lia.
Qed.

End TokenScan.

(** ** The heap of the materializer *)

Section HeapLemmas.

Lemma update_length {A} (a : nat) (x : A) s : List.length (update a x s) = List.length s.
Proof.
  revert a; induction s as [|y s IH]; intros [|a]; simpl; try reflexivity.
  rewrite IH; reflexivity.
Qed.

Lemma update_app {A} (a : nat) (x : A) s n :
  a < List.length s -> update a x (s ++ n) = update a x s ++ n.
Proof.
  revert a; induction s as [|y s IH]; intros a H; simpl in *; [lia|].
  destruct a; [reflexivity|]. simpl. rewrite IH by lia; reflexivity.
Qed.

Lemma update_update {A} (a : nat) (x y : A) s : update a x (update a y s) = update a x s.
Proof.
  revert a; induction s as [|z s IH]; intros [|a]; simpl; try reflexivity.
  rewrite IH; reflexivity.
Qed.

Lemma update_same {A} (a : nat) (x : A) s : nth_error s a = Some x -> update a x s = s.
Proof.
  revert a; induction s as [|z s IH]; intros [|a] H; simpl in *; try discriminate.
  - injection H as ->; reflexivity.
  - rewrite IH by assumption; reflexivity.
Qed.

Lemma nth_error_update {A} (a : nat) (x : A) s :
  a < List.length s -> nth_error (update a x s) a = Some x.
Proof.
  revert a; induction s as [|z s IH]; intros [|a] H; simpl in *; try lia; [reflexivity|].
  apply IH; lia.
Qed.

Lemma update_end {A} (x y : A) s n : update (List.length s) x (s ++ y :: n) = s ++ x :: n.
Proof. induction s as [|z s IH]; simpl; [reflexivity | rewrite IH; reflexivity]. Qed.

Lemma nth_error_lt {A} (s : list A) a x : nth_error s a = Some x -> a < List.length s.
Proof. intros H; apply nth_error_Some; congruence. Qed.

Lemma trees_length cells : forall base, List.length (trees cells base) = List.length cells.
Proof. induction cells as [|c cells IH]; intros base; simpl; [|rewrite IH]; reflexivity. Qed.

Lemma trees_nth_app c1 : forall c2 base i d,
  nth (List.length c1 + i) (trees (c1 ++ c2) base) d
  = nth i (trees c2 (base + List.length c1)) d.
Proof.
  induction c1 as [|c c1 IH]; intros c2 base i d; simpl.
  - rewrite Nat.add_0_r; reflexivity.
  - rewrite IH. replace (S base + List.length c1) with (base + S (List.length c1)) by lia.
    reflexivity.
Qed.

(** A value allocated after the cells [c1] does not depend on them. *)
Lemma treeOf_shift base c1 c2 v :
  fresh (base + List.length c1) v ->
  treeOf base (trees (c1 ++ c2) base) v
  = treeOf (base + List.length c1) (trees c2 (base + List.length c1)) v.
Proof.
  destruct v; simpl; try reflexivity. intros H.
  replace (base <=? a) with true by (symmetry; apply Nat.leb_le; lia).
  replace (base + List.length c1 <=? a) with true by (symmetry; apply Nat.leb_le; lia).
  replace (a - base) with (List.length c1 + (a - (base + List.length c1))) by lia.
  apply trees_nth_app.
Qed.

(** The tree of the container at the first of the cells. *)
Lemma treeOf_first base c cells :
  treeOf base (trees (c :: cells) base) (JRef base)
  = treeOfCell (S base) (trees cells (S base)) c.
Proof. simpl. rewrite Nat.leb_refl, Nat.sub_diag. reflexivity. Qed.

Lemma fresh_le base base' v : base <= base' -> fresh base' v -> fresh base v.
Proof. destruct v; simpl; try tauto; lia. Qed.

Lemma map_assign {A B} (f : A -> B) k v props :
  map (fun kv => (fst kv, f (snd kv))) (assign k v props)
  = assign k (f v) (map (fun kv => (fst kv, f (snd kv))) props).
Proof.
  induction props as [|[k' v'] props IH]; simpl; [reflexivity|].
  destruct (jsstring_eqb k k'); simpl; [reflexivity | rewrite IH; reflexivity].
Qed.

End HeapLemmas.

(** ** The callbacks of [parse] *)

Section MaterializerLemmas.

Lemma onValue_attach m a c v :
  MParent m a c ->
  Materializer.onValue v m
  = Materializer.mk (update a (attach c (Materializer.currentProperty m) v)
                       (Materializer.store m))
      (Materializer.currentProperty m) (Materializer.currentParent m)
      (Materializer.previousParents m) (Materializer.errors m) (Materializer.thrown m).
Proof.
  intros (Ht & Hp & Hc). unfold Materializer.onValue. rewrite Hp, Hc.
  destruct c as [props|items]; simpl; [|reflexivity].
  destruct (Materializer.currentProperty m) eqn:E; [reflexivity|].
  rewrite (update_same _ _ _ Hc). destruct m; simpl in *; subst; reflexivity.
Qed.

(** A literal value is put into the current parent. *)
Lemma literal_attached m a c (v : jsval) :
  MParent m a c ->
  match v with JRef _ | JUndefined => False | _ => True end ->
  Attached m (Materializer.guarded (Materializer.onValue v) m) a c
    (treeOf 0 [] v).
Proof.
  intros HP Hv. pose proof HP as (Ht & Hp & Hc).
  unfold Materializer.guarded; rewrite Ht.
  rewrite (onValue_attach m a c v HP). unfold Attached; simpl.
  repeat split; try assumption.
  exists v, []. rewrite app_nil_r. repeat split.
  - destruct v; simpl; auto; contradiction.
  - intros ext; destruct v; try reflexivity; contradiction.
Qed.

(** Opening a container: it is allocated at the end of the heap, put into
    the current parent and made the current parent. *)
Lemma onBegin_state m a c c0 :
  MParent m a c ->
  Materializer.guarded (Materializer.onBegin c0) m
  = Materializer.mk
      (update a (attach c (Materializer.currentProperty m)
                   (JRef (List.length (Materializer.store m))))
         (Materializer.store m) ++ [c0])
      None (Some (List.length (Materializer.store m)))
      (Some a :: Materializer.previousParents m) (Materializer.errors m) false.
Proof.
  intros HP. pose proof HP as (Ht & Hp & Hc).
  unfold Materializer.guarded; rewrite Ht. unfold Materializer.onBegin.
  assert (HP1 : MParent
                  (Materializer.mk (Materializer.store m ++ [c0])
                     (Materializer.currentProperty m) (Materializer.currentParent m)
                     (Materializer.previousParents m) (Materializer.errors m)
                     (Materializer.thrown m)) a c).
  { unfold MParent; simpl; repeat split; try assumption.
    rewrite nth_error_app1 by (eapply nth_error_lt; eassumption). exact Hc. }
  rewrite (onValue_attach _ a c _ HP1). simpl.
  rewrite update_app by (eapply nth_error_lt; eassumption).
  rewrite Hp, Ht. reflexivity.
Qed.

End MaterializerLemmas.

(** ** Skipping white space *)

Section SkipWhitespace.
Variable text : jsstring.

Ltac scan_begin H :=
  unfold Scanner.scan, Scanner.scanNext;
  simpl Scanner.pos; simpl Scanner.tokenOffset; simpl Scanner.value;
  let Hc := fresh "Hc" in
  let Hlen := fresh "Hlen" in
  destruct (suffix_head text _ _ _ H) as (Hc & _ & Hlen & _);
  rewrite Hlen, Hc.

Lemma scan_whitespace s c l :
  skipn (Scanner.pos s) text = c :: l -> isWhitespace c = true ->
  Scanner.scan text s
  = Scanner.mk (Scanner.pos s + List.length (Scanner.whitespaceRun (c :: l)))
      (Scanner.whitespaceRun (c :: l)) (Scanner.pos s) SyntaxKind.Trivia ScanError.None.
Proof.
  intros H Hc. scan_begin H. simpl on_code. rewrite Hc. rewrite H. reflexivity.
Qed.

Lemma scan_lineBreak s c l :
  skipn (Scanner.pos s) text = c :: l -> isWhitespace c = false -> isLineBreak c = true ->
  Scanner.token (Scanner.scan text s) = SyntaxKind.LineBreakTrivia
  /\ Scanner.scanError (Scanner.scan text s) = ScanError.None
  /\ Scanner.pos (Scanner.scan text s)
     = if is_code (Some c) CC.carriageReturn && is_code (charCodeAt text (S (Scanner.pos s)))
                                                  CC.lineFeed
       then S (S (Scanner.pos s)) else S (Scanner.pos s).
Proof.
  intros H Hw Hl. scan_begin H. simpl on_code. rewrite Hw, Hl.
  destruct (is_code (Some c) CC.carriageReturn
            && is_code (charCodeAt text (S (Scanner.pos s))) CC.lineFeed);
    repeat split.
Qed.

(** A text the parser can land on does not begin with white space. *)
Lemma lands_head l p :
  lands text l -> skipn p text = l ->
  match l with
  | c :: _ => isWhitespace c = false /\ isLineBreak c = false
  | [] => True
  end.
Proof.
  intros Hl H. destruct l as [|c l]; [exact I|].
  destruct (Hl (Scanner.setPosition Scanner.initial p) H) as [Hsig _].
  destruct (isWhitespace c) eqn:Ew.
  { rewrite (scan_whitespace (Scanner.setPosition Scanner.initial p) c l H Ew) in Hsig; discriminate. }
  destruct (isLineBreak c) eqn:El; [|split; reflexivity].
  destruct (scan_lineBreak (Scanner.setPosition Scanner.initial p) c l H Ew El) as (Ht & _).
  rewrite Ht in Hsig; discriminate.
Qed.

Lemma whitespaceRun_prefix w : forall l,
  match l with c :: _ => isWhitespace c = false | [] => True end ->
  exists w2, w = Scanner.whitespaceRun (w ++ l) ++ w2.
Proof.
  induction w as [|c w IH]; intros l Hl; simpl.
  - exists []. destruct l as [|c l]; simpl; [reflexivity | rewrite Hl; reflexivity].
  - destruct (isWhitespace c).
    + destruct (IH l Hl) as (w2 & E). exists w2. simpl. rewrite <- E; reflexivity.
    + exists (c :: w); reflexivity.
Qed.

Section WithVisitor.
Variable V : Type.
Variable visitor : JSONVisitor V.
Variable options : ParseOptions.t.

Lemma reportScanError_none (st : Visit.PState V) :
  Scanner.scanError (Visit.scanner st) = ScanError.None ->
  Visit.reportScanError visitor options st = st.
Proof. unfold Visit.reportScanError, Scanner.getTokenError; intros ->; reflexivity. Qed.

(** [scanNext] over white space: the state it returns is the state of the
    scanner after the token on which it lands, and no callback is made. *)
Lemma scanNext_lands n : forall w,
  List.length w <= n -> Ws w ->
  forall l fuel (st st' : Visit.PState V),
    lands text l ->
    skipn (Scanner.pos (Visit.scanner st)) text = w ++ l ->
    Visit.scanNext visitor text options fuel st = Some st' ->
    exists sc,
      Scanner.pos sc = Scanner.pos (Visit.scanner st) + List.length w
      /\ st' = Visit.mkP (Scanner.scan text sc) (Visit.vis st).
Proof.
  induction n as [|n IH]; intros w Hn Hw l fuel st st' Hl Hs H;
    (destruct fuel as [|fuel]; [discriminate|]); simpl in H.
  - destruct w; [|simpl in Hn; lia]. simpl in Hs.
    destruct (Hl (Visit.scanner st) Hs) as [Hsig Herr].
    rewrite reportScanError_none in H by exact Herr.
    unfold Visit.getToken, Scanner.getToken in H; simpl Visit.scanner in H.
    exists (Visit.scanner st); split; [simpl; lia|].
    destruct (Scanner.token (Scanner.scan text (Visit.scanner st)));
      try discriminate Hsig; injection H as <-; reflexivity.
  - destruct w as [|c w].
    { apply (IH [] (Nat.le_0_l n) Hw l (S fuel) st st' Hl Hs). exact H. }
    simpl in Hn. inversion Hw as [|? ? Hc Hw']; subst.
    pose proof (suffix_app text _ _ _ Hs) as Hsl.
    pose proof (lands_head l _ Hl Hsl) as Hhead.
    simpl in Hs.
    assert (Hcont : forall sc1 w2,
               Scanner.scanError sc1 = ScanError.None ->
               (Scanner.token sc1 = SyntaxKind.Trivia
                \/ Scanner.token sc1 = SyntaxKind.LineBreakTrivia) ->
               Scanner.scan text (Visit.scanner st) = sc1 ->
               List.length w2 <= n -> Ws w2 ->
               skipn (Scanner.pos sc1) text = w2 ++ l ->
               Scanner.pos sc1 + List.length w2
               = Scanner.pos (Visit.scanner st) + S (List.length w) ->
               exists sc,
                 Scanner.pos sc = Scanner.pos (Visit.scanner st) + List.length (c :: w)
                 /\ st' = Visit.mkP (Scanner.scan text sc) (Visit.vis st)).
    { intros sc1 w2 Herr Htok Esc Hlen2 Hw2 Hs2 Hpos.
      rewrite Esc in H.
      rewrite reportScanError_none in H by exact Herr.
      unfold Visit.getToken, Scanner.getToken in H; simpl Visit.scanner in H.
      assert (H' : Visit.scanNext visitor text options fuel (Visit.mkP sc1 (Visit.vis st))
                   = Some st')
        by (destruct Htok as [E|E]; rewrite E in H; exact H).
      destruct (IH w2 Hlen2 Hw2 l fuel (Visit.mkP sc1 (Visit.vis st)) st' Hl Hs2 H')
        as (sc & Hp & Est).
      exists sc; split; [simpl in *; lia | exact Est]. }
    destruct (isWhitespace c) eqn:Ews.
    + (* a run of spaces and tabs *)
      pose proof (scan_whitespace (Visit.scanner st) c (w ++ l) Hs Ews) as Esc.
      destruct (whitespaceRun_prefix (c :: w) l) as (w2 & Ew2).
      { destruct l; [exact I | apply Hhead]. }
      simpl in Ew2. rewrite Ews in Ew2.
      assert (Hrun : Scanner.whitespaceRun (c :: w ++ l)
                     = c :: Scanner.whitespaceRun (w ++ l))
        by (simpl; rewrite Ews; reflexivity).
      rewrite Hrun in Esc.
      injection Ew2 as Ew2.
      eapply Hcont with (w2 := w2) (3 := Esc);
        [reflexivity | left; reflexivity | | | |].
      * apply (f_equal (@List.length Z)) in Ew2. rewrite length_app in Ew2. lia.
      * rewrite Ew2 in Hw'. apply Forall_app in Hw'. apply Hw'.
      * simpl Scanner.pos.
        change (c :: w ++ l) with ((c :: w) ++ l) in Hs.
        rewrite Ew2 in Hs at 1.
        change (c :: Scanner.whitespaceRun (w ++ l) ++ w2)
          with ((c :: Scanner.whitespaceRun (w ++ l)) ++ w2) in Hs.
        rewrite <- app_assoc in Hs. apply suffix_app in Hs. exact Hs.
      * simpl Scanner.pos. apply (f_equal (@List.length Z)) in Ew2.
        rewrite length_app in Ew2. simpl. lia.
    + (* a line break *)
      assert (Elb : isLineBreak c = true).
      { destruct Hc as [->|[->|[->| ->]]]; try reflexivity; discriminate. }
      destruct (scan_lineBreak (Visit.scanner st) c (w ++ l) Hs Ews Elb)
        as (Htok & Herr & Hpos).
      destruct (suffix_head text _ _ _ Hs) as (_ & _ & _ & Hs1).
      destruct (is_code (Some c) CC.carriageReturn
                && is_code (charCodeAt text (S (Scanner.pos (Visit.scanner st))))
                     CC.lineFeed) eqn:Ecr.
      * (* carriage return and line feed *)
        apply andb_true_iff in Ecr; destruct Ecr as [_ Elf].
        destruct w as [|c2 w].
        { simpl in Hs1. destruct l as [|c2 l].
          - destruct (suffix_nil text _ Hs1) as (E0 & _); rewrite E0 in Elf; discriminate.
          - destruct (suffix_head text _ _ _ Hs1) as (E0 & _); rewrite E0 in Elf.
            simpl in Elf; apply Z.eqb_eq in Elf; subst c2.
            destruct Hhead as [_ Hlb]; discriminate. }
        simpl in Hs1. destruct (suffix_head text _ _ _ Hs1) as (_ & _ & _ & Hs2).
        eapply (Hcont _ w Herr (or_intror Htok) eq_refl).
        -- simpl in Hn; lia.
        -- inversion Hw'; assumption.
        -- rewrite Hpos; exact Hs2.
        -- rewrite Hpos; simpl; lia.
      * eapply (Hcont _ w Herr (or_intror Htok) eq_refl).
        -- lia.
        -- exact Hw'.
        -- rewrite Hpos; exact Hs1.
        -- rewrite Hpos; simpl; lia.
Qed.

Lemma scanNext_skip w l fuel (st st' : Visit.PState V) :
  Visit.scanNext visitor text options fuel st = Some st' ->
  Ws w -> lands text l ->
  skipn (Scanner.pos (Visit.scanner st)) text = w ++ l ->
  exists sc,
    Scanner.pos sc = Scanner.pos (Visit.scanner st) + List.length w
    /\ st' = Visit.mkP (Scanner.scan text sc) (Visit.vis st).
Proof.
  intros H Hw Hl Hs.
  apply (scanNext_lands (List.length w) w (Nat.le_refl _) Hw l fuel st st' Hl Hs H).
Qed.

End WithVisitor.
End SkipWhitespace.

(** ** [parse] on the texts of the grammar *)

Lemma significant_of_starts k : starts_value k = true -> significant k = true.
Proof. destruct k; simpl; congruence. Qed.

Lemma Follow_intro w l : Ws w -> Delim l -> Follow (w ++ l).
Proof.
  intros Hw Hl. destruct w as [|c w]; simpl.
  - destruct l; simpl in *; tauto.
  - inversion Hw; subst; left; assumption.
Qed.

Lemma Follow_number_ends l : Follow l -> number_ends l.
Proof.
  destruct l as [|c l]; simpl; [trivial|].
  unfold isJSONws; intros [[->|[->|[->| ->]]]|[->|[->| ->]]]; repeat split; discriminate.
Qed.

Lemma Follow_word_ends l : Follow l -> word_ends l.
Proof.
  destruct l as [|c l]; simpl; [trivial|].
  unfold isJSONws; intros [[->|[->|[->| ->]]]|[->|[->| ->]]]; reflexivity.
Qed.

Section Lands.
Variable text : jsstring.

Lemma lands_nil : lands text [].
Proof.
  intros sc H. destruct (suffix_nil text _ H) as (_ & _ & Hlen).
  apply Nat.leb_le in Hlen. rewrite (scan_at_end text sc Hlen). split; reflexivity.
Qed.

Lemma lands_punctuation c l k : punctuation c = Some k -> lands text (c :: l).
Proof.
  intros Hk sc H. rewrite (scan_punctuation text sc c l k H Hk); simpl.
  split; [|reflexivity].
  unfold punctuation in Hk.
  repeat match type of Hk with
         | (if ?b then _ else _) = _ => destruct b; [injection Hk as <-; reflexivity|]
         end.
  discriminate.
Qed.

Lemma lands_delim l : Delim l -> lands text l.
Proof.
  destruct l as [|c l]; [intros _; apply lands_nil|].
  simpl; intros [->|[->| ->]]; eapply lands_punctuation; reflexivity.
Qed.

Lemma lands_string body dec rest :
  StringBody body dec -> lands text (CC.doubleQuote :: body ++ CC.doubleQuote :: rest).
Proof.
  intros Hb sc H. rewrite (scan_string text sc body dec rest H Hb); split; reflexivity.
Qed.

End Lands.

(** The callbacks of [parse], as [visit] calls them. *)
Lemma materializer_onLiteralValue v (st : Visit.PState Materializer.t) :
  Visit.onLiteralValue' Materializer.visitor v st
  = Visit.mkP (Visit.scanner st)
      (Materializer.guarded (Materializer.onValue v) (Visit.vis st)).
Proof. reflexivity. Qed.

Lemma materializer_onObjectProperty k (st : Visit.PState Materializer.t) :
  Visit.onObjectProperty' Materializer.visitor k st
  = Visit.mkP (Visit.scanner st)
      (Materializer.guarded (Materializer.onProperty k) (Visit.vis st)).
Proof. reflexivity. Qed.

Lemma materializer_onSeparator c (st : Visit.PState Materializer.t) :
  Visit.onSeparator' Materializer.visitor c st = st.
Proof. reflexivity. Qed.

Lemma materializer_onObjectBegin (st : Visit.PState Materializer.t) :
  Visit.onObjectBegin' Materializer.visitor st
  = Visit.mkP (Visit.scanner st)
      (Materializer.guarded (Materializer.onBegin (CObject [])) (Visit.vis st)).
Proof. reflexivity. Qed.

Lemma materializer_onArrayBegin (st : Visit.PState Materializer.t) :
  Visit.onArrayBegin' Materializer.visitor st
  = Visit.mkP (Visit.scanner st)
      (Materializer.guarded (Materializer.onBegin (CArray [])) (Visit.vis st)).
Proof. reflexivity. Qed.

Lemma materializer_onObjectEnd (st : Visit.PState Materializer.t) :
  Visit.onObjectEnd' Materializer.visitor st
  = Visit.mkP (Visit.scanner st) (Materializer.guarded Materializer.onEnd (Visit.vis st)).
Proof. reflexivity. Qed.

Lemma materializer_onArrayEnd (st : Visit.PState Materializer.t) :
  Visit.onArrayEnd' Materializer.visitor st
  = Visit.mkP (Visit.scanner st) (Materializer.guarded Materializer.onEnd (Visit.vis st)).
Proof. reflexivity. Qed.

Section Values.
Variable text : jsstring.
Variable options : ParseOptions.t.

Lemma parseValue_literal n (st : Visit.PState Materializer.t) :
  Visit.getToken st <> SyntaxKind.OpenBracketToken ->
  Visit.getToken st <> SyntaxKind.OpenBraceToken ->
  Visit.getToken st <> SyntaxKind.StringLiteral ->
  Visit.parseValue Materializer.visitor text options (S n) st
  = Visit.parseLiteral Materializer.visitor text options n st.
Proof. intros H1 H2 H3; simpl; destruct (Visit.getToken st); congruence. Qed.

(** A literal value is reported, then the white space behind it is
    skipped. *)
Lemma literal_then_scanNext fuel (st st' : Visit.PState Materializer.t) lit w l a c :
  Ws w -> Delim l ->
  skipn (Scanner.pos (Visit.scanner st)) text = w ++ l ->
  MParent (Visit.vis st) a c ->
  match lit with JRef _ | JUndefined => False | _ => True end ->
  Visit.scanNext Materializer.visitor text options fuel
    (Visit.onLiteralValue' Materializer.visitor lit st) = Some st' ->
  (exists sc',
     Scanner.pos sc' = Scanner.pos (Visit.scanner st) + List.length w
     /\ Visit.scanner st' = Scanner.scan text sc')
  /\ Attached (Visit.vis st) (Visit.vis st') a c (treeOf 0 [] lit).
Proof.
  intros Hw Hl Hs HP Hlit H.
  rewrite materializer_onLiteralValue in H.
  destruct (scanNext_lands text _ Materializer.visitor options (List.length w) w
              (Nat.le_refl _) Hw l fuel
              (Visit.mkP (Visit.scanner st)
                 (Materializer.guarded (Materializer.onValue lit) (Visit.vis st)))
              st' (lands_delim text l Hl) Hs H)
    as (sc' & Hp & ->).
  simpl. split; [exists sc'; split; [exact Hp | reflexivity]|].
  apply literal_attached; assumption.
Qed.

Ltac continue_inv H :=
  match type of H with
  | match ?x with Some _ => _ | None => None end = Some _ =>
      let E := fresh "E" in
      destruct x eqn:E; [injection H as <- <- | discriminate H]
  end.

Lemma value_literal_ok t k tokval lit v :
  (forall sc rest, skipn (Scanner.pos sc) text = t ++ rest -> Follow rest ->
     Scanner.scan text sc
     = Scanner.mk (Scanner.pos sc + List.length t) tokval (Scanner.pos sc) k
         ScanError.None) ->
  starts_value k = true ->
  (forall n (st : Visit.PState Materializer.t),
     Visit.getToken st = k -> Scanner.getTokenValue (Visit.scanner st) = tokval ->
     Visit.parseValue Materializer.visitor text options (S n) st
     = match Visit.scanNext Materializer.visitor text options n
               (Visit.onLiteralValue' Materializer.visitor lit st) with
       | Some st => Some (true, st)
       | None => None
       end) ->
  match lit with JRef _ | JUndefined => False | _ => True end ->
  treeOf 0 [] lit = v ->
  Value_ok text options t v.
Proof.
  intros Hscan Hstart Hparse Hlit Hv w l sc Hw Hl Hs.
  pose proof (Hscan sc (w ++ l) Hs (Follow_intro w l Hw Hl)) as Esc.
  rewrite Esc; simpl. split; [split; [exact Hstart | reflexivity]|].
  intros fuel st b st' a c Est HP H.
  destruct fuel as [|n]; [discriminate|].
  rewrite (Hparse n st) in H
    by (unfold Visit.getToken, Scanner.getToken, Scanner.getTokenValue;
        rewrite Est; reflexivity).
  continue_inv H.
  split; [reflexivity|].
  destruct (literal_then_scanNext n st p lit w l a c Hw Hl) as ((sc' & Hp & Esc') & Hatt);
    try assumption.
  { rewrite Est; simpl. apply suffix_app in Hs. exact Hs. }
  rewrite Hv in Hatt. split; [|exact Hatt].
  exists sc'; split; [|exact Esc']. rewrite Hp, Est; simpl; lia.
Qed.

Lemma value_null_ok : Value_ok text options (js "null") TNull.
Proof.
  apply (value_literal_ok (js "null") SyntaxKind.NullKeyword (js "null") JNull);
    try reflexivity; try exact I.
  - intros sc rest H Hf; apply (scan_null text sc rest H (Follow_word_ends _ Hf)).
  - intros n st E _; rewrite parseValue_literal by (rewrite E; discriminate).
    unfold Visit.parseLiteral; rewrite E; reflexivity.
Qed.

Lemma value_true_ok : Value_ok text options (js "true") (TBool true).
Proof.
  apply (value_literal_ok (js "true") SyntaxKind.TrueKeyword (js "true") (JBool true));
    try reflexivity; try exact I.
  - intros sc rest H Hf; apply (scan_true text sc rest H (Follow_word_ends _ Hf)).
  - intros n st E _; rewrite parseValue_literal by (rewrite E; discriminate).
    unfold Visit.parseLiteral; rewrite E; reflexivity.
Qed.

Lemma value_false_ok : Value_ok text options (js "false") (TBool false).
Proof.
  apply (value_literal_ok (js "false") SyntaxKind.FalseKeyword (js "false") (JBool false));
    try reflexivity; try exact I.
  - intros sc rest H Hf; apply (scan_false text sc rest H (Follow_word_ends _ Hf)).
  - intros n st E _; rewrite parseValue_literal by (rewrite E; discriminate).
    unfold Visit.parseLiteral; rewrite E; reflexivity.
Qed.

(** [JSON.parse] accepts the numbers of the grammar. *)
Lemma dropDigits_run ds tail :
  digits ds -> no_digit_next tail -> dropDigits (ds ++ tail) = tail.
Proof.
  intros Hd Ht; unfold dropDigits.
  rewrite (countWhile_run isDigit ds tail Hd) by (destruct tail; exact Ht).
  rewrite skipn_app, Nat.sub_diag, skipn_all. reflexivity.
Qed.

Lemma numberExponent_ok exp : ExpPart exp -> numberExponent exp = true.
Proof.
  intros [|m sg d ds Hm Hsg Hd Hds]; [reflexivity|].
  unfold numberExponent.
  replace ((m =? CC.e)%Z || (m =? CC.E)%Z) with true
    by (destruct Hm as [->| ->]; reflexivity).
  assert (E : match sg ++ d :: ds with
              | sg0 :: r0 => if ((sg0 =? CC.plus)%Z || (sg0 =? CC.minus)%Z) then r0
                             else sg ++ d :: ds
              | [] => sg ++ d :: ds
              end = d :: ds).
  { destruct Hsg; simpl; try reflexivity.
    replace ((d =? CC.plus)%Z || (d =? CC.minus)%Z) with false; [reflexivity|].
    symmetry; zbool. }
  rewrite E, Hd. simpl.
  pose proof (dropDigits_run ds [] Hds I) as Hdd. rewrite app_nil_r in Hdd.
  rewrite Hdd; reflexivity.
Qed.

Lemma numberFraction_ok frac exp :
  FracPart frac -> ExpPart exp -> numberFraction (frac ++ exp) = Some exp.
Proof.
  intros [|d ds Hd Hds] Hexp; simpl.
  - destruct Hexp as [|m sg d ds Hm _ _ _]; [reflexivity|]. simpl.
    replace (m =? CC.dot)%Z with false; [reflexivity|].
    symmetry; destruct Hm as [->| ->]; reflexivity.
  - rewrite Hd. f_equal. apply dropDigits_run; [exact Hds|].
    destruct Hexp as [|m sg d' ds' Hm _ _ _]; simpl; [exact I|].
    destruct Hm as [->| ->]; reflexivity.
Qed.

Lemma isJSONNumber_unsigned u :
  UnsignedNumber u ->
  match u with
  | c :: r =>
      isDigit c
      && match numberFraction (if (c =? CC._0)%Z then r else dropDigits r) with
         | Some rest => numberExponent rest
         | None => false
         end
  | [] => false
  end = true.
Proof.
  intros [int frac exp Hint Hfrac Hexp].
  destruct Hint as [|d ds Hd Hnz Hds]; simpl.
  - rewrite (numberFraction_ok frac exp Hfrac Hexp). apply numberExponent_ok, Hexp.
  - rewrite Hd. replace (d =? CC._0)%Z with false by (symmetry; apply Z.eqb_neq, Hnz).
    rewrite dropDigits_run; [|exact Hds|].
    + rewrite (numberFraction_ok frac exp Hfrac Hexp). apply numberExponent_ok, Hexp.
    + destruct Hfrac; simpl; [|reflexivity].
      destruct Hexp as [|m sg d' ds' Hm _ _ _]; simpl; [exact I|].
      destruct Hm as [->| ->]; reflexivity.
Qed.

Lemma JSON_parse_number lex : NumberLexeme lex -> JSON_parse lex = Some (NumLit lex).
Proof.
  intros Hlex; unfold JSON_parse.
  replace (isJSONNumber lex) with true; [reflexivity|]. symmetry.
  destruct Hlex as [u Hu|u Hu]; unfold isJSONNumber.
  - destruct (unsigned_number_head u Hu) as (d & l & -> & Hd).
    replace (d =? CC.minus)%Z with false by (symmetry; zbool).
    apply (isJSONNumber_unsigned (d :: l) Hu).
  - change (CC.minus =? CC.minus)%Z with true. cbv iota.
    apply (isJSONNumber_unsigned u Hu).
Qed.

Lemma value_number_ok lex :
  NumberLexeme lex -> Value_ok text options lex (TNumber (NumLit lex)).
Proof.
  intros Hlex.
  apply (value_literal_ok lex SyntaxKind.NumericLiteral lex (JNumber (NumLit lex)));
    try reflexivity; try exact I.
  - intros sc rest H Hf; apply (scan_number text sc lex rest H Hlex (Follow_number_ends _ Hf)).
  - intros n st E Ev; rewrite parseValue_literal by (rewrite E; discriminate).
    unfold Visit.parseLiteral; rewrite E, Ev, (JSON_parse_number lex Hlex); reflexivity.
Qed.

Lemma value_string_ok body s :
  StringBody body s ->
  Value_ok text options (CC.doubleQuote :: body ++ [CC.doubleQuote]) (TString s).
Proof.
  intros Hb.
  apply (value_literal_ok _ SyntaxKind.StringLiteral s (JString s));
    try reflexivity; try exact I.
  - intros sc rest H Hf.
    simpl in H; rewrite <- app_assoc in H; simpl in H.
    rewrite (scan_string text sc body s rest H Hb).
    simpl; rewrite length_app; simpl. f_equal; lia.
  - intros n st E Ev. simpl. rewrite E. unfold Visit.parseString. rewrite Ev. reflexivity.
Qed.



Lemma element_ok w1 t v w2 :
  Ws w1 -> Value_ok text options t v -> Ws w2 ->
  Element_ok text options (w1 ++ t ++ w2) v.
Proof.
  intros Hw1 HV Hw2 l n0 st0 st1 Hl Hs Hscan.
  rewrite <- !app_assoc in Hs.
  assert (Hlands : lands text (t ++ w2 ++ l)).
  { intros sc H. destruct (HV w2 l sc Hw2 Hl H) as ((Hst & Herr) & _).
    split; [apply significant_of_starts, Hst | exact Herr]. }
  destruct (scanNext_lands text _ Materializer.visitor options (List.length w1) w1
              (Nat.le_refl _) Hw1 (t ++ w2 ++ l) n0 st0 st1 Hlands Hs Hscan)
    as (sc1 & Hp1 & ->).
  assert (Hs1 : skipn (Scanner.pos sc1) text = t ++ w2 ++ l)
    by (rewrite Hp1; apply (suffix_app text _ _ _ Hs)).
  destruct (HV w2 l sc1 Hw2 Hl Hs1) as ((Hst & _) & Hparse).
  split; [reflexivity|]. split; [exact Hst|].
  intros fuel b st' a c HP H.
  destruct (Hparse fuel (Visit.mkP (Scanner.scan text sc1) (Visit.vis st0)) b st' a c
              eq_refl HP H) as (Hb & (sc' & Hp' & Esc') & Hatt).
  split; [exact Hb|]. split; [|exact Hatt].
  exists sc'; split; [|exact Esc']. rewrite Hp', Hp1, !length_app; lia.
Qed.

(** The state of the materializer once a value is attached to the array
    [items] at [a]. *)
Lemma Attached_array m m' a items v :
  MParent m a (CArray items) -> Attached m m' a (CArray items) v ->
  exists v' new,
    Materializer.store m' = update a (CArray (items ++ [v'])) (Materializer.store m) ++ new
    /\ fresh (List.length (Materializer.store m)) v'
    /\ (forall ext,
          treeOf (List.length (Materializer.store m))
            (trees (new ++ ext) (List.length (Materializer.store m))) v' = v)
    /\ MParent m' a (CArray (items ++ [v'])).
Proof.
  intros (_ & _ & Hc) (Ht & Hp & _ & _ & v' & new & Hst & Hf & Hv).
  exists v', new. simpl in Hst. repeat split; try assumption.
  rewrite Hst, nth_error_app1 by (rewrite update_length; eapply nth_error_lt; eassumption).
  apply nth_error_update; eapply nth_error_lt; eassumption.
Qed.

Lemma parseArray_element_inv k n (st st2 : Visit.PState Materializer.t) :
  (forall b st', Visit.parseValue Materializer.visitor text options k st = Some (b, st') ->
                 b = true) ->
  Visit.parseArray_element Materializer.visitor text options
    (Visit.parseValue Materializer.visitor text options k) n st = Some st2 ->
  Visit.parseValue Materializer.visitor text options k st = Some (true, st2).
Proof.
  intros Hb H; unfold Visit.parseArray_element in H.
  destruct (Visit.parseValue Materializer.visitor text options k st) as [[b st']|] eqn:E;
    [|discriminate].
  rewrite (Hb b st' eq_refl) in *. injection H as <-; reflexivity.
Qed.

Lemma token_of_scan (st : Visit.PState Materializer.t) sc c l k :
  Visit.scanner st = Scanner.scan text sc ->
  skipn (Scanner.pos sc) text = c :: l -> punctuation c = Some k ->
  Visit.getToken st = k /\ Scanner.pos (Visit.scanner st) = S (Scanner.pos sc).
Proof.
  intros E Hs Hk. unfold Visit.getToken, Scanner.getToken.
  rewrite E, (scan_punctuation text sc c l k Hs Hk). split; reflexivity.
Qed.

Lemma elements_one_ok t v :
  Element_ok text options t v -> Elements_ok text options t [v].
Proof.
  intros HE l n0 st0 st1 Hs Hscan.
  destruct (HE (CC.closeBracket :: l) n0 st0 st1) as (Hvis & Hstart & Hparse);
    [simpl; tauto | exact Hs | exact Hscan |].
  split; [exact Hvis|]. split; [exact Hstart|].
  intros k n1 n2 st2 st' a items HP Helem Hloop.
  apply parseArray_element_inv in Helem.
  2:{ intros b st'' E. apply (Hparse k b st'' a _ HP E). }
  destruct (Hparse k true st2 a _ HP Helem) as (_ & (sc' & Hp' & Esc') & Hatt).
  pose proof (suffix_app text _ _ _ Hs) as Hs'. rewrite <- Hp' in Hs'.
  destruct (token_of_scan st2 sc' _ _ _ Esc' Hs' eq_refl) as (Htok & _).
  destruct n2 as [|n2]; [discriminate|]. simpl in Hloop.
  rewrite Htok in Hloop. simpl in Hloop. injection Hloop as <-.
  split; [exists sc'; split; assumption|].
  destruct (Attached_array _ _ _ _ _ HP Hatt) as (v' & new & Hst & Hf & Hv & _).
  destruct Hatt as (Ht & Hcp & Hpp & Herr & _).
  unfold ArrayFilled. repeat split; try assumption.
  exists [v'], new. repeat split; [exact Hst | repeat constructor; exact Hf |].
  intros ext; simpl; rewrite Hv; reflexivity.
Qed.

Lemma elements_cons_ok t v ts vs :
  Element_ok text options t v -> Elements_ok text options ts vs ->
  Elements_ok text options (t ++ CC.comma :: ts) (v :: vs).
Proof.
  intros HE HEs l n0 st0 st1 Hs Hscan.
  rewrite <- app_assoc in Hs. simpl in Hs.
  destruct (HE (CC.comma :: ts ++ CC.closeBracket :: l) n0 st0 st1)
    as (Hvis & Hstart & Hparse); [simpl; tauto | exact Hs | exact Hscan |].
  split; [exact Hvis|]. split; [exact Hstart|].
  intros k n1 n2 st2 st' a items HP Helem Hloop.
  apply parseArray_element_inv in Helem.
  2:{ intros b st'' E. apply (Hparse k b st'' a _ HP E). }
  destruct (Hparse k true st2 a _ HP Helem) as (_ & (sc' & Hp' & Esc') & Hatt).
  pose proof (suffix_app text _ _ _ Hs) as Hs'. rewrite <- Hp' in Hs'.
  destruct (token_of_scan st2 sc' _ _ _ Esc' Hs' eq_refl) as (Htok & Hpos2).
  destruct (suffix_head text _ _ _ Hs') as (_ & _ & _ & Hs2). rewrite <- Hpos2 in Hs2.
  destruct n2 as [|n2]; [discriminate|]. simpl in Hloop.
  rewrite Htok in Hloop. simpl in Hloop.
  unfold Visit.parseArray_step in Hloop. rewrite Htok in Hloop. simpl in Hloop.
  rewrite materializer_onSeparator in Hloop.
  destruct (Visit.scanNext Materializer.visitor text options n2 st2) as [st3|] eqn:E3;
    [|discriminate].
  destruct (HEs l n2 st2 st3 Hs2 E3) as (Hvis3 & Hstart3 & Hrest).
  replace (SyntaxKind.eqb (Visit.getToken st3) SyntaxKind.CloseBracketToken) with false
    in Hloop by (destruct (Visit.getToken st3); try discriminate; reflexivity).
  simpl in Hloop.
  destruct (Visit.parseArray_element Materializer.visitor text options
              (Visit.parseValue Materializer.visitor text options k) n2 st3)
    as [st4|] eqn:E4; [|discriminate].
  destruct (Attached_array _ _ _ _ _ HP Hatt) as (v' & new1 & Hst1 & Hf1 & Hv1 & HP2).
  destruct (Hrest k n2 n2 st4 st' a _ HP2 E4 Hloop) as ((sc'' & Hp'' & Esc'') & Hfill).
  split.
  { exists sc''; split; [|exact Esc''].
    rewrite Hp'', Hpos2, Hp', length_app; simpl; lia. }
  destruct Hatt as (Ht2 & Hcp2 & Hpp2 & Herr2 & _).
  destruct Hfill as (Ht & Hcp & Hpp & Herr & items' & new2 & Hst & Hf & Hv).
  pose proof HP as (_ & _ & Hc).
  pose proof (nth_error_lt _ _ _ Hc) as Hlt.
  assert (Hbase : List.length (Materializer.store (Visit.vis st2))
                  = List.length (Materializer.store (Visit.vis st0)) + List.length new1).
  { rewrite Hst1, length_app, update_length; reflexivity. }
  unfold ArrayFilled. repeat split; try congruence.
  exists (v' :: items'), (new1 ++ new2). repeat split.
  - rewrite Hst, Hst1, update_app by (rewrite update_length; exact Hlt).
    rewrite update_update, <- !app_assoc. reflexivity.
  - constructor; [exact Hf1|].
    eapply Forall_impl; [|exact Hf]. intros x Hx.
    eapply fresh_le; [|exact Hx]. lia.
  - intros ext. simpl. rewrite <- app_assoc, Hv1. f_equal.
    rewrite <- (Hv ext). apply map_ext_in. intros x Hx.
    rewrite Hbase. apply treeOf_shift.
    rewrite <- Hbase. apply (proj1 (Forall_forall _ _) Hf x Hx).
Qed.


(** Opening a container makes it the current parent. *)
Lemma onBegin_parent m a c c0 :
  MParent m a c ->
  MParent (Materializer.guarded (Materializer.onBegin c0) m)
    (List.length (Materializer.store m)) c0.
Proof.
  intros HP. rewrite (onBegin_state m a c c0 HP).
  unfold MParent; simpl. repeat split.
  rewrite nth_error_app2; rewrite update_length; [|lia].
  rewrite Nat.sub_diag; reflexivity.
Qed.

(** The value attached when a container is closed: the container itself,
    which reads back as the tree of its cell. *)
Lemma container_attached m m3 a c c0 c3 new v :
  MParent m a c ->
  Materializer.thrown m3 = false ->
  Materializer.previousParents m3
  = Materializer.previousParents (Materializer.guarded (Materializer.onBegin c0) m) ->
  Materializer.errors m3
  = Materializer.errors (Materializer.guarded (Materializer.onBegin c0) m) ->
  Materializer.store m3
  = update (List.length (Materializer.store m)) c3
      (Materializer.store (Materializer.guarded (Materializer.onBegin c0) m)) ++ new ->
  (forall ext,
     treeOfCell (S (List.length (Materializer.store m)))
       (trees (new ++ ext) (S (List.length (Materializer.store m)))) c3 = v) ->
  Attached m (Materializer.guarded Materializer.onEnd m3) a c v.
Proof.
  intros HP Ht Hpp Herr Hst Hv.
  rewrite (onBegin_state m a c c0 HP) in *. simpl in *.
  unfold Materializer.guarded; rewrite Ht. unfold Materializer.onEnd; rewrite Hpp.
  unfold Attached; simpl. repeat split; try assumption.
  exists (JRef (List.length (Materializer.store m))), (c3 :: new).
  repeat split.
  - rewrite Hst.
    replace (List.length (Materializer.store m))
      with (List.length
              (update a
                 (attach c (Materializer.currentProperty m)
                    (JRef (List.length (Materializer.store m))))
                 (Materializer.store m))) at 1 by apply update_length.
    rewrite update_end, <- app_assoc. reflexivity.
  - simpl; lia.
  - intros ext. change ((c3 :: new) ++ ext) with (c3 :: new ++ ext).
    rewrite treeOf_first. apply Hv.
Qed.

Lemma value_array_generic inner vs :
  (forall l n0 st0 st1 n2 st' a k,
     skipn (Scanner.pos (Visit.scanner st0)) text = inner ++ CC.closeBracket :: l ->
     Visit.scanNext Materializer.visitor text options n0 st0 = Some st1 ->
     MParent (Visit.vis st0) a (CArray []) ->
     Visit.parseArray_loop Materializer.visitor text options
       (Visit.parseValue Materializer.visitor text options k) n2 false st1 = Some st' ->
     (exists sc',
        Scanner.pos sc' = Scanner.pos (Visit.scanner st0) + List.length inner
        /\ Visit.scanner st' = Scanner.scan text sc')
     /\ ArrayFilled (Visit.vis st0) (Visit.vis st') a [] vs) ->
  Value_ok text options (CC.openBracket :: inner ++ [CC.closeBracket]) (TArray vs).
Proof.
  intros Hloop w l sc Hw Hl Hs.
  simpl in Hs; rewrite <- app_assoc in Hs; simpl in Hs.
  pose proof (scan_punctuation text sc _ _ _ Hs eq_refl) as Esc.
  rewrite Esc; simpl. split; [split; reflexivity|].
  intros fuel st b st' a c Est HP H.
  destruct fuel as [|n]; [discriminate|].
  simpl in H.
  assert (Etok : Visit.getToken st = SyntaxKind.OpenBracketToken)
    by (unfold Visit.getToken, Scanner.getToken; rewrite Est; reflexivity).
  rewrite Etok in H. unfold Visit.parseArray in H.
  rewrite materializer_onArrayBegin in H.
  match type of H with
  | match Visit.scanNext _ _ _ _ ?s with _ => _ end = _ => set (st1 := s) in *
  end.
  destruct (Visit.scanNext Materializer.visitor text options n st1) as [st2|] eqn:E2;
    [|discriminate].
  destruct (Visit.parseArray_loop Materializer.visitor text options
              (Visit.parseValue Materializer.visitor text options n) n false st2)
    as [st3|] eqn:E3; [|discriminate].
  destruct (suffix_head text _ _ _ Hs) as (_ & _ & _ & Hs1).
  assert (Hpos1 : Scanner.pos (Visit.scanner st1) = S (Scanner.pos sc))
    by (unfold st1; simpl; rewrite Est; reflexivity).
  rewrite <- Hpos1 in Hs1.
  pose proof (onBegin_parent _ _ _ (CArray []) HP) as HP1.
  destruct (Hloop (w ++ l) n st1 st2 n st3 _ n Hs1 E2 HP1 E3)
    as ((sc3 & Hp3 & Esc3) & Hfill).
  pose proof (suffix_app text _ _ _ Hs1) as Hs3. rewrite <- Hp3 in Hs3.
  destruct (token_of_scan st3 sc3 _ _ _ Esc3 Hs3 eq_refl) as (Htok3 & Hpos3).
  destruct (suffix_head text _ _ _ Hs3) as (_ & _ & _ & Hs4). rewrite <- Hpos3 in Hs4.
  unfold Visit.parseArray_close in H. rewrite materializer_onArrayEnd in H.
  unfold Visit.getToken in H; simpl Visit.scanner in H.
  unfold Visit.getToken in Htok3. rewrite Htok3 in H. simpl in H.
  continue_inv H. split; [reflexivity|].
  destruct (scanNext_skip text _ Materializer.visitor options w l n _ p E Hw
              (lands_delim text l Hl) Hs4)
    as (sc' & Hp' & ->).
  simpl. split.
  { exists sc'; split; [|reflexivity].
    simpl in Hp'. rewrite Hp', Hpos3, Hp3, Hpos1, length_app; simpl; lia. }
  destruct Hfill as (Ht & Hcp & Hpp & Herr & items' & new & Hst & Hf & Hv).
  apply (container_attached _ _ a c (CArray []) (CArray items') new); try assumption.
  intros ext; simpl. f_equal.
  rewrite <- (Hv ext). unfold st1; simpl.
  rewrite (onBegin_state _ a c (CArray []) HP); simpl.
  rewrite length_app, update_length; simpl.
  replace (List.length (Materializer.store (Visit.vis st)) + 1)
    with (S (List.length (Materializer.store (Visit.vis st)))) by lia.
  reflexivity.
Qed.


Lemma starts_value_token k :
  starts_value k = true ->
  SyntaxKind.eqb k SyntaxKind.CloseBracketToken = false
  /\ SyntaxKind.eqb k SyntaxKind.CloseBraceToken = false
  /\ SyntaxKind.eqb k SyntaxKind.EOF = false
  /\ SyntaxKind.eqb k SyntaxKind.CommaToken = false.
Proof. destruct k; simpl; intros H; try discriminate; repeat split. Qed.

Lemma value_array_empty_ok w0 :
  Ws w0 ->
  Value_ok text options (CC.openBracket :: w0 ++ [CC.closeBracket]) (TArray []).
Proof.
  intros Hw0. apply value_array_generic.
  intros l n0 st0 st1 n2 st' a k Hs Hscan HP Hloop.
  destruct (scanNext_skip text _ Materializer.visitor options w0 _ n0 st0 st1 Hscan Hw0
              (lands_punctuation text CC.closeBracket l SyntaxKind.CloseBracketToken eq_refl) Hs)
    as (sc1 & Hp1 & ->).
  pose proof (suffix_app text _ _ _ Hs) as Hs1. rewrite <- Hp1 in Hs1.
  destruct n2 as [|n2]; [discriminate|]. simpl in Hloop.
  unfold Visit.getToken, Scanner.getToken in Hloop; simpl Visit.scanner in Hloop.
  rewrite (scan_punctuation text sc1 _ _ _ Hs1 eq_refl) in Hloop.
  simpl in Hloop. injection Hloop as <-. simpl.
  split; [exists sc1; split; [exact Hp1|]; symmetry;
          apply (scan_punctuation text sc1 _ _ _ Hs1 eq_refl)|].
  destruct HP as (Ht & Hcp & Hc).
  unfold ArrayFilled. repeat split; try assumption.
  exists [], []. repeat split; [|constructor].
  simpl. rewrite app_nil_r, (update_same _ _ _ Hc). reflexivity.
Qed.

Lemma value_array_ok ts vs :
  Elements_ok text options ts vs ->
  Value_ok text options (CC.openBracket :: ts ++ [CC.closeBracket]) (TArray vs).
Proof.
  intros HEs. apply value_array_generic.
  intros l n0 st0 st1 n2 st' a k Hs Hscan HP Hloop.
  destruct (HEs l n0 st0 st1 Hs Hscan) as (Hvis & Hstart & Hrest).
  destruct (starts_value_token _ Hstart) as (E1 & _ & E3 & E4).
  destruct n2 as [|n2]; [discriminate|]. simpl in Hloop.
  rewrite E1, E3 in Hloop. simpl in Hloop.
  unfold Visit.parseArray_step in Hloop. rewrite E4 in Hloop.
  destruct (Visit.parseArray_element Materializer.visitor text options
              (Visit.parseValue Materializer.visitor text options k) n2 st1)
    as [st2|] eqn:E; [|discriminate].
  apply (Hrest k n2 n2 st2 st' a [] HP E Hloop).
Qed.

(** *** Objects *)

Lemma Attached_object m m' a props key v :
  MParent m a (CObject props) ->
  Materializer.currentProperty m = Some key ->
  Attached m m' a (CObject props) v ->
  exists v' new,
    Materializer.store m'
    = update a (CObject (assign key v' props)) (Materializer.store m) ++ new
    /\ fresh (List.length (Materializer.store m)) v'
    /\ (forall ext,
          treeOf (List.length (Materializer.store m))
            (trees (new ++ ext) (List.length (Materializer.store m))) v' = v)
    /\ MParent m' a (CObject (assign key v' props)).
Proof.
  intros (_ & _ & Hc) Hk (Ht & Hp & _ & _ & v' & new & Hst & Hf & Hv).
  exists v', new. rewrite Hk in Hst. simpl in Hst. repeat split; try assumption.
  rewrite Hst, nth_error_app1 by (rewrite update_length; eapply nth_error_lt; eassumption).
  apply nth_error_update; eapply nth_error_lt; eassumption.
Qed.

Lemma member_ok w1 body key w2 t v :
  Ws w1 -> StringBody body key -> Ws w2 -> Element_ok text options t v ->
  Member_ok text options
    (w1 ++ CC.doubleQuote :: body ++ CC.doubleQuote :: w2 ++ CC.colon :: t) key v.
Proof.
  intros Hw1 Hb Hw2 HE l n0 st0 st1 Hl Hs Hscan.
  rewrite <- app_assoc in Hs. simpl in Hs. rewrite <- app_assoc in Hs. simpl in Hs.
  rewrite <- app_assoc in Hs. simpl in Hs.
  destruct (scanNext_skip text _ Materializer.visitor options w1 _ n0 st0 st1 Hscan Hw1
              (lands_string text body key _ Hb) Hs)
    as (sc1 & Hp1 & ->).
  pose proof (suffix_app text _ _ _ Hs) as Hs1. rewrite <- Hp1 in Hs1.
  pose proof (scan_string text sc1 body key _ Hs1 Hb) as Esc1.
  unfold Visit.getToken, Scanner.getToken; simpl Visit.scanner; simpl Visit.vis.
  rewrite Esc1; simpl.
  split; [reflexivity|]. split; [reflexivity|].
  intros k fuel st' a props HP H.
  unfold Visit.parseObject_member, Visit.parseProperty in H.
  unfold Visit.getToken, Scanner.getToken in H; simpl Visit.scanner in H.
  simpl in H. unfold Visit.parseString in H.
  rewrite materializer_onObjectProperty in H. simpl Visit.scanner in H.
  unfold Scanner.getTokenValue in H; simpl Scanner.value in H; simpl Visit.vis in H.
  match type of H with
  | context [Visit.scanNext _ _ _ _ ?s] => set (st2 := s) in *
  end.
  destruct (Visit.scanNext Materializer.visitor text options fuel st2) as [st3|] eqn:E3;
    [|discriminate].
  assert (Hs2 : skipn (Scanner.pos (Visit.scanner st2)) text = w2 ++ CC.colon :: t ++ l).
  { unfold st2; simpl.
    replace (CC.doubleQuote :: body ++ CC.doubleQuote :: w2 ++ CC.colon :: t ++ l)
      with ((CC.doubleQuote :: body ++ [CC.doubleQuote]) ++ w2 ++ CC.colon :: t ++ l)
      in Hs1 by (simpl; rewrite <- app_assoc; reflexivity).
    apply suffix_app in Hs1. simpl in Hs1. rewrite length_app in Hs1. simpl in Hs1.
    replace (Scanner.pos sc1 + List.length body + 2)
      with (Scanner.pos sc1 + S (List.length body + 1)) by lia.
    exact Hs1. }
  destruct (scanNext_skip text _ Materializer.visitor options w2 _ fuel st2 st3 E3 Hw2
              (lands_punctuation text CC.colon (t ++ l) SyntaxKind.ColonToken eq_refl) Hs2)
    as (sc3 & Hp3 & ->).
  pose proof (suffix_app text _ _ _ Hs2) as Hs3. rewrite <- Hp3 in Hs3.
  pose proof (scan_punctuation text sc3 _ _ _ Hs3 eq_refl) as Esc3.
  unfold Visit.getToken, Scanner.getToken in H; simpl Visit.scanner in H.
  rewrite Esc3 in H. simpl in H.
  rewrite materializer_onSeparator in H.
  match type of H with
  | context [Visit.scanNext _ _ _ _ ?s] => set (st4 := s) in *
  end.
  destruct (Visit.scanNext Materializer.visitor text options fuel st4) as [st5|] eqn:E5;
    [|discriminate].
  destruct (suffix_head text _ _ _ Hs3) as (_ & _ & _ & Hs4).
  assert (HP4 : MParent (Visit.vis st4) a (CObject props)).
  { unfold st4, st2; simpl. destruct HP as (Ht & Hcp & Hc).
    unfold Materializer.guarded; rewrite Ht. unfold MParent; simpl. auto. }
  assert (Hk4 : Materializer.currentProperty (Visit.vis st4) = Some key).
  { unfold st4, st2; simpl. destruct HP as (Ht & _).
    unfold Materializer.guarded; rewrite Ht. reflexivity. }
  assert (Hsame : Materializer.store (Visit.vis st4) = Materializer.store (Visit.vis st0)
                  /\ Materializer.previousParents (Visit.vis st4)
                     = Materializer.previousParents (Visit.vis st0)
                  /\ Materializer.errors (Visit.vis st4) = Materializer.errors (Visit.vis st0)).
  { unfold st4, st2; simpl. destruct HP as (Ht & _).
    unfold Materializer.guarded; rewrite Ht. simpl; auto. }
  destruct Hsame as (Hst4 & Hpp4 & Herr4).
  destruct (HE l fuel st4 st5 Hl Hs4 E5) as (Hvis5 & _ & Hparse).
  destruct (Visit.parseValue Materializer.visitor text options k st5) as [[b st6]|] eqn:E6;
    [|discriminate].
  destruct (Hparse k b st6 a _ HP4 E6) as (-> & (sc6 & Hp6 & Esc6) & Hatt).
  injection H as <-.
  split.
  { exists sc6; split; [|exact Esc6].
    rewrite Hp6. unfold st4; simpl. rewrite Hp3. unfold st2; simpl. rewrite Hp1.
    repeat (rewrite length_app; simpl). lia. }
  destruct (Attached_object _ _ _ _ _ _ HP4 Hk4 Hatt) as (v' & new & Hst & Hf & Hv & _).
  destruct Hatt as (Ht6 & Hcp6 & Hpp6 & Herr6 & _).
  unfold ObjectFilled. repeat split; try congruence.
  exists [(key, v')], new. rewrite Hst4 in *. repeat split.
  - exact Hst.
  - repeat constructor; exact Hf.
  - intros ext; simpl. rewrite Hv; reflexivity.
Qed.


Lemma assignAll_app {A} (ms1 ms2 props : list (jsstring * A)) :
  assignAll (ms1 ++ ms2) props = assignAll ms2 (assignAll ms1 props).
Proof. unfold assignAll; apply fold_left_app. Qed.

Lemma map_assignAll {A B} (f : A -> B) ms : forall props,
  map (fun kv => (fst kv, f (snd kv))) (assignAll ms props)
  = assignAll (map (fun kv => (fst kv, f (snd kv))) ms)
      (map (fun kv => (fst kv, f (snd kv))) props).
Proof.
  induction ms as [|[k v] ms IH]; intros props; [reflexivity|].
  unfold assignAll in *; simpl. rewrite IH, map_assign. reflexivity.
Qed.

Lemma ObjectFilled_parent m m' a props ms :
  MParent m a (CObject props) -> ObjectFilled m m' a props ms ->
  exists ms', MParent m' a (CObject (assignAll ms' props)).
Proof.
  intros (_ & _ & Hc) (Ht & Hp & _ & _ & ms' & new & Hst & _ & _).
  exists ms'. repeat split; try assumption.
  rewrite Hst, nth_error_app1 by (rewrite update_length; eapply nth_error_lt; eassumption).
  apply nth_error_update; eapply nth_error_lt; eassumption.
Qed.

Lemma members_one_ok t key v :
  Member_ok text options t key v -> Members_ok text options t [(key, v)].
Proof.
  intros HM l n0 st0 st1 Hs Hscan.
  destruct (HM (CC.closeBrace :: l) n0 st0 st1) as (Hvis & Htok & Hrest);
    [simpl; tauto | exact Hs | exact Hscan |].
  split; [exact Hvis|]. split; [exact Htok|].
  intros k n1 n2 st2 st' a props HP Hmem Hloop.
  destruct (Hrest k n1 st2 a props HP Hmem) as ((sc' & Hp' & Esc') & Hfill).
  pose proof (suffix_app text _ _ _ Hs) as Hs'. rewrite <- Hp' in Hs'.
  destruct (token_of_scan st2 sc' _ _ _ Esc' Hs' eq_refl) as (Htok2 & _).
  destruct n2 as [|n2]; [discriminate|]. simpl in Hloop.
  rewrite Htok2 in Hloop. simpl in Hloop. injection Hloop as <-.
  split; [exists sc'; split; assumption | exact Hfill].
Qed.

Lemma members_cons_ok t key v ts ms :
  Member_ok text options t key v -> Members_ok text options ts ms ->
  Members_ok text options (t ++ CC.comma :: ts) ((key, v) :: ms).
Proof.
  intros HM HMs l n0 st0 st1 Hs Hscan.
  rewrite <- app_assoc in Hs. simpl in Hs.
  destruct (HM (CC.comma :: ts ++ CC.closeBrace :: l) n0 st0 st1)
    as (Hvis & Htok & Hfirst); [simpl; tauto | exact Hs | exact Hscan |].
  split; [exact Hvis|]. split; [exact Htok|].
  intros k n1 n2 st2 st' a props HP Hmem Hloop.
  destruct (Hfirst k n1 st2 a props HP Hmem) as ((sc' & Hp' & Esc') & Hfill1).
  pose proof (suffix_app text _ _ _ Hs) as Hs'. rewrite <- Hp' in Hs'.
  destruct (token_of_scan st2 sc' _ _ _ Esc' Hs' eq_refl) as (Htok2 & Hpos2).
  destruct (suffix_head text _ _ _ Hs') as (_ & _ & _ & Hs2). rewrite <- Hpos2 in Hs2.
  destruct n2 as [|n2]; [discriminate|]. simpl in Hloop.
  rewrite Htok2 in Hloop. simpl in Hloop.
  unfold Visit.parseObject_step in Hloop. rewrite Htok2 in Hloop. simpl in Hloop.
  rewrite materializer_onSeparator in Hloop.
  destruct (Visit.scanNext Materializer.visitor text options n2 st2) as [st3|] eqn:E3;
    [|discriminate].
  destruct (HMs l n2 st2 st3 Hs2 E3) as (Hvis3 & Htok3 & Hrest).
  rewrite Htok3 in Hloop. simpl in Hloop.
  destruct (Visit.parseObject_member Materializer.visitor text options
              (Visit.parseValue Materializer.visitor text options k) n2 st3)
    as [st4|] eqn:E4; [|discriminate].
  destruct (ObjectFilled_parent _ _ _ _ _ HP Hfill1) as (ms0 & HP2).
  destruct Hfill1 as (Ht2 & Hcp2 & Hpp2 & Herr2 & ms1' & new1 & Hst1 & Hf1 & Hv1).
  assert (HP2' : MParent (Visit.vis st2) a (CObject (assignAll ms1' props))).
  { destruct HP as (_ & _ & Hc). repeat split; try assumption.
    rewrite Hst1, nth_error_app1
      by (rewrite update_length; eapply nth_error_lt; eassumption).
    apply nth_error_update; eapply nth_error_lt; eassumption. }
  destruct (Hrest k n2 n2 st4 st' a _ HP2' E4 Hloop) as ((sc'' & Hp'' & Esc'') & Hfill).
  split.
  { exists sc''; split; [|exact Esc''].
    rewrite Hp'', Hpos2, Hp', length_app; simpl; lia. }
  destruct Hfill as (Ht & Hcp & Hpp & Herr & ms2' & new2 & Hst & Hf & Hv).
  pose proof HP as (_ & _ & Hc).
  pose proof (nth_error_lt _ _ _ Hc) as Hlt.
  assert (Hbase : List.length (Materializer.store (Visit.vis st2))
                  = List.length (Materializer.store (Visit.vis st0)) + List.length new1).
  { rewrite Hst1, length_app, update_length; reflexivity. }
  unfold ObjectFilled. repeat split; try congruence.
  exists (ms1' ++ ms2'), (new1 ++ new2). repeat split.
  - rewrite Hst, Hst1, update_app by (rewrite update_length; exact Hlt).
    rewrite update_update, <- !app_assoc, assignAll_app. reflexivity.
  - apply Forall_app; split; [exact Hf1|].
    eapply Forall_impl; [|exact Hf]. intros x Hx.
    eapply fresh_le; [|exact Hx]. lia.
  - intros ext. rewrite map_app, <- app_assoc, Hv1. simpl. f_equal.
    rewrite <- (Hv ext). apply map_ext_in. intros x Hx. f_equal.
    rewrite Hbase. apply treeOf_shift.
    rewrite <- Hbase. apply (proj1 (Forall_forall _ _) Hf x Hx).
Qed.

Lemma value_object_generic inner ms :
  (forall l n0 st0 st1 n2 st' a k,
     skipn (Scanner.pos (Visit.scanner st0)) text = inner ++ CC.closeBrace :: l ->
     Visit.scanNext Materializer.visitor text options n0 st0 = Some st1 ->
     MParent (Visit.vis st0) a (CObject []) ->
     Visit.parseObject_loop Materializer.visitor text options
       (Visit.parseValue Materializer.visitor text options k) n2 false st1 = Some st' ->
     (exists sc',
        Scanner.pos sc' = Scanner.pos (Visit.scanner st0) + List.length inner
        /\ Visit.scanner st' = Scanner.scan text sc')
     /\ ObjectFilled (Visit.vis st0) (Visit.vis st') a [] ms) ->
  Value_ok text options (CC.openBrace :: inner ++ [CC.closeBrace]) (TObject (objectOf ms)).
Proof.
  intros Hloop w l sc Hw Hl Hs.
  simpl in Hs; rewrite <- app_assoc in Hs; simpl in Hs.
  pose proof (scan_punctuation text sc _ _ _ Hs eq_refl) as Esc.
  rewrite Esc; simpl. split; [split; reflexivity|].
  intros fuel st b st' a c Est HP H.
  destruct fuel as [|n]; [discriminate|].
  simpl in H.
  assert (Etok : Visit.getToken st = SyntaxKind.OpenBraceToken)
    by (unfold Visit.getToken, Scanner.getToken; rewrite Est; reflexivity).
  rewrite Etok in H. unfold Visit.parseObject in H.
  rewrite materializer_onObjectBegin in H.
  match type of H with
  | match Visit.scanNext _ _ _ _ ?s with _ => _ end = _ => set (st1 := s) in *
  end.
  destruct (Visit.scanNext Materializer.visitor text options n st1) as [st2|] eqn:E2;
    [|discriminate].
  destruct (Visit.parseObject_loop Materializer.visitor text options
              (Visit.parseValue Materializer.visitor text options n) n false st2)
    as [st3|] eqn:E3; [|discriminate].
  destruct (suffix_head text _ _ _ Hs) as (_ & _ & _ & Hs1).
  assert (Hpos1 : Scanner.pos (Visit.scanner st1) = S (Scanner.pos sc))
    by (unfold st1; simpl; rewrite Est; reflexivity).
  rewrite <- Hpos1 in Hs1.
  pose proof (onBegin_parent _ _ _ (CObject []) HP) as HP1.
  destruct (Hloop (w ++ l) n st1 st2 n st3 _ n Hs1 E2 HP1 E3)
    as ((sc3 & Hp3 & Esc3) & Hfill).
  pose proof (suffix_app text _ _ _ Hs1) as Hs3. rewrite <- Hp3 in Hs3.
  destruct (token_of_scan st3 sc3 _ _ _ Esc3 Hs3 eq_refl) as (Htok3 & Hpos3).
  destruct (suffix_head text _ _ _ Hs3) as (_ & _ & _ & Hs4). rewrite <- Hpos3 in Hs4.
  unfold Visit.parseObject_close in H. rewrite materializer_onObjectEnd in H.
  unfold Visit.getToken in H; simpl Visit.scanner in H.
  unfold Visit.getToken in Htok3. rewrite Htok3 in H. simpl in H.
  continue_inv H. split; [reflexivity|].
  destruct (scanNext_skip text _ Materializer.visitor options w l n _ p E Hw
              (lands_delim text l Hl) Hs4)
    as (sc' & Hp' & ->).
  simpl. split.
  { exists sc'; split; [|reflexivity].
    simpl in Hp'. rewrite Hp', Hpos3, Hp3, Hpos1, length_app; simpl; lia. }
  destruct Hfill as (Ht & Hcp & Hpp & Herr & ms' & new & Hst & Hf & Hv).
  apply (container_attached _ _ a c (CObject []) (CObject (assignAll ms' [])) new);
    try assumption.
  intros ext; simpl. f_equal.
  rewrite map_assignAll. simpl. unfold objectOf.
  rewrite <- (Hv ext). unfold st1; simpl.
  rewrite (onBegin_state _ a c (CObject []) HP); simpl.
  rewrite length_app, update_length; simpl.
  replace (List.length (Materializer.store (Visit.vis st)) + 1)
    with (S (List.length (Materializer.store (Visit.vis st)))) by lia.
  reflexivity.
Qed.

Lemma value_object_empty_ok w0 :
  Ws w0 ->
  Value_ok text options (CC.openBrace :: w0 ++ [CC.closeBrace]) (TObject []).
Proof.
  intros Hw0. apply (value_object_generic w0 []).
  intros l n0 st0 st1 n2 st' a k Hs Hscan HP Hloop.
  destruct (scanNext_skip text _ Materializer.visitor options w0 _ n0 st0 st1 Hscan Hw0
              (lands_punctuation text CC.closeBrace l SyntaxKind.CloseBraceToken eq_refl) Hs)
    as (sc1 & Hp1 & ->).
  pose proof (suffix_app text _ _ _ Hs) as Hs1. rewrite <- Hp1 in Hs1.
  destruct n2 as [|n2]; [discriminate|]. simpl in Hloop.
  unfold Visit.getToken, Scanner.getToken in Hloop; simpl Visit.scanner in Hloop.
  rewrite (scan_punctuation text sc1 _ _ _ Hs1 eq_refl) in Hloop.
  simpl in Hloop. injection Hloop as <-. simpl.
  split; [exists sc1; split; [exact Hp1|]; symmetry;
          apply (scan_punctuation text sc1 _ _ _ Hs1 eq_refl)|].
  destruct HP as (Ht & Hcp & Hc).
  unfold ObjectFilled. repeat split; try assumption.
  exists [], []. repeat split; [|constructor].
  simpl. rewrite app_nil_r, (update_same _ _ _ Hc). reflexivity.
Qed.

Lemma value_object_ok ts ms :
  Members_ok text options ts ms ->
  Value_ok text options (CC.openBrace :: ts ++ [CC.closeBrace]) (TObject (objectOf ms)).
Proof.
  intros HMs. apply value_object_generic.
  intros l n0 st0 st1 n2 st' a k Hs Hscan HP Hloop.
  destruct (HMs l n0 st0 st1 Hs Hscan) as (Hvis & Htok & Hrest).
  destruct n2 as [|n2]; [discriminate|]. simpl in Hloop.
  rewrite Htok in Hloop. simpl in Hloop.
  unfold Visit.parseObject_step in Hloop. rewrite Htok in Hloop. simpl in Hloop.
  destruct (Visit.parseObject_member Materializer.visitor text options
              (Visit.parseValue Materializer.visitor text options k) n2 st1)
    as [st2|] eqn:E; [|discriminate].
  apply (Hrest k n2 n2 st2 st' a [] HP E Hloop).
Qed.

(** Every derivation of the grammar is parsed as the grammar reads it. *)
Lemma grammar_ok :
  (forall t v, Value t v -> Value_ok text options t v)
  /\ (forall t v, Element t v -> Element_ok text options t v)
  /\ (forall t vs, Elements t vs -> Elements_ok text options t vs)
  /\ (forall t k v, Member t k v -> Member_ok text options t k v)
  /\ (forall t ms, Members t ms -> Members_ok text options t ms).
Proof.
  apply Json_mutind.
  - apply value_null_ok.
  - apply value_true_ok.
  - apply value_false_ok.
  - intros lex H; apply value_number_ok, H.
  - intros body s H; apply value_string_ok, H.
  - intros w H; apply value_array_empty_ok, H.
  - intros t vs _ H; apply value_array_ok, H.
  - intros w H; apply value_object_empty_ok, H.
  - intros t ms _ H; apply value_object_ok, H.
  - intros w1 t v w2 H1 _ H H2; apply element_ok; assumption.
  - intros t v _ H; apply elements_one_ok, H.
  - intros t v ts vs _ H1 _ H2; apply elements_cons_ok; assumption.
  - intros w1 body k w2 t v H1 H2 H3 _ H; apply member_ok; assumption.
  - intros t k v _ H; apply members_one_ok, H.
  - intros t k v ts ms _ H1 _ H2; apply members_cons_ok; assumption.
Qed.

End Values.
(** ** Valid texts, end to end *)

Lemma starts_value_not_EOF k :
  starts_value k = true -> SyntaxKind.eqb k SyntaxKind.EOF = false.
Proof. destruct k; simpl; intros H; try discriminate; reflexivity. Qed.

(** On a valid JSON text [parse] returns the value of the grammar and
    reports nothing, whatever the options. *)
Lemma parse_valid text options v :
  JsonText text v ->
  exists r, parse text [] options = Some r
            /\ reify (memory r) (returned r) = v
            /\ reported r = [].
Proof.
  intros HJ. unfold parse.
  destruct (visit_total _ Materializer.visitor text options (Materializer.initial []))
    as (b & st & E).
  rewrite E. unfold Visit.visit, Visit.visit_with in E.
  set (F := List.length text + 4) in *.
  set (st0 := Visit.mkP Scanner.initial (Materializer.initial [])) in *.
  destruct (Visit.scanNext Materializer.visitor text options F st0) as [st1|] eqn:E1;
    [|discriminate].
  destruct (grammar_ok text options) as (_ & HE & _).
  destruct (HE text v HJ [] F st0 st1) as (Hvis & Hstart & Hrest);
    [exact I | simpl; rewrite app_nil_r; reflexivity | exact E1 |].
  rewrite (starts_value_not_EOF _ Hstart) in E.
  destruct (Visit.parseValue Materializer.visitor text options F st1)
    as [[b' st2]|] eqn:E2; [|discriminate].
  assert (HP : MParent (Visit.vis st0) 0 (CArray [])) by (repeat split).
  destruct (Hrest F b' st2 0 (CArray []) HP E2) as (-> & (sc' & Hp' & Esc') & Hatt).
  assert (Etok : Visit.getToken st2 = SyntaxKind.EOF).
  { unfold Visit.getToken, Scanner.getToken. rewrite Esc', scan_at_end; [reflexivity|].
    rewrite Hp'; simpl; lia. }
  rewrite Etok in E. simpl in E. injection E as <- <-.
  destruct Hatt as (Ht & Hcp & _ & Herr & v' & new & Hst & Hf & Hv).
  simpl in Hst, Hf, Hv, Herr.
  rewrite Ht. unfold Materializer.result. rewrite Hcp, Hst. simpl.
  eexists; split; [reflexivity|]. simpl. split; [|exact Herr].
  unfold reify. rewrite <- (Hv []), app_nil_r.
  apply (treeOf_shift 0 [CArray [v']] new v' Hf).
Qed.

Lemma parseTree_valid text options v :
  JsonText text v -> parseTree text options = Some (v, []).
Proof.
  intros HJ. destruct (parse_valid text options v HJ) as (r & E & Hv & Hr).
  unfold parseTree. rewrite E, Hv, Hr. reflexivity.
Qed.

(** The grammar gives a text at most one value. *)
Lemma JsonText_functional text v v' : JsonText text v -> JsonText text v' -> v = v'.
Proof.
  intros H H'.
  pose proof (parseTree_valid text ParseOptions.DEFAULT v H) as E.
  rewrite (parseTree_valid text ParseOptions.DEFAULT v' H') in E. congruence.
Qed.

(** ** Property lists *)

Lemma jsstring_eqb_eq a : forall b, jsstring_eqb a b = true <-> a = b.
Proof.
  induction a as [|x a IH]; intros [|y b]; simpl; split; intros H;
    try reflexivity; try discriminate.
  - apply andb_true_iff in H. destruct H as (H1 & H2).
    apply Z.eqb_eq in H1. apply IH in H2. congruence.
  - injection H as -> ->. rewrite Z.eqb_refl. apply IH. reflexivity.
Qed.

Lemma jsstring_eqb_refl a : jsstring_eqb a a = true.
Proof. apply jsstring_eqb_eq. reflexivity. Qed.

Lemma jsstring_eqb_neq a b : a <> b -> jsstring_eqb a b = false.
Proof.
  intros H. destruct (jsstring_eqb a b) eqn:E; [|reflexivity].
  apply jsstring_eqb_eq in E. contradiction.
Qed.

Section Properties.
Context {A : Type}.
Implicit Types (props ms : list (jsstring * A)).

Lemma lookup_assign k k1 (v1 : A) props :
  lookup k (assign k1 v1 props)
  = if jsstring_eqb k k1 then Some v1 else lookup k props.
Proof.
  induction props as [|[k' v'] ps IH]; simpl; [reflexivity|].
  destruct (jsstring_eqb k1 k') eqn:E1; simpl.
  - apply jsstring_eqb_eq in E1. subst k'.
    destruct (jsstring_eqb k k1); reflexivity.
  - rewrite IH. destruct (jsstring_eqb k k') eqn:E2; [|reflexivity].
    apply jsstring_eqb_eq in E2. subst k'.
    destruct (jsstring_eqb k k1) eqn:E3; [|reflexivity].
    apply jsstring_eqb_eq in E3. subst k1.
    rewrite jsstring_eqb_refl in E1. discriminate.
Qed.

Lemma lookup_app k props1 props2 :
  lookup k (props1 ++ props2)
  = match lookup k props1 with Some v => Some v | None => lookup k props2 end.
Proof.
  induction props1 as [|[k' v'] ps IH]; simpl; [reflexivity|].
  destruct (jsstring_eqb k k'); [reflexivity | exact IH].
Qed.

(** Looking a name up after a run of assignments finds the value of the
    last assignment to that name. *)
Lemma lookup_assignAll k ms : forall props,
  lookup k (assignAll ms props)
  = match lookup k (rev ms) with Some v => Some v | None => lookup k props end.
Proof.
  induction ms as [|[k1 v1] ms IH]; intros props; [reflexivity|].
  change (assignAll ((k1, v1) :: ms) props) with (assignAll ms (assign k1 v1 props)).
  rewrite IH, lookup_assign. simpl rev. rewrite lookup_app. simpl.
  destruct (lookup k (rev ms)); [reflexivity|].
  destruct (jsstring_eqb k k1); reflexivity.
Qed.

Lemma keys_assign k (v : A) props x :
  In x (map fst (assign k v props)) -> x = k \/ In x (map fst props).
Proof.
  induction props as [|[k' v'] ps IH]; simpl.
  - intros [H|[]]; auto.
  - destruct (jsstring_eqb k k'); simpl; intros [H|H]; auto.
    destruct (IH H); auto.
Qed.

Lemma NoDup_assign k (v : A) props :
  NoDup (map fst props) -> NoDup (map fst (assign k v props)).
Proof.
  induction props as [|[k' v'] ps IH]; simpl; intros H.
  - constructor; [intros [] | constructor].
  - inversion H as [|? ? Hn Hd]; subst.
    destruct (jsstring_eqb k k') eqn:E; simpl; [constructor; assumption|].
    constructor; [|apply IH, Hd].
    intros Hin. destruct (keys_assign _ _ _ _ Hin) as [->|Hin']; [|contradiction].
    rewrite jsstring_eqb_refl in E. discriminate.
Qed.

Lemma NoDup_assignAll ms : forall props,
  NoDup (map fst props) -> NoDup (map fst (assignAll ms props)).
Proof.
  induction ms as [|[k v] ms IH]; intros props H; [exact H|].
  apply (IH (assign k v props)), NoDup_assign, H.
Qed.

(** An assignment leaves the values of the other names in place, and every
    value of the result is the assigned one or was there before. *)
Lemma values_assign k (v : A) props x :
  In x (map snd (assign k v props)) -> x = v \/ In x (map snd props).
Proof.
  induction props as [|[k' v'] ps IH]; simpl.
  - intros [H|[]]; auto.
  - destruct (jsstring_eqb k k'); simpl; intros [H|H]; auto.
    destruct (IH H); auto.
Qed.

End Properties.

(** ** Property names occur once *)

Lemma uniqueKeys_array vs : uniqueKeys (TArray vs) <-> Forall uniqueKeys vs.
Proof.
  simpl. induction vs as [|v vs IH]; split; intros H.
  - constructor.
  - exact I.
  - destruct H as (H1 & H2). constructor; [exact H1 | apply IH, H2].
  - inversion H; subst. split; [assumption | apply IH; assumption].
Qed.

Lemma uniqueKeys_object props :
  uniqueKeys (TObject props)
  <-> NoDup (map fst props) /\ Forall (fun kv => uniqueKeys (snd kv)) props.
Proof.
  simpl. apply and_iff_compat_l.
  induction props as [|[k v] ps IH]; split; intros H.
  - constructor.
  - exact I.
  - destruct H as (H1 & H2). constructor; [exact H1 | apply IH, H2].
  - inversion H; subst. split; [assumption | apply IH; assumption].
Qed.

Lemma Forall_assign {A} (P : A -> Prop) k v props :
  P v -> Forall (fun kv => P (snd kv)) props ->
  Forall (fun kv => P (snd kv)) (assign k v props).
Proof.
  intros Hv. induction props as [|[k' v'] ps IH]; simpl; intros H.
  - constructor; [exact Hv | constructor].
  - inversion H; subst.
    destruct (jsstring_eqb k k'); constructor; auto.
Qed.

Lemma Forall_assignAll {A} (P : A -> Prop) ms : forall props,
  Forall (fun kv => P (snd kv)) ms -> Forall (fun kv => P (snd kv)) props ->
  Forall (fun kv => P (snd kv)) (assignAll ms props).
Proof.
  induction ms as [|[k v] ms IH]; intros props Hms Hp; [exact Hp|].
  inversion Hms; subst.
  apply (IH (assign k v props)); [assumption|].
  apply Forall_assign; assumption.
Qed.

Lemma uniqueKeys_objectOf ms :
  Forall (fun kv => uniqueKeys (snd kv)) ms -> uniqueKeys (TObject (objectOf ms)).
Proof.
  intros H. apply uniqueKeys_object. split.
  - apply (NoDup_assignAll ms []). constructor.
  - apply (Forall_assignAll uniqueKeys ms []); [exact H | constructor].
Qed.

(** The values of the grammar have each property name once in every
    object, at every depth. *)
Lemma grammar_uniqueKeys :
  (forall t v, Value t v -> uniqueKeys v)
  /\ (forall t v, Element t v -> uniqueKeys v)
  /\ (forall t vs, Elements t vs -> Forall uniqueKeys vs)
  /\ (forall t (k : jsstring) v, Member t k v -> uniqueKeys v)
  /\ (forall t ms, Members t ms -> Forall (fun kv => uniqueKeys (snd kv)) ms).
Proof.
  apply Json_mutind; intros; try exact I; try assumption.
  - apply uniqueKeys_array; assumption.
  - simpl. split; [constructor | exact I].
  - apply uniqueKeys_objectOf; assumption.
  - constructor; [assumption | constructor].
  - constructor; assumption.
  - constructor; [assumption | constructor].
  - constructor; assumption.
Qed.

(** What one assignment does to the object it writes to. *)
Lemma onValue_overwrites m a props key value :
  MParent m a (CObject props) ->
  Materializer.currentProperty m = Some key ->
  exists props',
    nth_error (Materializer.store (Materializer.onValue value m)) a = Some (CObject props')
    /\ lookup key props' = Some value
    /\ (forall k, k <> key -> lookup k props' = lookup k props)
    /\ (NoDup (map fst props) -> NoDup (map fst props')).
Proof.
  intros (_ & Hcp & Hc) Hk. unfold Materializer.onValue. rewrite Hcp, Hc, Hk. simpl.
  exists (assign key value props). repeat split.
  - apply nth_error_update. eapply nth_error_lt; eassumption.
  - rewrite lookup_assign, jsstring_eqb_refl. reflexivity.
  - intros k Hne. rewrite lookup_assign, (jsstring_eqb_neq _ _ Hne). reflexivity.
  - apply NoDup_assign.
Qed.

(** ** Two visitors in step

    [visit] looks at its visitor only through the callbacks, so two runs
    on the same text stay in step: they scan the same tokens and make the
    same calls.  Whatever relation [R] between the states of the two
    visitors is kept by the scanner and by every call [visit] can make,
    holds at the end. *)

Lemma callback_noArg V (f : option (nat -> nat -> V -> V)) (mk : nat -> nat -> Event)
    (v : JSONVisitor V) s (x : V) :
  (forall o l x, call v (mk o l) x = match f with Some g => g o l x | None => x end) ->
  Visit.toNoArgVisit f (Visit.mkP s x)
  = Visit.mkP s (call v (mk (Scanner.getTokenOffset s) (Scanner.getTokenLength s)) x).
Proof. intros H. rewrite H. unfold Visit.toNoArgVisit. destruct f; reflexivity. Qed.

Lemma callback_oneArg V (T : Type) (f : option (T -> nat -> nat -> V -> V))
    (mk : T -> nat -> nat -> Event) (v : JSONVisitor V) (arg : T) s (x : V) :
  (forall a o l x, call v (mk a o l) x = match f with Some g => g a o l x | None => x end) ->
  Visit.toOneArgVisit f arg (Visit.mkP s x)
  = Visit.mkP s (call v (mk arg (Scanner.getTokenOffset s) (Scanner.getTokenLength s)) x).
Proof. intros H. rewrite H. unfold Visit.toOneArgVisit. destruct f; reflexivity. Qed.

Section Calls.
Variable V : Type.
Variable v : JSONVisitor V.

Lemma onObjectBegin_call s x :
  Visit.onObjectBegin' v (Visit.mkP s x)
  = Visit.mkP s (call v (ObjectBegin (Scanner.getTokenOffset s) (Scanner.getTokenLength s)) x).
Proof. apply (callback_noArg _ _ ObjectBegin); reflexivity. Qed.

Lemma onObjectEnd_call s x :
  Visit.onObjectEnd' v (Visit.mkP s x)
  = Visit.mkP s (call v (ObjectEnd (Scanner.getTokenOffset s) (Scanner.getTokenLength s)) x).
Proof. apply (callback_noArg _ _ ObjectEnd); reflexivity. Qed.

Lemma onArrayBegin_call s x :
  Visit.onArrayBegin' v (Visit.mkP s x)
  = Visit.mkP s (call v (ArrayBegin (Scanner.getTokenOffset s) (Scanner.getTokenLength s)) x).
Proof. apply (callback_noArg _ _ ArrayBegin); reflexivity. Qed.

Lemma onArrayEnd_call s x :
  Visit.onArrayEnd' v (Visit.mkP s x)
  = Visit.mkP s (call v (ArrayEnd (Scanner.getTokenOffset s) (Scanner.getTokenLength s)) x).
Proof. apply (callback_noArg _ _ ArrayEnd); reflexivity. Qed.

Lemma onComment_call s x :
  Visit.onComment' v (Visit.mkP s x)
  = Visit.mkP s (call v (Comment (Scanner.getTokenOffset s) (Scanner.getTokenLength s)) x).
Proof. apply (callback_noArg _ _ Comment); reflexivity. Qed.

Lemma onObjectProperty_call p s x :
  Visit.onObjectProperty' v p (Visit.mkP s x)
  = Visit.mkP s
      (call v (ObjectProperty p (Scanner.getTokenOffset s) (Scanner.getTokenLength s)) x).
Proof. apply (callback_oneArg _ _ _ ObjectProperty); reflexivity. Qed.

Lemma onLiteralValue_call a s x :
  Visit.onLiteralValue' v a (Visit.mkP s x)
  = Visit.mkP s
      (call v (LiteralValue a (Scanner.getTokenOffset s) (Scanner.getTokenLength s)) x).
Proof. apply (callback_oneArg _ _ _ LiteralValue); reflexivity. Qed.

Lemma onSeparator_call c s x :
  Visit.onSeparator' v c (Visit.mkP s x)
  = Visit.mkP s
      (call v (Separator c (Scanner.getTokenOffset s) (Scanner.getTokenLength s)) x).
Proof. apply (callback_oneArg _ _ _ Separator); reflexivity. Qed.

Lemma onError_call c s x :
  Visit.onError' v c (Visit.mkP s x)
  = Visit.mkP s (call v (Error c (Scanner.getTokenOffset s) (Scanner.getTokenLength s)) x).
Proof. apply (callback_oneArg _ _ _ Error); reflexivity. Qed.

Lemma handleError0_call c s x :
  Visit.handleError0 v c (Visit.mkP s x)
  = Visit.mkP s (call v (Error c (Scanner.getTokenOffset s) (Scanner.getTokenLength s)) x).
Proof. apply onError_call. Qed.

End Calls.

Create Rewrite HintDb calls_rw.
#[global] Hint Rewrite onObjectBegin_call onObjectEnd_call onArrayBegin_call onArrayEnd_call
  onComment_call onObjectProperty_call onLiteralValue_call onSeparator_call onError_call
  handleError0_call : calls_rw.

Section InStepProof.
Variables V1 V2 : Type.
Variable v1 : JSONVisitor V1.
Variable v2 : JSONVisitor V2.
Variable text : jsstring.
Variable options : ParseOptions.t.
Variable R : Scanner.t -> V1 -> V2 -> Prop.

Hypothesis R_scan : forall s x y, R s x y -> R (Scanner.scan text s) x y.
Hypothesis R_call :
  forall s e x y, R s x y -> legal options s e -> R s (call v1 e x) (call v2 e y).

Lemma legal_offsets s e :
  eventOffset e = Scanner.getTokenOffset s ->
  eventLength e = Scanner.getTokenLength s ->
  match e with
  | ObjectEnd _ _ | ArrayEnd _ _ => True
  | Error c _ _ => c <> ParseErrorCode.InvalidCommentToken
  | _ => False
  end ->
  legal options s e.
Proof.
  intros Ho Hl H. split; [exact Ho|]. split; [exact Hl|].
  destruct e; first [contradiction | exact I | intros ->; contradiction].
Qed.

(** An error other than the one for comments can be reported anywhere. *)
Lemma R_error c s x y :
  R s x y -> c <> ParseErrorCode.InvalidCommentToken ->
  R s (call v1 (Error c (Scanner.getTokenOffset s) (Scanner.getTokenLength s)) x)
      (call v2 (Error c (Scanner.getTokenOffset s) (Scanner.getTokenLength s)) y).
Proof.
  intros HR Hc. apply R_call; [exact HR|].
  apply legal_offsets; [reflexivity | reflexivity | exact Hc].
Qed.

Ltac legal_intro := split; [reflexivity | split; [reflexivity | ]].

Ltac in_step H :=
  match type of H with
  | optR _ ?r1 ?r2 =>
      let a := fresh "sta" in
      let b := fresh "stb" in
      let Hs := fresh "Hs" in
      revert H; destruct r1 as [a|], r2 as [b|]; intros H; simpl in H;
      try contradiction; try exact I;
      [ destruct a as [? ?], b as [? ?]; destruct H as [Hs H]; simpl in Hs, H;
        destruct Hs; cbn [Visit.scanner Visit.vis] in * ]
  end.

Ltac in_res H bl :=
  match type of H with
  | resR _ ?r1 ?r2 =>
      let a := fresh "sta" in
      let b := fresh "stb" in
      let bl' := fresh "bl" in
      let Hb := fresh "Hb" in
      let Hs := fresh "Hs" in
      revert H; destruct r1 as [[bl a]|], r2 as [[bl' b]|]; intros H; simpl in H;
      try contradiction; try exact I;
      [ destruct a as [? ?], b as [? ?]; destruct H as [Hb [Hs H]]; simpl in Hs, H;
        destruct Hb; destruct Hs; cbn [Visit.scanner Visit.vis] in * ]
  end.

Lemma optR_intro s x y : R s x y -> optR R (Some (Visit.mkP s x)) (Some (Visit.mkP s y)).
Proof. intros H; split; [reflexivity | exact H]. Qed.

Lemma resR_intro b s x y :
  R s x y -> resR R (Some (b, Visit.mkP s x)) (Some (b, Visit.mkP s y)).
Proof. intros H; split; [reflexivity | split; [reflexivity | exact H]]. Qed.

Lemma sim_reportScanError s x y :
  R s x y ->
  exists x' y',
    Visit.reportScanError v1 options (Visit.mkP s x) = Visit.mkP s x'
    /\ Visit.reportScanError v2 options (Visit.mkP s y) = Visit.mkP s y'
    /\ R s x' y'.
Proof.
  intros HR. unfold Visit.reportScanError, Scanner.getTokenError. simpl.
  destruct (Scanner.scanError s);
    try (rewrite !handleError0_call; do 2 eexists;
         split; [reflexivity | split; [reflexivity | apply R_error; [exact HR | discriminate]]]).
  - do 2 eexists; split; [reflexivity | split; [reflexivity | exact HR]].
  - destruct (negb (Visit.disallowComments options)).
    + rewrite !handleError0_call; do 2 eexists;
        split; [reflexivity | split; [reflexivity | apply R_error; [exact HR | discriminate]]].
    + do 2 eexists; split; [reflexivity | split; [reflexivity | exact HR]].
Qed.

Lemma sim_scanNext fuel : forall s x y,
  R s x y ->
  optR R (Visit.scanNext v1 text options fuel (Visit.mkP s x))
         (Visit.scanNext v2 text options fuel (Visit.mkP s y)).
Proof.
  induction fuel as [|n IH]; intros s x y HR; [exact I|].
  simpl.
  destruct (sim_reportScanError (Scanner.scan text s) x y (R_scan _ _ _ HR))
    as (x' & y' & -> & -> & HR').
  unfold Visit.getToken, Scanner.getToken; simpl.
  destruct (Scanner.token (Scanner.scan text s)) eqn:Etok;
    try (apply optR_intro; exact HR'); try (apply IH; exact HR').
  - destruct (Visit.disallowComments options) eqn:Ed.
    + rewrite !handleError0_call. apply IH. apply R_call; [exact HR'|].
      legal_intro. intros _. split; [exact Ed | left; exact Etok].
    + rewrite !onComment_call. apply IH. apply R_call; [exact HR'|].
      legal_intro. split; [exact Ed | left; exact Etok].
  - destruct (Visit.disallowComments options) eqn:Ed.
    + rewrite !handleError0_call. apply IH. apply R_call; [exact HR'|].
      legal_intro. intros _. split; [exact Ed | right; exact Etok].
    + rewrite !onComment_call. apply IH. apply R_call; [exact HR'|].
      legal_intro. split; [exact Ed | right; exact Etok].
  - rewrite !handleError0_call. apply IH. apply R_error; [exact HR' | discriminate].
Qed.

Lemma sim_skipTokens fuel : forall after until s x y,
  R s x y ->
  optR R (Visit.skipTokens v1 text options fuel after until (Visit.mkP s x))
         (Visit.skipTokens v2 text options fuel after until (Visit.mkP s y)).
Proof.
  induction fuel as [|n IH]; intros after until s x y HR; [exact I|].
  simpl. unfold Visit.getToken, Scanner.getToken; simpl.
  destruct (SyntaxKind.eqb (Scanner.token s) SyntaxKind.EOF); [apply optR_intro, HR|].
  destruct (Visit.mem (Scanner.token s) after); [apply sim_scanNext, HR|].
  destruct (Visit.mem (Scanner.token s) until); [apply optR_intro, HR|].
  pose proof (sim_scanNext n s x y HR) as H. in_step H.
  apply IH, H.
Qed.

Lemma sim_handleError c after until fuel s x y :
  R s x y -> c <> ParseErrorCode.InvalidCommentToken ->
  optR R (Visit.handleError v1 text options c after until fuel (Visit.mkP s x))
         (Visit.handleError v2 text options c after until fuel (Visit.mkP s y)).
Proof.
  intros HR Hc. unfold Visit.handleError. rewrite !onError_call.
  pose proof (R_error c s x y HR Hc) as HR'.
  destruct (0 <? List.length after + List.length until);
    [apply sim_skipTokens, HR' | apply optR_intro, HR'].
Qed.

Lemma sim_continue fuel s x y :
  R s x y ->
  resR R
    (match Visit.scanNext v1 text options fuel (Visit.mkP s x) with
     | Some st => Some (true, st)
     | None => None
     end)
    (match Visit.scanNext v2 text options fuel (Visit.mkP s y) with
     | Some st => Some (true, st)
     | None => None
     end).
Proof.
  intros HR. pose proof (sim_scanNext fuel s x y HR) as H. in_step H.
  apply resR_intro, H.
Qed.

Lemma sim_parseString isValue fuel s x y :
  R s x y -> Scanner.token s = SyntaxKind.StringLiteral ->
  resR R (Visit.parseString v1 text options isValue fuel (Visit.mkP s x))
         (Visit.parseString v2 text options isValue fuel (Visit.mkP s y)).
Proof.
  intros HR Htok. unfold Visit.parseString. simpl.
  destruct isValue.
  - rewrite !onLiteralValue_call. apply sim_continue.
    apply R_call; [exact HR|]. legal_intro. split; [exact Htok | reflexivity].
  - rewrite !onObjectProperty_call. apply sim_continue.
    apply R_call; [exact HR|]. legal_intro. split; [exact Htok | reflexivity].
Qed.

Lemma sim_parseLiteral fuel s x y :
  R s x y ->
  resR R (Visit.parseLiteral v1 text options fuel (Visit.mkP s x))
         (Visit.parseLiteral v2 text options fuel (Visit.mkP s y)).
Proof.
  intros HR. unfold Visit.parseLiteral, Visit.getToken, Scanner.getToken,
    Scanner.getTokenValue. simpl.
  destruct (Scanner.token s) eqn:Etok; try (apply resR_intro, HR).
  - rewrite !onLiteralValue_call. apply sim_continue.
    apply R_call; [exact HR|]. legal_intro. exact Etok.
  - rewrite !onLiteralValue_call. apply sim_continue.
    apply R_call; [exact HR|]. legal_intro. exact Etok.
  - rewrite !onLiteralValue_call. apply sim_continue.
    apply R_call; [exact HR|]. legal_intro. exact Etok.
  - unfold JSON_parse. destruct (isJSONNumber (Scanner.value s)).
    + rewrite !onLiteralValue_call. apply sim_continue.
      apply R_call; [exact HR|]. legal_intro. split; [exact Etok | left; reflexivity].
    + rewrite !handleError0_call, !onLiteralValue_call. apply sim_continue.
      apply R_call; [apply R_error; [exact HR | discriminate]|].
      legal_intro. split; [exact Etok | right; reflexivity].
Qed.

Section WithParseValue.
Variable pv1 : Visit.PState V1 -> option (bool * Visit.PState V1).
Variable pv2 : Visit.PState V2 -> option (bool * Visit.PState V2).
Hypothesis sim_pv : forall s x y,
  R s x y -> resR R (pv1 (Visit.mkP s x)) (pv2 (Visit.mkP s y)).

Lemma sim_parseProperty fuel s x y :
  R s x y ->
  resR R (Visit.parseProperty v1 text options pv1 fuel (Visit.mkP s x))
         (Visit.parseProperty v2 text options pv2 fuel (Visit.mkP s y)).
Proof.
  intros HR. unfold Visit.parseProperty, Visit.getToken, Scanner.getToken. simpl.
  destruct (SyntaxKind.eqb (Scanner.token s) SyntaxKind.StringLiteral) eqn:Etok; simpl.
  - apply SyntaxKind_eqb_eq in Etok.
    pose proof (sim_parseString false fuel s x y HR Etok) as H. in_res H bl.
    match goal with
    | |- context [SyntaxKind.eqb (Scanner.token ?s') SyntaxKind.ColonToken] =>
        destruct (SyntaxKind.eqb (Scanner.token s') SyntaxKind.ColonToken) eqn:Ecol
    end.
    + apply SyntaxKind_eqb_eq in Ecol.
      rewrite !onSeparator_call.
      match goal with
      | |- context [Visit.scanNext v1 text options fuel (Visit.mkP ?s' ?x')] =>
        match goal with
        | |- context [Visit.scanNext v2 text options fuel (Visit.mkP s' ?y')] =>
          assert (HR' : R s' x' y');
          [ apply R_call; [exact H|]; legal_intro; left;
            split; [reflexivity | exact Ecol]
          | pose proof (sim_scanNext fuel s' _ _ HR') as H1 ]
        end
      end.
      in_step H1.
      pose proof (sim_pv _ _ _ H1) as H2. in_res H2 bl2.
      destruct bl2.
      * apply resR_intro, H2.
      * pose proof (sim_handleError ParseErrorCode.ValueExpected []
                      [SyntaxKind.CloseBraceToken; SyntaxKind.CommaToken] fuel _ _ _ H2
                      ltac:(discriminate)) as H3.
        in_step H3. apply resR_intro, H3.
    + pose proof (sim_handleError ParseErrorCode.ColonExpected []
                    [SyntaxKind.CloseBraceToken; SyntaxKind.CommaToken] fuel _ _ _ H
                    ltac:(discriminate)) as H3.
      in_step H3. apply resR_intro, H3.
  - pose proof (sim_handleError ParseErrorCode.PropertyNameExpected []
                  [SyntaxKind.CloseBraceToken; SyntaxKind.CommaToken] fuel _ _ _ HR
                  ltac:(discriminate)) as H3.
    in_step H3. apply resR_intro, H3.
Qed.

Lemma sim_parseObject_member fuel s x y :
  R s x y ->
  optR R (Visit.parseObject_member v1 text options pv1 fuel (Visit.mkP s x))
         (Visit.parseObject_member v2 text options pv2 fuel (Visit.mkP s y)).
Proof.
  intros HR. unfold Visit.parseObject_member.
  pose proof (sim_parseProperty fuel s x y HR) as H. in_res H bl.
  destruct bl; [apply optR_intro, H|].
  apply sim_handleError; [exact H | discriminate].
Qed.

Lemma sim_parseArray_element fuel s x y :
  R s x y ->
  optR R (Visit.parseArray_element v1 text options pv1 fuel (Visit.mkP s x))
         (Visit.parseArray_element v2 text options pv2 fuel (Visit.mkP s y)).
Proof.
  intros HR. unfold Visit.parseArray_element.
  pose proof (sim_pv s x y HR) as H. in_res H bl.
  destruct bl; [apply optR_intro, H|].
  apply sim_handleError; [exact H | discriminate].
Qed.

(** The start of an iteration: the comma, with the error for a comma that
    nothing precedes. *)
Lemma sim_comma needsComma s x y :
  R s x y -> Scanner.token s = SyntaxKind.CommaToken ->
  exists x' y',
    Visit.onSeparator' v1 [CC.comma]
      (if negb needsComma
       then Visit.handleError0 v1 ParseErrorCode.ValueExpected (Visit.mkP s x)
       else Visit.mkP s x) = Visit.mkP s x'
    /\ Visit.onSeparator' v2 [CC.comma]
         (if negb needsComma
          then Visit.handleError0 v2 ParseErrorCode.ValueExpected (Visit.mkP s y)
          else Visit.mkP s y) = Visit.mkP s y'
    /\ R s x' y'.
Proof.
  intros HR Htok. destruct needsComma; simpl.
  - rewrite !onSeparator_call. do 2 eexists. split; [reflexivity|]. split; [reflexivity|].
    apply R_call; [exact HR|]. legal_intro. right. split; [reflexivity | exact Htok].
  - rewrite !handleError0_call, !onSeparator_call.
    do 2 eexists. split; [reflexivity|]. split; [reflexivity|].
    apply R_call; [apply R_error; [exact HR | discriminate]|].
    legal_intro. right. split; [reflexivity | exact Htok].
Qed.

Lemma sim_parseObject_step fuel needsComma s x y :
  R s x y ->
  resR R (Visit.parseObject_step v1 text options pv1 fuel needsComma (Visit.mkP s x))
         (Visit.parseObject_step v2 text options pv2 fuel needsComma (Visit.mkP s y)).
Proof.
  intros HR. unfold Visit.parseObject_step, Visit.getToken, Scanner.getToken. simpl.
  assert (Hmember : forall s x y, R s x y ->
            resR R
              (match Visit.parseObject_member v1 text options pv1 fuel (Visit.mkP s x) with
               | Some st => Some (false, st)
               | None => None
               end)
              (match Visit.parseObject_member v2 text options pv2 fuel (Visit.mkP s y) with
               | Some st => Some (false, st)
               | None => None
               end)).
  { intros s' x' y' HR'.
    pose proof (sim_parseObject_member fuel s' x' y' HR') as H. in_step H.
    apply resR_intro, H. }
  destruct (SyntaxKind.eqb (Scanner.token s) SyntaxKind.CommaToken) eqn:Etok.
  - apply SyntaxKind_eqb_eq in Etok.
    destruct (sim_comma needsComma s x y HR Etok) as (x' & y' & -> & -> & HR').
    pose proof (sim_scanNext fuel s x' y' HR') as H. in_step H.
    match goal with
    | |- context [SyntaxKind.eqb ?k SyntaxKind.CloseBraceToken && ?c] =>
        destruct (SyntaxKind.eqb k SyntaxKind.CloseBraceToken && c)
    end;
      [apply resR_intro, H | apply Hmember, H].
  - destruct needsComma.
    + rewrite !handleError0_call. apply Hmember.
      apply R_error; [exact HR | discriminate].
    + apply Hmember, HR.
Qed.

Lemma sim_parseArray_step fuel needsComma s x y :
  R s x y ->
  resR R (Visit.parseArray_step v1 text options pv1 fuel needsComma (Visit.mkP s x))
         (Visit.parseArray_step v2 text options pv2 fuel needsComma (Visit.mkP s y)).
Proof.
  intros HR. unfold Visit.parseArray_step, Visit.getToken, Scanner.getToken. simpl.
  assert (Helement : forall s x y, R s x y ->
            resR R
              (match Visit.parseArray_element v1 text options pv1 fuel (Visit.mkP s x) with
               | Some st => Some (false, st)
               | None => None
               end)
              (match Visit.parseArray_element v2 text options pv2 fuel (Visit.mkP s y) with
               | Some st => Some (false, st)
               | None => None
               end)).
  { intros s' x' y' HR'.
    pose proof (sim_parseArray_element fuel s' x' y' HR') as H. in_step H.
    apply resR_intro, H. }
  destruct (SyntaxKind.eqb (Scanner.token s) SyntaxKind.CommaToken) eqn:Etok.
  - apply SyntaxKind_eqb_eq in Etok.
    destruct (sim_comma needsComma s x y HR Etok) as (x' & y' & -> & -> & HR').
    pose proof (sim_scanNext fuel s x' y' HR') as H. in_step H.
    match goal with
    | |- context [SyntaxKind.eqb ?k SyntaxKind.CloseBracketToken && ?c] =>
        destruct (SyntaxKind.eqb k SyntaxKind.CloseBracketToken && c)
    end;
      [apply resR_intro, H | apply Helement, H].
  - destruct needsComma.
    + rewrite !handleError0_call. apply Helement.
      apply R_error; [exact HR | discriminate].
    + apply Helement, HR.
Qed.

Lemma sim_parseObject_loop fuel : forall needsComma s x y,
  R s x y ->
  optR R (Visit.parseObject_loop v1 text options pv1 fuel needsComma (Visit.mkP s x))
         (Visit.parseObject_loop v2 text options pv2 fuel needsComma (Visit.mkP s y)).
Proof.
  induction fuel as [|n IH]; intros needsComma s x y HR; [exact I|].
  simpl. unfold Visit.getToken, Scanner.getToken; simpl.
  destruct (negb (SyntaxKind.eqb (Scanner.token s) SyntaxKind.CloseBraceToken)
            && negb (SyntaxKind.eqb (Scanner.token s) SyntaxKind.EOF));
    [|apply optR_intro, HR].
  pose proof (sim_parseObject_step n needsComma s x y HR) as H. in_res H bl.
  destruct bl; [apply optR_intro, H | apply IH, H].
Qed.

Lemma sim_parseArray_loop fuel : forall needsComma s x y,
  R s x y ->
  optR R (Visit.parseArray_loop v1 text options pv1 fuel needsComma (Visit.mkP s x))
         (Visit.parseArray_loop v2 text options pv2 fuel needsComma (Visit.mkP s y)).
Proof.
  induction fuel as [|n IH]; intros needsComma s x y HR; [exact I|].
  simpl. unfold Visit.getToken, Scanner.getToken; simpl.
  destruct (negb (SyntaxKind.eqb (Scanner.token s) SyntaxKind.CloseBracketToken)
            && negb (SyntaxKind.eqb (Scanner.token s) SyntaxKind.EOF));
    [|apply optR_intro, HR].
  pose proof (sim_parseArray_step n needsComma s x y HR) as H. in_res H bl.
  destruct bl; [apply optR_intro, H | apply IH, H].
Qed.

Lemma sim_parseObject_close fuel s x y :
  R s x y ->
  resR R (Visit.parseObject_close v1 text options fuel (Visit.mkP s x))
         (Visit.parseObject_close v2 text options fuel (Visit.mkP s y)).
Proof.
  intros HR. unfold Visit.parseObject_close. rewrite !onObjectEnd_call.
  unfold Visit.getToken, Scanner.getToken; cbn [Visit.scanner Visit.vis].
  match goal with
  | |- context [Visit.mkP s (call v1 ?e x)] =>
      assert (HR' : R s (call v1 e x) (call v2 e y))
        by (apply R_call; [exact HR | legal_intro; exact I])
  end.
  destruct (negb (SyntaxKind.eqb (Scanner.token s) SyntaxKind.CloseBraceToken)).
  - pose proof (sim_handleError ParseErrorCode.CloseBraceExpected
                  [SyntaxKind.CloseBraceToken] [] fuel _ _ _ HR' ltac:(discriminate)) as H.
    in_step H. apply resR_intro, H.
  - apply sim_continue, HR'.
Qed.

Lemma sim_parseArray_close fuel s x y :
  R s x y ->
  resR R (Visit.parseArray_close v1 text options fuel (Visit.mkP s x))
         (Visit.parseArray_close v2 text options fuel (Visit.mkP s y)).
Proof.
  intros HR. unfold Visit.parseArray_close. rewrite !onArrayEnd_call.
  unfold Visit.getToken, Scanner.getToken; cbn [Visit.scanner Visit.vis].
  match goal with
  | |- context [Visit.mkP s (call v1 ?e x)] =>
      assert (HR' : R s (call v1 e x) (call v2 e y))
        by (apply R_call; [exact HR | legal_intro; exact I])
  end.
  destruct (negb (SyntaxKind.eqb (Scanner.token s) SyntaxKind.CloseBracketToken)).
  - pose proof (sim_handleError ParseErrorCode.CloseBracketExpected
                  [SyntaxKind.CloseBracketToken] [] fuel _ _ _ HR' ltac:(discriminate)) as H.
    in_step H. apply resR_intro, H.
  - apply sim_continue, HR'.
Qed.

Lemma sim_parseObject fuel s x y :
  R s x y -> Scanner.token s = SyntaxKind.OpenBraceToken ->
  resR R (Visit.parseObject v1 text options pv1 fuel (Visit.mkP s x))
         (Visit.parseObject v2 text options pv2 fuel (Visit.mkP s y)).
Proof.
  intros HR Htok. unfold Visit.parseObject. rewrite !onObjectBegin_call.
  match goal with
  | |- context [Visit.mkP s (call v1 ?e x)] =>
      assert (HR' : R s (call v1 e x) (call v2 e y))
        by (apply R_call; [exact HR | legal_intro; exact Htok])
  end.
  pose proof (sim_scanNext fuel s _ _ HR') as H. in_step H.
  pose proof (sim_parseObject_loop fuel false _ _ _ H) as H1. in_step H1.
  apply sim_parseObject_close, H1.
Qed.

Lemma sim_parseArray fuel s x y :
  R s x y -> Scanner.token s = SyntaxKind.OpenBracketToken ->
  resR R (Visit.parseArray v1 text options pv1 fuel (Visit.mkP s x))
         (Visit.parseArray v2 text options pv2 fuel (Visit.mkP s y)).
Proof.
  intros HR Htok. unfold Visit.parseArray. rewrite !onArrayBegin_call.
  match goal with
  | |- context [Visit.mkP s (call v1 ?e x)] =>
      assert (HR' : R s (call v1 e x) (call v2 e y))
        by (apply R_call; [exact HR | legal_intro; exact Htok])
  end.
  pose proof (sim_scanNext fuel s _ _ HR') as H. in_step H.
  pose proof (sim_parseArray_loop fuel false _ _ _ H) as H1. in_step H1.
  apply sim_parseArray_close, H1.
Qed.

End WithParseValue.

Lemma sim_parseValue fuel : forall s x y,
  R s x y ->
  resR R (Visit.parseValue v1 text options fuel (Visit.mkP s x))
         (Visit.parseValue v2 text options fuel (Visit.mkP s y)).
Proof.
  induction fuel as [|n IH]; intros s x y HR; [exact I|].
  simpl. unfold Visit.getToken, Scanner.getToken; simpl.
  destruct (Scanner.token s) eqn:Etok; try (apply sim_parseLiteral, HR).
  - apply sim_parseObject; [exact IH | exact HR | exact Etok].
  - apply sim_parseArray; [exact IH | exact HR | exact Etok].
  - apply sim_parseString; [exact HR | exact Etok].
Qed.

(** Two runs of [visit] return the same boolean, leave the scanner in the
    same state, and end in related states. *)
Lemma sim_visit x y :
  R Scanner.initial x y ->
  resR R (Visit.visit v1 text options x) (Visit.visit v2 text options y).
Proof.
  intros HR. unfold Visit.visit, Visit.visit_with.
  pose proof (sim_scanNext (List.length text + 4) _ _ _ HR) as H. in_step H.
  unfold Visit.getToken, Scanner.getToken; simpl.
  match goal with
  | |- context [SyntaxKind.eqb ?k SyntaxKind.EOF] =>
      destruct (SyntaxKind.eqb k SyntaxKind.EOF)
  end.
  - destruct (ParseOptions.allowEmptyContent options); [apply resR_intro, H|].
    rewrite !handleError0_call. apply resR_intro. apply R_error; [exact H | discriminate].
  - pose proof (sim_parseValue (List.length text + 4) _ _ _ H) as H1. in_res H1 bl.
    destruct bl.
    + unfold Visit.getToken, Scanner.getToken; simpl.
      match goal with
      | |- context [negb (SyntaxKind.eqb ?k SyntaxKind.EOF)] =>
          destruct (negb (SyntaxKind.eqb k SyntaxKind.EOF))
      end.
      * rewrite !handleError0_call. apply resR_intro.
        apply R_error; [exact H1 | discriminate].
      * apply resR_intro, H1.
    + rewrite !handleError0_call. apply resR_intro.
      apply R_error; [exact H1 | discriminate].
Qed.

End InStepProof.

(** ** Every run of [visit] replays the recorded calls *)

Lemma call_recorder e tr : call recorder e tr = tr ++ [e].
Proof. destruct e; reflexivity. Qed.

Lemma replay_app V (v : JSONVisitor V) tr1 tr2 x :
  replay v (tr1 ++ tr2) x = replay v tr2 (replay v tr1 x).
Proof. unfold replay. apply fold_left_app. Qed.

Lemma replay_recorder tr : forall tr0, replay recorder tr tr0 = tr0 ++ tr.
Proof.
  induction tr as [|e tr IH]; intros tr0; simpl.
  - rewrite app_nil_r. reflexivity.
  - unfold replay in *. simpl. rewrite IH, call_recorder, <- app_assoc. reflexivity.
Qed.

Lemma visit_replay V (v : JSONVisitor V) text options (x0 : V) :
  resR (fun _ tr y => y = replay v tr x0)
    (Visit.visit recorder text options []) (Visit.visit v text options x0).
Proof.
  apply sim_visit.
  - intros s x y H; exact H.
  - intros s e x y -> _. rewrite call_recorder, replay_app. reflexivity.
  - reflexivity.
Qed.

(** The run of any visitor, from the run of the recorder. *)
Lemma visit_as_replay V (v : JSONVisitor V) text options (x0 : V) :
  Visit.visit v text options x0
  = match Visit.visit recorder text options [] with
    | Some (b, st) => Some (b, Visit.mkP (Visit.scanner st) (replay v (Visit.vis st) x0))
    | None => None
    end.
Proof.
  pose proof (visit_replay V v text options x0) as H. unfold resR in H.
  destruct (Visit.visit recorder text options []) as [[b1 st1]|],
           (Visit.visit v text options x0) as [[b2 st2]|]; try contradiction;
    [|reflexivity].
  destruct st2 as [s2 x2]. destruct H as (Hb & Hs & Hv). simpl in Hs, Hv.
  rewrite Hb, Hs, Hv. reflexivity.
Qed.

(** ** The materializer on balanced calls *)

Lemma onValue_settled value m :
  settled m ->
  Materializer.thrown (Materializer.onValue value m) = false
  /\ parents (Materializer.onValue value m) = parents m
  /\ Materializer.errors (Materializer.onValue value m) = Materializer.errors m
  /\ List.length (Materializer.store (Materializer.onValue value m))
     = List.length (Materializer.store m)
  /\ Materializer.currentProperty (Materializer.onValue value m)
     = Materializer.currentProperty m.
Proof.
  intros (Ht & Hp).
  assert (Hcp : exists a, Materializer.currentParent m = Some a)
    by (inversion Hp as [|p ps (a & Ha & _) _]; exists a; exact Ha).
  destruct Hcp as (a & Ha).
  unfold Materializer.onValue, parents. rewrite Ha.
  destruct (nth_error (Materializer.store m) a) as [[props|items]|];
    [destruct (Materializer.currentProperty m) eqn:Ecp| |]; simpl;
    rewrite ?update_length, ?Ha; repeat split; congruence.
Qed.

Lemma settled_grow m m' :
  settled m -> Materializer.thrown m' = false ->
  List.length (Materializer.store m) <= List.length (Materializer.store m') ->
  incl (parents m') (parents m) ->
  settled m'.
Proof.
  intros (_ & Hp) Ht Hlen Hincl. split; [exact Ht|].
  apply Forall_forall. intros p Hin.
  destruct (proj1 (Forall_forall _ _) Hp p (Hincl p Hin)) as (a & -> & Hlt).
  exists a. split; [reflexivity | lia].
Qed.

Lemma call_materializer_guarded m :
  Materializer.thrown m = false ->
  forall e,
    call Materializer.visitor e m
    = match e with
      | ObjectBegin _ _ => Materializer.onBegin (CObject []) m
      | ArrayBegin _ _ => Materializer.onBegin (CArray []) m
      | ObjectEnd _ _ | ArrayEnd _ _ => Materializer.onEnd m
      | ObjectProperty p _ _ => Materializer.onProperty p m
      | LiteralValue a _ _ => Materializer.onValue a m
      | Error c o l => Materializer.pushError c o l m
      | Separator _ _ _ | Comment _ _ => m
      end.
Proof.
  intros Ht e. destruct e; simpl; unfold Materializer.guarded; rewrite ?Ht; reflexivity.
Qed.

Lemma onBegin_settled c m :
  settled m ->
  settled (Materializer.onBegin c m)
  /\ parents (Materializer.onBegin c m)
     = Some (List.length (Materializer.store m)) :: parents m
  /\ Materializer.errors (Materializer.onBegin c m) = Materializer.errors m
  /\ List.length (Materializer.store (Materializer.onBegin c m))
     = S (List.length (Materializer.store m)).
Proof.
  intros Hm. unfold Materializer.onBegin.
  set (m1 := Materializer.mk (Materializer.store m ++ [c]) (Materializer.currentProperty m)
               (Materializer.currentParent m) (Materializer.previousParents m)
               (Materializer.errors m) (Materializer.thrown m)).
  assert (H1 : settled m1).
  { apply (settled_grow m); [exact Hm | apply Hm | | intros p Hp; exact Hp].
    unfold m1; simpl. rewrite length_app. lia. }
  destruct (onValue_settled (JRef (List.length (Materializer.store m))) m1 H1)
    as (Ht & Hp & He & Hl & _).
  unfold parents in Hp. simpl in Hp. injection Hp as Hcp Hpp.
  assert (Hlen : List.length (Materializer.store
                   (Materializer.onValue (JRef (List.length (Materializer.store m))) m1))
                 = S (List.length (Materializer.store m))).
  { rewrite Hl. unfold m1; simpl. rewrite length_app; simpl. lia. }
  repeat split; simpl.
  - exact Ht.
  - unfold parents; simpl. rewrite Hcp, Hpp, Hlen. constructor.
    + exists (List.length (Materializer.store m)). split; [reflexivity | lia].
    + destruct Hm as (_ & Hf). eapply Forall_impl; [|exact Hf].
      intros p (a & -> & Hlt). exists a. split; [reflexivity | lia].
  - unfold parents; simpl. rewrite Hcp, Hpp. reflexivity.
  - exact He.
  - exact Hlen.
Qed.

Lemma replay_matched tr : forall stack stack' m top rest,
  matchEvents stack tr = Some stack' ->
  settled m ->
  parents m = top ++ rest -> List.length top = List.length stack -> rest <> [] ->
  settled (replay Materializer.visitor tr m)
  /\ (exists top', parents (replay Materializer.visitor tr m) = top' ++ rest
                   /\ List.length top' = List.length stack')
  /\ Materializer.errors (replay Materializer.visitor tr m)
     = Materializer.errors m ++ errorsOf tr
  /\ List.length (Materializer.store m)
     <= List.length (Materializer.store (replay Materializer.visitor tr m)).
Proof.
  induction tr as [|e tr IH]; intros stack stack' m top rest Hmatch Hm Hp Hlen Hrest.
  - simpl in Hmatch. injection Hmatch as <-. simpl.
    repeat split; try apply Hm; [exists top; split; assumption | | lia].
    rewrite app_nil_r. reflexivity.
  - change (replay Materializer.visitor (e :: tr) m)
      with (replay Materializer.visitor tr (call Materializer.visitor e m)).
    rewrite (call_materializer_guarded m (proj1 Hm)).
    assert (Hpush : forall c F,
              matchEvents (F :: stack) tr = Some stack' ->
              settled (replay Materializer.visitor tr (Materializer.onBegin c m))
              /\ (exists top',
                    parents (replay Materializer.visitor tr (Materializer.onBegin c m))
                    = top' ++ rest /\ List.length top' = List.length stack')
              /\ Materializer.errors
                   (replay Materializer.visitor tr (Materializer.onBegin c m))
                 = Materializer.errors m ++ errorsOf tr
              /\ List.length (Materializer.store m)
                 <= List.length (Materializer.store
                      (replay Materializer.visitor tr (Materializer.onBegin c m)))).
    { intros c F Hmt.
      destruct (onBegin_settled c m Hm) as (Hs' & Hp' & He' & Hl').
      destruct (IH (F :: stack) stack' (Materializer.onBegin c m)
                  (Some (List.length (Materializer.store m)) :: top) rest Hmt Hs')
        as (H1 & H2 & H3 & H4).
      - rewrite Hp', Hp. reflexivity.
      - simpl. rewrite Hlen. reflexivity.
      - exact Hrest.
      - repeat split; try apply H1; [exact H2 | rewrite H3, He'; reflexivity | lia]. }
    assert (Hpop : forall F stack0,
              stack = F :: stack0 ->
              matchEvents stack0 tr = Some stack' ->
              settled (replay Materializer.visitor tr (Materializer.onEnd m))
              /\ (exists top',
                    parents (replay Materializer.visitor tr (Materializer.onEnd m))
                    = top' ++ rest /\ List.length top' = List.length stack')
              /\ Materializer.errors (replay Materializer.visitor tr (Materializer.onEnd m))
                 = Materializer.errors m ++ errorsOf tr
              /\ List.length (Materializer.store m)
                 <= List.length (Materializer.store
                      (replay Materializer.visitor tr (Materializer.onEnd m)))).
    { intros F stack0 -> Hmt.
      destruct top as [|t top0]; [discriminate|].
      simpl in Hlen. injection Hlen as Hlen.
      unfold parents in Hp. simpl in Hp. injection Hp as Hcp Hpp.
      assert (Hend : parents (Materializer.onEnd m) = top0 ++ rest
                     /\ Materializer.store (Materializer.onEnd m) = Materializer.store m
                     /\ Materializer.errors (Materializer.onEnd m) = Materializer.errors m
                     /\ Materializer.thrown (Materializer.onEnd m) = Materializer.thrown m).
      { unfold Materializer.onEnd, parents. rewrite Hpp.
        destruct (top0 ++ rest) as [|p ps] eqn:E.
        - destruct top0; [contradiction | discriminate].
        - simpl. repeat split; reflexivity. }
      destruct Hend as (Hp' & Hst' & He' & Ht').
      assert (Hs' : settled (Materializer.onEnd m)).
      { apply (settled_grow m); [exact Hm | rewrite Ht'; apply Hm | rewrite Hst'; lia|].
        rewrite Hp'. unfold parents. rewrite Hpp. intros p Hin. right. exact Hin. }
      destruct (IH stack0 stack' (Materializer.onEnd m) top0 rest Hmt Hs' Hp' Hlen Hrest)
        as (H1 & H2 & H3 & H4).
      repeat split; try apply H1; [exact H2 | rewrite H3, He'; reflexivity|].
      rewrite Hst' in H4. exact H4. }
    destruct e; simpl in Hmatch.
    + apply (Hpush _ _ Hmatch).
    + exact (IH stack stack' (Materializer.onProperty property m) top rest Hmatch
               (conj (proj1 Hm) (proj2 Hm)) Hp Hlen Hrest).
    + destruct stack as [|[|] stack0]; try discriminate.
      apply (Hpop _ _ eq_refl Hmatch).
    + apply (Hpush _ _ Hmatch).
    + destruct stack as [|[|] stack0]; try discriminate.
      apply (Hpop _ _ eq_refl Hmatch).
    + destruct (onValue_settled value m Hm) as (Ht' & Hp' & He' & Hl' & _).
      destruct (IH stack stack' (Materializer.onValue value m) top rest Hmatch)
        as (H1 & H2 & H3 & H4); try assumption.
      * split; [exact Ht'|]. rewrite Hp', Hl'. apply Hm.
      * rewrite Hp'. exact Hp.
      * repeat split; try apply H1; [exact H2 | rewrite H3, He'; reflexivity | lia].
    + apply (IH stack stack' _ top rest Hmatch); assumption.
    + apply (IH stack stack' _ top rest Hmatch); assumption.
    + destruct (IH stack stack' (Materializer.pushError error offset length m) top rest Hmatch
                  (conj (proj1 Hm) (proj2 Hm)) Hp Hlen Hrest)
        as (H1 & H2 & H3 & H4).
      split; [exact H1|]. split; [exact H2|]. split; [|exact H4].
      rewrite H3. simpl. rewrite <- app_assoc. reflexivity.
Qed.

Lemma settled_initial errors : settled (Materializer.initial errors).
Proof.
  split; [reflexivity|]. repeat constructor. exists 0. split; [reflexivity | simpl; lia].
Qed.

(** [parse] returns for every text, with the errors of the recorded calls
    after the errors it was given. *)
Lemma parse_returns text errors options :
  exists b st r,
    Visit.visit recorder text options [] = Some (b, st)
    /\ parse text errors options = Some r
    /\ reported r = errors ++ errorsOf (Visit.vis st)
    /\ Materializer.currentParent
         (replay Materializer.visitor (Visit.vis st) (Materializer.initial errors)) = Some 0
    /\ Materializer.previousParents
         (replay Materializer.visitor (Visit.vis st) (Materializer.initial errors)) = [].
Proof.
  destruct (visit_total _ recorder text options []) as (b & st & E).
  exists b, st. unfold parse. rewrite (visit_as_replay _ Materializer.visitor), E.
  cbv beta iota zeta. cbn [Visit.vis].
  pose proof (visit_balanced text options b st E) as Hbal.
  destruct (replay_matched (Visit.vis st) [] [] (Materializer.initial errors) []
              [Some 0] Hbal (settled_initial errors) eq_refl eq_refl ltac:(discriminate))
    as ((Ht & _) & (top' & Hp & Hl) & He & _).
  destruct top'; [|discriminate]. simpl in Hp.
  unfold parents in Hp. injection Hp as Hcp Hpp.
  rewrite Ht. unfold Materializer.result. rewrite Hcp.
  destruct (nth_error _ 0) as [[props|items]|];
    eexists; (split; [reflexivity|]); (split; [reflexivity|]);
    (split; [exact He | split; first [assumption | reflexivity]]).
Qed.

(** ** How far a token reaches *)

Section ScannerBounds.
Variable text : jsstring.

Lemma countWhile_le (p : Z -> bool) (l : jsstring) : countWhile p l <= List.length l.
Proof. induction l as [|c l IH]; simpl; [lia|]. destruct (p c); simpl; lia. Qed.

Lemma countWhile_skipn_le (p : Z -> bool) q :
  q <= List.length text -> q + countWhile p (skipn q text) <= List.length text.
Proof.
  intros H. pose proof (countWhile_le p (skipn q text)) as Hc.
  rewrite length_skipn in Hc. lia.
Qed.

Lemma skipDigits_le q :
  q <= List.length text -> Scanner.skipDigits text q <= List.length text.
Proof. apply countWhile_skipn_le. Qed.

Lemma charCodeAt_lt q c : charCodeAt text q = Some c -> q < List.length text.
Proof. unfold charCodeAt. intros H. apply nth_error_Some. congruence. Qed.

Lemma is_code_lt q k : is_code (charCodeAt text q) k = true -> q < List.length text.
Proof.
  destruct (charCodeAt text q) as [c|] eqn:E; simpl; [|discriminate].
  intros _. eapply charCodeAt_lt, E.
Qed.

Lemma on_code_lt f q : on_code f (charCodeAt text q) = true -> q < List.length text.
Proof.
  destruct (charCodeAt text q) as [c|] eqn:E; simpl; [|discriminate].
  intros _. eapply charCodeAt_lt, E.
Qed.

Lemma scanHexDigits_le count : forall p h,
  p <= List.length text ->
  fst (Scanner.scanHexDigits text count p h) <= List.length text.
Proof.
  induction count as [|k IH]; intros p h Hp; simpl; [exact Hp|].
  destruct (charCodeAt text p) as [ch|] eqn:E; simpl; [|exact Hp].
  apply charCodeAt_lt in E.
  repeat match goal with
         | |- context [if ?c then _ else _] => destruct c
         end; simpl; try apply IH; lia.
Qed.

Lemma scanEscape_le s result ch2 :
  Scanner.pos s <= List.length text ->
  Scanner.pos (fst (Scanner.scanEscape text s result ch2)) <= List.length text.
Proof.
  intros Hp. unfold Scanner.scanEscape.
  pose proof (scanHexDigits_le 4 (Scanner.pos s) 0 Hp) as Hh.
  destruct (Scanner.scanHexDigits text 4 (Scanner.pos s) 0) as [p' ch3].
  repeat match goal with
         | |- context [if ?c then _ else _] => destruct c
         end; simpl in *; lia.
Qed.

Lemma scanString_loop_le budget : forall s result start,
  Scanner.pos s <= List.length text ->
  Scanner.pos (fst (Scanner.scanString_loop text budget s result start))
  <= List.length text.
Proof.
  induction budget as [|k IH]; intros s result start Hp; [exact Hp|].
  simpl.
  destruct (List.length text <=? Scanner.pos s) eqn:E1; [exact Hp|].
  apply Nat.leb_gt in E1.
  destruct (is_code (charCodeAt text (Scanner.pos s)) CC.doubleQuote); [simpl; lia|].
  destruct (is_code (charCodeAt text (Scanner.pos s)) CC.backslash).
  - destruct (List.length text <=? S (Scanner.pos s)) eqn:E2; [simpl; lia|].
    apply Nat.leb_gt in E2.
    apply IH. apply scanEscape_le. simpl. lia.
  - repeat match goal with
           | |- context [if ?c then _ else _] => destruct c
           end; try exact Hp; apply IH; simpl; lia.
Qed.

Lemma scanExponent_le s start p2 :
  p2 <= List.length text ->
  Scanner.pos (fst (Scanner.scanExponent text s start p2)) <= List.length text.
Proof.
  intros Hp. unfold Scanner.scanExponent.
  destruct ((p2 <? List.length text)%nat && _) eqn:E1; [|exact Hp].
  apply andb_true_iff in E1. destruct E1 as (E1 & _). apply Nat.ltb_lt in E1.
  match goal with
  | |- context [if ?c then S (S p2) else S p2] => destruct c eqn:E2
  end.
  - assert (S (S p2) <= List.length text).
    { apply orb_true_iff in E2. destruct E2 as [E2|E2].
      - apply andb_true_iff in E2. destruct E2 as (E2 & _). apply Nat.ltb_lt in E2. lia.
      - apply is_code_lt in E2. lia. }
    destruct ((S (S p2) <? List.length text)%nat
              && on_code isDigit (charCodeAt text (S (S p2)))) eqn:E3; simpl; [|lia].
    apply andb_true_iff in E3. destruct E3 as (E3 & _). apply Nat.ltb_lt in E3.
    apply skipDigits_le. lia.
  - destruct ((S p2 <? List.length text)%nat
              && on_code isDigit (charCodeAt text (S p2))) eqn:E3; simpl; [|lia].
    apply andb_true_iff in E3. destruct E3 as (E3 & _). apply Nat.ltb_lt in E3.
    apply skipDigits_le. lia.
Qed.

Lemma scanNumber_le s :
  Scanner.pos s < List.length text ->
  Scanner.pos (fst (Scanner.scanNumber text s)) <= List.length text.
Proof.
  intros Hp. unfold Scanner.scanNumber.
  match goal with
  | |- context [if ?c then S (Scanner.pos s) else ?q] =>
      assert (H1 : (if c then S (Scanner.pos s) else q) <= List.length text)
        by (destruct c; [lia | apply skipDigits_le; lia]);
      generalize dependent (if c then S (Scanner.pos s) else q)
  end.
  intros p1 H1.
  destruct ((p1 <? List.length text)%nat && _) eqn:E1; [|apply scanExponent_le, H1].
  apply andb_true_iff in E1. destruct E1 as (E1 & _). apply Nat.ltb_lt in E1.
  destruct ((S p1 <? List.length text)%nat && _) eqn:E2; [|simpl; lia].
  apply andb_true_iff in E2. destruct E2 as (E2 & _). apply Nat.ltb_lt in E2.
  apply scanExponent_le, skipDigits_le. lia.
Qed.

(** The block-comment loop stops inside the text; when the comment is not
    closed it stops on the last character, or where it started when nothing
    is left. *)
Lemma blockCommentLoop_le l : forall p,
  (snd (Scanner.blockCommentLoop l p) = true ->
   fst (Scanner.blockCommentLoop l p) <= p + List.length l)
  /\ (snd (Scanner.blockCommentLoop l p) = false ->
      fst (Scanner.blockCommentLoop l p) = p + (List.length l - 1)).
Proof.
  induction l as [|ch l IH]; intros p; simpl; [split; [discriminate | lia]|].
  destruct l as [|ch1 l']; [simpl; split; [discriminate | lia]|].
  destruct ((ch =? CC.asterisk)%Z && (ch1 =? CC.slash)%Z); simpl;
    [split; [lia | discriminate]|].
  destruct (IH (S p)) as (H1 & H2). simpl in H1, H2.
  split; intros H; [specialize (H1 H) | specialize (H2 H)]; simpl in *; lia.
Qed.

Lemma scanEscape_tokenOffset s result ch2 :
  Scanner.tokenOffset (fst (Scanner.scanEscape text s result ch2)) = Scanner.tokenOffset s.
Proof.
  unfold Scanner.scanEscape.
  destruct (Scanner.scanHexDigits text 4 (Scanner.pos s) 0) as [p' ch3].
  repeat match goal with
         | |- context [if ?c then _ else _] => destruct c
         end; reflexivity.
Qed.

Lemma scanString_loop_tokenOffset budget : forall s result start,
  Scanner.tokenOffset (fst (Scanner.scanString_loop text budget s result start))
  = Scanner.tokenOffset s.
Proof.
  induction budget as [|k IH]; intros s result start; [reflexivity|].
  simpl.
  repeat match goal with
         | |- context [if ?c then _ else _] => destruct c
         end; try reflexivity; rewrite IH; try reflexivity.
  rewrite scanEscape_tokenOffset. reflexivity.
Qed.

Lemma scanNumber_tokenOffset s :
  Scanner.tokenOffset (fst (Scanner.scanNumber text s)) = Scanner.tokenOffset s.
Proof.
  unfold Scanner.scanNumber, Scanner.scanExponent.
  repeat match goal with
         | |- context [if ?c then _ else _] => destruct c
         end; reflexivity.
Qed.

(** Where a token starts and ends.  The end can lie one position after
    the end of the text, and only for a block comment that is opened by the
    last two characters of the text. *)
Lemma scan_bounds s :
  Scanner.pos s <= List.length text ->
  Scanner.tokenOffset (Scanner.scan text s) = Scanner.pos s
  /\ Scanner.pos s <= Scanner.pos (Scanner.scan text s)
  /\ Scanner.pos (Scanner.scan text s) <= S (List.length text)
  /\ (List.length text < Scanner.pos (Scanner.scan text s) ->
      Scanner.token (Scanner.scan text s) = SyntaxKind.BlockCommentTrivia
      /\ Scanner.scanError (Scanner.scan text s) = ScanError.UnexpectedEndOfComment
      /\ S (S (Scanner.pos s)) = List.length text).
Proof.
  intros Hle.
  destruct (Nat.eq_dec (Scanner.pos s) (List.length text)) as [Heq|Hne].
  { rewrite scan_at_end by lia. simpl. repeat split; lia. }
  assert (Hlt : Scanner.pos s < List.length text) by lia.
  pose proof (scan_progress text s Hlt) as Hprog.
  split; [|split; [lia|]].
  { unfold Scanner.scan, Scanner.scanNext. simpl.
    destruct (List.length text <=? Scanner.pos s) eqn:E; [apply Nat.leb_le in E; lia|].
    repeat match goal with
           | |- context [if ?c then _ else _] => destruct c
           | |- context [let '(_, _) := ?x in _] => destruct x eqn:?
           end; try reflexivity;
      match goal with
      | H : Scanner.scanString _ ?s0 = _ |- _ =>
          pose proof (scanString_loop_tokenOffset (S (List.length text)) s0 []
                        (Scanner.pos s0)) as Ht;
          unfold Scanner.scanString in H; rewrite H in Ht; exact Ht
      | H : Scanner.scanNumber _ ?s0 = _ |- _ =>
          pose proof (scanNumber_tokenOffset s0) as Ht; rewrite H in Ht; exact Ht
      end. }
  clear Hprog.
  unfold Scanner.scan, Scanner.scanNext. simpl.
  destruct (List.length text <=? Scanner.pos s) eqn:E; [apply Nat.leb_le in E; lia|].
  clear E.
  destruct (charCodeAt text (Scanner.pos s)) as [c|] eqn:Ec;
    [|apply nth_error_None in Ec; lia].
  simpl.
  destruct (isWhitespace c) eqn:Ews.
  { simpl.
    assert (List.length (Scanner.whitespaceRun (skipn (Scanner.pos s) text))
            <= List.length text - Scanner.pos s).
    { rewrite <- length_skipn.
      generalize (skipn (Scanner.pos s) text). intros l.
      induction l as [|x l IH]; simpl; [lia|]. destruct (isWhitespace x); simpl; lia. }
    split; lia. }
  destruct (isLineBreak c) eqn:Elb.
  { destruct (_ && _) eqn:E2; simpl; [|split; lia].
    apply andb_true_iff in E2. destruct E2 as (_ & E2). apply is_code_lt in E2.
    split; lia. }
  repeat match goal with
         | |- context [if (c =? ?k)%Z then _ else _] =>
             destruct (c =? k)%Z eqn:?; [simpl; split; lia|]
         end.
  destruct (c =? CC.doubleQuote)%Z.
  { pose proof (scanString_loop_le (S (List.length text))
                  (Scanner.set_pos
                     (Scanner.set_tokenOffset
                        (Scanner.set_scanError (Scanner.set_value s []) ScanError.None)
                        (Scanner.pos s)) (S (Scanner.pos s))) []
                  (S (Scanner.pos s)) ltac:(simpl; lia)) as Hs.
    unfold Scanner.scanString. cbn [Scanner.pos Scanner.set_pos].
    destruct (Scanner.scanString_loop _ _ _ _ _) as [s1 v1]. simpl in *.
    split; lia. }
  destruct (c =? CC.slash)%Z.
  { destruct (is_code (charCodeAt text (Scanner.pos s + 1)) CC.slash) eqn:E1.
    { apply is_code_lt in E1. simpl.
      pose proof (countWhile_skipn_le (fun c => negb (isLineBreak c)) (Scanner.pos s + 2)
                    ltac:(lia)).
      unfold Scanner.skipLine. split; lia. }
    destruct (is_code (charCodeAt text (Scanner.pos s + 1)) CC.asterisk) eqn:E2.
    { apply is_code_lt in E2.
      destruct (blockCommentLoop_le (skipn (Scanner.pos s + 2) text) (Scanner.pos s + 2))
        as (H1 & H2).
      rewrite length_skipn in H1, H2.
      destruct (Scanner.blockCommentLoop _ _) as [p' closed]. simpl in H1, H2.
      destruct closed; simpl.
      - specialize (H1 eq_refl). split; lia.
      - specialize (H2 eq_refl). split; [lia|]. intros Hover.
        repeat split; lia. }
    simpl. split; lia. }
  destruct (c =? CC.minus)%Z.
  { match goal with
    | |- context [if ?b || negb (on_code isDigit ?cc) then _ else _] =>
        destruct (b || negb (on_code isDigit cc)) eqn:E1
    end; [simpl; split; lia|].
    apply orb_false_iff in E1. destruct E1 as (_ & E1).
    apply negb_false_iff, on_code_lt in E1. simpl in E1.
    match goal with
    | |- context [Scanner.scanNumber text ?s0] =>
        pose proof (scanNumber_le s0 E1) as Hn;
        destruct (Scanner.scanNumber text s0) as [s1 v1]
    end.
    simpl in *. split; lia. }
  destruct (isDigit c).
  { match goal with
    | |- context [Scanner.scanNumber text ?s0] =>
        pose proof (scanNumber_le s0 Hlt) as Hn;
        destruct (Scanner.scanNumber text s0) as [s1 v1]
    end.
    simpl in *. split; lia. }
  pose proof (countWhile_skipn_le isUnknownContentCharacter (Scanner.pos s) Hle) as Hw.
  destruct (negb _) eqn:E1; simpl.
  - repeat match goal with
           | |- context [if ?c then _ else _] => destruct c
           end; simpl; split; lia.
  - apply negb_false_iff, Nat.eqb_eq in E1. split; lia.
Qed.

End ScannerBounds.

(** ** What holds of every call *)

(** A property of the scanner and of the calls made so far that the
    scanner keeps and that every call [visit] can make keeps, holds when
    [visit] returns. *)
Lemma visit_invariant text options (I : Scanner.t -> list Event -> Prop) :
  (forall s tr, I s tr -> I (Scanner.scan text s) tr) ->
  (forall s e tr, I s tr -> legal options s e -> I s (tr ++ [e])) ->
  I Scanner.initial [] ->
  forall b st, Visit.visit recorder text options [] = Some (b, st) ->
    I (Visit.scanner st) (Visit.vis st).
Proof.
  intros Hscan Hcall Hinit b st E.
  assert (H : resR (fun s x y => x = y /\ I s x)
                (Visit.visit recorder text options [])
                (Visit.visit recorder text options [])).
  { apply sim_visit.
    - intros s x y (-> & Hi). split; [reflexivity | apply Hscan, Hi].
    - intros s e x y (-> & Hi) Hl. split; [reflexivity|].
      rewrite call_recorder. apply Hcall; assumption.
    - split; [reflexivity | exact Hinit]. }
  unfold resR in H. rewrite E in H. apply H.
Qed.

Lemma ascending_snoc l x :
  ascending l -> Forall (fun y => y <= x) l -> ascending (l ++ [x]).
Proof.
  induction l as [|y l IH]; simpl; intros Ha Hf; [split; constructor|].
  destruct Ha as (Hy & Ha). inversion Hf; subst.
  split; [apply Forall_app; split; [exact Hy | repeat constructor; assumption]|].
  apply IH; assumption.
Qed.

(** Offsets never go back, and every call lies where the scanner is. *)
Lemma visit_offsets text options b st :
  Visit.visit recorder text options [] = Some (b, st) ->
  ascending (map eventOffset (Visit.vis st))
  /\ Forall (withinText text) (Visit.vis st).
Proof.
  intros E.
  pose proof (visit_invariant text options
    (fun s tr =>
       (Scanner.tokenOffset s <= Scanner.pos s
        /\ Scanner.tokenOffset s <= List.length text
        /\ Scanner.pos s <= S (List.length text))
       /\ ascending (map eventOffset tr)
       /\ Forall (fun e => eventOffset e <= Scanner.tokenOffset s) tr
       /\ Forall (withinText text) tr)) as H.
  destruct (H) with (b := b) (st := st) as (_ & Ha & _ & Hw); try assumption;
    [| | |split; assumption]; clear H E.
  - intros s tr ((H1 & H2 & H3) & Ha & Ho & Hw).
    assert (Hs : Scanner.tokenOffset s <= Scanner.tokenOffset (Scanner.scan text s)
                 /\ Scanner.tokenOffset (Scanner.scan text s)
                    <= Scanner.pos (Scanner.scan text s)
                 /\ Scanner.tokenOffset (Scanner.scan text s) <= List.length text
                 /\ Scanner.pos (Scanner.scan text s) <= S (List.length text)).
    { destruct (Nat.le_gt_cases (Scanner.pos s) (List.length text)) as [Hle|Hgt].
      - destruct (scan_bounds text s Hle) as (Ht & Hp & Hq & _). lia.
      - rewrite scan_at_end by lia. simpl. lia. }
    destruct Hs as (Hs1 & Hs2 & Hs3 & Hs4).
    repeat split; try assumption.
    eapply Forall_impl; [|exact Ho]. intros e He. simpl in He. lia.
  - intros s e tr ((H1 & H2 & H3) & Ha & Ho & Hw) (He1 & He2 & _).
    unfold Scanner.getTokenOffset, Scanner.getTokenLength in *.
    repeat split; try assumption.
    + rewrite map_app. apply ascending_snoc; [exact Ha|].
      apply Forall_forall. intros y Hy. apply in_map_iff in Hy.
      destruct Hy as (e' & <- & Hin).
      pose proof (proj1 (Forall_forall _ _) Ho e' Hin). simpl in *. lia.
    + apply Forall_app. split; [exact Ho | constructor; [lia | constructor]].
    + apply Forall_app. split; [exact Hw|].
      constructor; [unfold withinText; lia | constructor].
  - simpl. repeat split; try constructor; lia.
Qed.

(** With comments disallowed no comment is reported, and with comments
    allowed no comment is reported as an error. *)
Lemma visit_comments text options b st :
  Visit.visit recorder text options [] = Some (b, st) ->
  (ParseOptions.disallowComments options = true ->
   Forall (fun e => isComment e = false) (Visit.vis st))
  /\ (ParseOptions.disallowComments options = false ->
      Forall (fun e => isInvalidCommentToken e = false) (Visit.vis st)).
Proof.
  intros E.
  apply (visit_invariant text options
    (fun _ tr =>
       (ParseOptions.disallowComments options = true ->
        Forall (fun e => isComment e = false) tr)
       /\ (ParseOptions.disallowComments options = false ->
           Forall (fun e => isInvalidCommentToken e = false) tr))) with (b := b);
    try assumption.
  - intros s tr H; exact H.
  - intros s e tr (H1 & H2) (_ & _ & Hl). split; intros Hd.
    + apply Forall_app. split; [apply H1, Hd|]. constructor; [|constructor].
      destruct e; try reflexivity. destruct Hl as (Hl & _). congruence.
    + apply Forall_app. split; [apply H2, Hd|]. constructor; [|constructor].
      destruct e; try reflexivity. destruct error; try reflexivity.
      destruct (Hl eq_refl) as (Hl' & _). congruence.
  - split; intros _; constructor.
Qed.

(** A punctuation token is the single character it is named after. *)
Lemma scan_punctuation_inv text s c k :
  punctuation c = Some k ->
  Scanner.token (Scanner.scan text s) = k ->
  charCodeAt text (Scanner.tokenOffset (Scanner.scan text s)) = Some c
  /\ Scanner.pos (Scanner.scan text s) = S (Scanner.tokenOffset (Scanner.scan text s)).
Proof.
  intros Hk. unfold Scanner.scan, Scanner.scanNext. cbn [Scanner.pos Scanner.set_value
    Scanner.set_scanError Scanner.set_tokenOffset Scanner.tokenOffset].
  assert (Hc : forall a b : Z, (a =? b)%Z = true -> a = b) by (intros a b; apply Z.eqb_eq).
  unfold punctuation in Hk.
  assert (Hother : forall s' : Scanner.t,
            Scanner.token s' <> SyntaxKind.OpenBraceToken ->
            Scanner.token s' <> SyntaxKind.CloseBraceToken ->
            Scanner.token s' <> SyntaxKind.OpenBracketToken ->
            Scanner.token s' <> SyntaxKind.CloseBracketToken ->
            Scanner.token s' <> SyntaxKind.ColonToken ->
            Scanner.token s' <> SyntaxKind.CommaToken ->
            Scanner.token s' = k ->
            charCodeAt text (Scanner.tokenOffset s') = Some c
            /\ Scanner.pos s' = S (Scanner.tokenOffset s')).
  { intros s' H1 H2 H3 H4 H5 H6 <-. exfalso.
    repeat match type of Hk with
           | (if ?c then _ else _) = _ =>
               destruct c; [injection Hk as Hk; congruence|]
           end.
    discriminate. }
  destruct (List.length text <=? Scanner.pos s); [apply Hother; discriminate|].
  destruct (charCodeAt text (Scanner.pos s)) as [d|] eqn:Ed; simpl.
  2:{ repeat match goal with
             | |- context [if ?c then _ else _] => destruct c
             end; apply Hother; discriminate. }
  destruct (isWhitespace d); [apply Hother; discriminate|].
  destruct (isLineBreak d); [destruct (_ && _); apply Hother; discriminate|].
  repeat match goal with
         | |- context [if (d =? ?k0)%Z then Scanner.set_token _ _ else _] =>
             destruct (d =? k0)%Z eqn:?;
               [simpl; intros <-;
                repeat match type of Hk with
                       | (if (?a =? ?b)%Z then _ else _) = _ =>
                           destruct (a =? b)%Z eqn:?; try discriminate
                       end;
                repeat match goal with
                       | H : (_ =? _)%Z = true |- _ => apply Hc in H
                       end;
                split; [congruence | reflexivity]|]
         end.
  repeat match goal with
         | |- context [if ?c then _ else _] => destruct c
         | |- context [let '(_, _) := ?x in _] => destruct x
         end; apply Hother; discriminate.
Qed.

(** Begins and separators are reported exactly where they are. *)
Lemma visit_exact text options b st :
  Visit.visit recorder text options [] = Some (b, st) ->
  Forall (exactPosition text) (Visit.vis st).
Proof.
  intros E.
  apply (visit_invariant text options
    (fun s tr =>
       (s = Scanner.initial \/ exists s0, s = Scanner.scan text s0)
       /\ Forall (exactPosition text) tr)) with (b := b); try assumption.
  - intros s tr (_ & H). split; [right; exists s; reflexivity | exact H].
  - intros s e tr (Hs & H) (Ho & Hl & Hk). split; [exact Hs|].
    apply Forall_app. split; [exact H|]. constructor; [|constructor].
    unfold Scanner.getTokenOffset, Scanner.getTokenLength in *.
    assert (Hp : forall c k, punctuation c = Some k -> Scanner.token s = k ->
                 charCodeAt text (Scanner.tokenOffset s) = Some c
                 /\ Scanner.pos s = S (Scanner.tokenOffset s)).
    { intros c k Hc Hkind. destruct Hs as [->|(s0 & ->)].
      - simpl in Hkind. subst k. unfold punctuation in Hc.
        repeat match type of Hc with
               | (if ?c then _ else _) = _ => destruct c; try discriminate
               end.
      - apply (scan_punctuation_inv text s0 c k Hc Hkind). }
    destruct e; simpl in *; try exact I.
    + destruct (Hp CC.openBrace _ eq_refl Hk) as (Hc & Hpos).
      subst. split; [lia | exact Hc].
    + destruct (Hp CC.openBracket _ eq_refl Hk) as (Hc & Hpos).
      subst. split; [lia | exact Hc].
    + destruct Hk as [(-> & Hk)|(-> & Hk)].
      * destruct (Hp CC.colon _ eq_refl Hk) as (Hc & Hpos).
        subst. split; [lia|]. exists CC.colon. split; [reflexivity | exact Hc].
      * destruct (Hp CC.comma _ eq_refl Hk) as (Hc & Hpos).
        subst. split; [lia|]. exists CC.comma. split; [reflexivity | exact Hc].
  - split; [left; reflexivity | constructor].
Qed.

(** ** When [visit] returns [false] *)

Section NoValue.
Variable text : jsstring.
Variable options : ParseOptions.t.

Lemma noisy_app a b : noisy a -> noisy b -> noisy (a ++ b).
Proof. intros Ha Hb. apply Forall_app. split; assumption. Qed.

Lemma noisy_handleError0 error st :
  emits noisy st (Visit.handleError0 recorder error st).
Proof. eapply emits_one; [reflexivity | repeat constructor]. Qed.

Lemma noisy_reportScanError st :
  emits noisy st (Visit.reportScanError recorder options st).
Proof.
  unfold Visit.reportScanError.
  destruct (Scanner.getTokenError (Visit.scanner st));
    try destruct (negb (Visit.disallowComments options));
    try apply noisy_handleError0; apply emits_refl; constructor.
Qed.

(** Looking for the next token reports errors and comments only. *)
Lemma noisy_scanNext fuel : forall st st',
  Visit.scanNext recorder text options fuel st = Some st' -> emits noisy st st'.
Proof.
  induction fuel as [|n IH]; intros st st' H; [discriminate|].
  simpl in H.
  set (st1 := Visit.mkP (Scanner.scan text (Visit.scanner st)) (Visit.vis st)) in *.
  assert (H1 : emits noisy st (Visit.reportScanError recorder options st1)).
  { destruct (noisy_reportScanError st1) as (seg & E & Hq); exists seg; split; assumption. }
  assert (Hrec : forall st2, emits noisy st st2 ->
                 Visit.scanNext recorder text options n st2 = Some st' ->
                 emits noisy st st').
  { intros st2 H2 E; eapply emits_trans; [apply noisy_app | exact H2 | apply IH, E]. }
  destruct (Visit.getToken st1);
    try (injection H as <-; exact H1);
    (eapply Hrec; [|exact H]); try exact H1.
  - destruct (Visit.disallowComments options);
      (eapply emits_trans; [apply noisy_app | exact H1 |]);
      [apply noisy_handleError0 | eapply emits_one; [reflexivity | repeat constructor]].
  - destruct (Visit.disallowComments options);
      (eapply emits_trans; [apply noisy_app | exact H1 |]);
      [apply noisy_handleError0 | eapply emits_one; [reflexivity | repeat constructor]].
  - eapply emits_trans; [apply noisy_app | exact H1 | apply noisy_handleError0].
Qed.

(** When [visit] returns [false] no value was found: the visitor has
    received errors and comments only, the last call being the error
    value-expected. *)
Lemma visit_false st :
  Visit.visit recorder text options [] = Some (false, st) ->
  noisy (Visit.vis st)
  /\ exists tr o l, Visit.vis st = tr ++ [Error ParseErrorCode.ValueExpected o l].
Proof.
  unfold Visit.visit, Visit.visit_with. intros H.
  destruct (scanNext_total _ recorder text options (List.length text + 4)
              (Visit.mkP Scanner.initial []))
    as (st1 & E1 & H1); [unfold remaining; simpl; lia|].
  rewrite E1 in H. unfold remaining in H1; simpl in H1.
  destruct (noisy_scanNext _ _ _ E1) as (seg & Eseg & Hseg). simpl in Eseg.
  assert (Hlast : forall st0, Visit.vis st0 = Visit.vis st1 ->
            noisy (Visit.vis (Visit.handleError0 recorder ParseErrorCode.ValueExpected st0))
            /\ exists tr o l,
                 Visit.vis (Visit.handleError0 recorder ParseErrorCode.ValueExpected st0)
                 = tr ++ [Error ParseErrorCode.ValueExpected o l]).
  { intros st0 E0. simpl. rewrite E0, Eseg. split; [|eauto].
    apply noisy_app; [exact Hseg | repeat constructor]. }
  destruct (SyntaxKind.eqb (Visit.getToken st1) SyntaxKind.EOF).
  { destruct (ParseOptions.allowEmptyContent options); [discriminate|].
    injection H as <-. apply Hlast. reflexivity. }
  destruct (parseValue_total _ recorder text options (List.length text + 4) st1)
    as (b & st2 & E2 & _ & _ & Hsame); [lia|].
  rewrite E2 in H. destruct b.
  { destruct (negb (SyntaxKind.eqb (Visit.getToken st2) SyntaxKind.EOF)); discriminate. }
  injection H as <-. rewrite (Hsame eq_refl). apply Hlast. reflexivity.
Qed.

Lemma replay_noisy tr : forall m,
  noisy tr -> Materializer.thrown m = false ->
  Materializer.store (replay Materializer.visitor tr m) = Materializer.store m
  /\ Materializer.currentParent (replay Materializer.visitor tr m)
     = Materializer.currentParent m
  /\ Materializer.thrown (replay Materializer.visitor tr m) = false
  /\ Materializer.errors (replay Materializer.visitor tr m)
     = Materializer.errors m ++ errorsOf tr.
Proof.
  induction tr as [|e tr IH]; intros m Hn Ht.
  - simpl. rewrite app_nil_r. repeat split; assumption.
  - inversion Hn as [|? ? He Hn']; subst.
    change (replay Materializer.visitor (e :: tr) m)
      with (replay Materializer.visitor tr (call Materializer.visitor e m)).
    rewrite (call_materializer_guarded m Ht).
    destruct e; try discriminate.
    + apply IH; assumption.
    + destruct (IH (Materializer.pushError error offset length m) Hn' Ht)
        as (H1 & H2 & H3 & H4).
      repeat split; try assumption.
      rewrite H4. simpl. rewrite <- app_assoc. reflexivity.
Qed.

End NoValue.

(** ** The errors array is only appended to *)

Lemma onValue_withErrors es value m :
  Materializer.onValue value (withErrors es m)
  = withErrors es (Materializer.onValue value m).
Proof.
  unfold Materializer.onValue, withErrors. simpl.
  destruct (Materializer.currentParent m) as [a|] eqn:Ep.
  - destruct (nth_error (Materializer.store m) a) as [[props|items]|];
      [destruct (Materializer.currentProperty m) eqn:Ec| |];
      simpl; rewrite ?Ep, ?Ec; reflexivity.
  - destruct (Materializer.currentProperty m) eqn:Ec;
      simpl; rewrite ?Ep, ?Ec; reflexivity.
Qed.

Lemma call_withErrors es e m :
  call Materializer.visitor e (withErrors es m)
  = withErrors es (call Materializer.visitor e m).
Proof.
  destruct e; simpl; unfold Materializer.guarded; simpl;
    destruct (Materializer.thrown m) eqn:Et; try reflexivity.
  - unfold Materializer.onBegin.
    change (Materializer.mk (Materializer.store (withErrors es m) ++ [CObject []])
              (Materializer.currentProperty (withErrors es m))
              (Materializer.currentParent (withErrors es m))
              (Materializer.previousParents (withErrors es m))
              (Materializer.errors (withErrors es m))
              (Materializer.thrown (withErrors es m)))
      with (withErrors es
              (Materializer.mk (Materializer.store m ++ [CObject []])
                 (Materializer.currentProperty m) (Materializer.currentParent m)
                 (Materializer.previousParents m) (Materializer.errors m)
                 (Materializer.thrown m))).
    rewrite onValue_withErrors. reflexivity.
  - unfold Materializer.onEnd, withErrors. simpl.
    destruct (Materializer.previousParents m); reflexivity.
  - unfold Materializer.onBegin.
    change (Materializer.mk (Materializer.store (withErrors es m) ++ [CArray []])
              (Materializer.currentProperty (withErrors es m))
              (Materializer.currentParent (withErrors es m))
              (Materializer.previousParents (withErrors es m))
              (Materializer.errors (withErrors es m))
              (Materializer.thrown (withErrors es m)))
      with (withErrors es
              (Materializer.mk (Materializer.store m ++ [CArray []])
                 (Materializer.currentProperty m) (Materializer.currentParent m)
                 (Materializer.previousParents m) (Materializer.errors m)
                 (Materializer.thrown m))).
    rewrite onValue_withErrors. reflexivity.
  - unfold Materializer.onEnd, withErrors. simpl.
    destruct (Materializer.previousParents m); reflexivity.
  - apply onValue_withErrors.
  - unfold Materializer.pushError, withErrors. simpl. rewrite app_assoc. reflexivity.
Qed.

Lemma replay_withErrors es tr : forall m,
  replay Materializer.visitor tr (withErrors es m)
  = withErrors es (replay Materializer.visitor tr m).
Proof.
  induction tr as [|e tr IH]; intros m; [reflexivity|].
  change (replay Materializer.visitor (e :: tr) (withErrors es m))
    with (replay Materializer.visitor tr (call Materializer.visitor e (withErrors es m))).
  rewrite call_withErrors. apply IH.
Qed.

(** [parse] gives the same value whatever errors the array holds when it
    is called, and leaves them in front of the ones it reports. *)
Lemma parse_errors_prefix text errors options :
  parse text errors options
  = match parse text [] options with
    | Some r => Some (mkResult (returned r) (memory r) (errors ++ reported r))
    | None => None
    end.
Proof.
  unfold parse.
  rewrite (visit_as_replay _ Materializer.visitor text options (Materializer.initial errors)),
    (visit_as_replay _ Materializer.visitor text options (Materializer.initial [])).
  destruct (Visit.visit recorder text options []) as [[b st]|]; [|reflexivity].
  cbv beta iota zeta. cbn [Visit.vis].
  replace (Materializer.initial errors) with (withErrors errors (Materializer.initial []))
    by (unfold withErrors, Materializer.initial; simpl; rewrite app_nil_r; reflexivity).
  rewrite replay_withErrors.
  set (m := replay Materializer.visitor (Visit.vis st) (Materializer.initial [])).
  change (Materializer.thrown (withErrors errors m)) with (Materializer.thrown m).
  destruct (Materializer.thrown m); [reflexivity|].
  change (Materializer.result (withErrors errors m)) with (Materializer.result m).
  destruct (Materializer.result m); reflexivity.
Qed.

(** ** Strings with control characters, and strings that are not closed *)

Section RawStrings.
Variable text : jsstring.

(** The loop of [scanString] steps over raw characters one by one; a
    control character among them leaves the error invalid-character. *)
Lemma scanString_loop_raw body : forall k s result start rest,
  Forall rawChar body ->
  skipn (Scanner.pos s) text = body ++ rest ->
  List.length body <= k ->
  Scanner.scanString_loop text k s result start
  = Scanner.scanString_loop text (k - List.length body)
      (Scanner.mk (Scanner.pos s + List.length body) (Scanner.value s)
         (Scanner.tokenOffset s) (Scanner.token s)
         (if existsb isControl body then ScanError.InvalidCharacter
          else Scanner.scanError s))
      result start.
Proof.
  induction body as [|c body IH]; intros k s result start rest Hraw Hs Hk.
  - simpl. rewrite Nat.sub_0_r, Nat.add_0_r. destruct s; reflexivity.
  - destruct k as [|k]; [simpl in Hk; lia|].
    inversion Hraw as [|? ? (Hq & Hb & Hlf & Hcr) Hraw']; subst.
    simpl in Hs. destruct (suffix_head text _ _ _ Hs) as (Hch & _ & Hlen & Hs1).
    simpl Scanner.scanString_loop. rewrite Hlen, Hch.
    replace (is_code (Some c) CC.doubleQuote) with false
      by (symmetry; apply Z.eqb_neq; exact Hq).
    replace (is_code (Some c) CC.backslash) with false
      by (symmetry; apply Z.eqb_neq; exact Hb).
    cbv iota.
    change (on_code (fun c0 : Z => ((0 <=? c0) && (c0 <=? 31))%Z) (Some c))
      with (isControl c).
    assert (Hnolb : isControl c = true -> on_code isLineBreak (Some c) = false).
    { unfold isControl, on_code, isLineBreak. cc_unfold. intros H.
      apply andb_true_iff in H. destruct H as (H1 & H2).
      apply Z.leb_le in H1, H2.
      repeat (apply orb_false_iff; split); apply Z.eqb_neq;
        first [exact Hlf | exact Hcr | lia]. }
    simpl List.length. simpl Nat.sub. simpl existsb.
    destruct (isControl c) eqn:Ectl.
    + rewrite (Hnolb eq_refl).
      rewrite (IH k (Scanner.set_pos (Scanner.set_scanError s ScanError.InvalidCharacter)
                       (S (Scanner.pos s))) result start rest Hraw'); simpl Scanner.pos;
        [|exact Hs1|simpl in Hk; lia].
      simpl. replace (Scanner.pos s + S (List.length body))
        with (S (Scanner.pos s + List.length body)) by lia.
      destruct (existsb isControl body); reflexivity.
    + rewrite (IH k (Scanner.set_pos s (S (Scanner.pos s))) result start rest Hraw');
        simpl Scanner.pos;
        [|exact Hs1|simpl in Hk; lia].
      simpl. replace (Scanner.pos s + S (List.length body))
        with (S (Scanner.pos s + List.length body)) by lia.
      reflexivity.
Qed.

Lemma skipn_length_le p (l : jsstring) : skipn p text = l -> List.length l <= List.length text.
Proof. intros <-. rewrite length_skipn. lia. Qed.

Ltac scan_quote H :=
  unfold Scanner.scan, Scanner.scanNext;
  simpl Scanner.pos; simpl Scanner.tokenOffset; simpl Scanner.value;
  let Hc := fresh "Hc" in
  let Hlen := fresh "Hlen" in
  destruct (suffix_head text _ _ _ H) as (Hc & _ & Hlen & ?);
  rewrite Hlen, Hc;
  change (on_code isWhitespace (Some CC.doubleQuote)) with false;
  change (on_code isLineBreak (Some CC.doubleQuote)) with false;
  change (is_code (Some CC.doubleQuote) CC.openBrace) with false;
  change (is_code (Some CC.doubleQuote) CC.closeBrace) with false;
  change (is_code (Some CC.doubleQuote) CC.openBracket) with false;
  change (is_code (Some CC.doubleQuote) CC.closeBracket) with false;
  change (is_code (Some CC.doubleQuote) CC.colon) with false;
  change (is_code (Some CC.doubleQuote) CC.comma) with false;
  change (is_code (Some CC.doubleQuote) CC.doubleQuote) with true;
  cbv iota; unfold Scanner.scanString.

(** A closed string of raw characters: the value is the text between
    the quotes, control characters included. *)
Lemma scan_string_raw s body rest :
  skipn (Scanner.pos s) text = CC.doubleQuote :: body ++ CC.doubleQuote :: rest ->
  Forall rawChar body ->
  Scanner.scan text s
  = Scanner.mk (Scanner.pos s + List.length body + 2) body (Scanner.pos s)
      SyntaxKind.StringLiteral
      (if existsb isControl body then ScanError.InvalidCharacter else ScanError.None).
Proof.
  intros H Hraw. scan_quote H.
  pose proof (skipn_length_le _ _ H0) as Hle. rewrite length_app in Hle. simpl in Hle.
  rewrite (scanString_loop_raw body _ _ _ _ (CC.doubleQuote :: rest) Hraw);
    simpl Scanner.pos; [|assumption|lia].
  replace (S (List.length text) - List.length body)
    with (S (List.length text - List.length body)) by lia.
  pose proof (suffix_app text _ _ _ H0) as H1.
  destruct (suffix_head text _ _ _ H1) as (Hch & _ & Hlen1 & _).
  simpl Scanner.scanString_loop. simpl Scanner.pos.
  change (S (Scanner.pos s) + List.length body)
    with (S (Scanner.pos s + List.length body)) in *.
  rewrite Hlen1, Hch.
  change (is_code (Some CC.doubleQuote) CC.doubleQuote) with true. cbv iota.
  pose proof (substring_suffix text (S (Scanner.pos s)) body _ H0) as Hsub.
  change (S (Scanner.pos s) + List.length body)
    with (S (Scanner.pos s + List.length body)) in Hsub.
  simpl. rewrite Hsub.
  replace (S (S (Scanner.pos s + List.length body)))
    with (Scanner.pos s + List.length body + 2) by lia.
  reflexivity.
Qed.

(** A string that the end of the text or a line break cuts short: the
    token stops there, its value is the text after the quote, and the error
    is unexpected-end-of-string. *)
Lemma scan_string_unterminated s body rest :
  skipn (Scanner.pos s) text = CC.doubleQuote :: body ++ rest ->
  Forall rawChar body -> line_ends rest ->
  Scanner.scan text s
  = Scanner.mk (Scanner.pos s + List.length body + 1) body (Scanner.pos s)
      SyntaxKind.StringLiteral ScanError.UnexpectedEndOfString.
Proof.
  intros H Hraw Hend. scan_quote H.
  pose proof (skipn_length_le _ _ H0) as Hle. rewrite length_app in Hle.
  rewrite (scanString_loop_raw body _ _ _ _ rest Hraw);
    simpl Scanner.pos; [|assumption|lia].
  replace (S (List.length text) - List.length body)
    with (S (List.length text - List.length body)) by lia.
  pose proof (suffix_app text _ _ _ H0) as H1.
  simpl Scanner.scanString_loop. simpl Scanner.pos.
  change (S (Scanner.pos s) + List.length body)
    with (S (Scanner.pos s + List.length body)) in *.
  destruct rest as [|c rest'].
  - pose proof (suffix_nil text _ H1) as Hn.
    replace (List.length text <=? S (Scanner.pos s + List.length body)) with true
      by (symmetry; apply Hn).
    pose proof (substring_suffix text (S (Scanner.pos s)) body _ H0) as Hsub.
    change (S (Scanner.pos s) + List.length body)
      with (S (Scanner.pos s + List.length body)) in Hsub.
    simpl. rewrite Hsub.
    replace (S (Scanner.pos s + List.length body))
      with (Scanner.pos s + List.length body + 1) by lia.
    reflexivity.
  - destruct (suffix_head text _ _ _ H1) as (Hch & _ & Hlen1 & _).
    rewrite Hlen1, Hch.
    assert (Hc' : is_code (Some c) CC.doubleQuote = false
                  /\ is_code (Some c) CC.backslash = false
                  /\ on_code (fun c0 : Z => ((0 <=? c0) && (c0 <=? 31))%Z) (Some c) = true
                  /\ on_code isLineBreak (Some c) = true).
    { destruct Hend as [-> | ->]; repeat split; reflexivity. }
    destruct Hc' as (-> & -> & -> & ->). cbv iota.
    pose proof (substring_suffix text (S (Scanner.pos s)) body _ H0) as Hsub.
    change (S (Scanner.pos s) + List.length body)
      with (S (Scanner.pos s + List.length body)) in Hsub.
    simpl. rewrite Hsub.
    replace (S (Scanner.pos s + List.length body))
      with (Scanner.pos s + List.length body + 1) by lia.
    reflexivity.
Qed.

End RawStrings.

(** ** The scanner that skips trivia *)

Section Trivia.
Variable text : jsstring.

Lemma scanNextNonTrivia_loop_returns budget : forall s,
  List.length text - Scanner.pos s < budget ->
  exists s',
    TriviaScanner.scanNextNonTrivia_loop text budget s = Some s'
    /\ TriviaScanner.isTrivia (Scanner.token s') = false
    /\ Scanner.pos s <= Scanner.pos s'.
Proof.
  induction budget as [|n IH]; intros s Hb; [lia|].
  simpl. change (Scanner.scanNext text s) with (Scanner.scan text s).
  destruct (TriviaScanner.isTrivia (Scanner.token (Scanner.scan text s))) eqn:Et.
  - assert (Hlt : Scanner.pos s < List.length text).
    { destruct (Nat.lt_ge_cases (Scanner.pos s) (List.length text)) as [H|H]; [exact H|].
      rewrite (scan_at_end text s H) in Et. discriminate. }
    pose proof (scan_progress text s Hlt) as Hp.
    destruct (IH (Scanner.scan text s)) as (s' & E & Hk & Hle); [lia|].
    exists s'. repeat split; [exact E | exact Hk | lia].
  - exists (Scanner.scan text s). repeat split; [exact Et|].
    destruct (Nat.lt_ge_cases (Scanner.pos s) (List.length text)) as [H|H].
    + pose proof (scan_progress text s H). lia.
    + rewrite (scan_at_end text s H). simpl. lia.
Qed.

Lemma scanNextNonTrivia_returns s :
  exists s',
    TriviaScanner.scanNextNonTrivia text s = Some s'
    /\ TriviaScanner.isTrivia (Scanner.token s') = false
    /\ Scanner.pos s <= Scanner.pos s'.
Proof. apply scanNextNonTrivia_loop_returns. lia. Qed.

(** The kinds that are trivia. *)
Lemma isTrivia_kinds k :
  TriviaScanner.isTrivia k = true
  <-> k = SyntaxKind.LineCommentTrivia \/ k = SyntaxKind.BlockCommentTrivia
      \/ k = SyntaxKind.LineBreakTrivia \/ k = SyntaxKind.Trivia.
Proof.
  split.
  - destruct k; intros H; try discriminate; tauto.
  - intros [H|[H|[H|H]]]; rewrite H; reflexivity.
Qed.

(** A line comment runs up to the next line break, or to the end of the
    text, and leaves the line break where it is. *)
Lemma scan_lineComment s body rest :
  skipn (Scanner.pos s) text = CC.slash :: CC.slash :: body ++ rest ->
  Forall (fun c => isLineBreak c = false) body ->
  match rest with c :: _ => isLineBreak c = true | [] => True end ->
  Scanner.scan text s
  = Scanner.mk (Scanner.pos s + 2 + List.length body)
      (substring text (Scanner.pos s - 1) (Scanner.pos s + 2 + List.length body))
      (Scanner.pos s) SyntaxKind.LineCommentTrivia ScanError.None.
Proof.
  intros H Hbody Hrest.
  unfold Scanner.scan, Scanner.scanNext.
  simpl Scanner.pos; simpl Scanner.tokenOffset; simpl Scanner.value.
  destruct (suffix_head text _ _ _ H) as (Hc & _ & Hlen & H1).
  destruct (suffix_head text _ _ _ H1) as (Hc1 & _ & _ & H2).
  rewrite Hlen, Hc.
  change (on_code isWhitespace (Some CC.slash)) with false.
  change (on_code isLineBreak (Some CC.slash)) with false.
  change (is_code (Some CC.slash) CC.openBrace) with false.
  change (is_code (Some CC.slash) CC.closeBrace) with false.
  change (is_code (Some CC.slash) CC.openBracket) with false.
  change (is_code (Some CC.slash) CC.closeBracket) with false.
  change (is_code (Some CC.slash) CC.colon) with false.
  change (is_code (Some CC.slash) CC.comma) with false.
  change (is_code (Some CC.slash) CC.doubleQuote) with false.
  change (is_code (Some CC.slash) CC.slash) with true.
  cbv iota.
  replace (Scanner.pos s + 1) with (S (Scanner.pos s)) by lia.
  rewrite Hc1. change (is_code (Some CC.slash) CC.slash) with true. cbv iota.
  unfold Scanner.skipLine.
  replace (Scanner.pos s + 2) with (S (S (Scanner.pos s))) by lia.
  rewrite H2.
  rewrite (countWhile_run (fun c => negb (isLineBreak c)) body rest).
  - reflexivity.
  - eapply Forall_impl; [|exact Hbody]. intros c Hcb. simpl in Hcb. rewrite Hcb. reflexivity.
  - destruct rest; [exact I|]. rewrite Hrest. reflexivity.
Qed.

End Trivia.

(** ** The scanner looks at its position only *)

Section PositionOnly.
Variable text : jsstring.

Lemma scanEscape_set_token s t result ch2 :
  Scanner.scanEscape text (Scanner.set_token s t) result ch2
  = (Scanner.set_token (fst (Scanner.scanEscape text s result ch2)) t,
     snd (Scanner.scanEscape text s result ch2)).
Proof.
  unfold Scanner.scanEscape. simpl Scanner.pos.
  destruct (Scanner.scanHexDigits text 4 (Scanner.pos s) 0) as [p' ch3].
  repeat match goal with
         | |- context [if ?c then _ else _] => destruct c
         end; reflexivity.
Qed.

Lemma scanString_loop_set_token budget : forall s t result start,
  Scanner.scanString_loop text budget (Scanner.set_token s t) result start
  = (Scanner.set_token (fst (Scanner.scanString_loop text budget s result start)) t,
     snd (Scanner.scanString_loop text budget s result start)).
Proof.
  induction budget as [|k IH]; intros s t result start; [reflexivity|].
  simpl Scanner.scanString_loop. simpl Scanner.pos.
  destruct (List.length text <=? Scanner.pos s); [reflexivity|].
  destruct (is_code (charCodeAt text (Scanner.pos s)) CC.doubleQuote); [reflexivity|].
  destruct (is_code (charCodeAt text (Scanner.pos s)) CC.backslash).
  - destruct (List.length text <=? S (Scanner.pos s)); [reflexivity|].
    change (Scanner.set_pos (Scanner.set_token s t) (S (S (Scanner.pos s))))
      with (Scanner.set_token (Scanner.set_pos s (S (S (Scanner.pos s)))) t).
    rewrite scanEscape_set_token. simpl fst. simpl snd.
    rewrite IH. reflexivity.
  - destruct (on_code _ (charCodeAt text (Scanner.pos s))).
    + destruct (on_code isLineBreak (charCodeAt text (Scanner.pos s))); [reflexivity|].
      change (Scanner.set_pos (Scanner.set_scanError (Scanner.set_token s t)
                                 ScanError.InvalidCharacter) (S (Scanner.pos s)))
        with (Scanner.set_token
                (Scanner.set_pos (Scanner.set_scanError s ScanError.InvalidCharacter)
                   (S (Scanner.pos s))) t).
      apply IH.
    + change (Scanner.set_pos (Scanner.set_token s t) (S (Scanner.pos s)))
        with (Scanner.set_token (Scanner.set_pos s (S (Scanner.pos s))) t).
      apply IH.
Qed.

Lemma scanNumber_set_token s t :
  Scanner.scanNumber text (Scanner.set_token s t)
  = (Scanner.set_token (fst (Scanner.scanNumber text s)) t,
     snd (Scanner.scanNumber text s)).
Proof.
  unfold Scanner.scanNumber, Scanner.scanExponent. simpl Scanner.pos.
  repeat match goal with
         | |- context [if ?c then _ else _] => destruct c
         end; reflexivity.
Qed.

(** Two scanners at the same position read the same token. *)
Lemma scan_position_only a b :
  Scanner.pos a = Scanner.pos b -> Scanner.scan text a = Scanner.scan text b.
Proof.
  destruct a as [p v o t e], b as [p' v' o' t' e']. simpl. intros <-.
  unfold Scanner.scan, Scanner.scanNext. simpl.
  destruct (List.length text <=? p); [reflexivity|].
  destruct (on_code isWhitespace (charCodeAt text p)); [reflexivity|].
  destruct (on_code isLineBreak (charCodeAt text p)).
  { destruct (_ && _); reflexivity. }
  repeat match goal with
         | |- context [if is_code (charCodeAt text p) ?k then Scanner.set_token _ _ else _] =>
             destruct (is_code (charCodeAt text p) k); [reflexivity|]
         end.
  destruct (is_code (charCodeAt text p) CC.doubleQuote).
  { unfold Scanner.scanString. simpl Scanner.pos.
    match goal with
    | |- (let '(_, _) := Scanner.scanString_loop text _ ?sa _ _ in _)
         = (let '(_, _) := Scanner.scanString_loop text _ ?sb _ _ in _) =>
        change sb with (Scanner.set_token sa t')
    end.
    rewrite scanString_loop_set_token.
    destruct (Scanner.scanString_loop text _ _ _ _) as [s1 v1]. reflexivity. }
  destruct (is_code (charCodeAt text p) CC.slash).
  { destruct (is_code (charCodeAt text (p + 1)) CC.slash); [reflexivity|].
    destruct (is_code (charCodeAt text (p + 1)) CC.asterisk); [|reflexivity].
    destruct (Scanner.blockCommentLoop _ _) as [p' closed].
    destruct closed; reflexivity. }
  destruct (is_code (charCodeAt text p) CC.minus).
  { destruct (_ || _); [reflexivity|].
    match goal with
    | |- (let '(_, _) := Scanner.scanNumber text ?sa in _)
         = (let '(_, _) := Scanner.scanNumber text ?sb in _) =>
        change sb with (Scanner.set_token sa t')
    end.
    rewrite scanNumber_set_token.
    destruct (Scanner.scanNumber text _) as [s1 v1]. reflexivity. }
  destruct (on_code isDigit (charCodeAt text p)).
  { match goal with
    | |- (let '(_, _) := Scanner.scanNumber text ?sa in _)
         = (let '(_, _) := Scanner.scanNumber text ?sb in _) =>
        change sb with (Scanner.set_token sa t')
    end.
    rewrite scanNumber_set_token.
    destruct (Scanner.scanNumber text _) as [s1 v1]. reflexivity. }
  repeat match goal with
         | |- context [if ?c then _ else _] => destruct c
         end; reflexivity.
Qed.

End PositionOnly.

(** ** Block comments, white space and line breaks *)

Section BlockComments.
Variable text : jsstring.

Lemma blockCommentLoop_closed body rest : forall p,
  noClose body = true ->
  Scanner.blockCommentLoop (body ++ CC.asterisk :: CC.slash :: rest) p
  = (p + List.length body + 2, true).
Proof.
  induction body as [|ch body IH]; intros p H.
  - simpl. f_equal. lia.
  - destruct body as [|ch1 body'].
    + change (Scanner.blockCommentLoop ([ch] ++ CC.asterisk :: CC.slash :: rest) p)
        with (if (ch =? CC.asterisk)%Z && (CC.asterisk =? CC.slash)%Z then (p + 2, true)
              else (S p + 2, true)).
      change (CC.asterisk =? CC.slash)%Z with false. rewrite andb_false_r.
      simpl. f_equal. lia.
    + change (noClose (ch :: ch1 :: body'))
        with (negb ((ch =? CC.asterisk)%Z && (ch1 =? CC.slash)%Z) && noClose (ch1 :: body'))
        in H.
      apply andb_true_iff in H. destruct H as (Hc & Hn). apply negb_true_iff in Hc.
      change (Scanner.blockCommentLoop ((ch :: ch1 :: body') ++ CC.asterisk :: CC.slash :: rest) p)
        with (if (ch =? CC.asterisk)%Z && (ch1 =? CC.slash)%Z then (p + 2, true)
              else Scanner.blockCommentLoop
                     ((ch1 :: body') ++ CC.asterisk :: CC.slash :: rest) (S p)).
      rewrite Hc, (IH (S p) Hn). simpl List.length. f_equal. lia.
Qed.

Lemma blockCommentLoop_open body : forall p,
  noClose body = true ->
  Scanner.blockCommentLoop body p = (p + (List.length body - 1), false).
Proof.
  induction body as [|ch body IH]; intros p H.
  - simpl. f_equal. lia.
  - destruct body as [|ch1 body'].
    + simpl. f_equal. lia.
    + change (noClose (ch :: ch1 :: body'))
        with (negb ((ch =? CC.asterisk)%Z && (ch1 =? CC.slash)%Z) && noClose (ch1 :: body'))
        in H.
      apply andb_true_iff in H. destruct H as (Hc & Hn). apply negb_true_iff in Hc.
      change (Scanner.blockCommentLoop (ch :: ch1 :: body') p)
        with (if (ch =? CC.asterisk)%Z && (ch1 =? CC.slash)%Z then (p + 2, true)
              else Scanner.blockCommentLoop (ch1 :: body') (S p)).
      rewrite Hc, (IH (S p) Hn). simpl List.length. f_equal. lia.
Qed.

Ltac at_slash_asterisk H s :=
  unfold Scanner.scan, Scanner.scanNext;
  simpl Scanner.pos; simpl Scanner.tokenOffset; simpl Scanner.value;
  let Hc := fresh "Hc" in
  let Hlen := fresh "Hlen" in
  let H1 := fresh "H1" in
  let Hc1 := fresh "Hc1" in
  let H2 := fresh "H2" in
  destruct (suffix_head text _ _ _ H) as (Hc & _ & Hlen & H1);
  destruct (suffix_head text _ _ _ H1) as (Hc1 & _ & _ & H2);
  rewrite Hlen, Hc;
  change (on_code isWhitespace (Some CC.slash)) with false;
  change (on_code isLineBreak (Some CC.slash)) with false;
  change (is_code (Some CC.slash) CC.openBrace) with false;
  change (is_code (Some CC.slash) CC.closeBrace) with false;
  change (is_code (Some CC.slash) CC.openBracket) with false;
  change (is_code (Some CC.slash) CC.closeBracket) with false;
  change (is_code (Some CC.slash) CC.colon) with false;
  change (is_code (Some CC.slash) CC.comma) with false;
  change (is_code (Some CC.slash) CC.doubleQuote) with false;
  change (is_code (Some CC.slash) CC.slash) with true;
  cbv iota;
  replace (Scanner.pos s + 1) with (S (Scanner.pos s)) by lia;
  rewrite Hc1;
  change (is_code (Some CC.asterisk) CC.slash) with false;
  change (is_code (Some CC.asterisk) CC.asterisk) with true;
  cbv iota;
  replace (Scanner.pos s + 2) with (S (S (Scanner.pos s))) by lia;
  rewrite H2.

(** A block comment runs up to the first asterisk that a slash follows,
    and over the two. *)
Lemma scan_blockComment s body rest :
  skipn (Scanner.pos s) text
  = CC.slash :: CC.asterisk :: body ++ CC.asterisk :: CC.slash :: rest ->
  noClose body = true ->
  Scanner.scan text s
  = Scanner.mk (Scanner.pos s + List.length body + 4)
      (substring text (Scanner.pos s - 1) (Scanner.pos s + List.length body + 4))
      (Scanner.pos s) SyntaxKind.BlockCommentTrivia ScanError.None.
Proof.
  intros H Hbody. at_slash_asterisk H s.
  rewrite (blockCommentLoop_closed body rest _ Hbody).
  cbv beta iota zeta. simpl.
  replace (S (S (Scanner.pos s + List.length body + 2)))
    with (Scanner.pos s + List.length body + 4) by lia.
  reflexivity.
Qed.

(** A block comment that is not closed runs to the end of the text, and
    one position further when nothing follows its opening. *)
Lemma scan_blockComment_unterminated s body :
  skipn (Scanner.pos s) text = CC.slash :: CC.asterisk :: body ->
  noClose body = true ->
  Scanner.scan text s
  = Scanner.mk (Scanner.pos s + 3 + (List.length body - 1))
      (substring text (Scanner.pos s - 1) (Scanner.pos s + 3 + (List.length body - 1)))
      (Scanner.pos s) SyntaxKind.BlockCommentTrivia ScanError.UnexpectedEndOfComment.
Proof.
  intros H Hbody. at_slash_asterisk H s.
  rewrite (blockCommentLoop_open body _ Hbody).
  cbv beta iota zeta. simpl.
  replace (S (S (S (Scanner.pos s + (List.length body - 1)))))
    with (Scanner.pos s + 3 + (List.length body - 1)) by lia.
  reflexivity.
Qed.

Lemma whitespaceRun_exact w : forall rest,
  Forall (fun c => isWhitespace c = true) w -> space_ends rest ->
  Scanner.whitespaceRun (w ++ rest) = w.
Proof.
  induction w as [|c w IH]; intros rest Hw Hr.
  - destruct rest as [|c rest]; [reflexivity|]. simpl in *. rewrite Hr. reflexivity.
  - inversion Hw as [|? ? Hc Hw']; subst. simpl. rewrite Hc, (IH rest Hw' Hr). reflexivity.
Qed.

(** A run of white space is one token. *)
Lemma scan_whitespace_run s c w rest :
  skipn (Scanner.pos s) text = (c :: w) ++ rest ->
  Forall (fun c => isWhitespace c = true) (c :: w) -> space_ends rest ->
  Scanner.scan text s
  = Scanner.mk (Scanner.pos s + List.length (c :: w)) (c :: w) (Scanner.pos s)
      SyntaxKind.Trivia ScanError.None.
Proof.
  intros H Hw Hr.
  rewrite (scan_whitespace text s c (w ++ rest) H)
    by (inversion Hw; assumption).
  change (c :: w ++ rest) with ((c :: w) ++ rest).
  rewrite (whitespaceRun_exact (c :: w) rest Hw Hr). reflexivity.
Qed.

Lemma isLineBreak_not_whitespace c : isLineBreak c = true -> isWhitespace c = false.
Proof.
  unfold isLineBreak. intros H.
  apply orb_true_iff in H. destruct H as [H|H];
    [apply orb_true_iff in H; destruct H as [H|H];
     [apply orb_true_iff in H; destruct H as [H|H]|]|];
    apply Z.eqb_eq in H; rewrite H; reflexivity.
Qed.

(** A line break is one token; a carriage return takes the line feed that
    follows it along. *)
Lemma scan_lineBreak_value s c rest :
  skipn (Scanner.pos s) text = c :: rest -> isLineBreak c = true ->
  Scanner.scan text s
  = match rest with
    | c' :: _ =>
        if (c =? CC.carriageReturn)%Z && (c' =? CC.lineFeed)%Z
        then Scanner.mk (Scanner.pos s + 2) [c; c'] (Scanner.pos s)
               SyntaxKind.LineBreakTrivia ScanError.None
        else Scanner.mk (Scanner.pos s + 1) [c] (Scanner.pos s)
               SyntaxKind.LineBreakTrivia ScanError.None
    | [] => Scanner.mk (Scanner.pos s + 1) [c] (Scanner.pos s)
              SyntaxKind.LineBreakTrivia ScanError.None
    end.
Proof.
  intros H Hl.
  pose proof (isLineBreak_not_whitespace c Hl) as Hw.
  unfold Scanner.scan, Scanner.scanNext.
  simpl Scanner.pos; simpl Scanner.tokenOffset; simpl Scanner.value.
  destruct (suffix_head text _ _ _ H) as (Hc & _ & Hlen & H1).
  rewrite Hlen, Hc. simpl on_code. rewrite Hw, Hl.
  replace (Scanner.pos s + 1) with (S (Scanner.pos s)) by lia.
  replace (Scanner.pos s + 2) with (S (S (Scanner.pos s))) by lia.
  destruct rest as [|c' rest'].
  - assert (Hn : charCodeAt text (S (Scanner.pos s)) = None).
    { unfold charCodeAt. apply nth_error_None.
      destruct (Nat.le_gt_cases (List.length text) (S (Scanner.pos s))) as [Hle|Hgt];
        [exact Hle|].
      assert (Hx : List.length (skipn (S (Scanner.pos s)) text) = 0%nat)
        by (rewrite H1; reflexivity).
      rewrite length_skipn in Hx. lia. }
    rewrite Hn. simpl. rewrite andb_false_r. reflexivity.
  - destruct (suffix_head text _ _ _ H1) as (Hc1 & _ & _ & _).
    rewrite Hc1. simpl is_code.
    destruct ((c =? CC.carriageReturn)%Z && (c' =? CC.lineFeed)%Z) eqn:E.
    + apply andb_true_iff in E. destruct E as (_ & E2). apply Z.eqb_eq in E2. subst c'.
      reflexivity.
    + reflexivity.
Qed.

End BlockComments.

(** ** Colours *)

Section ColorLemmas.
Variable cc : CharCode.t.
Hypothesis cc_ok : CharCode.wellFormed cc.

Local Open Scope Z_scope.

Ltac hex_cases :=
  unfold CharCode.wellFormed, Colors.hexUpper, anyHex, upperHex in *;
  repeat match goal with
         | |- context [(?a <=? ?b)%Z] => destruct (Z.leb_spec a b); simpl
         end; try lia.

Lemma hexUpper_upper c : upperHex cc c -> Colors.hexUpper cc c = c.
Proof. intros H. hex_cases. Qed.

Lemma hexUpper_any c :
  anyHex cc c -> upperHex cc (Colors.hexUpper cc c) /\ Colors.hexUpper cc c <> 0.
Proof. intros H. hex_cases. Qed.

Lemma hexUpper_none c : ~ anyHex cc c -> Colors.hexUpper cc c = 0.
Proof. intros H. hex_cases. Qed.

Lemma hexUpper_zero c : Colors.hexUpper cc c = 0 -> ~ anyHex cc c.
Proof. hex_cases. Qed.

Lemma anyHex_dec c : anyHex cc c \/ ~ anyHex cc c.
Proof. unfold anyHex, upperHex. lia. Qed.

Lemma hexUpper_idempotent c :
  Colors.hexUpper cc (Colors.hexUpper cc c) = Colors.hexUpper cc c.
Proof.
  destruct (anyHex_dec c) as [H|H].
  - apply hexUpper_upper, hexUpper_any, H.
  - rewrite (hexUpper_none c H). apply hexUpper_none.
    unfold CharCode.wellFormed, anyHex, upperHex in *. lia.
Qed.

Lemma upperHex_any c : upperHex cc c -> anyHex cc c.
Proof. intros H; left; exact H. Qed.

Lemma pushUpper_some double rest : forall result,
  Forall (anyHex cc) rest ->
  Colors.pushUpper cc double rest result = Some (result ++ expandHex cc double rest).
Proof.
  induction rest as [|c rest IH]; intros result H; simpl.
  - rewrite app_nil_r. reflexivity.
  - inversion H as [|? ? Hc Hrest]; subst.
    destruct (hexUpper_any c Hc) as (_ & Hnz).
    destruct (Z.eqb_spec (Colors.hexUpper cc c) 0) as [E|_]; [contradiction|].
    rewrite IH by exact Hrest. rewrite <- app_assoc. reflexivity.
Qed.

Lemma pushUpper_inv double rest : forall result r,
  Colors.pushUpper cc double rest result = Some r ->
  Forall (anyHex cc) rest /\ r = result ++ expandHex cc double rest.
Proof.
  induction rest as [|c rest IH]; intros result r H; simpl in H.
  - injection H as <-. split; [constructor | rewrite app_nil_r; reflexivity].
  - destruct (Z.eqb_spec (Colors.hexUpper cc c) 0) as [E|Hnz]; [discriminate|].
    destruct (IH _ _ H) as (Hrest & ->).
    split; [|simpl; rewrite <- app_assoc; reflexivity].
    constructor; [|exact Hrest].
    destruct (anyHex_dec c) as [Hc|Hc]; [exact Hc|].
    apply hexUpper_none in Hc. contradiction.
Qed.

Lemma expandHex_cons double c ds :
  expandHex cc double (c :: ds)
  = (if double then [Colors.hexUpper cc c; Colors.hexUpper cc c]
     else [Colors.hexUpper cc c]) ++ expandHex cc double ds.
Proof. reflexivity. Qed.

Lemma expandHex_upper double ds :
  Forall (anyHex cc) ds -> Forall (upperHex cc) (expandHex cc double ds).
Proof.
  induction 1 as [|c ds Hc _ IH]; [constructor|].
  rewrite expandHex_cons.
  destruct (hexUpper_any c Hc) as (Hu & _).
  apply Forall_app. split; [|exact IH].
  destruct double; repeat (constructor; [exact Hu|]); constructor.
Qed.

Lemma expandHex_length double ds :
  List.length (expandHex cc double ds)
  = if double then (2 * List.length ds)%nat else List.length ds.
Proof.
  induction ds as [|c ds IH]; [destruct double; reflexivity|].
  rewrite expandHex_cons, length_app, IH. destruct double; simpl; lia.
Qed.

Lemma expandHex_fixed ds :
  Forall (upperHex cc) ds -> expandHex cc false ds = ds.
Proof.
  induction 1 as [|c ds Hc _ IH]; [reflexivity|].
  rewrite expandHex_cons, (hexUpper_upper c Hc), IH. reflexivity.
Qed.

Lemma Forall_prefix (A : Type) (P : A -> Prop) n : forall l,
  Forall P l -> Forall P (firstn n l).
Proof.
  induction n as [|n IH]; intros l H; [constructor|].
  destruct H; simpl; constructor; auto.
Qed.

(** What [normalizeString] computes, in one equation. *)
Lemma normalizeString_eq ds :
  Forall (anyHex cc) ds ->
  (List.length ds = 3 \/ List.length ds = 4 \/ List.length ds = 6 \/ List.length ds = 8)%nat ->
  Colors.normalizeString cc (CharCode.Hash cc :: ds)
  = let digits :=
      expandHex cc ((List.length ds =? 3)%nat || (List.length ds =? 4)%nat) ds in
    if (List.length digits =? 8)%nat
       && is_code (nth_error digits 6) (CharCode.F cc)
       && is_code (nth_error digits 7) (CharCode.F cc)
    then Some (CharCode.Hash cc :: firstn 6 digits)
    else Some (CharCode.Hash cc :: digits).
Proof.
  intros Hds Hlen. unfold Colors.normalizeString.
  change (charCodeAt (CharCode.Hash cc :: ds) 0) with (Some (CharCode.Hash cc)).
  unfold is_code at 1. rewrite Z.eqb_refl. simpl negb. simpl orb.
  change (skipn 1 (CharCode.Hash cc :: ds)) with ds.
  simpl List.length.
  rewrite pushUpper_some by exact Hds.
  cbv zeta. simpl app. simpl List.length.
  replace (negb (List.length ds =? 3)%nat && negb (List.length ds =? 4)%nat
           && negb (List.length ds =? 6)%nat && negb (List.length ds =? 8)%nat)%bool
    with false
    by (destruct Hlen as [H|[H|[H|H]]]; rewrite H; reflexivity).
  reflexivity.
Qed.

(** Whatever [normalizeColor] returns is a colour in normal form. *)
Lemma normalizeString_normal s n :
  Colors.normalizeString cc s = Some n -> normalForm cc n.
Proof.
  unfold Colors.normalizeString. intros H.
  destruct (negb (is_code (charCodeAt s 0) (CharCode.Hash cc))) eqn:E0; [discriminate|].
  apply negb_false_iff in E0.
  destruct s as [|h ds]; [discriminate|].
  unfold charCodeAt in E0. simpl in E0. apply Z.eqb_eq in E0. subst h.
  simpl orb in H.
  destruct (negb _ && _ && _ && _)%bool eqn:Elen; [discriminate|].
  assert (Hlen : (List.length ds = 3 \/ List.length ds = 4 \/ List.length ds = 6
                  \/ List.length ds = 8)%nat).
  { simpl List.length in Elen.
    repeat (apply andb_false_iff in Elen; destruct Elen as [Elen|Elen]);
      apply negb_false_iff, Nat.eqb_eq in Elen; lia. }
  clear Elen.
  change (skipn 1 (CharCode.Hash cc :: ds)) with ds in H.
  destruct (Colors.pushUpper cc _ ds [CharCode.Hash cc]) as [r|] eqn:Ep; [|discriminate].
  destruct (pushUpper_inv _ _ _ _ Ep) as (Hds & ->).
  simpl List.length in H. simpl app in H.
  set (double := ((List.length ds =? 3)%nat || (List.length ds =? 4)%nat)%bool) in *.
  clear Ep.
  pose proof (expandHex_upper double ds Hds) as Hup.
  pose proof (expandHex_length double ds) as Hl.
  assert (Hl' : (List.length (expandHex cc double ds) = 6
                 \/ List.length (expandHex cc double ds) = 8)%nat).
  { rewrite Hl. unfold double.
    destruct Hlen as [E|[E|[E|E]]]; rewrite E; simpl; lia. }
  clear Hl. revert H Hup Hl'. generalize (expandHex cc double ds). intros digits H Hup Hl'.
  change (nth_error (CharCode.Hash cc :: digits) 7) with (nth_error digits 6) in H.
  change (nth_error (CharCode.Hash cc :: digits) 8) with (nth_error digits 7) in H.
  destruct ((S (List.length digits) =? 9)%nat
            && is_code (nth_error digits 6) (CharCode.F cc)
            && is_code (nth_error digits 7) (CharCode.F cc))%bool eqn:Ecut;
    injection H as <-.
  - apply andb_true_iff in Ecut. destruct Ecut as (Ecut & _).
    apply andb_true_iff in Ecut. destruct Ecut as (Ecut & _).
    apply Nat.eqb_eq in Ecut.
    exists (firstn 6 digits). split; [reflexivity|]. split.
    + apply Forall_prefix. exact Hup.
    + left. rewrite length_firstn. lia.
  - exists digits. split; [reflexivity|]. split; [exact Hup|].
    destruct Hl' as [E|E]; [left; exact E|]. right. split; [exact E|].
    intros (H6 & H7). rewrite E, H6, H7 in Ecut. simpl in Ecut.
    rewrite Z.eqb_refl in Ecut. discriminate.
Qed.

(** A colour in normal form is left as it is. *)
Lemma normalizeString_fixed n :
  normalForm cc n -> Colors.normalizeString cc n = Some n.
Proof.
  intros (ds & -> & Hup & Hlen).
  rewrite normalizeString_eq.
  - cbv zeta.
    replace ((List.length ds =? 3)%nat || (List.length ds =? 4)%nat)%bool with false
      by (destruct Hlen as [E|(E & _)]; rewrite E; reflexivity).
    rewrite (expandHex_fixed ds Hup).
    destruct Hlen as [E|(E & Hff)].
    + rewrite E. reflexivity.
    + rewrite E, Nat.eqb_refl, andb_true_l.
      destruct (is_code (nth_error ds 6) (CharCode.F cc)) eqn:E6; [|reflexivity].
      destruct (is_code (nth_error ds 7) (CharCode.F cc)) eqn:E7; [|reflexivity].
      exfalso. apply Hff.
      unfold is_code in E6, E7.
      destruct (nth_error ds 6) as [x|]; [|discriminate].
      destruct (nth_error ds 7) as [y|]; [|discriminate].
      apply Z.eqb_eq in E6, E7. subst. split; reflexivity.
  - eapply Forall_impl; [|exact Hup]. intros c Hc. apply upperHex_any, Hc.
  - destruct Hlen as [E|(E & _)]; lia.
Qed.

Lemma expandHex_double ds :
  expandHex cc true ds = expandHex cc false (flat_map (fun c => [c; c]) ds).
Proof.
  induction ds as [|c ds IH]; [reflexivity|].
  change (flat_map (fun c => [c; c]) (c :: ds))
    with (c :: c :: flat_map (fun c => [c; c]) ds).
  rewrite !expandHex_cons, IH. reflexivity.
Qed.

Lemma flat_map_pair_length (ds : jsstring) :
  List.length (flat_map (fun c => [c; c]) ds) = (2 * List.length ds)%nat.
Proof. induction ds as [|c ds IH]; simpl; [reflexivity | rewrite IH; lia]. Qed.

(** The short forms stand for the long ones with every digit doubled. *)
Lemma normalizeString_short ds :
  Forall (anyHex cc) ds -> (List.length ds = 3 \/ List.length ds = 4)%nat ->
  Colors.normalizeString cc (CharCode.Hash cc :: ds)
  = Colors.normalizeString cc (CharCode.Hash cc :: flat_map (fun c => [c; c]) ds).
Proof.
  intros Hds Hlen.
  rewrite (normalizeString_eq ds Hds) by lia.
  rewrite (normalizeString_eq (flat_map (fun c => [c; c]) ds)).
  - rewrite flat_map_pair_length. cbv zeta.
    replace ((List.length ds =? 3)%nat || (List.length ds =? 4)%nat)%bool with true
      by (destruct Hlen as [E|E]; rewrite E; reflexivity).
    replace ((2 * List.length ds =? 3)%nat || (2 * List.length ds =? 4)%nat)%bool with false
      by (destruct Hlen as [E|E]; rewrite E; reflexivity).
    rewrite expandHex_double. reflexivity.
  - apply Forall_flat_map. eapply Forall_impl; [|exact Hds].
    intros c Hc. constructor; [exact Hc|]. constructor; [exact Hc|]. constructor.
  - rewrite flat_map_pair_length. lia.
Qed.

Lemma expandHex_map double ds :
  expandHex cc double (map (Colors.hexUpper cc) ds) = expandHex cc double ds.
Proof.
  induction ds as [|c ds IH]; [reflexivity|].
  change (map (Colors.hexUpper cc) (c :: ds))
    with (Colors.hexUpper cc c :: map (Colors.hexUpper cc) ds).
  rewrite !expandHex_cons, hexUpper_idempotent, IH. reflexivity.
Qed.

(** The case of the hex digits does not matter. *)
Lemma normalizeString_case ds :
  Forall (anyHex cc) ds ->
  (List.length ds = 3 \/ List.length ds = 4 \/ List.length ds = 6 \/ List.length ds = 8)%nat ->
  Colors.normalizeString cc (CharCode.Hash cc :: map (Colors.hexUpper cc) ds)
  = Colors.normalizeString cc (CharCode.Hash cc :: ds).
Proof.
  intros Hds Hlen.
  rewrite (normalizeString_eq ds Hds Hlen).
  rewrite (normalizeString_eq (map (Colors.hexUpper cc) ds)).
  - rewrite length_map, expandHex_map. reflexivity.
  - apply Forall_map. eapply Forall_impl; [|exact Hds].
    intros c Hc. apply upperHex_any, hexUpper_any, Hc.
  - rewrite length_map. exact Hlen.
Qed.

End ColorLemmas.

(** ** The index of token colours *)

Section ColorIndex.
Variable cc : CharCode.t.
Hypothesis cc_ok : CharCode.wellFormed cc.
Variable Color : Type.
Variable formatHexA : Color -> jsstring.

Abbreviation normalize := (Colors.normalizeColor cc formatHexA).
Abbreviation addColor := (Colors.add cc formatHexA).
Abbreviation getColor := (Colors.get cc formatHexA).

Lemma normalizeColor_normal c n : normalize c = Some n -> normalForm cc n.
Proof.
  destruct c as [| |s|col]; simpl; try discriminate.
  - destruct s; [discriminate|]. apply normalizeString_normal, cc_ok.
  - apply normalizeString_normal, cc_ok.
Qed.

(** A colour in normal form, passed as a string, is its own normal form. *)
Lemma normalizeColor_fixed n :
  normalForm cc n -> normalize (Colors.ArgString Color n) = Some n.
Proof.
  intros H. pose proof (normalizeString_fixed cc cc_ok n H) as E.
  destruct H as (ds & -> & _). exact E.
Qed.

Lemma indexed_new : indexed cc Colors.TokenColorIndex.new.
Proof.
  unfold indexed. simpl.
  split; [reflexivity|].
  split; [intros i c H; destruct i; discriminate|].
  split; [intros c i H; discriminate|].
  intros i Hi. lia.
Qed.

(** Writing one place past the identifiers in use appends to the array,
    after the hole at 0 when the array was empty. *)
Lemma arraySet_next index n :
  indexed cc index ->
  exists arr0,
    Colors.arraySet (S (Colors.TokenColorIndex._lastColorId index)) n
      (Colors.TokenColorIndex._id2color index) = arr0 ++ [Some n]
    /\ List.length arr0 = S (Colors.TokenColorIndex._lastColorId index)
    /\ (forall i c, nth_error arr0 i = Some (Some c) ->
          nth_error (Colors.TokenColorIndex._id2color index) i = Some (Some c))
    /\ (forall i x, nth_error (Colors.TokenColorIndex._id2color index) i = Some x ->
          nth_error arr0 i = Some x).
Proof.
  intros (Hlen & _). unfold Colors.arraySet.
  destruct (Colors.TokenColorIndex._lastColorId index) as [|last] eqn:El; simpl in Hlen.
  - destruct (Colors.TokenColorIndex._id2color index); [|discriminate]. simpl.
    exists [None].
    split; [reflexivity|]. split; [reflexivity|].
    split; [intros [|[|i]] c H; discriminate | intros [|i] x H; discriminate].
  - rewrite Hlen.
    replace (S (S last) <? S (S last))%nat with false by (symmetry; apply Nat.ltb_irrefl).
    rewrite Nat.sub_diag. simpl.
    exists (Colors.TokenColorIndex._id2color index).
    split; [reflexivity|]. split; [exact Hlen|]. split; auto.
Qed.

Lemma add_known c n index i :
  indexed cc index -> normalize c = Some n ->
  lookup n (Colors.TokenColorIndex._color2id index) = Some i ->
  addColor c index = (index, i) /\ (1 <= i)%nat.
Proof.
  intros (_ & H2 & H3 & _) Hn Hl. unfold Colors.add. rewrite Hn, Hl.
  destruct (H2 i n (H3 n i Hl)) as (Hi & _).
  destruct i; [lia|]. split; [reflexivity | lia].
Qed.

Lemma add_new c n index :
  indexed cc index -> normalize c = Some n ->
  lookup n (Colors.TokenColorIndex._color2id index) = None ->
  addColor c index
  = (Colors.TokenColorIndex.mk (S (Colors.TokenColorIndex._lastColorId index))
       (Colors.arraySet (S (Colors.TokenColorIndex._lastColorId index)) n
          (Colors.TokenColorIndex._id2color index))
       (assign n (S (Colors.TokenColorIndex._lastColorId index))
          (Colors.TokenColorIndex._color2id index)),
     S (Colors.TokenColorIndex._lastColorId index)).
Proof. intros _ Hn Hl. unfold Colors.add. rewrite Hn, Hl. reflexivity. Qed.

(** [add] keeps the invariant of the index. *)
Lemma add_indexed c index : indexed cc index -> indexed cc (fst (addColor c index)).
Proof.
  intros Hi.
  destruct (normalize c) as [n|] eqn:Hn;
    [|unfold Colors.add; rewrite Hn; exact Hi].
  destruct (lookup n (Colors.TokenColorIndex._color2id index)) as [i|] eqn:Hl.
  { destruct (add_known c n index i Hi Hn Hl) as (-> & _). exact Hi. }
  rewrite (add_new c n index Hi Hn Hl). simpl fst.
  destruct (arraySet_next index n Hi) as (arr0 & Ea & Hlen0 & Hold & Hkeep).
  destruct Hi as (Hlen & H2 & H3 & H4).
  unfold indexed. simpl. rewrite Ea.
  split; [|split; [|split]].
  - rewrite length_app, Hlen0. simpl. lia.
  - intros i c0 H.
    destruct (Nat.lt_ge_cases i (List.length arr0)) as [Hlt|Hge].
    + rewrite nth_error_app1 in H by exact Hlt.
      destruct (H2 i c0 (Hold i c0 H)) as (Hr & Hm & Hnf).
      split; [lia|]. split; [|exact Hnf].
      rewrite lookup_assign.
      destruct (jsstring_eqb c0 n) eqn:Eq; [|exact Hm].
      apply jsstring_eqb_eq in Eq. subst c0. congruence.
    + rewrite nth_error_app2 in H by exact Hge.
      destruct (i - List.length arr0) as [|[|k]] eqn:Ek; simpl in H; try discriminate.
      injection H as <-.
      split; [lia|]. split; [|apply (normalizeColor_normal c n Hn)].
      rewrite lookup_assign, jsstring_eqb_refl. f_equal. lia.
  - intros c0 i Hc0. rewrite lookup_assign in Hc0.
    destruct (jsstring_eqb c0 n) eqn:Eq.
    + apply jsstring_eqb_eq in Eq. subst c0. injection Hc0 as <-.
      rewrite nth_error_app2 by lia. rewrite Hlen0, Nat.sub_diag. reflexivity.
    + pose proof (H3 c0 i Hc0) as Hn0.
      rewrite nth_error_app1 by (pose proof (Hkeep i _ Hn0) as Hk;
                                 apply nth_error_lt in Hk; exact Hk).
      apply Hkeep, Hn0.
  - intros i Hr.
    destruct (Nat.eq_dec i (S (Colors.TokenColorIndex._lastColorId index))) as [->|Hne].
    + exists n. rewrite nth_error_app2 by lia. rewrite Hlen0, Nat.sub_diag. reflexivity.
    + destruct (H4 i) as (c0 & Hc0); [lia|]. exists c0.
      rewrite nth_error_app1 by (pose proof (Hkeep i _ Hc0) as Hk;
                                 apply nth_error_lt in Hk; exact Hk).
      apply Hkeep, Hc0.
Qed.

Lemma addAll_indexed colors : forall index,
  indexed cc index -> indexed cc (Colors.addAll cc formatHexA colors index).
Proof.
  induction colors as [|c colors IH]; intros index Hi; [exact Hi|].
  apply (IH (fst (addColor c index))), add_indexed, Hi.
Qed.

(** What [add] returns for a colour that has a normal form. *)
Lemma add_returns c n index :
  indexed cc index -> normalize c = Some n ->
  (1 <= snd (addColor c index))%nat
  /\ nth_error (Colors.asArray (fst (addColor c index))) (snd (addColor c index))
     = Some (Some n)
  /\ getColor c (fst (addColor c index)) = snd (addColor c index)
  /\ addColor c (fst (addColor c index)) = addColor c index.
Proof.
  intros Hi Hn.
  pose proof (add_indexed c index Hi) as Hi'.
  destruct (lookup n (Colors.TokenColorIndex._color2id index)) as [i|] eqn:Hl.
  - destruct (add_known c n index i Hi Hn Hl) as (E & Hpos).
    rewrite E. simpl. split; [exact Hpos|]. split; [|split].
    + destruct Hi as (_ & _ & H3 & _). apply (H3 n i Hl).
    + unfold Colors.get. rewrite Hn, Hl. reflexivity.
    + exact E.
  - rewrite (add_new c n index Hi Hn Hl) in *. simpl fst in *. simpl snd.
    assert (Hl' : lookup n (assign n (S (Colors.TokenColorIndex._lastColorId index))
                              (Colors.TokenColorIndex._color2id index))
                  = Some (S (Colors.TokenColorIndex._lastColorId index)))
      by (rewrite lookup_assign, jsstring_eqb_refl; reflexivity).
    split; [lia|]. split; [|split].
    + destruct Hi' as (_ & _ & H3 & _). apply (H3 n _ Hl').
    + unfold Colors.get. rewrite Hn. simpl. rewrite Hl'. reflexivity.
    + destruct (add_known c n _ _ Hi' Hn Hl') as (E & _). exact E.
Qed.

(** Two colours share an identifier exactly when they have the same
    normal form. *)
Lemma add_same_id c1 c2 n1 n2 index :
  indexed cc index -> normalize c1 = Some n1 -> normalize c2 = Some n2 ->
  snd (addColor c2 (fst (addColor c1 index))) = snd (addColor c1 index) <-> n1 = n2.
Proof.
  intros Hi H1 H2.
  pose proof (add_indexed c1 index Hi) as Hi1.
  destruct (add_returns c1 n1 index Hi H1) as (Hpos1 & Harr1 & _ & _).
  destruct (add_returns c2 n2 _ Hi1 H2) as (_ & Harr2 & _ & _).
  split.
  - intros E. rewrite E in Harr2.
    destruct (lookup n2 (Colors.TokenColorIndex._color2id (fst (addColor c1 index))))
      as [i|] eqn:Hl.
    + destruct (add_known c2 n2 _ i Hi1 H2 Hl) as (E2 & _).
      rewrite E2 in Harr2. simpl in Harr2. unfold Colors.asArray in *. congruence.
    + exfalso. rewrite (add_new c2 n2 _ Hi1 H2 Hl) in E. simpl in E.
      destruct Hi1 as (_ & Hb & _).
      destruct (Hb _ _ Harr1) as (Hr & _). lia.
  - intros <-.
    assert (Hl : lookup n1 (Colors.TokenColorIndex._color2id (fst (addColor c1 index)))
                 = Some (snd (addColor c1 index))).
    { destruct Hi1 as (_ & Hb & _). apply (Hb _ _ Harr1). }
    destruct (add_known c2 n1 _ _ Hi1 H2 Hl) as (E & _). rewrite E. reflexivity.
Qed.

End ColorIndex.

(** ** The content of a theme file *)

Lemma trees_kind h : forall base a,
  match nth_error h a with
  | Some (CObject _) => exists props, nth a (trees h base) TUndefined = TObject props
  | Some (CArray _) => exists items, nth a (trees h base) TUndefined = TArray items
  | None => nth a (trees h base) TUndefined = TUndefined
  end.
Proof.
  induction h as [|c h IH]; intros base a.
  - destruct a; reflexivity.
  - destruct a as [|a].
    + simpl. destruct c; eexists; reflexivity.
    + simpl. apply IH.
Qed.

(** The node type of a value, from the tree it reads back as. *)
Lemma getNodeType_reify h v :
  getNodeType h v
  = match reify h v with
    | TObject _ => NT_object
    | TArray _ => NT_array
    | TString _ => NT_string
    | TNumber _ => NT_number
    | TBool _ => NT_boolean
    | TNull => NT_null
    | TUndefined =>
        match v with JRef _ => NT_object | _ => NT_null end
    end.
Proof.
  destruct v; try reflexivity.
  unfold reify, getNodeType, typeof, isNull, isArray, treeOf.
  simpl Nat.leb. cbv iota. rewrite Nat.sub_0_r.
  pose proof (trees_kind h 0 a) as H.
  destruct (nth_error h a) as [[props|items]|].
  - destruct H as (p & ->). reflexivity.
  - destruct H as (p & ->). reflexivity.
  - rewrite H. reflexivity.
Qed.

(** The content of a theme file is always judged, and it is turned down
    for problems exactly when [parse] reports an error. *)
Lemma loadColorTheme_content_returns content :
  exists b st r,
    Visit.visit recorder content ParseOptions.DEFAULT [] = Some (b, st)
    /\ loadColorTheme_content content = Some r
    /\ (r = ProblemsParsing <-> errorsOf (Visit.vis st) <> []).
Proof.
  destruct (parse_returns content [] ParseOptions.DEFAULT) as (b & st & r & E & Ep & Hr & _).
  exists b, st. unfold loadColorTheme_content. rewrite Ep.
  simpl in Hr. rewrite Hr.
  destruct (errorsOf (Visit.vis st)) as [|e es]; simpl.
  - destruct (getNodeType (memory r) (returned r)); eexists;
      (split; [exact E|]); (split; [reflexivity|]);
      (split; [discriminate | intros H; contradiction]).
  - eexists. split; [exact E|]. split; [reflexivity|].
    split; [discriminate | reflexivity].
Qed.

(** No JSON text denotes [undefined]. *)
Lemma JsonText_defined text v : JsonText text v -> v <> TUndefined.
Proof.
  intros H. destruct H as [w1 t v w2 _ Hv _]. destruct Hv; discriminate.
Qed.

(** A valid JSON text is accepted as a theme exactly when its value is an
    object. *)
Lemma loadColorTheme_content_valid content v :
  JsonText content v ->
  match v with
  | TObject props =>
      exists value memory,
        loadColorTheme_content content = Some (ThemeObject value memory)
        /\ reify memory value = TObject props
  | _ => loadColorTheme_content content = Some ObjectExpected
  end.
Proof.
  intros HJ.
  destruct (parse_valid content ParseOptions.DEFAULT v HJ) as (r & Ep & Hv & Hr).
  unfold loadColorTheme_content. rewrite Ep, Hr. simpl.
  rewrite getNodeType_reify, Hv.
  pose proof (JsonText_defined content v HJ) as Hd.
  destruct v; try reflexivity; [contradiction|].
  exists (returned r), (memory r). split; [reflexivity | exact Hv].
Qed.

(** ** Parsing particular texts

    In the comments below, as in the text literals, an apostrophe stands
    for the double quote. *)

(** C2, as amended.  Parsing [{'a':1,}] with [allowTrailingComma = true]
    reports no error and yields the object [{a: 1}].  With
    [allowTrailingComma = false] it still yields [{a: 1}] and reports exactly
    two errors, both located at the closing brace: property-name-expected
    followed by value-expected. *)
Theorem C2_trailing_comma :
  forall disallowComments allowEmptyContent : bool,
    parseTree (js "{'a':1,}") (ParseOptions.mk disallowComments true allowEmptyContent)
    = Some (prop_a (TNumber (NumLit (js "1"))), [])
    /\ parseTree (js "{'a':1,}") (ParseOptions.mk disallowComments false allowEmptyContent)
       = Some (prop_a (TNumber (NumLit (js "1"))),
               [perr ParseErrorCode.PropertyNameExpected 7 1;
                perr ParseErrorCode.ValueExpected 7 1]).
Proof. intros [|] [|]; split; vm_compute; reflexivity. Qed.

(** C2 as stated fails: with [allowTrailingComma = false] the errors
    reported for [{'a':1,}] are not a single comma-expected error. *)
Lemma C2_counterexample :
  ~ (exists e : ParseError.t,
        parseTree (js "{'a':1,}") (ParseOptions.mk false false false)
        = Some (prop_a (TNumber (NumLit (js "1"))), [e])
        /\ ParseError.error e = ParseErrorCode.CommaExpected).
Proof. intros [e [H _]]; vm_compute in H; discriminate H. Qed.

(** C3.  Parsing [{'a' 1}] reports exactly one error, colon-expected
    (located at the token [1]), and yields the empty object.  The calls
    received by a visitor show the recovery: after the error no literal value
    is reported, and the next call is the end of the object at the closing
    brace (offset 6), which is where the skipping stopped. *)
Theorem C3_missing_colon :
  parseTree (js "{'a' 1}") ParseOptions.DEFAULT
  = Some (TObject [], [perr ParseErrorCode.ColonExpected 5 1])
  /\ events (js "{'a' 1}") ParseOptions.DEFAULT
     = Some [ObjectBegin 0 1; ObjectProperty (js "a") 1 3;
             Error ParseErrorCode.ColonExpected 5 1; ObjectEnd 6 1].
Proof. split; vm_compute; reflexivity. Qed.

(** C4, as amended.  Parsing the truncated text [{'a': 'b] yields the object
    [{a: 'b'}] and reports exactly two errors: unexpected-end-of-string for
    the string token, then close-brace-expected at the end of the text. *)
Theorem C4_truncated_string :
  parseTree (js "{'a': 'b") ParseOptions.DEFAULT
  = Some (prop_a (TString (js "b")),
          [perr ParseErrorCode.UnexpectedEndOfString 6 2;
           perr ParseErrorCode.CloseBraceExpected 8 0]).
Proof. vm_compute; reflexivity. Qed.

(** C4 as stated fails: the errors reported for [{'a': 'b] are not exactly
    one error. *)
Lemma C4_counterexample :
  ~ (exists (v : tree) (e : ParseError.t),
        parseTree (js "{'a': 'b") ParseOptions.DEFAULT = Some (v, [e])).
Proof. intros [v [e H]]; vm_compute in H; discriminate H. Qed.

(** C5.  Parsing the empty text with [allowEmptyContent = false] yields
    [undefined] and exactly one error, value-expected at offset 0; with
    [allowEmptyContent = true] it yields [undefined] and no error, and
    [visit] returns [true]. *)
Theorem C5_empty_text :
  forall disallowComments allowTrailingComma : bool,
    (parse [] [] (ParseOptions.mk disallowComments allowTrailingComma false)
     = Some (mkResult JUndefined [CArray []] [perr ParseErrorCode.ValueExpected 0 0])
     /\ option_map fst
          (Visit.visit Materializer.visitor []
             (ParseOptions.mk disallowComments allowTrailingComma false)
             (Materializer.initial []))
        = Some false)
    /\ (parse [] [] (ParseOptions.mk disallowComments allowTrailingComma true)
        = Some (mkResult JUndefined [CArray []] [])
        /\ option_map fst
             (Visit.visit Materializer.visitor []
                (ParseOptions.mk disallowComments allowTrailingComma true)
                (Materializer.initial []))
           = Some true).
Proof. intros [|] [|]; repeat split; vm_compute; reflexivity. Qed.

(** ** Missing closing tokens and balanced calls *)



(** ** Numbers *)

Section NumberTokens.
Variable text : jsstring.

(** A 0 that starts a number is its whole integer part, even when a digit
    follows. *)
Lemma scan_zero_then_digit s d rest :
  skipn (Scanner.pos s) text = CC._0 :: d :: rest -> isDigit d = true ->
  Scanner.scan text s
  = Scanner.mk (S (Scanner.pos s)) [CC._0] (Scanner.pos s) SyntaxKind.NumericLiteral
      ScanError.None.
Proof.
  intros H Hd.
  rewrite (scan_digit text s CC._0 (d :: rest) H eq_refl).
  unfold Scanner.scanNumber; simpl Scanner.pos.
  destruct (suffix_head text _ _ _ H) as (-> & _ & _ & H1).
  destruct (suffix_head text _ _ _ H1) as (Hc1 & Hlt & _ & _).
  change (is_code (Some CC._0) CC._0) with true; cbv iota.
  rewrite Hlt, Hc1.
  replace (is_code (Some d) CC.dot) with false by (symmetry; zbool).
  simpl andb; cbv iota.
  unfold Scanner.scanExponent. rewrite Hlt, Hc1.
  replace (is_code (Some d) CC.E || is_code (Some d) CC.e) with false by (symmetry; zbool).
  simpl andb; cbv iota.
  change (CC._0 :: d :: rest) with ([CC._0] ++ d :: rest) in H.
  pose proof (substring_suffix text _ _ _ H) as Hsub; simpl in Hsub.
  replace (Scanner.pos s + 1) with (S (Scanner.pos s)) in Hsub by lia.
  rewrite Hsub. reflexivity.
Qed.

(** The scanner on a number, with its optional minus sign. *)
Lemma scan_signed s sg d l :
  skipn (Scanner.pos s) text = sg ++ d :: l -> MinusSign sg -> isDigit d = true ->
  Scanner.scan text s
  = (let '(s', v) :=
       Scanner.scanNumber text
         (Scanner.mk (Scanner.pos s + List.length sg) sg (Scanner.pos s) (Scanner.token s)
            ScanError.None) in
     Scanner.set_token (Scanner.set_value s' (sg ++ v)) SyntaxKind.NumericLiteral).
Proof.
  intros H Hsg Hd; destruct Hsg; simpl in *.
  - rewrite Nat.add_0_r; apply (scan_digit text s d l H Hd).
  - replace (Scanner.pos s + 1) with (S (Scanner.pos s)) by lia.
    apply (scan_minus_digit text s d l H Hd).
Qed.

Lemma intPart_head int : IntPart int -> exists d l, int = d :: l /\ isDigit d = true.
Proof. intros [|d ds Hd _ _]; eauto. Qed.

Lemma scan_malformed_fraction s sg int rest :
  skipn (Scanner.pos s) text = sg ++ int ++ CC.dot :: rest ->
  MinusSign sg -> IntPart int -> no_digit_next rest ->
  Scanner.scan text s
  = Scanner.mk (Scanner.pos s + List.length sg + List.length int + 1)
      (sg ++ int ++ [CC.dot]) (Scanner.pos s) SyntaxKind.NumericLiteral
      ScanError.UnexpectedEndOfNumber.
Proof.
  intros H Hsg Hint Hr.
  destruct (intPart_head int Hint) as (d & l & -> & Hd).
  rewrite (scan_signed s sg d (l ++ CC.dot :: rest) H Hsg Hd).
  apply suffix_app in H.
  rewrite (scanNumber_malformed_fraction text
             (Scanner.mk (Scanner.pos s + List.length sg) sg (Scanner.pos s) (Scanner.token s)
                ScanError.None)
             (d :: l) rest H Hint Hr).
  reflexivity.
Qed.

Lemma scan_malformed_exponent s sg int frac m es rest :
  skipn (Scanner.pos s) text = sg ++ int ++ frac ++ m :: es ++ rest ->
  MinusSign sg -> IntPart int -> FracPart frac -> exponent_marker m -> ExpSign es ->
  no_digit_next rest -> (es = [] -> no_sign_next rest) ->
  Scanner.scan text s
  = Scanner.mk
      (Scanner.pos s + List.length sg + List.length int + List.length frac + 1
       + List.length es)
      (sg ++ int ++ frac) (Scanner.pos s) SyntaxKind.NumericLiteral
      ScanError.UnexpectedEndOfNumber.
Proof.
  intros H Hsg Hint Hfrac Hm Hes Hr Hs.
  destruct (intPart_head int Hint) as (d & l & -> & Hd).
  rewrite (scan_signed s sg d (l ++ frac ++ m :: es ++ rest) H Hsg Hd).
  apply suffix_app in H.
  rewrite (scanNumber_malformed_exponent text
             (Scanner.mk (Scanner.pos s + List.length sg) sg (Scanner.pos s) (Scanner.token s)
                ScanError.None)
             (d :: l) frac m es rest H Hint Hfrac Hm Hes Hr Hs).
  reflexivity.
Qed.

End NumberTokens.

(** C7.  Parsing the text [0] yields the number 0 and no error.  In any
    text, a 0 that starts a number and is followed by a digit is scanned as
    a complete numeric token of length one, whose value is [0].  Parsing
    [01] therefore yields the number 0 with exactly one error,
    end-of-file-expected, located at the trailing [1]. *)
Theorem C7_leading_zero :
  parseTree (js "0") ParseOptions.DEFAULT = Some (TNumber zero, [])
  /\ (forall (text : jsstring) (s : Scanner.t) (d : Z) (rest : jsstring),
         skipn (Scanner.pos s) text = CC._0 :: d :: rest -> isDigit d = true ->
         Scanner.scan text s
         = Scanner.mk (S (Scanner.pos s)) (js "0") (Scanner.pos s)
             SyntaxKind.NumericLiteral ScanError.None)
  /\ parseTree (js "01") ParseOptions.DEFAULT
     = Some (TNumber zero, [perr ParseErrorCode.EndOfFileExpected 1 1]).
Proof.
  split; [vm_compute; reflexivity|]. split; [|vm_compute; reflexivity].
  intros text s d rest H Hd. apply (scan_zero_then_digit text s d rest H Hd).
Qed.

Lemma C7_witness :
  Scanner.scan (js "01") Scanner.initial
  = Scanner.mk 1 (js "0") 0 SyntaxKind.NumericLiteral ScanError.None.
Proof.
  destruct C7_leading_zero as (_ & H & _).
  apply (H (js "01") Scanner.initial 49%Z []); reflexivity.
Defined.

(** C8.  A number whose fraction or exponent is malformed is one numeric
    token flagged unexpected-end-of-number, and the token still has a value:
    - when no digit follows the decimal point, the value is the text
      scanned so far, the point included;
    - when no digit follows the exponent marker and its optional sign, the
      value is the text in front of the exponent marker, while the token
      extends over the marker and the sign.
    For the text [1.2e] the error is unexpected-end-of-number and the value
    is [1.2]. *)
Theorem C8_malformed_number :
  (forall (text : jsstring) (s : Scanner.t) (sg int rest : jsstring),
      skipn (Scanner.pos s) text = sg ++ int ++ CC.dot :: rest ->
      MinusSign sg -> IntPart int -> no_digit_next rest ->
      Scanner.scan text s
      = Scanner.mk (Scanner.pos s + List.length sg + List.length int + 1)
          (sg ++ int ++ [CC.dot]) (Scanner.pos s) SyntaxKind.NumericLiteral
          ScanError.UnexpectedEndOfNumber)
  /\ (forall (text : jsstring) (s : Scanner.t) (sg int frac : jsstring) (m : Z)
             (es rest : jsstring),
         skipn (Scanner.pos s) text = sg ++ int ++ frac ++ m :: es ++ rest ->
         MinusSign sg -> IntPart int -> FracPart frac -> exponent_marker m -> ExpSign es ->
         no_digit_next rest -> (es = [] -> no_sign_next rest) ->
         Scanner.scan text s
         = Scanner.mk
             (Scanner.pos s + List.length sg + List.length int + List.length frac + 1
              + List.length es)
             (sg ++ int ++ frac) (Scanner.pos s) SyntaxKind.NumericLiteral
             ScanError.UnexpectedEndOfNumber)
  /\ Scanner.scan (js "1.2e") Scanner.initial
     = Scanner.mk 4 (js "1.2") 0 SyntaxKind.NumericLiteral ScanError.UnexpectedEndOfNumber.
Proof.
  split; [|split; [|vm_compute; reflexivity]].
  - intros text s sg int rest; apply scan_malformed_fraction.
  - intros text s sg int frac m es rest; apply scan_malformed_exponent.
Qed.

Lemma digits_2 : digits (js "2").
Proof. repeat constructor. Qed.

Lemma C8_witness :
  Scanner.scan (js "-12.x") Scanner.initial
  = Scanner.mk 4 (js "-12.") 0 SyntaxKind.NumericLiteral ScanError.UnexpectedEndOfNumber
  /\ Scanner.scan (js "1.2e+") Scanner.initial
     = Scanner.mk 5 (js "1.2") 0 SyntaxKind.NumericLiteral ScanError.UnexpectedEndOfNumber.
Proof.
  destruct C8_malformed_number as (Hfrac & Hexp & _). split.
  - apply (Hfrac (js "-12.x") Scanner.initial (js "-") (js "12") (js "x")).
    + reflexivity.
    + constructor.
    + apply IntDigits; [reflexivity | discriminate | exact digits_2].
    + reflexivity.
  - apply (Hexp (js "1.2e+") Scanner.initial [] (js "1") (js ".2") 101%Z (js "+") []).
    + reflexivity.
    + constructor.
    + apply IntDigits; [reflexivity | discriminate | constructor].
    + apply FracSome; [reflexivity | constructor].
    + left; reflexivity.
    + constructor.
    + exact I.
    + discriminate.
Defined.

(** ** [getNodeType] *)

(** C10.  [getNodeType] answers ['null'] for [undefined] as it does for
    [null]; ['object'] for every value of type object that is neither [null]
    nor an array; and ['boolean'], ['number'], ['string'] for booleans,
    numbers and strings.  In particular the absent result of parsing the
    empty text and the result of parsing the text [null] are different
    values with the same node type. *)
Theorem C10_getNodeType (h : heap) :
  getNodeType h JUndefined = NT_null
  /\ getNodeType h JNull = NT_null
  /\ (forall v : jsval,
         typeof v = Ty_object -> isNull v = false -> isArray h v = false ->
         getNodeType h v = NT_object)
  /\ (forall b, getNodeType h (JBool b) = NT_boolean)
  /\ (forall n, getNodeType h (JNumber n) = NT_number)
  /\ (forall s, getNodeType h (JString s) = NT_string)
  /\ (exists r1 r2,
         parse (js "") [] ParseOptions.DEFAULT = Some r1
         /\ parse (js "null") [] ParseOptions.DEFAULT = Some r2
         /\ returned r1 = JUndefined /\ returned r2 = JNull
         /\ getNodeType (memory r1) (returned r1) = getNodeType (memory r2) (returned r2)).
Proof.
  repeat split; try reflexivity.
  - intros v Ht Hn Ha; unfold getNodeType; rewrite Ht, Hn, Ha; reflexivity.
  - eexists; eexists. repeat split; vm_compute; reflexivity.
Qed.

Lemma C10_witness :
  getNodeType [CArray [JRef 1]; CObject []] (JRef 1) = NT_object.
Proof.
  destruct (C10_getNodeType [CArray [JRef 1]; CObject []]) as (_ & _ & H & _).
  apply (H (JRef 1)); reflexivity.
Defined.

(** * Valid JSON texts and duplicate property names *)

Lemma Ws_nil : Ws [].
Proof. constructor. Qed.

Lemma Ws_space : Ws [CC.space].
Proof. constructor; [left; reflexivity | constructor]. Qed.

Lemma number_1 : NumberLexeme (js "1").
Proof.
  apply NumberPositive.
  apply (UnsignedNumber_intro (int := js "1") (frac := []) (exp := [])).
  - apply IntDigits; [reflexivity | discriminate | constructor].
  - constructor.
  - constructor.
Qed.

Lemma number_2 : NumberLexeme (js "2").
Proof.
  apply NumberPositive.
  apply (UnsignedNumber_intro (int := js "2") (frac := []) (exp := [])).
  - apply IntDigits; [reflexivity | discriminate | constructor].
  - constructor.
  - constructor.
Qed.

Lemma plain_letter c : (97 <= c <= 122)%Z -> plainChar c.
Proof. unfold plainChar; cc_unfold; lia. Qed.

Lemma nested_text_valid : JsonText nested_text nested_value.
Proof.
  apply (@E_intro [] (js "{'k': [1, null]}") nested_value [] Ws_nil); [|exact Ws_nil].
  apply (@V_object (js "'k': [1, null]") [(js "k", TArray [TNumber (NumLit (js "1")); TNull])]).
  apply Ms_one.
  apply (@M_intro [] (js "k") (js "k") [] (js " [1, null]") _ Ws_nil); [|exact Ws_nil|].
  { apply SB_plain; [apply plain_letter; cc_unfold; simpl; lia | constructor]. }
  apply (@E_intro [CC.space] (js "[1, null]") _ [] Ws_space); [|exact Ws_nil].
  apply (@V_array (js "1, null") [TNumber (NumLit (js "1")); TNull]).
  apply (@Es_cons (js "1") _ (js " null") [TNull]).
  - apply (@E_intro [] (js "1") _ [] Ws_nil); [|exact Ws_nil].
    apply V_number, number_1.
  - apply Es_one.
    apply (@E_intro [CC.space] (js "null") _ [] Ws_space); [|exact Ws_nil].
    apply V_null.
Qed.



Lemma member_a t v :
  Value t v ->
  Member (CC.doubleQuote :: CC.a :: CC.doubleQuote :: CC.colon :: t) (js "a") v.
Proof.
  intros H.
  apply (@M_intro [] (js "a") (js "a") [] t v Ws_nil); [|exact Ws_nil|].
  - apply SB_plain; [apply plain_letter; cc_unfold; simpl; lia | constructor].
  - rewrite <- (app_nil_r t) at 1.
    apply (@E_intro [] t v [] Ws_nil H Ws_nil).
Qed.

Lemma twice_members_valid :
  Members twice_members
    [(js "a", TNumber (NumLit (js "1"))); (js "a", TNumber (NumLit (js "2")))].
Proof.
  apply (@Ms_cons (js "'a':1") (js "a") _ (js "'a':2") [(js "a", TNumber (NumLit (js "2")))]).
  - apply (member_a (js "1")), V_number, number_1.
  - apply Ms_one, (member_a (js "2")), V_number, number_2.
Qed.



(** * Further properties of the scanner, of [visit] and [parse], and of the
    theme colours *)

Lemma scan_not_eof text s :
  Scanner.pos s < List.length text ->
  Scanner.token (Scanner.scan text s) <> SyntaxKind.EOF.
Proof.
  intros H. unfold Scanner.scan, Scanner.scanNext. simpl.
  destruct (List.length text <=? Scanner.pos s) eqn:E; [apply Nat.leb_le in E; lia|].
  repeat match goal with
         | |- context [if ?c then _ else _] => destruct c
         | |- context [let '(_, _) := ?x in _] => destruct x
         end; discriminate.
Qed.

Lemma events_of_visit text options :
  exists b st,
    Visit.visit recorder text options [] = Some (b, st)
    /\ events text options = Some (Visit.vis st).
Proof.
  destruct (visit_total _ recorder text options []) as (b & st & E).
  exists b, st. split; [exact E|]. unfold events. rewrite E. reflexivity.
Qed.

Lemma ascii_wellFormed : CharCode.wellFormed CharCode.ascii.
Proof. unfold CharCode.wellFormed. simpl. lia. Qed.

(** ** The scanner *)

(** X1.  [scan] always moves on.  Before the end of the text it consumes
    at least one character and its token is not the end of the input; at or
    after the end of the text it returns the end-of-input token, of offset
    [text.length] and with an empty value, and stays where it is. *)
Theorem X1_scan_advances (text : jsstring) (s : Scanner.t) :
  if (Scanner.pos s <? List.length text)%nat
  then Scanner.pos s < Scanner.pos (Scanner.scan text s)
       /\ Scanner.token (Scanner.scan text s) <> SyntaxKind.EOF
  else Scanner.scan text s
       = Scanner.mk (Scanner.pos s) [] (List.length text) SyntaxKind.EOF ScanError.None.
Proof.
  destruct (Nat.ltb_spec (Scanner.pos s) (List.length text)) as [H|H].
  - split; [apply scan_progress, H | apply scan_not_eof, H].
  - apply scan_at_end, H.
Qed.



(** X3.  The scanner looks at its position only: after
    [setPosition(p)], [scan] returns what any scanner standing at [p]
    returns, whatever was scanned before. *)
Theorem X3_scan_after_setPosition (text : jsstring) (a b : Scanner.t) :
  Scanner.scan text (Scanner.setPosition a (Scanner.getPosition b)) = Scanner.scan text b.
Proof. apply scan_position_only. reflexivity. Qed.

(** X4.  A string literal of the JSON grammar is scanned as one string
    token without error: the token covers both quotes, and its value is the
    text between them with every escape sequence replaced by the character
    it denotes. *)
Theorem X4_string_token (text : jsstring) (s : Scanner.t) (body dec rest : jsstring) :
  skipn (Scanner.pos s) text = CC.doubleQuote :: body ++ CC.doubleQuote :: rest ->
  StringBody body dec ->
  Scanner.scan text s
  = Scanner.mk (Scanner.pos s + List.length body + 2) dec (Scanner.pos s)
      SyntaxKind.StringLiteral ScanError.None.
Proof. apply scan_string. Qed.

Lemma X4_witness :
  Scanner.scan (js "'\n\u0041'") Scanner.initial
  = Scanner.mk 10 [CC.lineFeed; 65%Z] 0 SyntaxKind.StringLiteral ScanError.None.
Proof.
  apply (X4_string_token (js "'\n\u0041'") Scanner.initial (js "\n\u0041")
           [CC.lineFeed; 65%Z] []).
  - reflexivity.
  - apply (@SB_escape CC.n CC.lineFeed); [reflexivity|].
    apply (@SB_unicode 48 48 52 49 0 0 4 1 [] []); try reflexivity.
    apply SB_end.
Defined.

(** X5.  A number of the JSON grammar that no digit, dot or exponent
    marker follows is scanned as one numeric token without error, whose value
    is the number as written. *)
Theorem X5_number_token (text : jsstring) (s : Scanner.t) (lex rest : jsstring) :
  skipn (Scanner.pos s) text = lex ++ rest -> NumberLexeme lex -> number_ends rest ->
  Scanner.scan text s
  = Scanner.mk (Scanner.pos s + List.length lex) lex (Scanner.pos s)
      SyntaxKind.NumericLiteral ScanError.None.
Proof. apply scan_number. Qed.

Lemma X5_witness :
  Scanner.scan (js "-0.5e+2,") Scanner.initial
  = Scanner.mk 7 (js "-0.5e+2") 0 SyntaxKind.NumericLiteral ScanError.None.
Proof.
  apply (X5_number_token (js "-0.5e+2,") Scanner.initial (js "-0.5e+2") (js ",")).
  - reflexivity.
  - apply NumberNegative.
    apply (@UnsignedNumber_intro (js "0") (js ".5") (js "e+2")).
    + apply IntZero.
    + apply (@FracSome 53 []); [reflexivity | constructor].
    + apply (@ExpSome CC.e [CC.plus] 50 []);
        [left; reflexivity | apply SignPlus | reflexivity | constructor].
  - simpl. repeat split; discriminate.
Defined.

(** X6.  A word, that is a run of characters none of which is white
    space, a line break, a bracket, a brace, a quote, a colon, a comma or a
    slash, that starts with neither a digit nor a minus sign and is followed
    by a character that ends it, is one token whose value is the word.  The
    token is a keyword when the whole word is [true], [false] or [null], and
    an unknown symbol otherwise. *)
Theorem X6_word_token (text : jsstring) (s : Scanner.t) (w rest : jsstring) :
  skipn (Scanner.pos s) text = w ++ rest ->
  Forall (fun c => isUnknownContentCharacter c = true) w ->
  match w with c :: _ => isDigit c = false /\ c <> CC.minus | [] => False end ->
  word_ends rest ->
  Scanner.scan text s
  = Scanner.mk (Scanner.pos s + List.length w) w (Scanner.pos s)
      (if jsstring_eqb w (js "true") then SyntaxKind.TrueKeyword
       else if jsstring_eqb w (js "false") then SyntaxKind.FalseKeyword
       else if jsstring_eqb w (js "null") then SyntaxKind.NullKeyword
       else SyntaxKind.Unknown)
      ScanError.None.
Proof. apply scan_word. Qed.

Lemma X6_witness :
  Scanner.scan (js "nulls]") Scanner.initial
  = Scanner.mk 5 (js "nulls") 0 SyntaxKind.Unknown ScanError.None.
Proof.
  apply (X6_word_token (js "nulls]") Scanner.initial (js "nulls") (js "]")).
  - reflexivity.
  - repeat constructor.
  - split; [reflexivity | discriminate].
  - reflexivity.
Defined.

(** X7.  A string between two quotes that holds no backslash and no line
    feed or carriage return is one string token whose value is the text
    between the quotes as it stands.  Control characters are kept in the
    value; when there is one, the token is flagged invalid-character. *)
Theorem X7_control_characters (text : jsstring) (s : Scanner.t) (body rest : jsstring) :
  skipn (Scanner.pos s) text = CC.doubleQuote :: body ++ CC.doubleQuote :: rest ->
  Forall rawChar body ->
  Scanner.scan text s
  = Scanner.mk (Scanner.pos s + List.length body + 2) body (Scanner.pos s)
      SyntaxKind.StringLiteral
      (if existsb isControl body then ScanError.InvalidCharacter else ScanError.None).
Proof. apply scan_string_raw. Qed.

Lemma X7_witness :
  Scanner.scan [CC.doubleQuote; CC.a; CC.tab; CC.doubleQuote] Scanner.initial
  = Scanner.mk 4 [CC.a; CC.tab] 0 SyntaxKind.StringLiteral ScanError.InvalidCharacter.
Proof.
  apply (X7_control_characters [CC.doubleQuote; CC.a; CC.tab; CC.doubleQuote]
           Scanner.initial [CC.a; CC.tab] []).
  - reflexivity.
  - repeat constructor; discriminate.
Defined.



(** X9.  A line comment runs from its two slashes up to the next line
    break, or to the end of the text, and leaves the line break unread.  Its
    value is cut from the text starting one character before the comment
    ([start = pos - 1]), so it holds the character in front of the comment
    when there is one. *)
Theorem X9_line_comment (text : jsstring) (s : Scanner.t) (body rest : jsstring) :
  skipn (Scanner.pos s) text = CC.slash :: CC.slash :: body ++ rest ->
  Forall (fun c => isLineBreak c = false) body ->
  match rest with c :: _ => isLineBreak c = true | [] => True end ->
  Scanner.scan text s
  = Scanner.mk (Scanner.pos s + 2 + List.length body)
      (substring text (Scanner.pos s - 1) (Scanner.pos s + 2 + List.length body))
      (Scanner.pos s) SyntaxKind.LineCommentTrivia ScanError.None.
Proof. apply scan_lineComment. Qed.

Lemma X9_witness :
  Scanner.scan (js "1//x") (Scanner.setPosition Scanner.initial 1)
  = Scanner.mk 4 (js "1//x") 1 SyntaxKind.LineCommentTrivia ScanError.None.
Proof.
  apply (X9_line_comment (js "1//x") (Scanner.setPosition Scanner.initial 1) (js "x") []).
  - reflexivity.
  - repeat constructor.
  - exact I.
Defined.

(** X10.  The scanner created with [ignoreTrivia] returns for every text
    and position, and the token it returns is never a comment, a line break
    or white space; it never moves backwards. *)
Theorem X10_scan_ignoring_trivia (text : jsstring) (s : Scanner.t) :
  exists s',
    TriviaScanner.scan text true s = Some s'
    /\ Scanner.token s' <> SyntaxKind.LineCommentTrivia
    /\ Scanner.token s' <> SyntaxKind.BlockCommentTrivia
    /\ Scanner.token s' <> SyntaxKind.LineBreakTrivia
    /\ Scanner.token s' <> SyntaxKind.Trivia
    /\ Scanner.pos s <= Scanner.pos s'.
Proof.
  destruct (scanNextNonTrivia_returns text s) as (s' & E & Ht & Hp).
  exists s'. split; [exact E|].
  repeat split; try exact Hp; intros Hk; rewrite Hk in Ht; discriminate.
Qed.

(** X27.  A block comment runs from its opening up to the first asterisk
    that a slash follows, and covers the two.  As for a line comment, its
    value is cut from the text starting one character before the comment. *)
Theorem X27_block_comment (text : jsstring) (s : Scanner.t) (body rest : jsstring) :
  skipn (Scanner.pos s) text
  = CC.slash :: CC.asterisk :: body ++ CC.asterisk :: CC.slash :: rest ->
  noClose body = true ->
  Scanner.scan text s
  = Scanner.mk (Scanner.pos s + List.length body + 4)
      (substring text (Scanner.pos s - 1) (Scanner.pos s + List.length body + 4))
      (Scanner.pos s) SyntaxKind.BlockCommentTrivia ScanError.None.
Proof. apply scan_blockComment. Qed.

Lemma X27_witness :
  Scanner.scan (js "/*a**/b") Scanner.initial
  = Scanner.mk 6 (js "/*a**/") 0 SyntaxKind.BlockCommentTrivia ScanError.None.
Proof.
  apply (X27_block_comment (js "/*a**/b") Scanner.initial (js "a*") (js "b"));
    reflexivity.
Defined.

(** X28.  A block comment that is not closed is flagged
    unexpected-end-of-comment and runs to the end of the text; when nothing
    follows its opening, its end is one position after the end of the
    text. *)
Theorem X28_unterminated_comment (text : jsstring) (s : Scanner.t) (body : jsstring) :
  skipn (Scanner.pos s) text = CC.slash :: CC.asterisk :: body ->
  noClose body = true ->
  Scanner.scan text s
  = Scanner.mk (Scanner.pos s + 3 + (List.length body - 1))
      (substring text (Scanner.pos s - 1) (Scanner.pos s + 3 + (List.length body - 1)))
      (Scanner.pos s) SyntaxKind.BlockCommentTrivia ScanError.UnexpectedEndOfComment.
Proof. apply scan_blockComment_unterminated. Qed.

Lemma X28_witness :
  Scanner.scan (js "1/*x*") (Scanner.setPosition Scanner.initial 1)
  = Scanner.mk 5 (js "1/*x*") 1 SyntaxKind.BlockCommentTrivia
      ScanError.UnexpectedEndOfComment.
Proof.
  apply (X28_unterminated_comment (js "1/*x*") (Scanner.setPosition Scanner.initial 1)
           (js "x*")); reflexivity.
Defined.

(** X29.  A run of white space, up to the first character that is none,
    is one trivia token whose value is the run.  Line breaks are not white
    space: they end the run. *)
Theorem X29_white_space (text : jsstring) (s : Scanner.t) (c : Z) (w rest : jsstring) :
  skipn (Scanner.pos s) text = (c :: w) ++ rest ->
  Forall (fun c => isWhitespace c = true) (c :: w) ->
  space_ends rest ->
  Scanner.scan text s
  = Scanner.mk (Scanner.pos s + List.length (c :: w)) (c :: w) (Scanner.pos s)
      SyntaxKind.Trivia ScanError.None
  /\ Forall (fun c => isLineBreak c = false) (c :: w).
Proof.
  intros H Hw Hr. split; [apply (scan_whitespace_run text s c w rest H Hw Hr)|].
  eapply Forall_impl; [|exact Hw]. intros a Ha. simpl in Ha.
  destruct (isLineBreak a) eqn:E; [|reflexivity].
  rewrite (isLineBreak_not_whitespace a E) in Ha. discriminate.
Qed.

Lemma X29_witness :
  Scanner.scan [CC.space; CC.tab; CC.lineFeed] Scanner.initial
  = Scanner.mk 2 [CC.space; CC.tab] 0 SyntaxKind.Trivia ScanError.None.
Proof.
  apply (X29_white_space [CC.space; CC.tab; CC.lineFeed] Scanner.initial
           CC.space [CC.tab] [CC.lineFeed]).
  - reflexivity.
  - repeat constructor.
  - reflexivity.
Defined.

(** X30.  A line break is one token of one character, but for a carriage
    return that a line feed follows: the two are one token. *)
Theorem X30_line_break (text : jsstring) (s : Scanner.t) (c : Z) (rest : jsstring) :
  skipn (Scanner.pos s) text = c :: rest ->
  isLineBreak c = true ->
  Scanner.scan text s
  = match rest with
    | c' :: _ =>
        if (c =? CC.carriageReturn)%Z && (c' =? CC.lineFeed)%Z
        then Scanner.mk (Scanner.pos s + 2) [c; c'] (Scanner.pos s)
               SyntaxKind.LineBreakTrivia ScanError.None
        else Scanner.mk (Scanner.pos s + 1) [c] (Scanner.pos s)
               SyntaxKind.LineBreakTrivia ScanError.None
    | [] => Scanner.mk (Scanner.pos s + 1) [c] (Scanner.pos s)
              SyntaxKind.LineBreakTrivia ScanError.None
    end.
Proof. apply scan_lineBreak_value. Qed.

Lemma X30_witness :
  Scanner.scan [CC.carriageReturn; CC.lineFeed; CC.lineFeed] Scanner.initial
  = Scanner.mk 2 [CC.carriageReturn; CC.lineFeed] 0 SyntaxKind.LineBreakTrivia
      ScanError.None.
Proof.
  apply (X30_line_break [CC.carriageReturn; CC.lineFeed; CC.lineFeed] Scanner.initial
           CC.carriageReturn [CC.lineFeed; CC.lineFeed]); reflexivity.
Defined.

(** ** [visit] and [parse] *)

Lemma errorsOf_offsets tr x :
  Forall (le x) (map eventOffset tr) ->
  Forall (le x) (map ParseError.offset (errorsOf tr)).
Proof.
  induction tr as [|e tr IH]; intros H; [constructor|].
  inversion H as [|? ? He Htr]; subst.
  destruct e; simpl; try (apply IH; exact Htr).
  constructor; [exact He | apply IH; exact Htr].
Qed.

Lemma errorsOf_ascending tr :
  ascending (map eventOffset tr) -> ascending (map ParseError.offset (errorsOf tr)).
Proof.
  induction tr as [|e tr IH]; intros H; [exact I|].
  destruct H as (Hx & Htr).
  destruct e; simpl; try (apply IH; exact Htr).
  split; [apply errorsOf_offsets; exact Hx | apply IH; exact Htr].
Qed.

Lemma errorsOf_within text tr :
  Forall (withinText text) tr ->
  Forall (fun e => ParseError.offset e <= List.length text
                   /\ ParseError.offset e + ParseError.length e <= S (List.length text))
    (errorsOf tr).
Proof.
  induction tr as [|e tr IH]; intros H; [constructor|].
  inversion H as [|? ? He Htr]; subst.
  destruct e; simpl; try (apply IH; exact Htr).
  constructor; [exact He | apply IH; exact Htr].
Qed.

Lemma parse_of_noisy text options b st errors :
  Visit.visit recorder text options [] = Some (b, st) ->
  noisy (Visit.vis st) ->
  parse text errors options
  = Some (mkResult JUndefined [CArray []] (errors ++ errorsOf (Visit.vis st))).
Proof.
  intros E Hn. unfold parse.
  rewrite (visit_as_replay _ Materializer.visitor), E.
  cbv beta iota zeta. cbn [Visit.vis].
  destruct (replay_noisy (Visit.vis st) (Materializer.initial errors) Hn eq_refl)
    as (Hs & Hc & Ht & He).
  rewrite Ht. unfold Materializer.result. rewrite Hc, Hs, He. reflexivity.
Qed.

(** X11.  What [visit] does to a visitor is to make a sequence of calls
    that depends on the text and the options only: the result of [visit] on
    any visitor, from any state of it, is the result and the final scanner
    of the run that records the calls, together with the state the visitor
    reaches when the recorded calls are made on it in order. *)
Theorem X11_visit_replays_calls (V : Type) (v : JSONVisitor V) (text : jsstring)
    (options : ParseOptions.t) (x0 : V) :
  Visit.visit v text options x0
  = match Visit.visit recorder text options [] with
    | Some (b, st) => Some (b, Visit.mkP (Visit.scanner st) (replay v (Visit.vis st) x0))
    | None => None
    end.
Proof. apply visit_as_replay. Qed.


(** X13.  The array of errors passed to [parse] is only appended to, and
    has no influence on the value: [parse] with an array that holds errors
    already returns the value, and builds the objects and arrays, that it
    returns and builds with an empty array, and reports the same errors
    after the ones that were there. *)
Theorem X13_errors_are_appended (text : jsstring) (errors : list ParseError.t)
    (options : ParseOptions.t) :
  parse text errors options
  = match parse text [] options with
    | Some r => Some (mkResult (returned r) (memory r) (errors ++ reported r))
    | None => None
    end.
Proof. apply parse_errors_prefix. Qed.

(** X14.  The calls of [visit] come in the order of the text: the offset
    of a call is never smaller than the offset of a call made before it.
    Every call starts within the text and ends at most one position after
    it.  The errors [parse] reports are therefore ordered by offset and lie
    within the same bounds. *)
Theorem X14_calls_in_text_order (text : jsstring) (options : ParseOptions.t) :
  exists tr r,
    events text options = Some tr
    /\ parse text [] options = Some r
    /\ ascending (map eventOffset tr)
    /\ Forall (withinText text) tr
    /\ ascending (map ParseError.offset (reported r))
    /\ Forall (fun e => ParseError.offset e <= List.length text
                        /\ ParseError.offset e + ParseError.length e
                           <= S (List.length text))
         (reported r).
Proof.
  destruct (parse_returns text [] options) as (b & st & r & E & Ep & Hr & _).
  destruct (visit_offsets text options b st E) as (Ha & Hw).
  exists (Visit.vis st), r. unfold events. rewrite E. simpl in Hr. rewrite Hr.
  split; [reflexivity|]. split; [exact Ep|]. split; [exact Ha|]. split; [exact Hw|].
  split; [apply errorsOf_ascending, Ha | apply errorsOf_within, Hw].
Qed.

(** X15.  With [disallowComments] the visitor never receives [onComment];
    a comment is reported as an invalid-comment-token error instead.
    Without it the visitor never receives that error. *)
Theorem X15_comments_option (text : jsstring) (options : ParseOptions.t) :
  exists tr,
    events text options = Some tr
    /\ Forall (fun e => if ParseOptions.disallowComments options
                        then isComment e = false
                        else isInvalidCommentToken e = false) tr.
Proof.
  destruct (events_of_visit text options) as (b & st & E & Ev).
  exists (Visit.vis st). split; [exact Ev|].
  destruct (visit_comments text options b st E) as (H1 & H2).
  destruct (ParseOptions.disallowComments options); [apply H1 | apply H2]; reflexivity.
Qed.

(** X16.  [onObjectBegin], [onArrayBegin] and [onSeparator] are called
    with the position of the character they stand for: the length is 1, and
    the text holds at the offset an opening brace, an opening bracket, and
    for a separator the one character that is passed to the call. *)
Theorem X16_exact_positions (text : jsstring) (options : ParseOptions.t) :
  exists tr,
    events text options = Some tr
    /\ Forall (exactPosition text) tr.
Proof.
  destruct (events_of_visit text options) as (b & st & E & Ev).
  exists (Visit.vis st). split; [exact Ev|].
  apply (visit_exact text options b st E).
Qed.

(** X17.  When [visit] returns [false], no value was found where the text
    should start with one: the visitor received errors and comments only,
    the last call being the error value-expected, and [parse] returns
    [undefined], for any array of errors. *)
Theorem X17_no_value (text : jsstring) (options : ParseOptions.t)
    (st : Visit.PState (list Event)) :
  Visit.visit recorder text options [] = Some (false, st) ->
  noisy (Visit.vis st)
  /\ (exists tr o l, Visit.vis st = tr ++ [Error ParseErrorCode.ValueExpected o l])
  /\ forall errors,
       parse text errors options
       = Some (mkResult JUndefined [CArray []] (errors ++ errorsOf (Visit.vis st))).
Proof.
  intros E. destruct (visit_false text options st E) as (Hn & Hl).
  split; [exact Hn|]. split; [exact Hl|].
  intros errors. apply (parse_of_noisy text options false st errors E Hn).
Qed.

Lemma X17_witness :
  parse (js "]") [] ParseOptions.DEFAULT
  = Some (mkResult JUndefined [CArray []] [ParseError.mk ParseErrorCode.ValueExpected 0 1]).
Proof.
  apply (X17_no_value (js "]") ParseOptions.DEFAULT at_close_bracket).
  reflexivity.
Defined.

(** ** Theme colours *)

(** X18.  [hexUpper] maps a hex digit to its capital form, which is never
    0, and everything else to 0: a digit and a capital A to F to itself, a
    small a to f to the capital at the same distance from A.  Applying it
    twice is applying it once. *)
Theorem X18_hexUpper (cc : CharCode.t) (c : Z) :
  CharCode.wellFormed cc ->
  (if (CharCode.a cc <=? c)%Z && (c <=? CharCode.f cc)%Z
   then Colors.hexUpper cc c = (c - CharCode.a cc + CharCode.A cc)%Z
   else True)
  /\ (upperHex cc c -> Colors.hexUpper cc c = c)
  /\ (anyHex cc c -> upperHex cc (Colors.hexUpper cc c) /\ Colors.hexUpper cc c <> 0%Z)
  /\ (~ anyHex cc c -> Colors.hexUpper cc c = 0%Z)
  /\ Colors.hexUpper cc (Colors.hexUpper cc c) = Colors.hexUpper cc c.
Proof.
  intros Hcc. split; [|split; [|split; [|split]]].
  - destruct (Z.leb_spec (CharCode.a cc) c) as [H1|H1]; [|exact I].
    destruct (Z.leb_spec c (CharCode.f cc)) as [H2|H2]; [|exact I].
    simpl. unfold Colors.hexUpper, CharCode.wellFormed in *.
    repeat match goal with
           | |- context [(?x <=? ?y)%Z] => destruct (Z.leb_spec x y)
           end; simpl; lia.
  - apply hexUpper_upper.
  - apply hexUpper_any, Hcc.
  - apply hexUpper_none.
  - apply hexUpper_idempotent, Hcc.
Qed.

Lemma X18_witness : Colors.hexUpper CharCode.ascii 99 = 67%Z.
Proof.
  exact (proj1 (X18_hexUpper CharCode.ascii 99 ascii_wellFormed)).
Defined.

(** X19.  What [normalizeColor] returns, when it returns a colour, is a
    hash sign followed by six capital hex digits, or by eight that do not
    end in FF.  Such a colour is returned as it is: normalising a second
    time changes nothing. *)
Theorem X19_normalizeColor_normal_form (cc : CharCode.t) (Color : Type)
    (formatHexA : Color -> jsstring) (color : Colors.ColorArg Color) (n : jsstring) :
  CharCode.wellFormed cc ->
  Colors.normalizeColor cc formatHexA color = Some n ->
  normalForm cc n
  /\ Colors.normalizeColor cc formatHexA (Colors.ArgString Color n) = Some n.
Proof.
  intros Hcc H.
  pose proof (normalizeColor_normal cc Hcc Color formatHexA color n H) as Hn.
  split; [exact Hn|].
  apply (normalizeColor_fixed cc Hcc Color formatHexA n Hn).
Qed.

Lemma X19_witness :
  normalForm CharCode.ascii (js "#AABBCC")
  /\ Colors.normalizeColor CharCode.ascii formatNoColor
       (Colors.ArgString noColor (js "#AABBCC")) = Some (js "#AABBCC").
Proof.
  apply (X19_normalizeColor_normal_form CharCode.ascii noColor formatNoColor
           (Colors.ArgString noColor (js "#abcf")) (js "#AABBCC") ascii_wellFormed).
  reflexivity.
Defined.

(** X20.  A colour of three or four hex digits stands for the colour in
    which each digit is written twice: [normalizeColor] returns the same
    for both. *)
Theorem X20_short_colours (cc : CharCode.t) (Color : Type)
    (formatHexA : Color -> jsstring) (ds : jsstring) :
  CharCode.wellFormed cc ->
  Forall (anyHex cc) ds ->
  (List.length ds = 3 \/ List.length ds = 4)%nat ->
  Colors.normalizeColor cc formatHexA (Colors.ArgString Color (CharCode.Hash cc :: ds))
  = Colors.normalizeColor cc formatHexA
      (Colors.ArgString Color (CharCode.Hash cc :: doubled ds)).
Proof.
  intros Hcc Hds Hlen. apply (normalizeString_short cc Hcc ds Hds Hlen).
Qed.

Lemma X20_witness :
  Colors.normalizeColor CharCode.ascii formatNoColor
    (Colors.ArgString noColor (js "#1aF"))
  = Colors.normalizeColor CharCode.ascii formatNoColor
      (Colors.ArgString noColor (js "#11aaFF")).
Proof.
  apply (X20_short_colours CharCode.ascii noColor formatNoColor (js "1aF")
           ascii_wellFormed).
  - unfold anyHex, upperHex. simpl. repeat constructor; lia.
  - left. reflexivity.
Defined.

(** X21.  [normalizeColor] does not tell small hex digits from capital
    ones: a colour and the colour with its digits in capitals have the same
    normal form. *)
Theorem X21_case_of_digits (cc : CharCode.t) (Color : Type)
    (formatHexA : Color -> jsstring) (ds : jsstring) :
  CharCode.wellFormed cc ->
  Forall (anyHex cc) ds ->
  (List.length ds = 3 \/ List.length ds = 4 \/ List.length ds = 6 \/ List.length ds = 8)%nat ->
  Colors.normalizeColor cc formatHexA
    (Colors.ArgString Color (CharCode.Hash cc :: map (Colors.hexUpper cc) ds))
  = Colors.normalizeColor cc formatHexA (Colors.ArgString Color (CharCode.Hash cc :: ds)).
Proof.
  intros Hcc Hds Hlen. apply (normalizeString_case cc Hcc ds Hds Hlen).
Qed.

Lemma X21_witness :
  Colors.normalizeColor CharCode.ascii formatNoColor
    (Colors.ArgString noColor (js "#0A1B2C"))
  = Colors.normalizeColor CharCode.ascii formatNoColor
      (Colors.ArgString noColor (js "#0a1b2c")).
Proof.
  apply (X21_case_of_digits CharCode.ascii noColor formatNoColor (js "0a1b2c")
           ascii_wellFormed).
  - unfold anyHex, upperHex. simpl. repeat constructor; lia.
  - right. right. left. reflexivity.
Defined.

(** X22.  In a [TokenColorIndex] to which colours were added, [asArray]
    is empty or has a hole at 0 followed by colours without holes.  Every
    colour of the array is in normal form, [get] of it returns its place,
    and no colour is in the array twice. *)
Theorem X22_index_array (cc : CharCode.t) (Color : Type)
    (formatHexA : Color -> jsstring) (colors : list (Colors.ColorArg Color)) :
  CharCode.wellFormed cc ->
  let index := Colors.addAll cc formatHexA colors Colors.TokenColorIndex.new in
  let arr := Colors.asArray index in
  (arr = [] \/ nth_error arr 0 = Some None)
  /\ (forall i, (1 <= i < List.length arr)%nat ->
        exists c, nth_error arr i = Some (Some c)
                  /\ normalForm cc c
                  /\ Colors.get cc formatHexA (Colors.ArgString Color c) index = i)
  /\ (forall i j c, nth_error arr i = Some (Some c) -> nth_error arr j = Some (Some c) ->
        i = j).
Proof.
  intros Hcc. cbv zeta. unfold Colors.asArray.
  pose proof (addAll_indexed cc Hcc Color formatHexA colors _
                (indexed_new cc)) as Hi.
  set (index := Colors.addAll cc formatHexA colors Colors.TokenColorIndex.new) in *.
  destruct Hi as (Hlen & H2 & H3 & H4).
  set (arr := Colors.TokenColorIndex._id2color index) in *.
  split; [|split].
  - destruct (Colors.TokenColorIndex._lastColorId index =? 0)%nat eqn:E0.
    + left. apply length_zero_iff_nil. exact Hlen.
    + right. destruct (nth_error arr 0) as [[c|]|] eqn:E.
      * destruct (H2 0%nat c E) as (Hc & _). lia.
      * reflexivity.
      * apply nth_error_None in E. lia.
  - intros i Hi.
    assert (Hr : (1 <= i <= Colors.TokenColorIndex._lastColorId index)%nat).
    { destruct (Colors.TokenColorIndex._lastColorId index =? 0)%nat; lia. }
    destruct (H4 i Hr) as (c & Hc). exists c.
    destruct (H2 i c Hc) as (_ & Hl & Hn).
    split; [exact Hc|]. split; [exact Hn|].
    unfold Colors.get.
    rewrite (normalizeColor_fixed cc Hcc Color formatHexA c Hn), Hl. reflexivity.
  - intros i j c Hic Hjc.
    destruct (H2 i c Hic) as (_ & Hl1 & _). destruct (H2 j c Hjc) as (_ & Hl2 & _).
    congruence.
Qed.

Lemma X22_witness :
  let index := Colors.addAll CharCode.ascii formatNoColor
                 [Colors.ArgString noColor (js "#fff"); Colors.ArgUndefined noColor;
                  Colors.ArgString noColor (js "#FFFFFFFF")]
                 Colors.TokenColorIndex.new in
  Colors.asArray index = [] \/ nth_error (Colors.asArray index) 0 = Some None.
Proof.
  exact (proj1 (X22_index_array CharCode.ascii noColor formatNoColor
                  [Colors.ArgString noColor (js "#fff"); Colors.ArgUndefined noColor;
                   Colors.ArgString noColor (js "#FFFFFFFF")] ascii_wellFormed)).
Defined.

(** X23.  [add] of a colour that has a normal form returns an identifier
    that is at least 1; afterwards [asArray] holds the normal form at that
    place, [get] of the colour returns the identifier, and adding the colour
    again returns it too and leaves the index as it is. *)
Theorem X23_add_then_get (cc : CharCode.t) (Color : Type)
    (formatHexA : Color -> jsstring) (colors : list (Colors.ColorArg Color))
    (c : Colors.ColorArg Color) (n : jsstring) :
  CharCode.wellFormed cc ->
  Colors.normalizeColor cc formatHexA c = Some n ->
  let index := Colors.addAll cc formatHexA colors Colors.TokenColorIndex.new in
  let index' := fst (Colors.add cc formatHexA c index) in
  let id := snd (Colors.add cc formatHexA c index) in
  (1 <= id)%nat
  /\ nth_error (Colors.asArray index') id = Some (Some n)
  /\ Colors.get cc formatHexA c index' = id
  /\ Colors.add cc formatHexA c index' = (index', id).
Proof.
  intros Hcc Hn index index' id.
  pose proof (addAll_indexed cc Hcc Color formatHexA colors _
                (indexed_new cc)) as Hi.
  destruct (add_returns cc Hcc Color formatHexA c n _ Hi Hn) as (H1 & H2 & H3 & H4).
  fold index in H1, H2, H3, H4. fold index' in H2, H3, H4. fold id in H1, H2, H3.
  repeat split; try assumption.
  rewrite H4. unfold index', id. destruct (Colors.add cc formatHexA c index); reflexivity.
Qed.

Lemma X23_witness :
  let index := Colors.addAll CharCode.ascii formatNoColor
                 [Colors.ArgString noColor (js "#000")] Colors.TokenColorIndex.new in
  let index' := fst (Colors.add CharCode.ascii formatNoColor
                       (Colors.ArgString noColor (js "#abcd")) index) in
  nth_error (Colors.asArray index') 2 = Some (Some (js "#AABBCCDD")).
Proof.
  exact (proj1 (proj2 (X23_add_then_get CharCode.ascii noColor formatNoColor
                         [Colors.ArgString noColor (js "#000")]
                         (Colors.ArgString noColor (js "#abcd")) (js "#AABBCCDD")
                         ascii_wellFormed eq_refl))).
Defined.

(** X24.  Two colours that are added one after the other get the same
    identifier exactly when they have the same normal form. *)
Theorem X24_same_identifier (cc : CharCode.t) (Color : Type)
    (formatHexA : Color -> jsstring) (colors : list (Colors.ColorArg Color))
    (c1 c2 : Colors.ColorArg Color) (n1 n2 : jsstring) :
  CharCode.wellFormed cc ->
  Colors.normalizeColor cc formatHexA c1 = Some n1 ->
  Colors.normalizeColor cc formatHexA c2 = Some n2 ->
  let index := Colors.addAll cc formatHexA colors Colors.TokenColorIndex.new in
  snd (Colors.add cc formatHexA c2 (fst (Colors.add cc formatHexA c1 index)))
  = snd (Colors.add cc formatHexA c1 index)
  <-> n1 = n2.
Proof.
  intros Hcc H1 H2 index.
  apply (add_same_id cc Hcc Color formatHexA c1 c2 n1 n2 index); try assumption.
  apply (addAll_indexed cc Hcc Color formatHexA colors _ (indexed_new cc)).
Qed.

Lemma X24_witness :
  snd (Colors.add CharCode.ascii formatNoColor (Colors.ArgString noColor (js "#FFFFFFFF"))
         (fst (Colors.add CharCode.ascii formatNoColor (Colors.ArgString noColor (js "#fff"))
                 Colors.TokenColorIndex.new)))
  = snd (Colors.add CharCode.ascii formatNoColor (Colors.ArgString noColor (js "#fff"))
           Colors.TokenColorIndex.new)
  <-> js "#FFFFFF" = js "#FFFFFF".
Proof.
  exact (X24_same_identifier CharCode.ascii noColor formatNoColor []
           (Colors.ArgString noColor (js "#fff")) (Colors.ArgString noColor (js "#FFFFFFFF"))
           (js "#FFFFFF") (js "#FFFFFF") ascii_wellFormed eq_refl eq_refl).
Defined.

(** ** The content of a theme file *)



